(** * heatshrink: a shallow embedding of the encoder and the decoder

    The C sources are [heatshrink_encoder.c] and [heatshrink_decoder.c].
    Machine integers are modelled as [Z] with the wrap-around of their C
    type written out; byte buffers are [list Z]; the state machines are
    pure functions on records that mirror the C structs. *)

From stdpp Require Import base numbers list option.
From Stdlib Require Import ZArith Lia Bool.

Local Open Scope Z_scope.

(** ** Machine integers *)

Definition u8 (x : Z) : Z := x mod 256.
Definition u16 (x : Z) : Z := x mod 65536.
Definition u32 (x : Z) : Z := x mod 4294967296.
(** [size_t] on the 64-bit targets the test-suite runs on. *)
Definition usize (x : Z) : Z := x mod 18446744073709551616.

(** Modelled from the spec: the header [heatshrink_common.h] that defines
    the three bounds is not part of the sources; section 3 of the
    specification gives window bits in [4, 15] and lookahead bits at
    least 3. *)
Definition HEATSHRINK_MIN_WINDOW_BITS : Z := 4.
Definition HEATSHRINK_MAX_WINDOW_BITS : Z := 15.
Definition HEATSHRINK_MIN_LOOKAHEAD_BITS : Z := 3.

(** ** Outcomes of code that indexes a buffer

    [OutOfBounds] is what an access outside the addressed region yields;
    [OutOfFuel] is what a driver loop yields when it is cut short. *)

Inductive outcome (A : Type) : Type :=
  | Ret (a : A)
  | OutOfBounds
  | OutOfFuel.
Arguments Ret {A} a.
Arguments OutOfBounds {A}.
Arguments OutOfFuel {A}.

Global Instance outcome_ret : MRet outcome := @Ret.
Global Instance outcome_bind : MBind outcome := fun A B f m =>
  match m with
  | Ret a => f a
  | OutOfBounds => OutOfBounds
  | OutOfFuel => OutOfFuel
  end.

(** The caller's output buffer and the count of bytes pushed so far
    ([uint16_t *output_size]). *)
Record output_info := mk_oi {
  buf : list Z;
  buf_size : Z;
  output_size : Z
}.

Definition new_output_info (out_buf : list Z) : output_info :=
  {| buf := out_buf; buf_size := Z.of_nat (length out_buf); output_size := 0 |}.

(** The bytes the caller reads back after a poll. *)
Definition polled (oi : output_info) : list Z :=
  take (Z.to_nat (output_size oi)) (buf oi).

(** One byte stored at the caller's buffer, at offset [output_size], which
    is then incremented. *)
Definition push_out (oi : output_info) (byte : Z) : outcome output_info :=
  if bool_decide (0 <= output_size oi < Z.of_nat (length (buf oi))) then
    Ret {| buf := <[Z.to_nat (output_size oi) := byte]> (buf oi);
           buf_size := buf_size oi;
           output_size := u16 (output_size oi + 1) |}
  else OutOfBounds.

(** ** The decoder ([heatshrink_decoder.c]) *)

Module Decoder.

Inductive HEATSHRINK_DECODER_STATE :=
  | HSDS_EMPTY
  | HSDS_INPUT_AVAILABLE
  | HSDS_YIELD_LITERAL
  | HSDS_BACKREF_INDEX
  | HSDS_BACKREF_COUNT
  | HSDS_YIELD_BACKREF
  | HSDS_CHECK_FOR_MORE_INPUT.

Global Instance HEATSHRINK_DECODER_STATE_eq_dec :
  EqDecision HEATSHRINK_DECODER_STATE.
Proof. solve_decision. Defined.

Inductive HEATSHRINK_DECODER_SINK_RES :=
  | HSDR_SINK_OK
  | HSDR_SINK_FULL
  | HSDR_SINK_ERROR_NULL.

Inductive HEATSHRINK_DECODER_POLL_RES :=
  | HSDR_POLL_EMPTY
  | HSDR_POLL_MORE
  | HSDR_POLL_ERROR_NULL
  | HSDR_POLL_ERROR_UNKNOWN.

Inductive HEATSHRINK_DECODER_FINISH_RES :=
  | HSDR_FINISH_DONE
  | HSDR_FINISH_MORE
  | HSDR_FINISH_ERROR_NULL.

(** The struct of [heatshrink_decoder.h] is not among the sources; the
    fields are the ones the functions use, with the widths of the locals
    and literals they are copied to and from ([uint16_t] counters and
    offsets, [uint8_t] byte and mask, a 32-bit accumulator).  [buffers]
    holds the input region, [input_buffer_size] bytes, followed by the
    window, [1 << window_sz2] bytes. *)
Record heatshrink_decoder := mk_hsd {
  input_size : Z;
  input_index : Z;
  output_count : Z;
  output_index : Z;
  head_index : Z;
  bit_accumulator : Z;
  state : HEATSHRINK_DECODER_STATE;
  current_byte : Z;
  bit_index : Z;
  input_buffer_size : Z;
  window_sz2 : Z;
  lookahead_sz2 : Z;
  buffers : list Z
}.

Definition set_input_size (v : Z) (h : heatshrink_decoder) :=
  mk_hsd v (input_index h) (output_count h) (output_index h) (head_index h)
    (bit_accumulator h) (state h) (current_byte h) (bit_index h)
    (input_buffer_size h) (window_sz2 h) (lookahead_sz2 h) (buffers h).
Definition set_input_index (v : Z) (h : heatshrink_decoder) :=
  mk_hsd (input_size h) v (output_count h) (output_index h) (head_index h)
    (bit_accumulator h) (state h) (current_byte h) (bit_index h)
    (input_buffer_size h) (window_sz2 h) (lookahead_sz2 h) (buffers h).
Definition set_output_count (v : Z) (h : heatshrink_decoder) :=
  mk_hsd (input_size h) (input_index h) v (output_index h) (head_index h)
    (bit_accumulator h) (state h) (current_byte h) (bit_index h)
    (input_buffer_size h) (window_sz2 h) (lookahead_sz2 h) (buffers h).
Definition set_output_index (v : Z) (h : heatshrink_decoder) :=
  mk_hsd (input_size h) (input_index h) (output_count h) v (head_index h)
    (bit_accumulator h) (state h) (current_byte h) (bit_index h)
    (input_buffer_size h) (window_sz2 h) (lookahead_sz2 h) (buffers h).
Definition set_head_index (v : Z) (h : heatshrink_decoder) :=
  mk_hsd (input_size h) (input_index h) (output_count h) (output_index h) v
    (bit_accumulator h) (state h) (current_byte h) (bit_index h)
    (input_buffer_size h) (window_sz2 h) (lookahead_sz2 h) (buffers h).
Definition set_bit_accumulator (v : Z) (h : heatshrink_decoder) :=
  mk_hsd (input_size h) (input_index h) (output_count h) (output_index h)
    (head_index h) v (state h) (current_byte h) (bit_index h)
    (input_buffer_size h) (window_sz2 h) (lookahead_sz2 h) (buffers h).
Definition set_state (v : HEATSHRINK_DECODER_STATE) (h : heatshrink_decoder) :=
  mk_hsd (input_size h) (input_index h) (output_count h) (output_index h)
    (head_index h) (bit_accumulator h) v (current_byte h) (bit_index h)
    (input_buffer_size h) (window_sz2 h) (lookahead_sz2 h) (buffers h).
Definition set_current_byte (v : Z) (h : heatshrink_decoder) :=
  mk_hsd (input_size h) (input_index h) (output_count h) (output_index h)
    (head_index h) (bit_accumulator h) (state h) v (bit_index h)
    (input_buffer_size h) (window_sz2 h) (lookahead_sz2 h) (buffers h).
Definition set_bit_index (v : Z) (h : heatshrink_decoder) :=
  mk_hsd (input_size h) (input_index h) (output_count h) (output_index h)
    (head_index h) (bit_accumulator h) (state h) (current_byte h) v
    (input_buffer_size h) (window_sz2 h) (lookahead_sz2 h) (buffers h).
Definition set_buffers (v : list Z) (h : heatshrink_decoder) :=
  mk_hsd (input_size h) (input_index h) (output_count h) (output_index h)
    (head_index h) (bit_accumulator h) (state h) (current_byte h)
    (bit_index h) (input_buffer_size h) (window_sz2 h) (lookahead_sz2 h) v.

(** *** Accesses to [buffers]

    An access names the region it addresses: the input region is
    [buffers[0 .. input_buffer_size)], the window is the [1 << window_sz2]
    bytes after it.  An offset outside the region, or outside the
    allocation, is [OutOfBounds]. *)

Definition input_read (h : heatshrink_decoder) (i : Z) : outcome Z :=
  if bool_decide (0 <= i < input_buffer_size h) then
    match buffers h !! Z.to_nat i with
    | Some b => Ret b
    | None => OutOfBounds
    end
  else OutOfBounds.

(** [memcpy(&hsd->buffers[off], src, |src|)] *)
Definition input_memcpy (h : heatshrink_decoder) (off : Z) (src : list Z)
  : outcome heatshrink_decoder :=
  if bool_decide (0 <= off /\ off + Z.of_nat (length src) <= input_buffer_size h
                  /\ input_buffer_size h <= Z.of_nat (length (buffers h))) then
    Ret (set_buffers (take (Z.to_nat off) (buffers h) ++ src ++
                      drop (Z.to_nat off + length src) (buffers h)) h)
  else OutOfBounds.

Definition window_read (h : heatshrink_decoder) (i : Z) : outcome Z :=
  if bool_decide (0 <= i < Z.shiftl 1 (window_sz2 h)) then
    match buffers h !! Z.to_nat (input_buffer_size h + i) with
    | Some b => Ret b
    | None => OutOfBounds
    end
  else OutOfBounds.

Definition window_write (h : heatshrink_decoder) (i : Z) (c : Z)
  : outcome heatshrink_decoder :=
  if bool_decide (0 <= i < Z.shiftl 1 (window_sz2 h)
                  /\ input_buffer_size h + i < Z.of_nat (length (buffers h))) then
    Ret (set_buffers (<[Z.to_nat (input_buffer_size h + i) := c]> (buffers h)) h)
  else OutOfBounds.

(** *** [heatshrink_decoder_alloc], [heatshrink_decoder_reset] *)

Definition heatshrink_decoder_reset (h : heatshrink_decoder) : heatshrink_decoder :=
  let buf_sz := Z.shiftl 1 (window_sz2 h) in
  let input_sz := input_buffer_size h in
  {| input_size := 0; input_index := 0; output_count := 0; output_index := 0;
     head_index := 0; bit_accumulator := 0; state := HSDS_EMPTY;
     current_byte := 0; bit_index := 0;
     input_buffer_size := input_buffer_size h;
     window_sz2 := window_sz2 h; lookahead_sz2 := lookahead_sz2 h;
     buffers := replicate (Z.to_nat (buf_sz + input_sz)) 0 |}.

(** The arguments are a [uint16_t] and two [uint8_t]. *)
Definition heatshrink_decoder_alloc (input_buffer_size window_sz2 lookahead_sz2 : Z)
  : option heatshrink_decoder :=
  let input_buffer_size := u16 input_buffer_size in
  let window_sz2 := u8 window_sz2 in
  let lookahead_sz2 := u8 lookahead_sz2 in
  if (window_sz2 <? HEATSHRINK_MIN_WINDOW_BITS)
     || (window_sz2 >? HEATSHRINK_MAX_WINDOW_BITS)
     || (input_buffer_size =? 0)
     || (lookahead_sz2 <? HEATSHRINK_MIN_LOOKAHEAD_BITS)
     || (lookahead_sz2 >? window_sz2)
  then None
  else Some (heatshrink_decoder_reset
               (mk_hsd 0 0 0 0 0 0 HSDS_EMPTY 0 0
                       input_buffer_size window_sz2 lookahead_sz2 [])).

(** *** [heatshrink_decoder_sink]

    [in_buf] stands for the caller's array together with its [size]; the
    second component of the result is what is stored to [*input_size]. *)
Definition heatshrink_decoder_sink (h : heatshrink_decoder) (in_buf : list Z)
  : outcome (HEATSHRINK_DECODER_SINK_RES * Z * heatshrink_decoder) :=
  let size := Z.of_nat (length in_buf) in
  let rem := usize (input_buffer_size h - input_size h) in
  if rem =? 0 then Ret (HSDR_SINK_FULL, 0, h)
  else
    let size := if rem <? size then rem else size in
    h1 ← input_memcpy h (input_size h) (take (Z.to_nat size) in_buf);
    let h2 := set_input_size (u16 (input_size h1 + size)) h1 in
    let h3 := if bool_decide (state h2 = HSDS_EMPTY)
              then set_input_index 0 (set_state HSDS_INPUT_AVAILABLE h2)
              else h2 in
    Ret (HSDR_SINK_OK, u16 size, h3).

(** *** [get_bits]

    [NO_BITS] is [(uint32_t)-1].  The body of the [for] loop is
    [get_bits_step]: [load_byte] is its first half, which pulls the next
    input byte when the mask has run off the current one and yields
    [None] at the early [return] taken when the input is dry; [shift_bit]
    is its second half, which moves one bit into the accumulator. *)
Definition NO_BITS : Z := 4294967295.

Definition load_byte (h : heatshrink_decoder)
  : outcome (option heatshrink_decoder) :=
  if bit_index h =? 0 then
    if input_size h =? 0 then Ret None
    else
      b ← input_read h (input_index h);
      let h1 := set_input_index (u16 (input_index h + 1))
                  (set_current_byte b h) in
      let h2 := if input_index h1 =? input_size h1
                then set_input_size 0 (set_input_index 0 h1)
                else h1 in
      Ret (Some (set_bit_index 128 h2))
  else Ret (Some h).

Definition shift_bit (h : heatshrink_decoder) : heatshrink_decoder :=
  let h1 := set_bit_accumulator (u32 (Z.shiftl (bit_accumulator h) 1)) h in
  let h2 := if Z.land (current_byte h1) (bit_index h1) =? 0 then h1
            else set_bit_accumulator (Z.lor (bit_accumulator h1) 1) h1 in
  set_bit_index (Z.shiftr (bit_index h2) 1) h2.

Definition get_bits_step (h : heatshrink_decoder)
  : outcome (option heatshrink_decoder) :=
  r ← load_byte h;
  match r with
  | None => Ret None
  | Some h1 => Ret (Some (shift_bit h1))
  end.

Fixpoint get_bits_loop (n : nat) (h : heatshrink_decoder)
  : outcome (bool * heatshrink_decoder) :=
  match n with
  | O => Ret (true, h)
  | S n' =>
    r ← get_bits_step h;
    match r with
    | None => Ret (false, h)
    | Some h' => get_bits_loop n' h'
    end
  end.

Definition get_bits (h : heatshrink_decoder) (count : Z)
  : outcome (Z * heatshrink_decoder) :=
  if count >? 31 then Ret (NO_BITS, h)
  else if (input_size h =? 0) && (bit_index h <? Z.shiftl 1 (count - 1))
  then Ret (NO_BITS, h)
  else
    '(complete, h1) ← get_bits_loop (Z.to_nat count) h;
    if complete : bool then
      Ret (bit_accumulator h1, set_bit_accumulator 0 h1)
    else Ret (NO_BITS, h1).

(** *** The states of the decoder *)

Definition BACKREF_COUNT_BITS (h : heatshrink_decoder) : Z := lookahead_sz2 h.
Definition BACKREF_INDEX_BITS (h : heatshrink_decoder) : Z := window_sz2 h.

Definition push_byte (h : heatshrink_decoder) (oi : output_info) (byte : Z)
  : outcome output_info := push_out oi byte.

Definition st_input_available (h : heatshrink_decoder)
  : outcome (HEATSHRINK_DECODER_STATE * heatshrink_decoder) :=
  '(bits, h1) ← get_bits h 1;
  Ret (if bits =? 0 then HSDS_BACKREF_INDEX else HSDS_YIELD_LITERAL, h1).

Definition st_yield_literal (h : heatshrink_decoder) (oi : output_info)
  : outcome (HEATSHRINK_DECODER_STATE * heatshrink_decoder * output_info) :=
  if output_size oi <? buf_size oi then
    '(byte, h1) ← get_bits h 8;
    if byte =? NO_BITS then Ret (HSDS_YIELD_LITERAL, h1, oi)
    else
      let mask := u16 (Z.shiftl 1 (window_sz2 h1) - 1) in
      let c := Z.land byte 255 in
      h2 ← window_write h1 (Z.land (head_index h1) mask) c;
      let h3 := set_head_index (u16 (head_index h2 + 1)) h2 in
      oi1 ← push_byte h3 oi c;
      Ret (HSDS_CHECK_FOR_MORE_INPUT, h3, oi1)
  else Ret (HSDS_YIELD_LITERAL, h, oi).

Definition st_backref_index (h : heatshrink_decoder)
  : outcome (HEATSHRINK_DECODER_STATE * heatshrink_decoder) :=
  '(bits, h1) ← get_bits h (BACKREF_INDEX_BITS h);
  if bits =? NO_BITS then Ret (HSDS_BACKREF_INDEX, h1)
  else Ret (HSDS_BACKREF_COUNT, set_output_index (u16 (bits + 1)) h1).

Definition st_backref_count (h : heatshrink_decoder)
  : outcome (HEATSHRINK_DECODER_STATE * heatshrink_decoder) :=
  '(bits, h1) ← get_bits h (BACKREF_COUNT_BITS h);
  if bits =? NO_BITS then Ret (HSDS_BACKREF_COUNT, h1)
  else Ret (HSDS_YIELD_BACKREF, set_output_count (u16 (bits + 1)) h1).

(** The copy loop of [st_yield_backref]: read at [head_index - neg_offset],
    push, write at [head_index], advance; one byte per iteration. *)
Fixpoint yield_backref_loop (n : nat) (neg_offset mask : Z)
    (h : heatshrink_decoder) (oi : output_info)
  : outcome (heatshrink_decoder * output_info) :=
  match n with
  | O => Ret (h, oi)
  | S n' =>
    c ← window_read h (Z.land (head_index h - neg_offset) mask);
    oi1 ← push_byte h oi c;
    h1 ← window_write h (Z.land (head_index h) mask) c;
    yield_backref_loop n' neg_offset mask
      (set_head_index (u16 (head_index h1 + 1)) h1) oi1
  end.

Definition st_yield_backref (h : heatshrink_decoder) (oi : output_info)
  : outcome (HEATSHRINK_DECODER_STATE * heatshrink_decoder * output_info) :=
  let count := usize (buf_size oi - output_size oi) in
  if count >? 0 then
    let count := if output_count h <? count then output_count h else count in
    let mask := u16 (Z.shiftl 1 (window_sz2 h) - 1) in
    let neg_offset := output_index h in
    '(h1, oi1) ← yield_backref_loop (Z.to_nat count) neg_offset mask h oi;
    let h2 := set_output_count (u16 (output_count h1 - count)) h1 in
    if output_count h2 =? 0 then Ret (HSDS_CHECK_FOR_MORE_INPUT, h2, oi1)
    else Ret (HSDS_YIELD_BACKREF, h2, oi1)
  else Ret (HSDS_YIELD_BACKREF, h, oi).

Definition st_check_for_input (h : heatshrink_decoder) : HEATSHRINK_DECODER_STATE :=
  if input_size h =? 0 then HSDS_EMPTY else HSDS_INPUT_AVAILABLE.

(** *** [heatshrink_decoder_poll]

    [poll_step] is one turn of the [while (1)] loop: the [switch], the
    store to [hsd->state], and the test that ends the loop.  The last
    component is the value returned, if the turn returns. *)
Definition poll_step (h : heatshrink_decoder) (oi : output_info)
  : outcome (heatshrink_decoder * output_info * option HEATSHRINK_DECODER_POLL_RES) :=
  let in_state := state h in
  match in_state with
  | HSDS_EMPTY => Ret (h, oi, Some HSDR_POLL_EMPTY)
  | _ =>
    '(s, h1, oi1) ←
      match in_state with
      | HSDS_EMPTY => Ret (HSDS_EMPTY, h, oi)
      | HSDS_INPUT_AVAILABLE =>
        '(s, h1) ← st_input_available h; Ret (s, h1, oi)
      | HSDS_YIELD_LITERAL => st_yield_literal h oi
      | HSDS_BACKREF_INDEX =>
        '(s, h1) ← st_backref_index h; Ret (s, h1, oi)
      | HSDS_BACKREF_COUNT =>
        '(s, h1) ← st_backref_count h; Ret (s, h1, oi)
      | HSDS_YIELD_BACKREF => st_yield_backref h oi
      | HSDS_CHECK_FOR_MORE_INPUT => Ret (st_check_for_input h, h, oi)
      end;
    let h2 := set_state s h1 in
    if bool_decide (state h2 = in_state) then
      if output_size oi1 =? buf_size oi1 then Ret (h2, oi1, Some HSDR_POLL_MORE)
      else Ret (h2, oi1, Some HSDR_POLL_EMPTY)
    else Ret (h2, oi1, None)
  end.

Fixpoint poll_loop (fuel : nat) (h : heatshrink_decoder) (oi : output_info)
  : outcome (HEATSHRINK_DECODER_POLL_RES * heatshrink_decoder * output_info) :=
  match fuel with
  | O => OutOfFuel
  | S fuel' =>
    '(h1, oi1, r) ← poll_step h oi;
    match r with
    | Some res => Ret (res, h1, oi1)
    | None => poll_loop fuel' h1 oi1
    end
  end.

(** [out_buf] is the caller's array, [out_buf_size] its length; the
    [output_info] returned holds the array after the call and
    [*output_size]. *)
Definition heatshrink_decoder_poll (fuel : nat) (h : heatshrink_decoder)
    (out_buf : list Z)
  : outcome (HEATSHRINK_DECODER_POLL_RES * heatshrink_decoder * output_info) :=
  poll_loop fuel h (new_output_info out_buf).

(** *** [heatshrink_decoder_finish] *)
Definition heatshrink_decoder_finish (h : heatshrink_decoder)
  : HEATSHRINK_DECODER_FINISH_RES :=
  match state h with
  | HSDS_EMPTY => HSDR_FINISH_DONE
  | HSDS_BACKREF_INDEX | HSDS_BACKREF_COUNT =>
    if input_size h =? 0 then HSDR_FINISH_DONE else HSDR_FINISH_MORE
  | _ => HSDR_FINISH_MORE
  end.
End Decoder.

(** ** The encoder ([heatshrink_encoder.c]) *)

Module Encoder.

Inductive HEATSHRINK_ENCODER_STATE :=
  | HSES_NOT_FULL
  | HSES_FILLED
  | HSES_SEARCH
  | HSES_YIELD_TAG_BIT
  | HSES_YIELD_LITERAL
  | HSES_YIELD_BR_INDEX
  | HSES_YIELD_BR_LENGTH
  | HSES_SAVE_BACKLOG
  | HSES_FLUSH_BITS
  | HSES_DONE.

Global Instance HEATSHRINK_ENCODER_STATE_eq_dec :
  EqDecision HEATSHRINK_ENCODER_STATE.
Proof. solve_decision. Defined.

Definition FLAG_IS_FINISHING : Z := 1.
Definition FLAG_HAS_LITERAL : Z := 2.
Definition FLAG_ON_FINAL_LITERAL : Z := 4.
Definition FLAG_BACKLOG_IS_PARTIAL : Z := 8.
Definition FLAG_BACKLOG_IS_FILLED : Z := 16.

Definition MATCH_NOT_FOUND : Z := 65535.

(** Modelled from the spec: the wire format of section 3 fixes the tag
    bits, which [heatshrink_common.h] (not among the sources) defines. *)
Definition HEATSHRINK_LITERAL_MARKER : Z := 1.
Definition HEATSHRINK_BACKREF_MARKER : Z := 0.

Inductive HEATSHRINK_ENCODER_SINK_RES :=
  | HSER_SINK_OK
  | HSER_SINK_ERROR_NULL
  | HSER_SINK_ERROR_MISUSE.

Inductive HEATSHRINK_ENCODER_POLL_RES :=
  | HSER_POLL_EMPTY
  | HSER_POLL_MORE
  | HSER_POLL_ERROR_NULL
  | HSER_POLL_ERROR_MISUSE.

Inductive HEATSHRINK_ENCODER_FINISH_RES :=
  | HSER_FINISH_DONE
  | HSER_FINISH_MORE
  | HSER_FINISH_ERROR_NULL.

(** The struct of [heatshrink_encoder.h] is not among the sources; the
    fields are the ones the functions use, with the widths of the locals
    they are copied to ([uint16_t] sizes and offsets, [uint8_t] flags,
    byte and mask).  [search_index] is [hsi->index], present when the
    encoder is built with [HEATSHRINK_USE_INDEX]. *)
Record heatshrink_encoder := mk_hse {
  input_size : Z;
  match_scan_index : Z;
  match_length : Z;
  match_pos : Z;
  outgoing_bits : Z;
  outgoing_bits_count : Z;
  flags : Z;
  state : HEATSHRINK_ENCODER_STATE;
  current_byte : Z;
  bit_index : Z;
  window_sz2 : Z;
  lookahead_sz2 : Z;
  search_index : list Z;
  buffer : list Z
}.

Definition set_input_size (v : Z) (e : heatshrink_encoder) :=
  mk_hse v (match_scan_index e) (match_length e) (match_pos e)
    (outgoing_bits e) (outgoing_bits_count e) (flags e) (state e)
    (current_byte e) (bit_index e) (window_sz2 e) (lookahead_sz2 e)
    (search_index e) (buffer e).
Definition set_match_scan_index (v : Z) (e : heatshrink_encoder) :=
  mk_hse (input_size e) v (match_length e) (match_pos e)
    (outgoing_bits e) (outgoing_bits_count e) (flags e) (state e)
    (current_byte e) (bit_index e) (window_sz2 e) (lookahead_sz2 e)
    (search_index e) (buffer e).
Definition set_match_length (v : Z) (e : heatshrink_encoder) :=
  mk_hse (input_size e) (match_scan_index e) v (match_pos e)
    (outgoing_bits e) (outgoing_bits_count e) (flags e) (state e)
    (current_byte e) (bit_index e) (window_sz2 e) (lookahead_sz2 e)
    (search_index e) (buffer e).
Definition set_match_pos (v : Z) (e : heatshrink_encoder) :=
  mk_hse (input_size e) (match_scan_index e) (match_length e) v
    (outgoing_bits e) (outgoing_bits_count e) (flags e) (state e)
    (current_byte e) (bit_index e) (window_sz2 e) (lookahead_sz2 e)
    (search_index e) (buffer e).
Definition set_outgoing_bits (v : Z) (e : heatshrink_encoder) :=
  mk_hse (input_size e) (match_scan_index e) (match_length e) (match_pos e)
    v (outgoing_bits_count e) (flags e) (state e)
    (current_byte e) (bit_index e) (window_sz2 e) (lookahead_sz2 e)
    (search_index e) (buffer e).
Definition set_outgoing_bits_count (v : Z) (e : heatshrink_encoder) :=
  mk_hse (input_size e) (match_scan_index e) (match_length e) (match_pos e)
    (outgoing_bits e) v (flags e) (state e)
    (current_byte e) (bit_index e) (window_sz2 e) (lookahead_sz2 e)
    (search_index e) (buffer e).
Definition set_flags (v : Z) (e : heatshrink_encoder) :=
  mk_hse (input_size e) (match_scan_index e) (match_length e) (match_pos e)
    (outgoing_bits e) (outgoing_bits_count e) v (state e)
    (current_byte e) (bit_index e) (window_sz2 e) (lookahead_sz2 e)
    (search_index e) (buffer e).
Definition set_state (v : HEATSHRINK_ENCODER_STATE) (e : heatshrink_encoder) :=
  mk_hse (input_size e) (match_scan_index e) (match_length e) (match_pos e)
    (outgoing_bits e) (outgoing_bits_count e) (flags e) v
    (current_byte e) (bit_index e) (window_sz2 e) (lookahead_sz2 e)
    (search_index e) (buffer e).
Definition set_current_byte (v : Z) (e : heatshrink_encoder) :=
  mk_hse (input_size e) (match_scan_index e) (match_length e) (match_pos e)
    (outgoing_bits e) (outgoing_bits_count e) (flags e) (state e)
    v (bit_index e) (window_sz2 e) (lookahead_sz2 e)
    (search_index e) (buffer e).
Definition set_bit_index (v : Z) (e : heatshrink_encoder) :=
  mk_hse (input_size e) (match_scan_index e) (match_length e) (match_pos e)
    (outgoing_bits e) (outgoing_bits_count e) (flags e) (state e)
    (current_byte e) v (window_sz2 e) (lookahead_sz2 e)
    (search_index e) (buffer e).
Definition set_search_index (v : list Z) (e : heatshrink_encoder) :=
  mk_hse (input_size e) (match_scan_index e) (match_length e) (match_pos e)
    (outgoing_bits e) (outgoing_bits_count e) (flags e) (state e)
    (current_byte e) (bit_index e) (window_sz2 e) (lookahead_sz2 e)
    v (buffer e).
Definition set_buffer (v : list Z) (e : heatshrink_encoder) :=
  mk_hse (input_size e) (match_scan_index e) (match_length e) (match_pos e)
    (outgoing_bits e) (outgoing_bits_count e) (flags e) (state e)
    (current_byte e) (bit_index e) (window_sz2 e) (lookahead_sz2 e)
    (search_index e) v.

(** A read of a byte array at a [Z] offset.  C leaves a read outside the
    array undefined; here it yields a fixed value, 0 below the array and
    the default element of [Z] past its end. *)
Definition rd (l : list Z) (i : Z) : Z :=
  if i <? 0 then 0 else l !!! Z.to_nat i.

(** [memmove(&l[dst], src, |src|)] for a source already copied out. *)
Definition blit (l : list Z) (dst : Z) (src : list Z) : list Z :=
  take (Z.to_nat dst) l ++ src ++ drop (Z.to_nat dst + length src) l.

Definition get_input_buffer_size (e : heatshrink_encoder) : Z :=
  u16 (Z.shiftl 1 (window_sz2 e)).
Definition get_input_offset (e : heatshrink_encoder) : Z :=
  get_input_buffer_size e.
Definition get_lookahead_size (e : heatshrink_encoder) : Z :=
  u16 (Z.shiftl 1 (lookahead_sz2 e)).

Definition is_finishing (e : heatshrink_encoder) : Z :=
  Z.land (flags e) FLAG_IS_FINISHING.
Definition backlog_is_partial (e : heatshrink_encoder) : Z :=
  Z.land (flags e) FLAG_BACKLOG_IS_PARTIAL.
Definition backlog_is_filled (e : heatshrink_encoder) : Z :=
  Z.land (flags e) FLAG_BACKLOG_IS_FILLED.
Definition on_final_literal (e : heatshrink_encoder) : Z :=
  Z.land (flags e) FLAG_ON_FINAL_LITERAL.
Definition has_literal (e : heatshrink_encoder) : Z :=
  Z.land (flags e) FLAG_HAS_LITERAL.

Definition can_take_byte (oi : output_info) : bool :=
  output_size oi <? buf_size oi.

(** *** [heatshrink_encoder_reset], [heatshrink_encoder_alloc]

    [reset] leaves [match_pos] and the search index as they are.  The
    index comes from the allocator uninitialised, so [alloc] takes its
    first contents, [fresh_index], as an argument; the two sizes are
    [uint8_t]. *)
Definition heatshrink_encoder_reset (e : heatshrink_encoder) : heatshrink_encoder :=
  let buf_sz := Z.shiftl 2 (window_sz2 e) in
  {| input_size := 0; match_scan_index := 0; match_length := 0;
     match_pos := match_pos e; outgoing_bits := 0; outgoing_bits_count := 0;
     flags := 0; state := HSES_NOT_FULL; current_byte := 0; bit_index := 128;
     window_sz2 := window_sz2 e; lookahead_sz2 := lookahead_sz2 e;
     search_index := search_index e;
     buffer := replicate (Z.to_nat buf_sz) 0 |}.

Definition heatshrink_encoder_alloc (use_index : bool) (fresh_index : list Z)
    (window_sz2 lookahead_sz2 : Z) : option heatshrink_encoder :=
  let window_sz2 := u8 window_sz2 in
  let lookahead_sz2 := u8 lookahead_sz2 in
  if (window_sz2 <? HEATSHRINK_MIN_WINDOW_BITS)
     || (window_sz2 >? HEATSHRINK_MAX_WINDOW_BITS)
     || (lookahead_sz2 <? HEATSHRINK_MIN_LOOKAHEAD_BITS)
     || (lookahead_sz2 >? window_sz2)
  then None
  else Some (heatshrink_encoder_reset
               (mk_hse 0 0 0 0 0 0 0 HSES_NOT_FULL 0 0 window_sz2 lookahead_sz2
                  (if use_index then fresh_index else []) [])).

(** *** [heatshrink_encoder_sink]

    The second component is what is stored to [*input_size], if anything. *)
Definition heatshrink_encoder_sink (e : heatshrink_encoder) (in_buf : list Z)
  : HEATSHRINK_ENCODER_SINK_RES * option Z * heatshrink_encoder :=
  let size := Z.of_nat (length in_buf) in
  if negb (is_finishing e =? 0) then (HSER_SINK_ERROR_MISUSE, None, e)
  else if negb (bool_decide (state e = HSES_NOT_FULL))
  then (HSER_SINK_ERROR_MISUSE, None, e)
  else
    let write_offset := u16 (get_input_offset e + input_size e) in
    let ibs := get_input_buffer_size e in
    let rem := u16 (ibs - input_size e) in
    let cp_sz := u16 (if rem <? size then rem else size) in
    let e1 := set_buffer (blit (buffer e) write_offset
                            (take (Z.to_nat cp_sz) in_buf)) e in
    let e2 := set_input_size (u16 (input_size e1 + cp_sz)) e1 in
    let e3 := if cp_sz =? rem then set_state HSES_FILLED e2 else e2 in
    (HSER_SINK_OK, Some cp_sz, e3).

(** *** [heatshrink_encoder_finish] *)
Definition heatshrink_encoder_finish (e : heatshrink_encoder)
  : HEATSHRINK_ENCODER_FINISH_RES * heatshrink_encoder :=
  let e1 := set_flags (Z.lor (flags e) FLAG_IS_FINISHING) e in
  let e2 := if bool_decide (state e1 = HSES_NOT_FULL)
            then set_state HSES_FILLED e1 else e1 in
  (if bool_decide (state e2 = HSES_DONE) then HSER_FINISH_DONE
   else HSER_FINISH_MORE, e2).

(** *** [do_indexing]

    [last] is the table of the last offset of each byte value.  The loop
    bound [end] and the length of the [memset] are [uint16_t].  A store
    past the end of an array, undefined in C, is dropped. *)
Fixpoint do_indexing_loop (n : nat) (i : Z) (data : list Z)
    (last index : list Z) : list Z :=
  match n with
  | O => index
  | S n' =>
    let v := rd data i in
    let lv := rd last v in
    do_indexing_loop n' (i + 1) data
      (<[Z.to_nat v := u16 i]> last) (<[Z.to_nat i := lv]> index)
  end.

Definition do_indexing (use_index : bool) (e : heatshrink_encoder)
  : heatshrink_encoder :=
  if use_index then
    let buf_sz := get_input_buffer_size e in
    let input_sz := u16 (2 * buf_sz) in
    let index0 := blit (search_index e) 0
                    (replicate (Z.to_nat input_sz `min` length (search_index e))
                               MATCH_NOT_FOUND) in
    let last := replicate 256 MATCH_NOT_FOUND in
    let input_offset := get_input_offset e in
    let end_ := u16 (input_offset + input_size e) in
    set_search_index
      (do_indexing_loop (Z.to_nat end_) 0 (buffer e) last index0) e
  else e.

(** *** [find_longest_match]

    [match_run] is the inner [for] loop: the count of leading bytes on
    which [buf[pos ..]] and [buf[needle ..]] agree, at most [maxlen]. *)
Fixpoint match_run (n : nat) (buf : list Z) (pos needle len : Z) : Z :=
  match n with
  | O => len
  | S n' =>
    if rd buf (pos + len) =? rd buf (needle + len)
    then match_run n' buf pos needle (len + 1)
    else len
  end.

Definition break_even_point : Z := 2.

(** The number of values of a [uint16_t]. *)
Definition u16_range : nat := Z.to_nat 65536.

(** What one candidate [pos] does to [(match_maxlen, match_index)]; the
    boolean is the [break] taken at a match of full length. *)
Definition consider (buf : list Z) (pos needle maxlen : Z) (best : Z * Z)
  : Z * Z * bool :=
  let len := match_run (Z.to_nat maxlen) buf pos needle 0 in
  if (len >? break_even_point) && (len >? best.1)
  then (len, pos, len =? maxlen)
  else (best, false).

(** The linear scan, [pos] from [end - 1] down, leaving at [pos == start].
    A [uint16_t] takes 65536 values, which bounds the turns. *)
Fixpoint scan_linear (fuel : nat) (buf : list Z) (start needle maxlen : Z)
    (pos : Z) (best : Z * Z) : Z * Z :=
  let '(best1, brk) := consider buf pos needle maxlen best in
  if brk : bool then best1
  else if pos =? start then best1
  else match fuel with
       | O => best1
       | S fuel' =>
         scan_linear fuel' buf start needle maxlen (u16 (pos - 1)) best1
       end.

(** The scan along the chain of the index.  The chain of an index that
    was not built from the buffer need not end; [None] is a walk that was
    cut short. *)
Fixpoint scan_chain (fuel : nat) (buf index : list Z) (start needle maxlen : Z)
    (pos : Z) (best : Z * Z) : option (Z * Z) :=
  if pos =? MATCH_NOT_FOUND then Some best
  else
    let '(best1, brk) := consider buf pos needle maxlen best in
    if brk : bool then Some best1
    else
      let pos1 := rd index pos in
      if pos1 <? start then Some best1
      else match fuel with
           | O => None
           | S fuel' =>
             scan_chain fuel' buf index start needle maxlen pos1 best1
           end.

(** The result is the value returned and the caller's [match_length]
    after the call (it is stored to only when a match is found). *)
Definition find_longest_match (use_index : bool) (e : heatshrink_encoder)
    (start end_ maxlen match_length : Z) : outcome (Z * Z) :=
  let buf := buffer e in
  if start =? end_ then Ret (MATCH_NOT_FOUND, match_length)
  else
    let needle_index := end_ in
    best ← (if use_index then
              let pos := rd (search_index e) end_ in
              if pos <? start then Ret None
              else match scan_chain u16_range buf (search_index e) start
                           needle_index maxlen pos (0, MATCH_NOT_FOUND) with
                   | Some b => Ret (Some b)
                   | None => OutOfFuel
                   end
            else Ret (Some (scan_linear u16_range buf start needle_index maxlen
                              (u16 (end_ - 1)) (0, MATCH_NOT_FOUND))));
    match best with
    | None => Ret (MATCH_NOT_FOUND, match_length)
    | Some (match_maxlen, match_index) =>
      if match_maxlen >? 0
      then Ret (u16 (needle_index - match_index), match_maxlen)
      else Ret (MATCH_NOT_FOUND, match_length)
    end.

(** *** Bit output: [push_bits], [push_outgoing_bits], [push_literal_byte] *)

(** The body of the [for] loop of [push_bits], for the bit selected by
    [bits & (1 << i)]. *)
Definition push_bit (bit : Z) (e : heatshrink_encoder) (oi : output_info)
  : outcome (heatshrink_encoder * output_info) :=
  let e1 := if bit =? 0 then e
            else set_current_byte (Z.lor (current_byte e) (bit_index e)) e in
  let e2 := set_bit_index (Z.shiftr (bit_index e1) 1) e1 in
  if bit_index e2 =? 0 then
    oi1 ← push_out oi (current_byte e2);
    Ret (set_current_byte 0 (set_bit_index 128 e2), oi1)
  else Ret (e2, oi).

(** The loop itself, [i] from [n - 1] down to 0. *)
Fixpoint push_bits_loop (n : nat) (bits : Z) (e : heatshrink_encoder)
    (oi : output_info) : outcome (heatshrink_encoder * output_info) :=
  match n with
  | O => Ret (e, oi)
  | S i =>
    '(e1, oi1) ← push_bit (u8 (Z.land bits (Z.shiftl 1 (Z.of_nat i)))) e oi;
    push_bits_loop i bits e1 oi1
  end.

Definition push_bits (e : heatshrink_encoder) (count bits : Z) (oi : output_info)
  : outcome (heatshrink_encoder * output_info) :=
  push_bits_loop (Z.to_nat count) bits e oi.

Definition add_tag_bit (e : heatshrink_encoder) (oi : output_info) (tag : Z)
  : outcome (heatshrink_encoder * output_info) :=
  push_bits e 1 tag oi.

Definition push_outgoing_bits (e : heatshrink_encoder) (oi : output_info)
  : outcome (Z * heatshrink_encoder * output_info) :=
  let '(count, bits) :=
    if outgoing_bits_count e >? 8
    then (8, u8 (Z.shiftr (outgoing_bits e) (outgoing_bits_count e - 8)))
    else (outgoing_bits_count e, u8 (outgoing_bits e)) in
  '(e1, oi1) ← push_bits e count bits oi;
  Ret (count, set_outgoing_bits_count (u8 (outgoing_bits_count e1 - count)) e1, oi1).

Definition push_literal_byte (e : heatshrink_encoder) (oi : output_info)
  : outcome (heatshrink_encoder * output_info) :=
  let processed_offset := u16 (match_scan_index e - 1) in
  let input_offset := u16 (get_input_offset e + processed_offset) in
  let c := rd (buffer e) input_offset in
  push_bits e 8 c oi.

(** *** [save_backlog] *)
Definition save_backlog (e : heatshrink_encoder) : heatshrink_encoder :=
  let input_buf_sz := get_input_buffer_size e in
  let msi := match_scan_index e in
  let rem := u16 (input_buf_sz - msi) in
  let shift_sz := u16 (input_buf_sz + rem) in
  let src := take (Z.to_nat shift_sz)
               (drop (Z.to_nat (usize (input_buf_sz - rem))) (buffer e)) in
  let e1 := set_buffer (blit (buffer e) 0 src) e in
  let e2 := if negb (backlog_is_partial e1 =? 0)
            then set_flags (Z.lor (flags e1) FLAG_BACKLOG_IS_FILLED) e1
            else set_flags (Z.lor (flags e1) FLAG_BACKLOG_IS_PARTIAL) e1 in
  let e3 := set_match_scan_index 0 e2 in
  set_input_size (u16 (input_size e3 - (input_buf_sz - rem))) e3.

(** *** The states of the encoder

    Each [st_] function yields the next state together with the encoder
    as the function leaves it. *)

Definition st_step_search (use_index : bool) (e : heatshrink_encoder)
  : outcome (HEATSHRINK_ENCODER_STATE * heatshrink_encoder) :=
  let window_length := get_input_buffer_size e in
  let lookahead_sz := get_lookahead_size e in
  let msi := match_scan_index e in
  let fin := negb (is_finishing e =? 0) in
  if msi >=? input_size e - (if fin then 0 else lookahead_sz)
  then Ret (HSES_SAVE_BACKLOG, e)
  else
    let input_offset := get_input_offset e in
    let end_ := u16 (input_offset + msi) in
    let start :=
      if negb (backlog_is_filled e =? 0) then u16 (end_ - window_length + 1)
      else if negb (backlog_is_partial e =? 0) then
        let start := u16 (end_ - window_length + 1) in
        if start <? lookahead_sz then lookahead_sz else start
      else input_offset in
    let max_possible :=
      if input_size e - msi <? lookahead_sz then u16 (input_size e - msi)
      else lookahead_sz in
    '(match_pos, match_length) ←
      find_longest_match use_index e start end_ max_possible 0;
    if match_pos =? MATCH_NOT_FOUND then
      let e1 := set_match_scan_index (u16 (match_scan_index e + 1)) e in
      let e2 := set_flags (Z.lor (flags e1) FLAG_HAS_LITERAL) e1 in
      Ret (HSES_YIELD_TAG_BIT, set_match_length 0 e2)
    else
      Ret (HSES_YIELD_TAG_BIT,
           set_match_length match_length (set_match_pos match_pos e)).

Definition st_yield_tag_bit (e : heatshrink_encoder) (oi : output_info)
  : outcome (HEATSHRINK_ENCODER_STATE * heatshrink_encoder * output_info) :=
  if can_take_byte oi then
    if match_length e =? 0 then
      '(e1, oi1) ← add_tag_bit e oi HEATSHRINK_LITERAL_MARKER;
      Ret (HSES_YIELD_LITERAL, e1, oi1)
    else
      '(e1, oi1) ← add_tag_bit e oi HEATSHRINK_BACKREF_MARKER;
      let e2 := set_outgoing_bits (u16 (match_pos e1 - 1)) e1 in
      Ret (HSES_YIELD_BR_INDEX, set_outgoing_bits_count (window_sz2 e2) e2, oi1)
  else Ret (HSES_YIELD_TAG_BIT, e, oi).

Definition st_yield_literal (e : heatshrink_encoder) (oi : output_info)
  : outcome (HEATSHRINK_ENCODER_STATE * heatshrink_encoder * output_info) :=
  if can_take_byte oi then
    '(e1, oi1) ← push_literal_byte e oi;
    let e2 := set_flags (u8 (Z.land (flags e1) (Z.lnot FLAG_HAS_LITERAL))) e1 in
    if negb (on_final_literal e2 =? 0) then Ret (HSES_FLUSH_BITS, e2, oi1)
    else Ret (if match_length e2 >? 0 then HSES_YIELD_TAG_BIT else HSES_SEARCH,
              e2, oi1)
  else Ret (HSES_YIELD_LITERAL, e, oi).

Definition st_yield_br_index (e : heatshrink_encoder) (oi : output_info)
  : outcome (HEATSHRINK_ENCODER_STATE * heatshrink_encoder * output_info) :=
  if can_take_byte oi then
    '(n, e1, oi1) ← push_outgoing_bits e oi;
    if n >? 0 then Ret (HSES_YIELD_BR_INDEX, e1, oi1)
    else
      let e2 := set_outgoing_bits (u16 (match_length e1 - 1)) e1 in
      Ret (HSES_YIELD_BR_LENGTH,
           set_outgoing_bits_count (lookahead_sz2 e2) e2, oi1)
  else Ret (HSES_YIELD_BR_INDEX, e, oi).

Definition st_yield_br_length (e : heatshrink_encoder) (oi : output_info)
  : outcome (HEATSHRINK_ENCODER_STATE * heatshrink_encoder * output_info) :=
  if can_take_byte oi then
    '(n, e1, oi1) ← push_outgoing_bits e oi;
    if n >? 0 then Ret (HSES_YIELD_BR_LENGTH, e1, oi1)
    else
      let e2 := set_match_scan_index
                  (u16 (match_scan_index e1 + match_length e1)) e1 in
      Ret (HSES_SEARCH, set_match_length 0 e2, oi1)
  else Ret (HSES_YIELD_BR_LENGTH, e, oi).

Definition st_save_backlog (e : heatshrink_encoder)
  : HEATSHRINK_ENCODER_STATE * heatshrink_encoder :=
  if negb (is_finishing e =? 0) then
    if negb (has_literal e =? 0) then
      (HSES_YIELD_TAG_BIT,
       set_flags (Z.lor (flags e) FLAG_ON_FINAL_LITERAL) e)
    else (HSES_FLUSH_BITS, e)
  else (HSES_NOT_FULL, save_backlog e).

Definition st_flush_bit_buffer (e : heatshrink_encoder) (oi : output_info)
  : outcome (HEATSHRINK_ENCODER_STATE * heatshrink_encoder * output_info) :=
  if bit_index e =? 128 then Ret (HSES_DONE, e, oi)
  else if can_take_byte oi then
    oi1 ← push_out oi (current_byte e);
    Ret (HSES_DONE, e, oi1)
  else Ret (HSES_FLUSH_BITS, e, oi).

(** *** [heatshrink_encoder_poll]

    [poll_step] is one turn of the [while (1)] loop.  The [switch] has no
    [break] after the [HSES_FLUSH_BITS] case, so that case runs into the
    [return] of [HSES_DONE].  The last component is the value returned, if
    the turn returns. *)
Definition poll_step (use_index : bool) (e : heatshrink_encoder) (oi : output_info)
  : outcome (heatshrink_encoder * output_info * option HEATSHRINK_ENCODER_POLL_RES) :=
  let in_state := state e in
  let continue (r : HEATSHRINK_ENCODER_STATE * heatshrink_encoder * output_info) :=
    let '(s, e1, oi1) := r in
    let e2 := set_state s e1 in
    if bool_decide (state e2 = in_state) && (output_size oi1 =? buf_size oi1)
    then (e2, oi1, Some HSER_POLL_MORE)
    else (e2, oi1, None) in
  match in_state with
  | HSES_NOT_FULL => Ret (e, oi, Some HSER_POLL_EMPTY)
  | HSES_FILLED => Ret (continue (HSES_SEARCH, do_indexing use_index e, oi))
  | HSES_SEARCH =>
    '(s, e1) ← st_step_search use_index e; Ret (continue (s, e1, oi))
  | HSES_YIELD_TAG_BIT => r ← st_yield_tag_bit e oi; Ret (continue r)
  | HSES_YIELD_LITERAL => r ← st_yield_literal e oi; Ret (continue r)
  | HSES_YIELD_BR_INDEX => r ← st_yield_br_index e oi; Ret (continue r)
  | HSES_YIELD_BR_LENGTH => r ← st_yield_br_length e oi; Ret (continue r)
  | HSES_SAVE_BACKLOG =>
    let '(s, e1) := st_save_backlog e in Ret (continue (s, e1, oi))
  | HSES_FLUSH_BITS =>
    '(s, e1, oi1) ← st_flush_bit_buffer e oi;
    Ret (set_state s e1, oi1, Some HSER_POLL_EMPTY)
  | HSES_DONE => Ret (e, oi, Some HSER_POLL_EMPTY)
  end.

Fixpoint poll_loop (use_index : bool) (fuel : nat) (e : heatshrink_encoder)
    (oi : output_info)
  : outcome (HEATSHRINK_ENCODER_POLL_RES * heatshrink_encoder * output_info) :=
  match fuel with
  | O => OutOfFuel
  | S fuel' =>
    '(e1, oi1, r) ← poll_step use_index e oi;
    match r with
    | Some res => Ret (res, e1, oi1)
    | None => poll_loop use_index fuel' e1 oi1
    end
  end.

(** [out_buf] is the caller's array, [out_buf_size] its length.  On misuse
    nothing is stored: the [output_info] returned is [None]. *)
Definition heatshrink_encoder_poll (use_index : bool) (fuel : nat)
    (e : heatshrink_encoder) (out_buf : list Z)
  : outcome (HEATSHRINK_ENCODER_POLL_RES * heatshrink_encoder * option output_info) :=
  if Z.of_nat (length out_buf) =? 0 then Ret (HSER_POLL_ERROR_MISUSE, e, None)
  else
    '(r, e1, oi) ← poll_loop use_index fuel e (new_output_info out_buf);
    Ret (r, e1, Some oi).
End Encoder.
(** ** One round of the test driver

    [compress_and_expand_and_check] of [test_heatshrink_dynamic.c] gives
    both output arrays [input_size + input_size / 2 + 4] zeroed bytes.  It
    sinks input until all of it is taken, calls [finish], polls until the
    poll stops returning [MORE] and calls [finish] again, for the encoder
    and then for the decoder.  [compress_once] and [expand_once] are its
    calls when the first [sink] takes everything and the first [poll]
    returns [EMPTY]; [None] is a failed assertion, or a round that would
    have to be repeated. *)

Definition scratch_size (input_size : Z) : Z :=
  input_size + input_size / 2 + 4.

Definition compress_once (use_index : bool) (fresh_index : list Z)
    (W L : Z) (input : list Z) (fuel : nat) : outcome (option (list Z)) :=
  let comp := replicate (Z.to_nat (scratch_size (Z.of_nat (length input)))) 0 in
  match Encoder.heatshrink_encoder_alloc use_index fresh_index W L with
  | None => Ret None
  | Some hse =>
    match Encoder.heatshrink_encoder_sink hse input with
    | (_, None, _) => Ret None
    | (_, Some count, hse1) =>
      if negb (count =? Z.of_nat (length input)) then Ret None
      else
        match Encoder.heatshrink_encoder_finish hse1 with
        | (Encoder.HSER_FINISH_MORE, hse2) =>
          r ← Encoder.heatshrink_encoder_poll use_index fuel hse2 comp;
          match r with
          | (Encoder.HSER_POLL_EMPTY, hse3, Some oi) =>
            if output_size oi >=? Z.of_nat (length comp) then Ret None
            else
              match Encoder.heatshrink_encoder_finish hse3 with
              | (Encoder.HSER_FINISH_DONE, _) => Ret (Some (polled oi))
              | _ => Ret None
              end
          | _ => Ret None
          end
        | _ => Ret None
        end
    end
  end.

Definition expand_once (input_buffer_size W L : Z) (compressed : list Z)
    (input_size : Z) (fuel : nat) : outcome (option (list Z)) :=
  let decomp := replicate (Z.to_nat (scratch_size input_size)) 0 in
  match Decoder.heatshrink_decoder_alloc input_buffer_size W L with
  | None => Ret None
  | Some hsd =>
    '(_, count, hsd1) ← Decoder.heatshrink_decoder_sink hsd compressed;
    if negb (count =? Z.of_nat (length compressed)) then Ret None
    else
      match Decoder.heatshrink_decoder_finish hsd1 with
      | Decoder.HSDR_FINISH_MORE =>
        '(pres, hsd2, oi) ← Decoder.heatshrink_decoder_poll fuel hsd1 decomp;
        match pres, Decoder.heatshrink_decoder_finish hsd2 with
        | Decoder.HSDR_POLL_EMPTY, Decoder.HSDR_FINISH_DONE =>
          if (output_size oi >? 0) && (output_size oi <=? input_size)
          then Ret (Some (polled oi)) else Ret None
        | _, _ => Ret None
        end
      | _ => Ret None
      end
  end.

(** * Facts on machine integers *)

Lemma u8_small x : 0 <= x < 256 -> u8 x = x.
Proof. intros. unfold u8. apply Z.mod_small. lia. Qed.

Lemma u16_small x : 0 <= x < 65536 -> u16 x = x.
Proof. intros. unfold u16. apply Z.mod_small. lia. Qed.

Lemma usize_small x : 0 <= x < 18446744073709551616 -> usize x = x.
Proof. intros. unfold usize. apply Z.mod_small. lia. Qed.

Lemma usize_le x : 0 <= x -> 0 <= usize x <= x.
Proof.
  intros. unfold usize. split.
  - apply Z.mod_pos_bound. lia.
  - apply Z.mod_le; lia.
Qed.

Lemma shiftl_1_pow w : 0 <= w -> Z.shiftl 1 w = 2 ^ w.
Proof. intros. rewrite Z.shiftl_mul_pow2 by lia. lia. Qed.

Lemma pow_bits w lo hi :
  0 <= lo -> lo <= w <= hi -> 2 ^ lo <= 2 ^ w <= 2 ^ hi.
Proof. intros. split; apply Z.pow_le_mono_r; lia. Qed.

(** * Facts on the output buffer *)

Record oi_ok (oi : output_info) : Prop := mk_oi_ok {
  oi_len : buf_size oi = Z.of_nat (length (buf oi));
  oi_pos : 0 <= output_size oi <= buf_size oi;
  oi_u16 : output_size oi <= 65535
}.

Lemma new_output_info_ok out_buf : oi_ok (new_output_info out_buf).
Proof. constructor; cbn; lia. Qed.

Lemma push_out_ok oi b :
  oi_ok oi -> output_size oi < buf_size oi ->
  exists oi', push_out oi b = Ret oi' /\ oi_ok oi' /\
    buf_size oi' = buf_size oi /\
    (output_size oi' = output_size oi + 1 \/ 65536 <= buf_size oi).
Proof.
  intros [Hl Hp Hu] Hlt. unfold push_out.
  rewrite bool_decide_true by lia.
  eexists; split; [reflexivity|].
  assert (Hcases : output_size oi + 1 < 65536 \/ output_size oi + 1 = 65536) by lia.
  destruct Hcases as [Hs|Hw].
  - split; [|split; [reflexivity|left; cbn [output_size]; apply u16_small; lia]].
    constructor; cbn [buf buf_size output_size];
      rewrite ?length_insert, ?u16_small; lia.
  - split; [|split; [reflexivity|right; lia]].
    constructor; cbn [buf buf_size output_size];
      rewrite ?length_insert, ?Hw; change (u16 65536) with 0; lia.
Qed.

(** The bytes read back after a byte is pushed. *)
Lemma polled_push oi c oi' :
  oi_ok oi -> output_size oi < buf_size oi -> output_size oi < 65535 ->
  push_out oi c = Ret oi' ->
  polled oi' = polled oi ++ [c] /\ output_size oi' = output_size oi + 1 /\
  buf_size oi' = buf_size oi /\ oi_ok oi'.
Proof.
  intros [Hl Hp Hu] Hlt Hw. unfold push_out.
  rewrite bool_decide_true by lia. intros [= <-].
  unfold polled. cbn [buf buf_size output_size].
  rewrite u16_small by lia.
  replace (Z.to_nat (output_size oi + 1)) with (S (Z.to_nat (output_size oi)))
    by lia.
  rewrite (take_S_r _ _ c) by (apply list_lookup_insert_eq; lia).
  rewrite take_insert_ge by lia.
  repeat split; cbn [buf buf_size output_size]; rewrite ?length_insert; lia.
Qed.

(** * Properties of the decoder *)

Module DecoderFacts.
Import Decoder.

(** The decoder as [heatshrink_decoder_alloc] hands it out. *)
Definition fresh_decoder (ibs w l : Z) : heatshrink_decoder :=
  heatshrink_decoder_reset (mk_hsd 0 0 0 0 0 0 HSDS_EMPTY 0 0 ibs w l []).

Lemma alloc_fresh ibs w l h :
  heatshrink_decoder_alloc ibs w l = Some h ->
  h = fresh_decoder (u16 ibs) (u8 w) (u8 l).
Proof.
  unfold heatshrink_decoder_alloc.
  destruct (_ || _); [discriminate | intros [= <-]; reflexivity].
Qed.

(** C10. A sink of zero bytes into a decoder in state [HSDS_EMPTY] whose
    input region is not full returns [HSDR_SINK_OK] with zero bytes
    accepted, yet moves the decoder to [HSDS_INPUT_AVAILABLE]; a [finish]
    that follows answers [HSDR_FINISH_MORE], not [HSDR_FINISH_DONE]. *)
Theorem sink_nothing_leaves_empty (h : heatshrink_decoder) :
  state h = HSDS_EMPTY ->
  0 <= input_size h < input_buffer_size h ->
  input_buffer_size h <= 65535 ->
  input_buffer_size h <= Z.of_nat (length (buffers h)) ->
  heatshrink_decoder_finish h = HSDR_FINISH_DONE /\
  exists h',
    heatshrink_decoder_sink h [] = Ret (HSDR_SINK_OK, 0, h') /\
    state h' = HSDS_INPUT_AVAILABLE /\
    input_size h' = input_size h /\
    heatshrink_decoder_finish h' = HSDR_FINISH_MORE.
Proof.
  intros Hst Hsz Hibs Hlen.
  split; [unfold heatshrink_decoder_finish; now rewrite Hst|].
  unfold heatshrink_decoder_sink.
  rewrite usize_small by lia.
  destruct (Z.eqb_spec (input_buffer_size h - input_size h) 0) as [E|_]; [lia|].
  change (Z.of_nat (length (@nil Z))) with 0.
  destruct (Z.ltb_spec (input_buffer_size h - input_size h) 0) as [E|_]; [lia|].
  unfold input_memcpy. rewrite take_nil.
  change (Z.of_nat (length (@nil Z))) with 0.
  rewrite bool_decide_true by lia.
  cbn [mbind outcome_bind set_buffers set_input_size input_size state].
  rewrite Hst. rewrite bool_decide_true by reflexivity.
  eexists; split; [reflexivity|].
  cbn. rewrite Z.add_0_r, u16_small by lia. auto.
Qed.

Lemma sink_nothing_leaves_empty_witness :
  exists h',
    heatshrink_decoder_sink (fresh_decoder 256 8 4) [] = Ret (HSDR_SINK_OK, 0, h') /\
    state h' = HSDS_INPUT_AVAILABLE /\
    input_size h' = 0 /\
    heatshrink_decoder_finish h' = HSDR_FINISH_MORE.
Proof.
  apply (sink_nothing_leaves_empty (fresh_decoder 256 8 4));
    [reflexivity | vm_compute; split; [discriminate | reflexivity]
    | vm_compute; discriminate | vm_compute; discriminate].
Defined.

(** *** Underflow of the tag bit *)

(** With no bit left, a request is answered by [NO_BITS] and the decoder
    is untouched. *)
Lemma get_bits_dry (h : heatshrink_decoder) (count : Z) :
  input_size h = 0 -> bit_index h = 0 -> 1 <= count ->
  get_bits h count = Ret (NO_BITS, h).
Proof.
  intros Hsz Hbi Hc. unfold get_bits.
  destruct (count >? 31); [reflexivity|].
  rewrite Hsz, Hbi. cbn [Z.eqb andb].
  assert (0 < Z.shiftl 1 (count - 1)) as Hpos.
  { rewrite Z.shiftl_1_l. apply Z.pow_pos_nonneg; lia. }
  destruct (Z.ltb_spec 0 (Z.shiftl 1 (count - 1))); [reflexivity | lia].
Qed.

(** [st_backref_index] and [st_backref_count] test for [NO_BITS] and stay
    where they are. *)
Lemma st_backref_index_dry (h : heatshrink_decoder) :
  input_size h = 0 -> bit_index h = 0 -> 1 <= window_sz2 h ->
  st_backref_index h = Ret (HSDS_BACKREF_INDEX, h).
Proof.
  intros. unfold st_backref_index, BACKREF_INDEX_BITS.
  rewrite get_bits_dry by assumption. reflexivity.
Qed.

Lemma st_backref_count_dry (h : heatshrink_decoder) :
  input_size h = 0 -> bit_index h = 0 -> 1 <= lookahead_sz2 h ->
  st_backref_count h = Ret (HSDS_BACKREF_COUNT, h).
Proof.
  intros. unfold st_backref_count, BACKREF_COUNT_BITS.
  rewrite get_bits_dry by assumption. reflexivity.
Qed.

(** [st_input_available] does not: it reads [NO_BITS] as a tag bit of 1. *)
Lemma st_input_available_dry (h : heatshrink_decoder) :
  input_size h = 0 -> bit_index h = 0 ->
  st_input_available h = Ret (HSDS_YIELD_LITERAL, h).
Proof.
  intros. unfold st_input_available.
  rewrite get_bits_dry by (assumption || lia). reflexivity.
Qed.

(** C3, at the failing input.  A decoder that was handed zero bytes is in
    [HSDS_INPUT_AVAILABLE] with no bit to read; the request for the tag
    bit underflows, and the poll leaves the decoder in
    [HSDS_YIELD_LITERAL] instead of the state that made the request.  The
    stream for "foo" sunk afterwards no longer decodes to "foo". *)
Theorem tag_bit_underflow_moves_state :
  exists h h1 oi1,
    heatshrink_decoder_sink (fresh_decoder 256 7 3) [] = Ret (HSDR_SINK_OK, 0, h) /\
    state h = HSDS_INPUT_AVAILABLE /\
    get_bits h 1 = Ret (NO_BITS, h) /\
    heatshrink_decoder_poll 8 h [0; 0; 0; 0] = Ret (HSDR_POLL_EMPTY, h1, oi1) /\
    state h1 = HSDS_YIELD_LITERAL /\
    exists h2 h3 oi3,
      heatshrink_decoder_sink h1 [179; 91; 237; 224] = Ret (HSDR_SINK_OK, 4, h2) /\
      heatshrink_decoder_poll 64 h2 [0; 0; 0] = Ret (HSDR_POLL_MORE, h3, oi3) /\
      polled oi3 = [179; 0; 0] /\
      polled oi3 <> [102; 111; 111].
Proof.
  do 3 eexists.
  split; [vm_compute; reflexivity|].
  split; [reflexivity|].
  split; [vm_compute; reflexivity|].
  split; [vm_compute; reflexivity|].
  split; [reflexivity|].
  do 3 eexists.
  split; [vm_compute; reflexivity|].
  split; [vm_compute; reflexivity|].
  split; [vm_compute; reflexivity | vm_compute; discriminate].
Qed.

(** *** Well-formed decoders and output buffers *)

(** The values the input mask takes: a single bit of a byte, or 0 once it
    has run off the low end. *)
Definition mask_ok (b : Z) : Prop :=
  b = 0 \/ b = 1 \/ b = 2 \/ b = 4 \/ b = 8 \/ b = 16 \/ b = 32 \/ b = 64 \/ b = 128.

Record wf (h : heatshrink_decoder) : Prop := mk_wf {
  wf_window : 4 <= window_sz2 h <= 15;
  wf_lookahead : 3 <= lookahead_sz2 h <= window_sz2 h;
  wf_mask : mask_ok (bit_index h);
  wf_ibs : 1 <= input_buffer_size h <= 65535;
  wf_buffers :
    Z.of_nat (length (buffers h)) = input_buffer_size h + 2 ^ window_sz2 h;
  wf_index : 0 <= input_index h <= input_size h;
  wf_size : input_size h <= input_buffer_size h;
  wf_unread : input_index h = input_size h -> input_size h = 0
}.

(** Two decoders with the same configuration and the same allocation. *)
Definition same_frame (h h' : heatshrink_decoder) : Prop :=
  window_sz2 h' = window_sz2 h /\
  lookahead_sz2 h' = lookahead_sz2 h /\
  input_buffer_size h' = input_buffer_size h /\
  length (buffers h') = length (buffers h).

Lemma same_frame_refl h : same_frame h h.
Proof. repeat split. Qed.

Lemma same_frame_trans h1 h2 h3 :
  same_frame h1 h2 -> same_frame h2 h3 -> same_frame h1 h3.
Proof. unfold same_frame. intuition congruence. Qed.

Lemma pow_window w : 4 <= w <= 15 -> 16 <= 2 ^ w <= 32768.
Proof.
  intros [H1 H2]. split.
  - change 16 with (2 ^ 4). apply Z.pow_le_mono_r; lia.
  - change 32768 with (2 ^ 15). apply Z.pow_le_mono_r; lia.
Qed.

(** The mask of the window keeps any offset inside the window. *)
Lemma land_mask_range x w :
  4 <= w <= 15 ->
  0 <= Z.land x (u16 (Z.shiftl 1 w - 1)) < Z.shiftl 1 w.
Proof.
  intros Hw. pose proof (pow_window w Hw).
  rewrite shiftl_1_pow by lia.
  rewrite u16_small by lia.
  replace (2 ^ w - 1) with (Z.ones w) by (rewrite Z.ones_equiv; lia).
  rewrite Z.land_ones by lia.
  apply Z.mod_pos_bound. lia.
Qed.

Lemma window_read_ok h i :
  wf h -> 0 <= i < Z.shiftl 1 (window_sz2 h) ->
  exists b, window_read h i = Ret b.
Proof.
  intros Hwf Hi. unfold window_read.
  rewrite bool_decide_true by assumption.
  destruct Hwf. rewrite shiftl_1_pow in Hi by lia.
  destruct (buffers h !! Z.to_nat (input_buffer_size h + i)) eqn:E; [eauto|].
  apply lookup_ge_None in E. lia.
Qed.

Lemma window_write_ok h i c :
  wf h -> 0 <= i < Z.shiftl 1 (window_sz2 h) ->
  exists h', window_write h i c = Ret h' /\ wf h' /\ same_frame h h' /\
    input_size h' = input_size h /\ input_index h' = input_index h /\
    head_index h' = head_index h /\ output_count h' = output_count h /\
    output_index h' = output_index h /\ state h' = state h /\
    bit_index h' = bit_index h.
Proof.
  intros Hwf Hi. unfold window_write. destruct Hwf.
  rewrite bool_decide_true
    by (split; [assumption | rewrite shiftl_1_pow in Hi by lia; lia]).
  eexists; split; [reflexivity|].
  split; [constructor; cbn; rewrite ?length_insert; assumption|].
  split; [repeat split; cbn; now rewrite ?length_insert|].
  cbn; repeat split.
Qed.

Lemma input_read_ok h :
  wf h -> input_size h <> 0 -> exists b, input_read h (input_index h) = Ret b.
Proof.
  intros Hwf Hne. destruct Hwf. unfold input_read.
  pose proof (pow_window _ wf_window0).
  rewrite bool_decide_true by lia.
  destruct (buffers h !! Z.to_nat (input_index h)) eqn:E; [eauto|].
  apply lookup_ge_None in E. lia.
Qed.

Ltac dsimpl :=
  cbn [input_size input_index output_count output_index head_index
       bit_accumulator state current_byte bit_index input_buffer_size
       window_sz2 lookahead_sz2 buffers
       set_input_size set_input_index set_output_count set_output_index
       set_head_index set_bit_accumulator set_state set_current_byte
       set_bit_index set_buffers mbind outcome_bind mret outcome_ret] in *.

(** What a run of [get_bits] may change: the input cursor, the current
    byte and its mask, and the accumulator; never an array, the
    configuration, the state or the output fields. *)
Record reads_only (h h' : heatshrink_decoder) : Prop := mk_reads_only {
  ro_frame : same_frame h h';
  ro_buffers : buffers h' = buffers h;
  ro_state : state h' = state h;
  ro_head : head_index h' = head_index h;
  ro_count : output_count h' = output_count h;
  ro_index : output_index h' = output_index h
}.

Lemma reads_only_refl h : reads_only h h.
Proof. constructor; auto using same_frame_refl. Qed.

Lemma reads_only_trans h1 h2 h3 :
  reads_only h1 h2 -> reads_only h2 h3 -> reads_only h1 h3.
Proof.
  intros [] []. constructor; try congruence.
  eapply same_frame_trans; eassumption.
Qed.

Lemma mask_shiftr b : mask_ok b -> mask_ok (Z.shiftr b 1).
Proof.
  unfold mask_ok. intros H.
  repeat (destruct H as [->|H]); [..|subst b];
    change (Z.shiftr 0 1) with 0; change (Z.shiftr 1 1) with 0;
    change (Z.shiftr 2 1) with 1; change (Z.shiftr 4 1) with 2;
    change (Z.shiftr 8 1) with 4; change (Z.shiftr 16 1) with 8;
    change (Z.shiftr 32 1) with 16; change (Z.shiftr 64 1) with 32;
    change (Z.shiftr 128 1) with 64; tauto.
Qed.

Lemma mask_128 : mask_ok 128.
Proof. unfold mask_ok. tauto. Qed.

Ltac frame :=
  first [ assumption | reflexivity | apply mask_128
        | apply mask_shiftr; assumption
        | unfold same_frame; dsimpl; repeat split;
          first [assumption | reflexivity | lia] ].

Lemma shift_bit_ok h : wf h -> wf (shift_bit h) /\ reads_only h (shift_bit h).
Proof.
  intros Hwf. unfold shift_bit. dsimpl.
  destruct (Z.land _ _ =? 0); destruct Hwf;
    (split; [constructor | constructor]); dsimpl; frame.
Qed.

Lemma load_byte_ok h :
  wf h ->
  exists r, load_byte h = Ret r /\
    forall h', r = Some h' -> wf h' /\ reads_only h h'.
Proof.
  intros Hwf. unfold load_byte.
  destruct (bit_index h =? 0).
  - destruct (Z.eqb_spec (input_size h) 0) as [Hz|Hnz].
    + eexists; split; [reflexivity|]. intros ? [=].
    + destruct (input_read_ok h Hwf Hnz) as [b ->]. dsimpl.
      eexists; split; [reflexivity|]. intros h' [= <-].
      destruct Hwf. rewrite u16_small by lia.
      destruct (Z.eqb_spec (input_index h + 1) (input_size h));
        (split; constructor); dsimpl; frame.
  - eexists; split; [reflexivity|]. intros h' [= <-].
    split; [assumption | apply reads_only_refl].
Qed.

Lemma get_bits_step_ok h :
  wf h ->
  exists r, get_bits_step h = Ret r /\
    forall h', r = Some h' -> wf h' /\ reads_only h h'.
Proof.
  intros Hwf. unfold get_bits_step.
  destruct (load_byte_ok h Hwf) as (r & -> & Hr). dsimpl.
  destruct r as [h1|]; (eexists; split; [reflexivity|]); [|intros ? [=]].
  intros h' [= <-]. destruct (Hr h1 eq_refl) as [Hwf1 Hro1].
  destruct (shift_bit_ok h1 Hwf1).
  split; [assumption | eapply reads_only_trans; eassumption].
Qed.

Lemma get_bits_loop_ok n h :
  wf h ->
  exists c h', get_bits_loop n h = Ret (c, h') /\ wf h' /\ reads_only h h'.
Proof.
  revert h. induction n as [|n IH]; intros h Hwf.
  - exists true, h. split; [reflexivity|]. split; [assumption|apply reads_only_refl].
  - cbn [get_bits_loop].
    destruct (get_bits_step_ok h Hwf) as (r & -> & Hr). dsimpl.
    destruct r as [h1|].
    + destruct (Hr h1 eq_refl) as [Hwf1 Hro1].
      destruct (IH h1 Hwf1) as (c & h' & -> & Hwf' & Hro').
      exists c, h'. split; [reflexivity|]. split; [assumption|].
      eapply reads_only_trans; eassumption.
    + exists false, h. split; [reflexivity|].
      split; [assumption|apply reads_only_refl].
Qed.

Lemma get_bits_ok h count :
  wf h ->
  exists v h', get_bits h count = Ret (v, h') /\ wf h' /\ reads_only h h'.
Proof.
  intros Hwf. unfold get_bits.
  destruct (count >? 31);
    [exists NO_BITS, h; auto using reads_only_refl|].
  destruct (_ && _);
    [exists NO_BITS, h; auto using reads_only_refl|].
  destruct (get_bits_loop_ok (Z.to_nat count) h Hwf) as (c & h' & -> & Hwf' & Hro').
  dsimpl. destruct c; eexists _, _; (split; [reflexivity|]).
  - destruct Hwf', Hro'. split; constructor; dsimpl; assumption.
  - split; assumption.
Qed.

Lemma reads_only_wf_state s h : wf h -> wf (set_state s h).
Proof. intros []. constructor; dsimpl; assumption. Qed.

Lemma st_input_available_ok h :
  wf h ->
  exists s h', st_input_available h = Ret (s, h') /\ wf h' /\ same_frame h h'.
Proof.
  intros Hwf. unfold st_input_available.
  destruct (get_bits_ok h 1 Hwf) as (v & h' & -> & Hwf' & []). dsimpl.
  eauto.
Qed.

Lemma st_backref_index_ok h :
  wf h ->
  exists s h', st_backref_index h = Ret (s, h') /\ wf h' /\ same_frame h h'.
Proof.
  intros Hwf. unfold st_backref_index.
  destruct (get_bits_ok h (BACKREF_INDEX_BITS h) Hwf) as (v & h' & -> & Hwf' & []).
  dsimpl. destruct (v =? NO_BITS); eexists _, _; (split; [reflexivity|]); auto.
  destruct Hwf'. split; [constructor; dsimpl; assumption | frame].
Qed.

Lemma st_backref_count_ok h :
  wf h ->
  exists s h', st_backref_count h = Ret (s, h') /\ wf h' /\ same_frame h h'.
Proof.
  intros Hwf. unfold st_backref_count.
  destruct (get_bits_ok h (BACKREF_COUNT_BITS h) Hwf) as (v & h' & -> & Hwf' & []).
  dsimpl. destruct (v =? NO_BITS); eexists _, _; (split; [reflexivity|]); auto.
  destruct Hwf'. split; [constructor; dsimpl; assumption | frame].
Qed.

Lemma set_head_index_ok v h :
  wf h -> wf (set_head_index v h) /\ same_frame h (set_head_index v h).
Proof. intros []. split; [constructor; dsimpl; assumption | frame]. Qed.

Lemma st_yield_literal_ok h oi :
  wf h -> oi_ok oi ->
  exists s h' oi', st_yield_literal h oi = Ret (s, h', oi') /\
    wf h' /\ same_frame h h' /\ oi_ok oi' /\ buf_size oi' = buf_size oi.
Proof.
  intros Hwf Hoi. unfold st_yield_literal.
  destruct (Z.ltb_spec (output_size oi) (buf_size oi)) as [Hlt|_];
    [|eexists _, _, _; split; [reflexivity|]; auto using same_frame_refl].
  destruct (get_bits_ok h 8 Hwf) as (v & h1 & -> & Hwf1 & [Hfr1 _ _ _ _ _]).
  dsimpl.
  destruct (v =? NO_BITS);
    [eexists _, _, _; split; [reflexivity|]; auto|].
  destruct (window_write_ok h1
              (Z.land (head_index h1) (u16 (Z.shiftl 1 (window_sz2 h1) - 1)))
              (Z.land v 255) Hwf1) as (h2 & -> & Hwf2 & Hfr2 & _).
  { apply land_mask_range. apply Hwf1. }
  dsimpl. unfold push_byte.
  destruct (push_out_ok oi (Z.land v 255) Hoi Hlt) as (oi1 & -> & Hoi1 & Hbs & _).
  dsimpl. eexists _, _, _; split; [reflexivity|].
  destruct (set_head_index_ok (u16 (head_index h2 + 1)) h2 Hwf2).
  split; [assumption|]. split; [|auto].
  eapply same_frame_trans; [eassumption|].
  eapply same_frame_trans; eassumption.
Qed.

Lemma yield_backref_loop_ok n : forall neg_offset h oi,
  wf h -> oi_ok oi ->
  (Z.of_nat n <= buf_size oi - output_size oi \/ 65536 <= buf_size oi) ->
  exists h' oi',
    yield_backref_loop n neg_offset (u16 (Z.shiftl 1 (window_sz2 h) - 1)) h oi
      = Ret (h', oi') /\
    wf h' /\ same_frame h h' /\ oi_ok oi' /\ buf_size oi' = buf_size oi /\
    output_count h' = output_count h.
Proof.
  induction n as [|n IH]; intros neg_offset h oi Hwf Hoi Hroom.
  - eexists _, _; split; [reflexivity|]. auto using same_frame_refl.
  - cbn [yield_backref_loop].
    destruct (window_read_ok h
                (Z.land (head_index h - neg_offset)
                        (u16 (Z.shiftl 1 (window_sz2 h) - 1))) Hwf) as (c & ->).
    { apply land_mask_range. apply Hwf. }
    dsimpl. unfold push_byte.
    assert (Hlt : output_size oi < buf_size oi) by (destruct Hoi; lia).
    destruct (push_out_ok oi c Hoi Hlt) as (oi1 & -> & Hoi1 & Hbs & Hnext).
    dsimpl.
    destruct (window_write_ok h
                (Z.land (head_index h) (u16 (Z.shiftl 1 (window_sz2 h) - 1)))
                c Hwf) as (h1 & -> & Hwf1 & Hfr1 & _ & _ & _ & Hoc & _).
    { apply land_mask_range. apply Hwf. }
    dsimpl.
    destruct (set_head_index_ok (u16 (head_index h1 + 1)) h1 Hwf1) as [Hwf2 Hfr2].
    assert (Hw : window_sz2 (set_head_index (u16 (head_index h1 + 1)) h1)
                 = window_sz2 h) by (dsimpl; apply Hfr1).
    rewrite <- Hw.
    destruct (IH neg_offset _ oi1 Hwf2 Hoi1) as (h' & oi' & -> & Hwf' & Hfr' & Hoi' & Hbs' & Hoc').
    { rewrite Hbs. destruct Hroom as [Hr|Hr]; [|right; assumption].
      destruct Hnext; [left; lia | right; assumption]. }
    eexists _, _; split; [reflexivity|].
    split; [assumption|]. split; [|split; [assumption|split; [congruence|]]].
    + exact (same_frame_trans _ _ _ Hfr1 (same_frame_trans _ _ _ Hfr2 Hfr')).
    + rewrite Hoc'. dsimpl. assumption.
Qed.

Lemma st_yield_backref_ok h oi :
  wf h -> oi_ok oi ->
  exists s h' oi', st_yield_backref h oi = Ret (s, h', oi') /\
    wf h' /\ same_frame h h' /\ oi_ok oi' /\ buf_size oi' = buf_size oi.
Proof.
  intros Hwf Hoi. unfold st_yield_backref.
  destruct (usize (buf_size oi - output_size oi) >? 0);
    [|eexists _, _, _; split; [reflexivity|]; auto using same_frame_refl].
  set (count := if output_count h <? usize (buf_size oi - output_size oi)
                then output_count h
                else usize (buf_size oi - output_size oi)).
  destruct (yield_backref_loop_ok (Z.to_nat count) (output_index h) h oi Hwf Hoi)
    as (h1 & oi1 & -> & Hwf1 & Hfr1 & Hoi1 & Hbs1 & _).
  { left. pose proof (usize_le (buf_size oi - output_size oi)).
    destruct Hoi. subst count.
    destruct (Z.ltb_spec (output_count h)
                (usize (buf_size oi - output_size oi))); lia. }
  dsimpl.
  assert (Hwf2 : wf (set_output_count (u16 (output_count h1 - count)) h1))
    by (destruct Hwf1; constructor; dsimpl; assumption).
  assert (Hfr2 : same_frame h (set_output_count (u16 (output_count h1 - count)) h1))
    by (eapply same_frame_trans; [exact Hfr1 | frame]).
  destruct (_ =? 0); eexists _, _, _; (split; [reflexivity|]); auto.
Qed.

Lemma poll_step_ok h oi :
  wf h -> oi_ok oi ->
  exists h' oi' r, poll_step h oi = Ret (h', oi', r) /\
    wf h' /\ same_frame h h' /\ oi_ok oi' /\ buf_size oi' = buf_size oi.
Proof.
  intros Hwf Hoi. unfold poll_step.
  assert (Hfin : forall s h1 oi1,
    wf h1 -> same_frame h h1 -> oi_ok oi1 -> buf_size oi1 = buf_size oi ->
    exists h' oi' r,
      (if bool_decide (state (set_state s h1) = state h)
       then if output_size oi1 =? buf_size oi1
            then Ret (set_state s h1, oi1, Some HSDR_POLL_MORE)
            else Ret (set_state s h1, oi1, Some HSDR_POLL_EMPTY)
       else Ret (set_state s h1, oi1, None)) = Ret (h', oi', r) /\
      wf h' /\ same_frame h h' /\ oi_ok oi' /\ buf_size oi' = buf_size oi).
  { intros s h1 oi1 Hwf1 Hfr1 Hoi1 Hbs1.
    assert (wf (set_state s h1)) by now apply reads_only_wf_state.
    assert (same_frame h (set_state s h1))
      by (eapply same_frame_trans; [exact Hfr1 | frame]).
    destruct (bool_decide _); [destruct (_ =? _)|];
      eexists _, _, _; (split; [reflexivity|]); auto. }
  destruct (state h) eqn:Est.
  - eexists _, _, _; split; [reflexivity|]. auto using same_frame_refl.
  - destruct (st_input_available_ok h Hwf) as (s & h1 & -> & Hwf1 & Hfr1).
    cbn [mbind outcome_bind]. apply Hfin; auto.
  - destruct (st_yield_literal_ok h oi Hwf Hoi)
      as (s & h1 & oi1 & -> & Hwf1 & Hfr1 & Hoi1 & Hbs1).
    cbn [mbind outcome_bind]. apply Hfin; auto.
  - destruct (st_backref_index_ok h Hwf) as (s & h1 & -> & Hwf1 & Hfr1).
    cbn [mbind outcome_bind]. apply Hfin; auto.
  - destruct (st_backref_count_ok h Hwf) as (s & h1 & -> & Hwf1 & Hfr1).
    cbn [mbind outcome_bind]. apply Hfin; auto.
  - destruct (st_yield_backref_ok h oi Hwf Hoi)
      as (s & h1 & oi1 & -> & Hwf1 & Hfr1 & Hoi1 & Hbs1).
    cbn [mbind outcome_bind]. apply Hfin; auto.
  - cbn [mbind outcome_bind]. apply Hfin; auto using same_frame_refl.
Qed.

Lemma poll_loop_ok fuel : forall h oi,
  wf h -> oi_ok oi ->
  poll_loop fuel h oi = OutOfFuel \/
  exists r h' oi', poll_loop fuel h oi = Ret (r, h', oi') /\
    wf h' /\ same_frame h h' /\ oi_ok oi'.
Proof.
  induction fuel as [|fuel IH]; intros h oi Hwf Hoi; [left; reflexivity|].
  cbn [poll_loop].
  destruct (poll_step_ok h oi Hwf Hoi) as (h1 & oi1 & r & -> & Hwf1 & Hfr1 & Hoi1 & _).
  cbn [mbind outcome_bind].
  destruct r as [res|].
  - right. eexists _, _, _; split; [reflexivity|]. auto.
  - destruct (IH h1 oi1 Hwf1 Hoi1) as [->|(r & h' & oi' & -> & Hwf' & Hfr' & Hoi')];
      [left; reflexivity|right].
    eexists _, _, _; split; [reflexivity|].
    split; [assumption|]. split; [|assumption].
    exact (same_frame_trans _ _ _ Hfr1 Hfr').
Qed.

Lemma sink_ok h in_buf :
  wf h ->
  exists r n h', heatshrink_decoder_sink h in_buf = Ret (r, n, h') /\
    wf h' /\ same_frame h h'.
Proof.
  intros Hwf. unfold heatshrink_decoder_sink.
  pose proof Hwf as [Hw Hla Hmask Hibs Hlen Hidx Hsz Hun].
  pose proof (pow_window _ Hw) as Hpw.
  rewrite usize_small by lia.
  destruct (Z.eqb_spec (input_buffer_size h - input_size h) 0) as [_|Hroom];
    [eexists _, _, _; split; [reflexivity|]; auto using same_frame_refl|].
  set (size := if input_buffer_size h - input_size h <? Z.of_nat (length in_buf)
               then input_buffer_size h - input_size h
               else Z.of_nat (length in_buf)).
  assert (Hsize : 0 <= size <= input_buffer_size h - input_size h
                  /\ size <= Z.of_nat (length in_buf)).
  { subst size. destruct (Z.ltb_spec (input_buffer_size h - input_size h)
                            (Z.of_nat (length in_buf))); lia. }
  assert (Hlt : length (take (Z.to_nat size) in_buf) = Z.to_nat size)
    by (rewrite length_take; lia).
  unfold input_memcpy. rewrite Hlt.
  rewrite bool_decide_true by lia.
  dsimpl. rewrite u16_small by lia.
  eexists _, _, _; split; [reflexivity|].
  assert (Hlen' : length (take (Z.to_nat (input_size h)) (buffers h) ++
                   take (Z.to_nat size) in_buf ++
                   drop (Z.to_nat (input_size h) + Z.to_nat size) (buffers h))
                  = length (buffers h)).
  { rewrite !length_app, length_take, length_drop, Hlt. lia. }
  destruct (bool_decide (state h = HSDS_EMPTY));
    (split; [constructor|unfold same_frame]); dsimpl;
    rewrite ?Hlen', ?(u16_small (input_size h + size)) by lia;
    repeat split; first [assumption | lia].
Qed.

(** *** Bits left to read

    The bits still in the current byte, by the position of the mask, and
    those of the unread bytes of the input region. *)
Definition nbits (b : Z) : Z := if b =? 0 then 0 else Z.log2 b + 1.

Definition bits_left (h : heatshrink_decoder) : Z :=
  8 * (input_size h - input_index h) + nbits (bit_index h).

Lemma nbits_range b : mask_ok b -> 0 <= nbits b <= 8.
Proof.
  unfold mask_ok. intros H.
  repeat (destruct H as [->|H]); [..|subst b]; vm_compute; split; discriminate.
Qed.

Lemma nbits_zero b : mask_ok b -> (nbits b = 0 <-> b = 0).
Proof.
  unfold mask_ok. intros H.
  repeat (destruct H as [->|H]); [..|subst b]; vm_compute; split;
    (reflexivity || discriminate).
Qed.

Lemma nbits_shiftr b : mask_ok b -> b <> 0 -> nbits (Z.shiftr b 1) = nbits b - 1.
Proof.
  unfold mask_ok. intros H Hne.
  repeat (destruct H as [->|H]); [..|subst b]; try reflexivity. congruence.
Qed.

(** The test that opens [get_bits] compares the mask with
    [1 << (count - 1)]; on a mask it says that fewer than [count] bits are
    left in the current byte. *)
Lemma mask_lt_shiftl b count :
  mask_ok b -> 1 <= count ->
  (b < Z.shiftl 1 (count - 1) <-> nbits b < count).
Proof.
  intros H Hc. rewrite shiftl_1_pow by lia.
  assert (Hp : forall j, 0 <= j -> (2 ^ j < 2 ^ (count - 1) <-> j + 1 < count)).
  { intros j Hj. rewrite <- Z.pow_lt_mono_r_iff by lia. lia. }
  assert (H0 : 0 < 2 ^ (count - 1)) by (apply Z.pow_pos_nonneg; lia).
  unfold mask_ok in H.
  destruct H as [->|H]; [change (nbits 0) with 0; lia|].
  destruct H as [->|H]; [apply (Hp 0); lia|].
  destruct H as [->|H]; [apply (Hp 1); lia|].
  destruct H as [->|H]; [apply (Hp 2); lia|].
  destruct H as [->|H]; [apply (Hp 3); lia|].
  destruct H as [->|H]; [apply (Hp 4); lia|].
  destruct H as [->|H]; [apply (Hp 5); lia|].
  destruct H as [-> | ->]; [apply (Hp 6); lia|apply (Hp 7); lia].
Qed.

Lemma bits_left_nonneg h : wf h -> 0 <= bits_left h.
Proof.
  intros []. unfold bits_left. pose proof (nbits_range _ wf_mask0). lia.
Qed.

Lemma bits_left_zero h :
  wf h -> (bits_left h = 0 <-> bit_index h = 0 /\ input_size h = 0).
Proof.
  intros []. unfold bits_left.
  pose proof (nbits_range _ wf_mask0). pose proof (nbits_zero _ wf_mask0).
  split; [intros ?; split; [|lia]|intros [? ?]]; lia.
Qed.

Lemma shift_bit_bits h :
  wf h -> bit_index h <> 0 -> bits_left (shift_bit h) = bits_left h - 1.
Proof.
  intros [] Hne. unfold shift_bit, bits_left. dsimpl.
  destruct (Z.land _ _ =? 0); dsimpl; rewrite nbits_shiftr by assumption; lia.
Qed.

Lemma load_byte_bits h r :
  wf h -> load_byte h = Ret r ->
  match r with
  | Some h' => bits_left h' = bits_left h /\ bit_index h' <> 0 /\
               bit_accumulator h' = bit_accumulator h
  | None => bits_left h = 0
  end.
Proof.
  intros Hwf. unfold load_byte.
  destruct (Z.eqb_spec (bit_index h) 0) as [Hb|Hb].
  - destruct (Z.eqb_spec (input_size h) 0) as [Hz|Hnz].
    + intros [= <-]. now apply bits_left_zero.
    + destruct (input_read_ok h Hwf Hnz) as [b ->]. dsimpl.
      intros [= <-]. destruct Hwf. rewrite u16_small by lia.
      unfold bits_left. rewrite Hb.
      destruct (Z.eqb_spec (input_index h + 1) (input_size h)); dsimpl;
        change (nbits 128) with 8; change (nbits 0) with 0;
        repeat split; lia.
  - intros [= <-]. auto.
Qed.

Lemma shift_bit_acc h :
  bit_accumulator (shift_bit h) =
  Z.lor (u32 (Z.shiftl (bit_accumulator h) 1))
        (if Z.land (current_byte h) (bit_index h) =? 0 then 0 else 1).
Proof.
  unfold shift_bit. dsimpl. destruct (Z.land _ _ =? 0); dsimpl;
    [now rewrite Z.lor_0_r | reflexivity].
Qed.

Lemma get_bits_step_bits h r :
  wf h -> get_bits_step h = Ret r ->
  match r with
  | Some h' => bits_left h' = bits_left h - 1
  | None => bits_left h = 0
  end.
Proof.
  intros Hwf. unfold get_bits_step.
  destruct (load_byte_ok h Hwf) as (r0 & E & Hr0). rewrite E. dsimpl.
  pose proof (load_byte_bits h r0 Hwf E) as Hb.
  destruct r0 as [h1|]; intros [= <-]; [|assumption].
  destruct Hb as (Hb1 & Hb2 & _). destruct (Hr0 h1 eq_refl) as [Hwf1 _].
  rewrite shift_bit_bits by assumption. lia.
Qed.

Lemma get_bits_loop_bits n : forall h c h',
  wf h -> get_bits_loop n h = Ret (c, h') ->
  if c : bool
  then Z.of_nat n <= bits_left h /\ bits_left h' = bits_left h - Z.of_nat n
  else bits_left h < Z.of_nat n /\ bits_left h' = 0.
Proof.
  induction n as [|n IH]; intros h c h' Hwf.
  - intros [= <- <-]. pose proof (bits_left_nonneg h Hwf). lia.
  - cbn [get_bits_loop].
    destruct (get_bits_step_ok h Hwf) as (r & E & Hr). rewrite E. dsimpl.
    pose proof (get_bits_step_bits h r Hwf E) as Hb.
    destruct r as [h1|].
    + intros E1. destruct (Hr h1 eq_refl) as [Hwf1 _].
      specialize (IH h1 c h' Hwf1 E1).
      destruct c; lia.
    + intros [= <- <-]. lia.
Qed.

Lemma get_bits_bits h count v h' :
  wf h -> 1 <= count <= 31 -> get_bits h count = Ret (v, h') ->
  (bits_left h < count /\ v = NO_BITS /\ h' = h \/
   bits_left h < count /\ v = NO_BITS /\ bits_left h' = 0 /\ input_size h <> 0) \/
  (count <= bits_left h /\ bits_left h' = bits_left h - count).
Proof.
  intros Hwf Hc. unfold get_bits.
  destruct (Z.gtb_spec count 31) as [?|_]; [lia|].
  destruct (Z.eqb_spec (input_size h) 0) as [Hz|Hnz]; cbn [andb].
  - destruct (Z.ltb_spec (bit_index h) (Z.shiftl 1 (count - 1))) as [Hlt|Hge].
    + intros [= <- <-]. left. left.
      apply mask_lt_shiftl in Hlt; [|apply Hwf|lia].
      destruct Hwf. unfold bits_left. repeat split; lia.
    + destruct (get_bits_loop_ok (Z.to_nat count) h Hwf) as (c & h1 & E & _).
      rewrite E. dsimpl.
      pose proof (get_bits_loop_bits _ _ _ _ Hwf E) as Hb.
      assert (~ bit_index h < Z.shiftl 1 (count - 1)) as Hn by lia.
      rewrite mask_lt_shiftl in Hn by (apply Hwf || lia).
      assert (bits_left h = nbits (bit_index h))
        by (destruct Hwf; unfold bits_left; lia).
      destruct c; intros [= <- <-]; [|lia].
      right. unfold bits_left in *. dsimpl. lia.
  - destruct (get_bits_loop_ok (Z.to_nat count) h Hwf) as (c & h1 & E & _).
    rewrite E. dsimpl.
    pose proof (get_bits_loop_bits _ _ _ _ Hwf E) as Hb.
    destruct c; intros [= <- <-].
    + right. unfold bits_left in *. dsimpl. lia.
    + left. right. repeat split; lia.
Qed.

(** *** Every poll returns

    [potential] goes down at each turn of the loop that does not return:
    a turn that takes no bit moves to a state of lower rank, and the two
    moves to a state of higher rank have taken bits. *)
Definition rank (s : HEATSHRINK_DECODER_STATE) : Z :=
  match s with
  | HSDS_EMPTY => 0
  | HSDS_INPUT_AVAILABLE => 2
  | HSDS_YIELD_LITERAL => 0
  | HSDS_BACKREF_INDEX => 1
  | HSDS_BACKREF_COUNT => 0
  | HSDS_YIELD_BACKREF => 4
  | HSDS_CHECK_FOR_MORE_INPUT => 3
  end.

Definition potential (h : heatshrink_decoder) : Z :=
  6 * bits_left h + rank (state h).

Definition same_input (h h' : heatshrink_decoder) : Prop :=
  input_size h' = input_size h /\ input_index h' = input_index h /\
  bit_index h' = bit_index h.

Lemma same_input_bits h h' : same_input h h' -> bits_left h' = bits_left h.
Proof. intros (H1 & H2 & H3). unfold bits_left. now rewrite H1, H2, H3. Qed.

Lemma window_write_input h i c h' :
  window_write h i c = Ret h' -> same_input h h'.
Proof.
  unfold window_write. destruct (bool_decide _); [|discriminate].
  intros [= <-]. repeat split.
Qed.

Lemma yield_backref_loop_input n : forall neg mask h oi h' oi',
  yield_backref_loop n neg mask h oi = Ret (h', oi') -> same_input h h'.
Proof.
  induction n as [|n IH]; intros neg mask h oi h' oi'.
  - intros [= <- <-]. repeat split.
  - cbn [yield_backref_loop].
    destruct (window_read _ _) as [c| |]; dsimpl; try discriminate.
    destruct (push_byte _ _ _) as [oi1| |]; dsimpl; try discriminate.
    destruct (window_write _ _ _) as [h1| |] eqn:Ew; dsimpl; try discriminate.
    intros E. apply IH in E. apply window_write_input in Ew.
    destruct E as (E1 & E2 & E3), Ew as (W1 & W2 & W3).
    dsimpl. repeat split; congruence.
Qed.

Lemma poll_step_progress h oi h' oi' :
  wf h -> oi_ok oi ->
  poll_step h oi = Ret (h', oi', None) -> potential h' < potential h.
Proof.
  intros Hwf Hoi. unfold poll_step, potential.
  pose proof Hwf as [Hw Hl _ _ _ _ _ _].
  destruct (state h) eqn:Est.
  - discriminate.
  - (* HSDS_INPUT_AVAILABLE *)
    unfold st_input_available.
    destruct (get_bits h 1) as [[v h1]| |] eqn:E; dsimpl; try discriminate.
    apply get_bits_bits in E; [|assumption|lia].
    assert (bits_left h1 <= bits_left h).
    { destruct E as [[(?&?&->)|(?&?&?&?)]|(?&?)]; try lia.
      pose proof (bits_left_nonneg h Hwf); lia. }
    destruct (v =? 0); dsimpl;
      (destruct (bool_decide _); [destruct (_ =? _); discriminate|]);
      intros [= <- <-]; unfold bits_left in *; dsimpl; cbn [rank]; lia.
  - (* HSDS_YIELD_LITERAL *)
    unfold st_yield_literal.
    destruct (output_size oi <? buf_size oi);
      [|dsimpl; rewrite bool_decide_true by reflexivity;
        destruct (_ =? _); discriminate].
    destruct (get_bits h 8) as [[v h1]| |] eqn:E; dsimpl; try discriminate.
    destruct (get_bits_ok h 8 Hwf) as (v' & h1' & E' & _ & Hro).
    rewrite E in E'. injection E' as <- <-.
    apply get_bits_bits in E; [|assumption|lia].
    destruct (Z.eqb_spec v NO_BITS) as [Hv|Hv].
    + dsimpl. rewrite bool_decide_true by reflexivity.
      destruct (_ =? _); discriminate.
    + destruct (window_write h1 _ _) as [h2| |] eqn:Ew; dsimpl; try discriminate.
      destruct (push_byte _ _ _) as [oi1| |]; dsimpl; try discriminate.
      apply window_write_input in Ew. destruct Ew as (W1 & W2 & W3).
      destruct (bool_decide _); [destruct (_ =? _); discriminate|].
      intros [= <- <-]. unfold bits_left in *. dsimpl. cbn [rank].
      rewrite W1, W2, W3.
      destruct E as [[(?&?&?)|(?&?&?&?)]|(?&?)]; [congruence|congruence|lia].
  - (* HSDS_BACKREF_INDEX *)
    unfold st_backref_index, BACKREF_INDEX_BITS.
    destruct (get_bits h _) as [[v h1]| |] eqn:E; dsimpl; try discriminate.
    destruct (get_bits_ok h (window_sz2 h) Hwf) as (v' & h1' & E' & _ & Hro).
    rewrite E in E'. injection E' as <- <-.
    apply get_bits_bits in E; [|assumption|lia].
    destruct (Z.eqb_spec v NO_BITS) as [Hv|Hv]; dsimpl.
    + rewrite bool_decide_true by reflexivity.
      destruct (_ =? _); discriminate.
    + destruct (bool_decide _); [destruct (_ =? _); discriminate|].
      intros [= <- <-]. unfold bits_left in *. dsimpl. cbn [rank].
      destruct E as [[(?&?&?)|(?&?&?&?)]|(?&?)]; [congruence|congruence|lia].
  - (* HSDS_BACKREF_COUNT *)
    unfold st_backref_count, BACKREF_COUNT_BITS.
    destruct (get_bits h _) as [[v h1]| |] eqn:E; dsimpl; try discriminate.
    destruct (get_bits_ok h (lookahead_sz2 h) Hwf) as (v' & h1' & E' & _ & Hro).
    rewrite E in E'. injection E' as <- <-.
    apply get_bits_bits in E; [|assumption|lia].
    destruct (Z.eqb_spec v NO_BITS) as [Hv|Hv]; dsimpl.
    + rewrite bool_decide_true by reflexivity.
      destruct (_ =? _); discriminate.
    + destruct (bool_decide _); [destruct (_ =? _); discriminate|].
      intros [= <- <-]. unfold bits_left in *. dsimpl. cbn [rank].
      destruct E as [[(?&?&?)|(?&?&?&?)]|(?&?)]; [congruence|congruence|lia].
  - (* HSDS_YIELD_BACKREF *)
    unfold st_yield_backref.
    destruct (usize _ >? 0);
      [|dsimpl; rewrite bool_decide_true by reflexivity;
        destruct (_ =? _); discriminate].
    destruct (yield_backref_loop _ _ _ _ _) as [[h1 oi1]| |] eqn:E;
      dsimpl; try discriminate.
    apply yield_backref_loop_input in E. destruct E as (E1 & E2 & E3).
    destruct (_ =? 0); dsimpl;
      [|rewrite bool_decide_true by reflexivity;
        destruct (_ =? _); discriminate].
    rewrite bool_decide_false by discriminate.
    intros [= <- <-]; unfold bits_left; dsimpl; cbn [rank];
      rewrite E1, E2, E3; lia.
  - (* HSDS_CHECK_FOR_MORE_INPUT *)
    dsimpl. unfold st_check_for_input.
    destruct (bool_decide _); [destruct (_ =? _); discriminate|].
    intros [= <- <-]. unfold bits_left. dsimpl.
    destruct (_ =? 0); cbn [rank]; lia.
Qed.

Lemma potential_nonneg h : wf h -> 0 <= potential h.
Proof.
  intros Hwf. unfold potential. pose proof (bits_left_nonneg h Hwf).
  destruct (state h); cbn [rank]; lia.
Qed.

(** The turns a poll is given: more than the potential of the decoder it
    starts from. *)
Definition poll_fuel (h : heatshrink_decoder) : nat :=
  S (Z.to_nat (potential h)).

Lemma poll_loop_returns fuel : forall h oi,
  wf h -> oi_ok oi -> potential h < Z.of_nat fuel ->
  exists r h' oi', poll_loop fuel h oi = Ret (r, h', oi') /\
    wf h' /\ same_frame h h' /\ oi_ok oi'.
Proof.
  induction fuel as [|fuel IH]; intros h oi Hwf Hoi Hpot.
  - pose proof (potential_nonneg h Hwf). lia.
  - cbn [poll_loop].
    destruct (poll_step_ok h oi Hwf Hoi)
      as (h1 & oi1 & r & E & Hwf1 & Hfr1 & Hoi1 & _).
    rewrite E. cbn [mbind outcome_bind].
    destruct r as [res|].
    + eexists _, _, _; split; [reflexivity|]. auto.
    + pose proof (poll_step_progress _ _ _ _ Hwf Hoi E).
      destruct (IH h1 oi1 Hwf1 Hoi1) as (r & h' & oi' & -> & Hwf' & Hfr' & Hoi');
        [lia|].
      eexists _, _, _; split; [reflexivity|].
      split; [assumption|]. split; [|assumption].
      exact (same_frame_trans _ _ _ Hfr1 Hfr').
Qed.

(** *** The decoders a caller can hold *)

Inductive reachable : heatshrink_decoder -> Prop :=
  | reach_alloc ibs w l h :
      heatshrink_decoder_alloc ibs w l = Some h -> reachable h
  | reach_reset h :
      reachable h -> reachable (heatshrink_decoder_reset h)
  | reach_sink h in_buf r n h' :
      reachable h ->
      heatshrink_decoder_sink h in_buf = Ret (r, n, h') -> reachable h'
  | reach_poll h fuel out_buf r h' oi :
      reachable h ->
      heatshrink_decoder_poll fuel h out_buf = Ret (r, h', oi) -> reachable h'.

Lemma reset_wf h :
  4 <= window_sz2 h <= 15 -> 3 <= lookahead_sz2 h <= window_sz2 h ->
  1 <= input_buffer_size h <= 65535 ->
  wf (heatshrink_decoder_reset h).
Proof.
  intros Hw Hl Hibs. pose proof (pow_window _ Hw).
  constructor; unfold heatshrink_decoder_reset; dsimpl;
    rewrite ?length_replicate, ?shiftl_1_pow by lia;
    first [lia | unfold mask_ok; tauto].
Qed.

Lemma alloc_wf ibs w l h :
  heatshrink_decoder_alloc ibs w l = Some h -> wf h.
Proof.
  unfold heatshrink_decoder_alloc,
    HEATSHRINK_MIN_WINDOW_BITS, HEATSHRINK_MAX_WINDOW_BITS,
    HEATSHRINK_MIN_LOOKAHEAD_BITS.
  destruct (Z.ltb_spec (u8 w) 4); [discriminate|].
  destruct (Z.gtb_spec (u8 w) 15); [discriminate|].
  destruct (Z.eqb_spec (u16 ibs) 0); [discriminate|].
  destruct (Z.ltb_spec (u8 l) 3); [discriminate|].
  destruct (Z.gtb_spec (u8 l) (u8 w)); [discriminate|].
  intros [= <-]. apply reset_wf; dsimpl; try lia.
  pose proof (Z.mod_pos_bound ibs 65536). unfold u16 in *. lia.
Qed.

Lemma reachable_wf h : reachable h -> wf h.
Proof.
  induction 1 as [ibs w l h Ha|h _ IH|h in_buf r n h' _ IH Hs
                 |h fuel out_buf r h' oi _ IH Hp].
  - eapply alloc_wf; eassumption.
  - destruct IH. apply reset_wf; assumption.
  - destruct (sink_ok h in_buf IH) as (r0 & n0 & h0 & E & Hwf & _).
    rewrite E in Hs. injection Hs as <- <- <-. assumption.
  - unfold heatshrink_decoder_poll in Hp.
    destruct (poll_loop_ok fuel h (new_output_info out_buf) IH
                (new_output_info_ok out_buf))
      as [E|(r0 & h0 & oi0 & E & Hwf & _)]; rewrite E in Hp; [discriminate|].
    injection Hp as <- <- <-. assumption.
Qed.

(** C2. Whatever bytes are sunk, compressed by the encoder or not, the
    decoder never indexes outside the region it addresses: a sink
    completes, a poll cut after any number of turns has met no access out
    of bounds (window offsets are masked to the window, input offsets lie
    below [input_size]), and a poll given [poll_fuel] turns returns. *)
Theorem decoder_accesses_in_bounds (h : heatshrink_decoder) :
  reachable h ->
  (forall in_buf, exists r n h',
      heatshrink_decoder_sink h in_buf = Ret (r, n, h')) /\
  (forall fuel out_buf, heatshrink_decoder_poll fuel h out_buf <> OutOfBounds) /\
  (forall out_buf, exists r h' oi,
      heatshrink_decoder_poll (poll_fuel h) h out_buf = Ret (r, h', oi)).
Proof.
  intros Hr. apply reachable_wf in Hr. split; [|split].
  - intros in_buf.
    destruct (sink_ok h in_buf Hr) as (r & n & h' & E & _). eauto.
  - intros fuel out_buf. unfold heatshrink_decoder_poll.
    destruct (poll_loop_ok fuel h (new_output_info out_buf) Hr
                (new_output_info_ok out_buf)) as [->|(r & h' & oi & -> & _)];
      discriminate.
  - intros out_buf. unfold heatshrink_decoder_poll.
    destruct (poll_loop_returns (poll_fuel h) h (new_output_info out_buf) Hr
                (new_output_info_ok out_buf)) as (r & h' & oi & E & _).
    + unfold poll_fuel. pose proof (potential_nonneg h Hr). lia.
    + eauto.
Qed.

Lemma decoder_accesses_in_bounds_witness :
  (forall in_buf, exists r n h',
      heatshrink_decoder_sink (fresh_decoder 64 8 4) in_buf = Ret (r, n, h')) /\
  (forall fuel out_buf,
      heatshrink_decoder_poll fuel (fresh_decoder 64 8 4) out_buf <> OutOfBounds) /\
  (forall out_buf, exists r h' oi,
      heatshrink_decoder_poll (poll_fuel (fresh_decoder 64 8 4))
        (fresh_decoder 64 8 4) out_buf = Ret (r, h', oi)).
Proof.
  apply (decoder_accesses_in_bounds (fresh_decoder 64 8 4)).
  apply (reach_alloc 64 8 4). reflexivity.
Defined.

(** *** The values a poll returns

    The decoder has no test on the capacity of the output buffer: a poll
    answers [HSDR_POLL_EMPTY] or [HSDR_POLL_MORE], whatever the buffer. *)
Lemma poll_step_codes h oi h' oi' r :
  poll_step h oi = Ret (h', oi', Some r) ->
  r = HSDR_POLL_EMPTY \/ r = HSDR_POLL_MORE.
Proof.
  unfold poll_step.
  assert (Hfin : forall (s : HEATSHRINK_DECODER_STATE) h1 oi1 st,
    (if bool_decide (state (set_state s h1) = st)
     then if output_size oi1 =? buf_size oi1
          then Ret (set_state s h1, oi1, Some HSDR_POLL_MORE)
          else Ret (set_state s h1, oi1, Some HSDR_POLL_EMPTY)
     else Ret (set_state s h1, oi1, None)) = Ret (h', oi', Some r) ->
    r = HSDR_POLL_EMPTY \/ r = HSDR_POLL_MORE).
  { intros s h1 oi1 st. destruct (bool_decide _); [destruct (_ =? _)|];
      intros [= <- <- <-]; auto. }
  destruct (state h).
  - intros [= <- <- <-]. auto.
  - destruct (st_input_available h) as [[s h1]| |]; dsimpl; try discriminate.
    apply Hfin.
  - destruct (st_yield_literal h oi) as [[[s h1] oi1]| |]; dsimpl;
      try discriminate. apply Hfin.
  - destruct (st_backref_index h) as [[s h1]| |]; dsimpl; try discriminate.
    apply Hfin.
  - destruct (st_backref_count h) as [[s h1]| |]; dsimpl; try discriminate.
    apply Hfin.
  - destruct (st_yield_backref h oi) as [[[s h1] oi1]| |]; dsimpl;
      try discriminate. apply Hfin.
  - dsimpl. apply Hfin.
Qed.

Lemma poll_codes fuel : forall h oi r h' oi',
  poll_loop fuel h oi = Ret (r, h', oi') ->
  r = HSDR_POLL_EMPTY \/ r = HSDR_POLL_MORE.
Proof.
  induction fuel as [|fuel IH]; intros h oi r h' oi'; [discriminate|].
  cbn [poll_loop].
  destruct (poll_step h oi) as [[[h1 oi1] [r1|]]| |] eqn:E; dsimpl;
    try discriminate.
  - intros [= <- <- <-]. eapply poll_step_codes; eassumption.
  - apply IH.
Qed.

End DecoderFacts.

(** * Properties of the encoder *)

Module EncoderFacts.
Import Encoder.

Ltac esimpl :=
  cbn [input_size match_scan_index match_length match_pos outgoing_bits
       outgoing_bits_count flags state current_byte bit_index window_sz2
       lookahead_sz2 search_index buffer
       set_input_size set_match_scan_index set_match_length set_match_pos
       set_outgoing_bits set_outgoing_bits_count set_flags set_state
       set_current_byte set_bit_index set_search_index set_buffer
       mbind outcome_bind mret outcome_ret fst snd] in *.

Lemma set_state_same e : set_state (state e) e = e.
Proof. destruct e; reflexivity. Qed.

(** The encoder as [heatshrink_encoder_alloc] hands it out. *)
Definition fresh_encoder (use_index : bool) (fresh_index : list Z) (w l : Z)
  : heatshrink_encoder :=
  heatshrink_encoder_reset
    (mk_hse 0 0 0 0 0 0 0 HSES_NOT_FULL 0 0 w l
       (if use_index then fresh_index else []) []).

(** *** The poll loop when the output buffer is full *)

(** The four states that write a symbol stay where they are when the
    output buffer has no room, and the loop returns [HSER_POLL_MORE]. *)
Lemma poll_step_full use_index e oi :
  state e = HSES_YIELD_TAG_BIT \/ state e = HSES_YIELD_LITERAL \/
  state e = HSES_YIELD_BR_INDEX \/ state e = HSES_YIELD_BR_LENGTH ->
  output_size oi = buf_size oi ->
  poll_step use_index e oi = Ret (e, oi, Some HSER_POLL_MORE).
Proof.
  intros Hst Hfull. unfold poll_step.
  assert (Hc : can_take_byte oi = false)
    by (unfold can_take_byte; apply Z.ltb_ge; lia).
  assert (Hq : (output_size oi =? buf_size oi) = true) by (apply Z.eqb_eq; lia).
  destruct Hst as [H|[H|[H|H]]]; rewrite H;
    unfold st_yield_tag_bit, st_yield_literal, st_yield_br_index,
      st_yield_br_length; rewrite Hc; esimpl;
    rewrite <- H, set_state_same, bool_decide_true, Hq by reflexivity;
    reflexivity.
Qed.

(** [HSES_FLUSH_BITS] stays as well when a partial byte is pending and the
    buffer is full, but the value returned is [HSER_POLL_EMPTY]: its case
    of the [switch] runs into the [return] of [HSES_DONE]. *)
Lemma poll_step_flush_full use_index e oi :
  state e = HSES_FLUSH_BITS -> bit_index e <> 128 ->
  output_size oi = buf_size oi ->
  poll_step use_index e oi = Ret (e, oi, Some HSER_POLL_EMPTY).
Proof.
  intros Hst Hbit Hfull. unfold poll_step. rewrite Hst.
  unfold st_flush_bit_buffer, can_take_byte.
  destruct (Z.eqb_spec (bit_index e) 128); [contradiction|].
  destruct (Z.ltb_spec (output_size oi) (buf_size oi)); [lia|].
  esimpl. now rewrite <- Hst, set_state_same.
Qed.

(** The state an encoder for (W, L) = (8, 7) is in after a one-byte input
    and [finish]. *)
Definition one_byte_finished : heatshrink_encoder :=
  (heatshrink_encoder_finish
     (heatshrink_encoder_sink (fresh_encoder false [] 8 7) [97]).2).2.

(** C4, at the failing input.  Polling with a one-byte buffer writes the
    first byte of the literal and reaches [HSES_FLUSH_BITS] with the last
    bit of the literal pending in [current_byte] and the buffer full: the
    state is kept, but the poll returns [HSER_POLL_EMPTY], not
    [HSER_POLL_MORE]. *)
Theorem flush_with_full_buffer_returns_empty :
  exists e1 oi1,
    heatshrink_encoder_poll false 16 one_byte_finished [0]
      = Ret (HSER_POLL_EMPTY, e1, Some oi1) /\
    state e1 = HSES_FLUSH_BITS /\
    bit_index e1 = 64 /\ current_byte e1 = 128 /\
    polled oi1 = [176] /\ output_size oi1 = buf_size oi1 /\
    (heatshrink_encoder_finish e1).1 = HSER_FINISH_MORE /\
    poll_step false e1 oi1 = Ret (e1, oi1, Some HSER_POLL_EMPTY).
Proof.
  do 2 eexists. split; [vm_compute; reflexivity|].
  repeat split.
Qed.

(** *** Invariants of the encoder *)

(** The values the output mask takes. *)
Definition emask_ok (b : Z) : Prop :=
  b = 128 \/ b = 64 \/ b = 32 \/ b = 16 \/ b = 8 \/ b = 4 \/ b = 2 \/ b = 1.

(** The invariants of section 3 of the specification. *)
Record encoder_invariants (e : heatshrink_encoder) : Prop := mk_einv {
  inv_size : input_size e <= 2 ^ window_sz2 e;
  inv_scan : match_scan_index e <= input_size e;
  inv_filled : state e = HSES_FILLED ->
               input_size e = 2 ^ window_sz2 e \/ is_finishing e <> 0;
  inv_mask : emask_ok (bit_index e)
}.

(** What the operations keep besides: a valid configuration, and the
    match found by the last search still fitting the input. *)
Record ewf (e : heatshrink_encoder) : Prop := mk_ewf {
  e_window : 4 <= window_sz2 e <= 15;
  e_lookahead : 3 <= lookahead_sz2 e <= window_sz2 e;
  e_scan : 0 <= match_scan_index e;
  e_mlen : 0 <= match_length e;
  e_fit : match_scan_index e + match_length e <= input_size e;
  e_size : input_size e <= 2 ^ window_sz2 e;
  e_filled : state e = HSES_FILLED ->
             input_size e = 2 ^ window_sz2 e \/ is_finishing e <> 0;
  e_mask : emask_ok (bit_index e)
}.

Lemma ewf_invariants e : ewf e -> encoder_invariants e.
Proof. intros []. constructor; try assumption. lia. Qed.

Lemma land_lor_same f m : Z.land (Z.lor f m) m = m.
Proof.
  apply Z.bits_inj'. intros n _.
  rewrite Z.land_spec, Z.lor_spec.
  destruct (Z.testbit f n), (Z.testbit m n); reflexivity.
Qed.

Lemma emask_step b :
  emask_ok b ->
  emask_ok (if Z.shiftr b 1 =? 0 then 128 else Z.shiftr b 1).
Proof.
  unfold emask_ok. intros H.
  repeat (destruct H as [->|H]); [..|subst b]; cbn; tauto.
Qed.

(** [push_bits] touches the current byte and the mask only. *)
Definition bits_only (e e' : heatshrink_encoder) : Prop :=
  e' = set_bit_index (bit_index e') (set_current_byte (current_byte e') e).

Lemma bits_only_refl e : bits_only e e.
Proof. destruct e; reflexivity. Qed.

Lemma bits_only_trans e1 e2 e3 :
  bits_only e1 e2 -> bits_only e2 e3 -> bits_only e1 e3.
Proof.
  unfold bits_only. intros H12 H23. rewrite H23 at 1. rewrite H12 at 1.
  destruct e1; reflexivity.
Qed.

Lemma push_bit_frame bit e oi e' oi' :
  push_bit bit e oi = Ret (e', oi') ->
  bits_only e e' /\ (emask_ok (bit_index e) -> emask_ok (bit_index e')).
Proof.
  unfold push_bit.
  set (e1 := if _ =? 0 then e else _).
  assert (H1 : bits_only e e1 /\ bit_index e1 = bit_index e).
  { subst e1. destruct (_ =? 0); [split; [apply bits_only_refl|reflexivity]|].
    split; [destruct e|]; reflexivity. }
  destruct H1 as [H1 Hb1].
  destruct (Z.eqb_spec (bit_index (set_bit_index (Z.shiftr (bit_index e1) 1) e1)) 0)
    as [Hz|Hz]; esimpl.
  - destruct (push_out oi _) as [oi1| |]; esimpl; try discriminate.
    intros [= <- <-]. split.
    + eapply bits_only_trans; [exact H1|]. destruct e1; reflexivity.
    + intros _. esimpl. unfold emask_ok; tauto.
  - intros [= <- <-]. split.
    + eapply bits_only_trans; [exact H1|]. destruct e1; reflexivity.
    + intros Hmask. esimpl. rewrite Hb1.
      apply emask_step in Hmask.
      destruct (Z.shiftr (bit_index e) 1 =? 0) eqn:Es; [|assumption].
      apply Z.eqb_eq in Es. congruence.
Qed.

Lemma push_bits_loop_frame n : forall bits e oi e' oi',
  push_bits_loop n bits e oi = Ret (e', oi') ->
  bits_only e e' /\ (emask_ok (bit_index e) -> emask_ok (bit_index e')).
Proof.
  induction n as [|n IH]; intros bits e oi e' oi'.
  - intros [= <- <-]. split; [apply bits_only_refl | auto].
  - cbn [push_bits_loop].
    destruct (push_bit _ e oi) as [[e1 oi1]| |] eqn:E; esimpl; try discriminate.
    apply push_bit_frame in E. destruct E as [E Hm].
    intros E2. apply IH in E2. destruct E2 as [E2 Hm2]. split.
    + eapply bits_only_trans; eassumption.
    + auto.
Qed.

Lemma bits_only_ewf e e' :
  bits_only e e' -> (emask_ok (bit_index e) -> emask_ok (bit_index e')) ->
  ewf e -> ewf e'.
Proof.
  unfold bits_only. intros -> Hm []. constructor; esimpl; auto.
Qed.

Lemma match_run_bound n : forall buf pos needle len,
  len <= match_run n buf pos needle len <= len + Z.of_nat n.
Proof.
  induction n as [|n IH]; intros buf pos needle len; cbn [match_run]; [lia|].
  destruct (_ =? _); [|lia].
  specialize (IH buf pos needle (len + 1)). lia.
Qed.

Lemma consider_bound buf pos needle maxlen best :
  0 <= maxlen -> 0 <= best.1 <= maxlen ->
  0 <= (consider buf pos needle maxlen best).1.1 <= maxlen.
Proof.
  intros Hm Hb. unfold consider.
  pose proof (match_run_bound (Z.to_nat maxlen) buf pos needle 0).
  destruct (_ && _); cbn [fst]; lia.
Qed.

Lemma scan_linear_bound fuel : forall buf start needle maxlen pos best,
  0 <= maxlen -> 0 <= best.1 <= maxlen ->
  0 <= (scan_linear fuel buf start needle maxlen pos best).1 <= maxlen.
Proof.
  induction fuel as [|fuel IH]; intros buf start needle maxlen pos best Hm Hb;
    cbn [scan_linear];
    pose proof (consider_bound buf pos needle maxlen best Hm Hb) as Hc;
    destruct (consider buf pos needle maxlen best) as [best1 brk];
    cbn [fst] in Hc; destruct brk; try assumption;
    destruct (pos =? start); try assumption.
  apply IH; assumption.
Qed.

Lemma scan_chain_bound fuel : forall buf index start needle maxlen pos best r,
  0 <= maxlen -> 0 <= best.1 <= maxlen ->
  scan_chain fuel buf index start needle maxlen pos best = Some r ->
  0 <= r.1 <= maxlen.
Proof.
  induction fuel as [|fuel IH];
    intros buf index start needle maxlen pos best r Hm Hb;
    cbn [scan_chain];
    (destruct (pos =? MATCH_NOT_FOUND); [intros [= <-]; assumption|]);
    pose proof (consider_bound buf pos needle maxlen best Hm Hb) as Hc;
    destruct (consider buf pos needle maxlen best) as [best1 brk];
    cbn [fst] in Hc;
    (destruct brk; [intros [= <-]; assumption|]);
    (destruct (_ <? start); [intros [= <-]; assumption|]).
  - discriminate.
  - apply IH; assumption.
Qed.

(** A search leaves [match_length] as it was, or sets it to a length
    between 1 and [maxlen]. *)
Lemma find_longest_match_bound use_index e start end_ maxlen ml0 r ml :
  0 <= maxlen ->
  find_longest_match use_index e start end_ maxlen ml0 = Ret (r, ml) ->
  (r = MATCH_NOT_FOUND /\ ml = ml0) \/ 0 < ml <= maxlen.
Proof.
  intros Hm. unfold find_longest_match.
  destruct (start =? end_); [intros [= <- <-]; auto|].
  assert (Hfin : forall b : Z * Z, 0 <= b.1 <= maxlen ->
    (let (match_maxlen, match_index) := b in
     if match_maxlen >? 0
     then Ret (u16 (end_ - match_index), match_maxlen)
     else Ret (MATCH_NOT_FOUND, ml0)) = Ret (r, ml) ->
    (r = MATCH_NOT_FOUND /\ ml = ml0) \/ 0 < ml <= maxlen).
  { intros [bl bi] Hb. cbn [fst] in Hb.
    destruct (Z.gtb_spec bl 0); intros [= <- <-]; [right; lia | auto]. }
  destruct use_index.
  - destruct (_ <? start); esimpl; [intros [= <- <-]; auto|].
    destruct (scan_chain _ _ _ _ _ _ _ _) as [b|] eqn:E; esimpl;
      [|discriminate].
    apply Hfin. eapply scan_chain_bound; [exact Hm| |exact E]. cbn; lia.
  - esimpl. apply Hfin. apply scan_linear_bound; [exact Hm|cbn; lia].
Qed.

Lemma lookahead_size_eq e : ewf e -> get_lookahead_size e = 2 ^ lookahead_sz2 e.
Proof.
  intros []. unfold get_lookahead_size.
  pose proof (pow_bits (lookahead_sz2 e) 3 15). cbn in H.
  rewrite shiftl_1_pow, u16_small by lia. reflexivity.
Qed.

Lemma input_buffer_size_eq e : ewf e -> get_input_buffer_size e = 2 ^ window_sz2 e.
Proof.
  intros []. unfold get_input_buffer_size.
  pose proof (pow_bits (window_sz2 e) 4 15). cbn in H.
  rewrite shiftl_1_pow, u16_small by lia. reflexivity.
Qed.

Lemma window_bounds e : ewf e -> 16 <= 2 ^ window_sz2 e <= 32768.
Proof. intros []. pose proof (pow_bits (window_sz2 e) 4 15). cbn in H. lia. Qed.

Lemma lookahead_bounds e : ewf e -> 8 <= 2 ^ lookahead_sz2 e <= 2 ^ window_sz2 e.
Proof.
  intros []. pose proof (pow_bits (lookahead_sz2 e) 3 (window_sz2 e)).
  cbn in H. lia.
Qed.

Lemma st_step_search_ewf use_index e s e' :
  ewf e -> state e <> HSES_FILLED ->
  st_step_search use_index e = Ret (s, e') ->
  ewf (set_state s e') /\ s <> HSES_FILLED.
Proof.
  intros Hwf Hst. unfold st_step_search.
  rewrite (lookahead_size_eq e Hwf), (input_buffer_size_eq e Hwf).
  pose proof (window_bounds e Hwf). pose proof (lookahead_bounds e Hwf).
  set (fin := negb (is_finishing e =? 0)).
  destruct (Z.geb_spec (match_scan_index e)
              (input_size e - (if fin then 0 else 2 ^ lookahead_sz2 e)))
    as [_|Hlt].
  { intros [= <- <-]. split; [|discriminate].
    destruct Hwf; constructor; esimpl; auto; discriminate. }
  set (maxp := if input_size e - match_scan_index e <? 2 ^ lookahead_sz2 e
               then u16 (input_size e - match_scan_index e)
               else 2 ^ lookahead_sz2 e).
  assert (Hmax : 0 <= maxp <= input_size e - match_scan_index e).
  { subst maxp. destruct Hwf.
    destruct (Z.ltb_spec (input_size e - match_scan_index e)
                (2 ^ lookahead_sz2 e)); [rewrite u16_small|]; destruct fin; lia. }
  destruct (find_longest_match _ _ _ _ _ _) as [[mp ml]| |] eqn:E;
    esimpl; try discriminate.
  apply find_longest_match_bound in E; [|lia].
  destruct (mp =? MATCH_NOT_FOUND); intros [= <- <-];
    (split; [|discriminate]); destruct Hwf; constructor; esimpl;
    try assumption; try discriminate;
    rewrite ?u16_small by (destruct fin; lia); destruct fin; lia.
Qed.

Lemma push_bits_ewf e count bits oi e' oi' :
  push_bits e count bits oi = Ret (e', oi') ->
  bits_only e e' /\ (emask_ok (bit_index e) -> emask_ok (bit_index e')).
Proof. apply push_bits_loop_frame. Qed.

Lemma push_outgoing_bits_ewf e oi n e' oi' :
  push_outgoing_bits e oi = Ret (n, e', oi') ->
  exists e1, bits_only e e1 /\
    (emask_ok (bit_index e) -> emask_ok (bit_index e1)) /\
    e' = set_outgoing_bits_count (outgoing_bits_count e') e1.
Proof.
  unfold push_outgoing_bits.
  destruct (outgoing_bits_count e >? 8);
    (destruct (push_bits _ _ _ _) as [[e1 oi1]| |] eqn:E; esimpl;
     try discriminate; intros [= <- <- <-];
     apply push_bits_ewf in E; destruct E; exists e1; auto).
Qed.

(** The encoders reached by a state function that only writes bits and
    sets fields of the pending symbol. *)
Ltac ewf_fields Hwf :=
  destruct Hwf; constructor; esimpl; auto; try discriminate; try lia.

Lemma st_yield_tag_bit_ewf e oi s e' oi' :
  ewf e -> state e = HSES_YIELD_TAG_BIT ->
  st_yield_tag_bit e oi = Ret (s, e', oi') ->
  ewf (set_state s e') /\ s <> HSES_FILLED.
Proof.
  intros Hwf Hst. unfold st_yield_tag_bit, add_tag_bit.
  destruct (can_take_byte oi).
  - destruct (match_length e =? 0);
      (destruct (push_bits _ _ _ _) as [[e1 oi1]| |] eqn:E; esimpl;
       try discriminate; intros [= <- <- <-];
       apply push_bits_ewf in E; destruct E as [E Hm];
       apply (bits_only_ewf _ _ E Hm) in Hwf;
       split; [ewf_fields Hwf | discriminate]).
  - intros [= <- <- <-]. split; [ewf_fields Hwf | discriminate].
Qed.

Lemma st_yield_literal_ewf e oi s e' oi' :
  ewf e -> state e = HSES_YIELD_LITERAL ->
  st_yield_literal e oi = Ret (s, e', oi') ->
  ewf (set_state s e') /\ s <> HSES_FILLED.
Proof.
  intros Hwf Hst. unfold st_yield_literal, push_literal_byte.
  destruct (can_take_byte oi).
  - destruct (push_bits _ _ _ _) as [[e1 oi1]| |] eqn:E; esimpl;
      try discriminate.
    apply push_bits_ewf in E; destruct E as [E Hm].
    apply (bits_only_ewf _ _ E Hm) in Hwf.
    destruct (negb _); [|destruct (_ >? 0)]; intros [= <- <- <-];
      (split; [ewf_fields Hwf | discriminate]).
  - intros [= <- <- <-]. split; [ewf_fields Hwf | discriminate].
Qed.

Lemma st_yield_br_index_ewf e oi s e' oi' :
  ewf e -> state e = HSES_YIELD_BR_INDEX ->
  st_yield_br_index e oi = Ret (s, e', oi') ->
  ewf (set_state s e') /\ s <> HSES_FILLED.
Proof.
  intros Hwf Hst. unfold st_yield_br_index.
  destruct (can_take_byte oi).
  - destruct (push_outgoing_bits _ _) as [[[n e1] oi1]| |] eqn:E; esimpl;
      try discriminate.
    apply push_outgoing_bits_ewf in E. destruct E as (e0 & E & Hm & ->).
    apply (bits_only_ewf _ _ E Hm) in Hwf.
    destruct (n >? 0); intros [= <- <- <-];
      (split; [ewf_fields Hwf | discriminate]).
  - intros [= <- <- <-]. split; [ewf_fields Hwf | discriminate].
Qed.

Lemma st_yield_br_length_ewf e oi s e' oi' :
  ewf e -> state e = HSES_YIELD_BR_LENGTH ->
  st_yield_br_length e oi = Ret (s, e', oi') ->
  ewf (set_state s e') /\ s <> HSES_FILLED.
Proof.
  intros Hwf Hst. unfold st_yield_br_length.
  destruct (can_take_byte oi).
  - destruct (push_outgoing_bits _ _) as [[[n e1] oi1]| |] eqn:E; esimpl;
      try discriminate.
    apply push_outgoing_bits_ewf in E. destruct E as (e0 & E & Hm & ->).
    apply (bits_only_ewf _ _ E Hm) in Hwf.
    pose proof (window_bounds _ Hwf).
    destruct (n >? 0); intros [= <- <- <-];
      (split; [|discriminate]).
    + ewf_fields Hwf.
    + destruct Hwf; constructor; esimpl; auto; try discriminate;
        rewrite ?u16_small by lia; lia.
  - intros [= <- <- <-]. split; [ewf_fields Hwf | discriminate].
Qed.

Lemma save_backlog_ewf e : ewf e -> ewf (set_state HSES_NOT_FULL (save_backlog e)).
Proof.
  intros Hwf. unfold save_backlog.
  rewrite (input_buffer_size_eq e Hwf).
  pose proof (window_bounds e Hwf).
  assert (Hmsi : 0 <= match_scan_index e <= 2 ^ window_sz2 e)
    by (destruct Hwf; lia).
  rewrite (u16_small (2 ^ window_sz2 e - match_scan_index e)) by lia.
  replace (2 ^ window_sz2 e - (2 ^ window_sz2 e - match_scan_index e))
    with (match_scan_index e) by lia.
  destruct (negb _); destruct Hwf; constructor; esimpl; auto;
    try discriminate; rewrite ?u16_small by lia; lia.
Qed.

Lemma st_save_backlog_ewf e s e' :
  ewf e -> st_save_backlog e = (s, e') ->
  ewf (set_state s e') /\ s <> HSES_FILLED.
Proof.
  intros Hwf. unfold st_save_backlog.
  destruct (negb (is_finishing e =? 0)); [destruct (negb _)|];
    intros [= <- <-]; (split; [|discriminate]).
  - ewf_fields Hwf.
  - ewf_fields Hwf.
  - now apply save_backlog_ewf.
Qed.

Lemma do_indexing_ewf use_index e :
  ewf e -> ewf (set_state HSES_SEARCH (do_indexing use_index e)).
Proof.
  intros Hwf. unfold do_indexing. destruct use_index; ewf_fields Hwf.
Qed.

Lemma st_flush_bit_buffer_ewf e oi s e' oi' :
  ewf e -> st_flush_bit_buffer e oi = Ret (s, e', oi') ->
  ewf (set_state s e') /\ s <> HSES_FILLED.
Proof.
  intros Hwf. unfold st_flush_bit_buffer.
  destruct (_ =? 128); [|destruct (can_take_byte oi);
    [destruct (push_out _ _) as [oi1| |]; esimpl; try discriminate|]];
    intros [= <- <- <-]; (split; [ewf_fields Hwf | discriminate]).
Qed.

Lemma poll_step_ewf use_index e oi e' oi' r :
  ewf e -> poll_step use_index e oi = Ret (e', oi', r) -> ewf e'.
Proof.
  intros Hwf. unfold poll_step. cbv zeta beta.
  assert (Hcont : forall st s e1 oi1,
    ewf (set_state s e1) ->
    Ret (if bool_decide (state (set_state s e1) = st)
            && (output_size oi1 =? buf_size oi1)
         then (set_state s e1, oi1, Some HSER_POLL_MORE)
         else (set_state s e1, oi1, None)) = Ret (e', oi', r) ->
    ewf e').
  { intros st s e1 oi1 H. destruct (_ && _); intros [= <- <- <-]; exact H. }
  destruct (state e) eqn:Est.
  - intros [= <- <- <-]. assumption.
  - apply Hcont. now apply do_indexing_ewf.
  - destruct (st_step_search use_index e) as [[s e1]| |] eqn:E; esimpl;
      try discriminate.
    apply st_step_search_ewf in E; [|assumption|congruence].
    apply Hcont. apply E.
  - destruct (st_yield_tag_bit e oi) as [[[s e1] oi1]| |] eqn:E; esimpl;
      try discriminate.
    apply st_yield_tag_bit_ewf in E; [|assumption|assumption].
    apply Hcont. apply E.
  - destruct (st_yield_literal e oi) as [[[s e1] oi1]| |] eqn:E; esimpl;
      try discriminate.
    apply st_yield_literal_ewf in E; [|assumption|assumption].
    apply Hcont. apply E.
  - destruct (st_yield_br_index e oi) as [[[s e1] oi1]| |] eqn:E; esimpl;
      try discriminate.
    apply st_yield_br_index_ewf in E; [|assumption|assumption].
    apply Hcont. apply E.
  - destruct (st_yield_br_length e oi) as [[[s e1] oi1]| |] eqn:E; esimpl;
      try discriminate.
    apply st_yield_br_length_ewf in E; [|assumption|assumption].
    apply Hcont. apply E.
  - destruct (st_save_backlog e) as [s e1] eqn:E.
    apply st_save_backlog_ewf in E; [|assumption].
    apply Hcont. apply E.
  - destruct (st_flush_bit_buffer e oi) as [[[s e1] oi1]| |] eqn:E; esimpl;
      try discriminate.
    apply st_flush_bit_buffer_ewf in E; [|assumption].
    intros [= <- <- <-]. apply E.
  - intros [= <- <- <-]. assumption.
Qed.

Lemma poll_loop_ewf use_index fuel : forall e oi r e' oi',
  ewf e -> poll_loop use_index fuel e oi = Ret (r, e', oi') -> ewf e'.
Proof.
  induction fuel as [|fuel IH]; intros e oi r e' oi' Hwf; [discriminate|].
  cbn [poll_loop].
  destruct (poll_step use_index e oi) as [[[e1 oi1] r1]| |] eqn:E; esimpl;
    try discriminate.
  apply poll_step_ewf in E; [|assumption].
  destruct r1; [intros [= <- <- <-]; assumption|].
  apply IH. assumption.
Qed.

Lemma poll_ewf use_index fuel e out_buf r e' oi :
  ewf e -> heatshrink_encoder_poll use_index fuel e out_buf = Ret (r, e', oi) ->
  ewf e'.
Proof.
  intros Hwf. unfold heatshrink_encoder_poll.
  destruct (_ =? 0); [intros [= <- <- <-]; assumption|].
  destruct (poll_loop _ _ _ _) as [[[r1 e1] oi1]| |] eqn:E; esimpl;
    try discriminate.
  intros [= <- <- <-]. eapply poll_loop_ewf; eassumption.
Qed.

Lemma sink_ewf e in_buf : ewf e -> ewf (heatshrink_encoder_sink e in_buf).2.
Proof.
  intros Hwf. unfold heatshrink_encoder_sink.
  destruct (negb (is_finishing e =? 0)); [assumption|].
  destruct (bool_decide_reflect (state e = HSES_NOT_FULL)) as [Hst|Hst];
    [|assumption]. cbn [negb].
  rewrite (input_buffer_size_eq e Hwf).
  pose proof (window_bounds e Hwf).
  assert (Hsz : 0 <= input_size e <= 2 ^ window_sz2 e) by (destruct Hwf; lia).
  rewrite (u16_small (2 ^ window_sz2 e - input_size e)) by lia.
  set (cp := if 2 ^ window_sz2 e - input_size e <? Z.of_nat (length in_buf)
             then 2 ^ window_sz2 e - input_size e
             else Z.of_nat (length in_buf)).
  assert (Hcp : 0 <= cp <= 2 ^ window_sz2 e - input_size e).
  { subst cp. destruct (Z.ltb_spec (2 ^ window_sz2 e - input_size e)
                          (Z.of_nat (length in_buf))); lia. }
  rewrite (u16_small cp) by lia. esimpl.
  rewrite (u16_small (input_size e + cp)) by lia.
  destruct (Z.eqb_spec cp (2 ^ window_sz2 e - input_size e));
    destruct Hwf; constructor; esimpl; auto; try lia.
  rewrite Hst. discriminate.
Qed.

Lemma finish_ewf e : ewf e -> ewf (heatshrink_encoder_finish e).2.
Proof.
  intros Hwf. unfold heatshrink_encoder_finish. cbn [snd]. esimpl.
  assert (Hfin : Z.land (Z.lor (flags e) FLAG_IS_FINISHING) FLAG_IS_FINISHING <> 0)
    by (rewrite land_lor_same; discriminate).
  destruct (bool_decide (state e = HSES_NOT_FULL));
    destruct Hwf; constructor; esimpl; auto; intros _; right; exact Hfin.
Qed.

Lemma reset_ewf e :
  4 <= window_sz2 e <= 15 -> 3 <= lookahead_sz2 e <= window_sz2 e ->
  ewf (heatshrink_encoder_reset e).
Proof.
  intros Hw Hl. pose proof (pow_bits (window_sz2 e) 4 15). cbn in H.
  constructor; unfold heatshrink_encoder_reset; esimpl;
    first [lia | discriminate | unfold emask_ok; tauto].
Qed.

Lemma alloc_ewf use_index fresh_index w l e :
  heatshrink_encoder_alloc use_index fresh_index w l = Some e -> ewf e.
Proof.
  unfold heatshrink_encoder_alloc,
    HEATSHRINK_MIN_WINDOW_BITS, HEATSHRINK_MAX_WINDOW_BITS,
    HEATSHRINK_MIN_LOOKAHEAD_BITS.
  destruct (Z.ltb_spec (u8 w) 4); [discriminate|].
  destruct (Z.gtb_spec (u8 w) 15); [discriminate|].
  destruct (Z.ltb_spec (u8 l) 3); [discriminate|].
  destruct (Z.gtb_spec (u8 l) (u8 w)); [discriminate|].
  intros [= <-]. apply reset_ewf; esimpl; lia.
Qed.

(** *** The encoders a caller can hold *)

Inductive reachable (use_index : bool) : heatshrink_encoder -> Prop :=
  | reach_alloc fresh_index w l e :
      heatshrink_encoder_alloc use_index fresh_index w l = Some e ->
      reachable use_index e
  | reach_reset e :
      reachable use_index e -> reachable use_index (heatshrink_encoder_reset e)
  | reach_sink e in_buf :
      reachable use_index e ->
      reachable use_index (heatshrink_encoder_sink e in_buf).2
  | reach_finish e :
      reachable use_index e ->
      reachable use_index (heatshrink_encoder_finish e).2
  | reach_poll e fuel out_buf r e' oi :
      reachable use_index e ->
      heatshrink_encoder_poll use_index fuel e out_buf = Ret (r, e', oi) ->
      reachable use_index e'.

Lemma reachable_ewf use_index e : reachable use_index e -> ewf e.
Proof.
  induction 1 as [fresh_index w l e Ha|e _ IH|e in_buf _ IH|e _ IH
                 |e fuel out_buf r e' oi _ IH Hp].
  - eapply alloc_ewf; eassumption.
  - destruct IH. apply reset_ewf; assumption.
  - now apply sink_ewf.
  - now apply finish_ewf.
  - eapply poll_ewf; eassumption.
Qed.

(** C6. Every encoder obtained from [alloc] by [reset], [sink], [poll] and
    [finish] satisfies the invariants: [input_size <= 2^W],
    [match_scan_index <= input_size], in state [HSES_FILLED] the input is
    full or the encoder is finishing, and [bit_index] is one of
    0x80, 0x40, ..., 0x01. *)
Theorem encoder_invariants_hold (use_index : bool) (e : heatshrink_encoder) :
  reachable use_index e -> encoder_invariants e.
Proof. intros Hr. apply ewf_invariants. eapply reachable_ewf; eassumption. Qed.

Lemma encoder_invariants_hold_witness : encoder_invariants one_byte_finished.
Proof.
  apply (encoder_invariants_hold false).
  apply reach_finish, reach_sink.
  apply (reach_alloc false [] 8 7). reflexivity.
Defined.

(** *** What [find_longest_match] returns *)

Section Search.
Variable buf : list Z.
Variables needle maxlen : Z.

(** The bytes at [p] and at the needle agree on [k] positions. *)
Definition agree (p k : Z) : Prop :=
  forall i, 0 <= i < k -> rd buf (p + i) = rd buf (needle + i).

(** [k] is the length of the match at candidate [p]: the positions that
    agree, cut at [maxlen]. *)
Definition match_len_at (p k : Z) : Prop :=
  0 <= k <= maxlen /\ agree p k /\
  (k < maxlen -> rd buf (p + k) <> rd buf (needle + k)).

Lemma match_len_at_unique p k1 k2 :
  match_len_at p k1 -> match_len_at p k2 -> k1 = k2.
Proof.
  intros (R1 & A1 & N1) (R2 & A2 & N2).
  destruct (Z.lt_trichotomy k1 k2) as [H|[H|H]]; [|assumption|].
  - exfalso. apply N1; [lia|]. apply A2. lia.
  - exfalso. apply N2; [lia|]. apply A1. lia.
Qed.

Lemma match_run_spec n : forall p len,
  0 <= len -> agree p len ->
  let k := match_run n buf p needle len in
  len <= k <= len + Z.of_nat n /\ agree p k /\
  (k < len + Z.of_nat n -> rd buf (p + k) <> rd buf (needle + k)).
Proof.
  induction n as [|n IH]; intros p len Hlen Hag; cbn [match_run].
  - repeat split; [lia|lia|assumption|lia].
  - destruct (Z.eqb_spec (rd buf (p + len)) (rd buf (needle + len))) as [E|E].
    + assert (Hag' : agree p (len + 1)).
      { intros i Hi. destruct (Z.eq_dec i len) as [->|]; [assumption|].
        apply Hag. lia. }
      destruct (IH p (len + 1) ltac:(lia) Hag') as (H1 & H2 & H3).
      repeat split; [lia|lia|assumption|].
      intros Hk. apply H3. lia.
    + repeat split; [lia|lia|assumption|]. intros _. assumption.
Qed.

(** The inner loop computes the length of the match. *)
Definition mlen (p : Z) : Z := match_run (Z.to_nat maxlen) buf p needle 0.

Lemma mlen_spec p : 0 <= maxlen -> match_len_at p (mlen p).
Proof.
  intros Hm. unfold mlen.
  destruct (match_run_spec (Z.to_nat maxlen) p 0 ltac:(lia)) as (H1 & H2 & H3).
  { intros i Hi. lia. }
  repeat split; [lia|lia|assumption|]. intros Hk. apply H3. lia.
Qed.

(** [best] is the outcome of the candidates in [(lo, hi)], taken from
    [hi - 1] down: nothing above the break-even point, or the first
    candidate reached among those of the greatest length. *)
Definition best_of (lo hi : Z) (best : Z * Z) : Prop :=
  (best.1 = 0 /\ forall q, lo < q < hi -> mlen q <= break_even_point) \/
  (break_even_point < best.1 /\ lo < best.2 < hi /\ mlen best.2 = best.1 /\
   (forall q, lo < q < hi -> mlen q <= best.1) /\
   (forall q, best.2 < q < hi -> mlen q < best.1)).

Lemma best_found lo hi (best : Z * Z) :
  break_even_point < best.1 -> lo < best.2 -> best.2 < hi ->
  mlen best.2 = best.1 ->
  (forall q, lo < q < hi -> mlen q <= best.1) ->
  (forall q, best.2 < q < hi -> mlen q < best.1) ->
  best_of lo hi best.
Proof. intros. right. auto 10. Qed.

Lemma consider_spec lo hi pos best :
  0 <= maxlen -> lo < pos -> pos < hi ->
  best_of pos hi best ->
  best_of (pos - 1) hi (consider buf pos needle maxlen best).1 /\
  ((consider buf pos needle maxlen best).2 = true ->
   (consider buf pos needle maxlen best).1.1 = maxlen).
Proof.
  intros Hm Hlo Hhi Hb. unfold consider. fold (mlen pos).
  pose proof (mlen_spec pos Hm) as (Hr & _).
  unfold break_even_point in *.
  destruct (Z.gtb_spec (mlen pos) 2) as [H2|H2]; cbn [andb].
  - destruct (Z.gtb_spec (mlen pos) best.1) as [Hgt|Hle]; cbn [fst snd].
    + split; [|intros E; apply Z.eqb_eq in E; exact E].
      apply best_found; cbn [fst snd]; unfold break_even_point; try lia.
      * intros q Hq. destruct (Z.eq_dec q pos) as [->|]; [lia|].
        destruct Hb as [[Hz Hall]|(Hbl & Hbi & Hbe & Hall & Hfirst)];
          specialize (Hall q ltac:(lia)); unfold break_even_point in *; lia.
      * intros q Hq.
        destruct Hb as [[Hz Hall]|(Hbl & Hbi & Hbe & Hall & Hfirst)];
          specialize (Hall q ltac:(lia)); unfold break_even_point in *; lia.
    + split; [|discriminate].
      destruct Hb as [[Hz Hall]|(Hbl & Hbi & Hbe & Hall & Hfirst)];
        unfold break_even_point in *; [lia|].
      apply best_found; unfold break_even_point; try lia; try assumption.
      intros q Hq. destruct (Z.eq_dec q pos) as [->|]; [lia|].
      apply Hall. lia.
  - cbn [fst snd]. split; [|discriminate].
    destruct Hb as [[Hz Hall]|(Hbl & Hbi & Hbe & Hall & Hfirst)];
      unfold break_even_point in *.
    + left. split; [assumption|].
      intros q Hq. unfold break_even_point.
      destruct (Z.eq_dec q pos) as [->|]; [lia|].
      apply Hall. lia.
    + apply best_found; unfold break_even_point; try lia; try assumption.
      intros q Hq. destruct (Z.eq_dec q pos) as [->|]; [lia|].
      apply Hall. lia.
Qed.

Lemma best_of_full lo lo' hi best :
  0 <= maxlen -> lo' <= lo -> best.1 = maxlen ->
  best_of lo hi best -> best_of lo' hi best.
Proof.
  intros Hm Hlo Hfull [[Hz Hall]|(Hbl & Hbi & Hbe & Hall & Hfirst)].
  - left. split; [assumption|]. intros q _.
    pose proof (mlen_spec q Hm) as (Hr & _). unfold break_even_point. lia.
  - apply best_found; try assumption; try lia.
    intros q _. pose proof (mlen_spec q Hm) as (Hr & _). lia.
Qed.

Lemma scan_linear_spec fuel : forall start hi pos best,
  0 <= maxlen -> 0 <= start <= pos -> pos < hi -> pos <= 65535 ->
  pos - start <= Z.of_nat fuel ->
  best_of pos hi best ->
  best_of (start - 1) hi (scan_linear fuel buf start needle maxlen pos best).
Proof.
  induction fuel as [|fuel IH]; intros start hi pos best Hm Hs Hhi Hu Hf Hb;
    cbn [scan_linear];
    pose proof (consider_spec (start - 1) hi pos best Hm ltac:(lia) Hhi Hb)
      as [Hc Hbrk];
    destruct (consider buf pos needle maxlen best) as [best1 brk];
    cbn [fst snd] in Hc, Hbrk;
    (destruct brk;
     [apply (best_of_full (pos - 1)); [assumption|lia|auto|assumption]|]);
    (destruct (Z.eqb_spec pos start) as [->|Hne]; [assumption|]).
  - lia.
  - assert (Hp : u16 (pos - 1) = pos - 1) by (apply u16_small; lia).
    rewrite Hp. apply IH; try assumption; lia.
Qed.

(** *** The scan along the index

    An entry of the index is right when it holds the nearest earlier
    offset of the same byte, or [MATCH_NOT_FOUND] when the byte does not
    occur before; [index] is a valid index of [buf] up to the needle when
    its entries up to there are right. *)
Definition entry_ok (index : list Z) (i : Z) : Prop :=
  (rd index i = MATCH_NOT_FOUND /\
   forall j, 0 <= j < i -> rd buf j <> rd buf i) \/
  (0 <= rd index i < i /\ rd buf (rd index i) = rd buf i /\
   forall j, rd index i < j < i -> rd buf j <> rd buf i).

Definition index_ok (index : list Z) : Prop :=
  forall i, 0 <= i <= needle -> entry_ok index i.

(** A candidate whose first byte differs from the needle's matches on
    no byte. *)
Lemma mlen_mismatch q : rd buf q <> rd buf needle -> mlen q = 0.
Proof.
  intros Hne. unfold mlen. destruct (Z.to_nat maxlen) as [|n]; [reflexivity|].
  cbn [match_run]. rewrite !Z.add_0_r.
  destruct (Z.eqb_spec (rd buf q) (rd buf needle)); [contradiction|reflexivity].
Qed.

(** Candidates that reach no more than the break-even point may be
    skipped. *)
Lemma best_of_skip lo lo' hi best :
  lo' <= lo -> best_of lo hi best ->
  (forall q, lo' < q <= lo -> mlen q <= break_even_point) ->
  best_of lo' hi best.
Proof.
  intros Hlo [[Hz Hall]|(Hbl & Hbi & Hbe & Hall & Hfirst)] Hskip.
  - left. split; [assumption|]. intros q Hq.
    destruct (Z.le_gt_cases q lo); [apply Hskip|apply Hall]; lia.
  - apply best_found; try assumption; try lia.
    intros q Hq. destruct (Z.le_gt_cases q lo).
    + specialize (Hskip q ltac:(lia)). lia.
    + apply Hall. lia.
Qed.

Lemma scan_chain_spec index fuel : forall start pos best,
  index_ok index -> 0 <= maxlen -> 0 <= start -> needle <= 65535 ->
  (pos = MATCH_NOT_FOUND /\ best_of (start - 1) needle best) \/
  (start <= pos < needle /\ rd buf pos = rd buf needle /\
   pos < Z.of_nat fuel /\ best_of pos needle best) ->
  exists b,
    scan_chain fuel buf index start needle maxlen pos best = Some b /\
    best_of (start - 1) needle b.
Proof.
  induction fuel as [|fuel IH]; intros start pos best Hix Hm Hs Hn Hpos;
    (destruct Hpos as [[-> Hb]|(Hp & Hbyte & Hf & Hb)];
     [exists best; split; [reflexivity|exact Hb]|]);
    [lia|].
  cbn [scan_chain].
  destruct (Z.eqb_spec pos MATCH_NOT_FOUND) as [Hnf|_];
    [unfold MATCH_NOT_FOUND in Hnf; lia|].
  pose proof (consider_spec (start - 1) needle pos best Hm ltac:(lia)
                ltac:(lia) Hb) as [Hc Hbrk].
  destruct (consider buf pos needle maxlen best) as [best1 brk].
  cbn [fst snd] in Hc, Hbrk.
  destruct brk.
  { exists best1. split; [reflexivity|].
    apply (best_of_full (pos - 1)); [assumption|lia|auto|assumption]. }
  assert (Hskip : forall lo', lo' < pos ->
            (forall j, lo' < j < pos -> rd buf j <> rd buf pos) ->
            best_of lo' needle best1).
  { intros lo' Hlo Hmis. apply (best_of_skip (pos - 1)); [lia|assumption|].
    intros q Hq. rewrite mlen_mismatch; [unfold break_even_point; lia|].
    rewrite <- Hbyte. apply Hmis. lia. }
  destruct (Hix pos ltac:(lia)) as [[Hnone Hmis]|(Hprev & Hsame & Hmis)].
  - rewrite Hnone.
    destruct (Z.ltb_spec MATCH_NOT_FOUND start) as [Hlt|_];
      [unfold MATCH_NOT_FOUND in Hlt; lia|].
    apply IH; try assumption. left. split; [reflexivity|].
    apply Hskip; [lia|]. intros j Hj. apply Hmis. lia.
  - destruct (Z.ltb_spec (rd index pos) start) as [Hlt|Hge].
    + exists best1. split; [reflexivity|].
      apply Hskip; [lia|]. intros j Hj. apply Hmis. lia.
    + apply IH; try assumption. right.
      split; [lia|]. split; [congruence|]. split; [lia|].
      apply Hskip; [lia|]. exact Hmis.
Qed.

End Search.

(** What the caller gets from the outcome of a scan. *)
Definition search_result (e : heatshrink_encoder)
    (start end_ maxlen match_length : Z) (r ml : Z) : Prop :=
  (r = MATCH_NOT_FOUND /\ ml = match_length /\
   forall p k, start <= p < end_ ->
               match_len_at (buffer e) end_ maxlen p k -> k <= 2) \/
  (exists p, start <= p < end_ /\ r = end_ - p /\ 2 < ml /\
     match_len_at (buffer e) end_ maxlen p ml /\
     (forall q k, start <= q < end_ ->
                  match_len_at (buffer e) end_ maxlen q k -> k <= ml) /\
     (forall q k, p < q < end_ ->
                  match_len_at (buffer e) end_ maxlen q k -> k < ml)).

Lemma best_result (e : heatshrink_encoder) (start end_ maxlen match_length : Z)
    (bl bi : Z) :
  0 <= start <= end_ -> end_ <= 65535 -> 0 <= maxlen ->
  best_of (buffer e) end_ maxlen (start - 1) end_ (bl, bi) ->
  exists r ml,
    (if bl >? 0 then Ret (u16 (end_ - bi), bl)
     else Ret (MATCH_NOT_FOUND, match_length)) = Ret (r, ml) /\
    search_result e start end_ maxlen match_length r ml.
Proof.
  intros Hs He Hm Hscan.
  assert (Huniq : forall q k, match_len_at (buffer e) end_ maxlen q k ->
                              k = mlen (buffer e) end_ maxlen q).
  { intros q k Hk. eapply match_len_at_unique; [exact Hk|].
    apply mlen_spec. assumption. }
  destruct Hscan as [[Hz Hall]|(Hbl & Hbi & Hbe & Hall & Hfirst)];
    cbn [fst snd] in *; unfold break_even_point in *.
  - subst bl. eexists _, _; split; [reflexivity|]. left.
    repeat split. intros p k Hp' Hk. apply Huniq in Hk. subst k.
    apply Hall. lia.
  - destruct (Z.gtb_spec bl 0); [|lia].
    eexists _, _; split; [reflexivity|]. right. exists bi.
    split; [lia|]. split; [apply u16_small; lia|]. split; [lia|].
    split; [rewrite <- Hbe; apply mlen_spec; assumption|]. split.
    + intros q k Hq Hk. apply Huniq in Hk. subst k. apply Hall. lia.
    + intros q k Hq Hk. apply Huniq in Hk. subst k. apply Hfirst. lia.
Qed.

(** The linear scan, for any buffer: what is returned is decided by the
    lengths of the matches at the candidates of [start .. end - 1]. *)
Lemma linear_search_spec (e : heatshrink_encoder)
    (start end_ maxlen match_length : Z) :
  0 <= start <= end_ -> end_ <= 65535 -> 0 <= maxlen ->
  exists r ml,
    find_longest_match false e start end_ maxlen match_length = Ret (r, ml) /\
    search_result e start end_ maxlen match_length r ml.
Proof.
  intros Hs He Hm. unfold find_longest_match.
  destruct (Z.eqb_spec start end_) as [->|Hne].
  { eexists _, _; split; [reflexivity|]. left. repeat split. intros; lia. }
  cbn [mbind outcome_bind].
  assert (Hp : u16 (end_ - 1) = end_ - 1) by (apply u16_small; lia).
  rewrite Hp.
  assert (Hfuel : end_ - 1 - start <= Z.of_nat u16_range)
    by (unfold u16_range; lia).
  assert (Hinit : best_of (buffer e) end_ maxlen (end_ - 1) end_
                    (0, MATCH_NOT_FOUND))
    by (left; split; [reflexivity|intros; lia]).
  pose proof (scan_linear_spec (buffer e) end_ maxlen u16_range start end_
                (end_ - 1) (0, MATCH_NOT_FOUND) Hm ltac:(lia) ltac:(lia)
                ltac:(lia) Hfuel Hinit) as Hscan.
  destruct (scan_linear _ _ _ _ _ _ _) as [bl bi].
  apply best_result; assumption.
Qed.

(** The scan along a valid index returns what the linear scan returns:
    the candidates it skips do not start with the needle's byte. *)
Lemma chain_search_spec (e : heatshrink_encoder)
    (start end_ maxlen match_length : Z) :
  0 <= start <= end_ -> end_ <= 65535 -> 0 <= maxlen ->
  index_ok (buffer e) end_ (search_index e) ->
  exists r ml,
    find_longest_match true e start end_ maxlen match_length = Ret (r, ml) /\
    search_result e start end_ maxlen match_length r ml.
Proof.
  intros Hs He Hm Hix. unfold find_longest_match.
  destruct (Z.eqb_spec start end_) as [->|Hne].
  { eexists _, _; split; [reflexivity|]. left. repeat split. intros; lia. }
  assert (Hnone : forall lo, lo < end_ ->
            (forall j, lo < j < end_ -> rd (buffer e) j <> rd (buffer e) end_) ->
            best_of (buffer e) end_ maxlen lo end_ (0, MATCH_NOT_FOUND)).
  { intros lo Hlo Hmis. left. split; [reflexivity|]. intros q Hq.
    rewrite mlen_mismatch; [unfold break_even_point; lia|]. apply Hmis. lia. }
  destruct (Hix end_ ltac:(lia)) as [[Hnf Hmis]|(Hprev & Hsame & Hmis)].
  - rewrite Hnf.
    destruct (Z.ltb_spec MATCH_NOT_FOUND start) as [Hlt|_];
      [unfold MATCH_NOT_FOUND in Hlt; lia|].
    destruct (scan_chain_spec (buffer e) end_ maxlen (search_index e)
                u16_range start MATCH_NOT_FOUND (0, MATCH_NOT_FOUND)
                Hix Hm ltac:(lia) He)
      as ([bl bi] & -> & Hscan).
    { left. split; [reflexivity|]. apply Hnone; [lia|].
      intros j Hj. apply Hmis. lia. }
    cbn [mbind outcome_bind]. apply best_result; assumption.
  - destruct (Z.ltb_spec (rd (search_index e) end_) start) as [Hlt|Hge].
    + cbn [mbind outcome_bind]. eexists _, _; split; [reflexivity|]. left.
      repeat split. intros p k Hp (Hr & Hag & Hstop).
      destruct (Z.eq_dec k 0) as [->|Hk]; [lia|]. exfalso.
      apply (Hmis p ltac:(lia)). specialize (Hag 0 ltac:(lia)).
      now rewrite !Z.add_0_r in Hag.
    + destruct (scan_chain_spec (buffer e) end_ maxlen (search_index e)
                  u16_range start (rd (search_index e) end_)
                  (0, MATCH_NOT_FOUND) Hix Hm ltac:(lia) He)
        as ([bl bi] & -> & Hscan).
      { right. split; [lia|]. split; [assumption|].
        split; [unfold u16_range; lia|]. apply Hnone; [lia|exact Hmis]. }
      cbn [mbind outcome_bind]. apply best_result; assumption.
Qed.

(** X18. [find_longest_match] considers the candidates of
    [start .. end - 1].  It returns [MATCH_NOT_FOUND], leaving
    [match_length] alone, when no candidate matches on more than two
    bytes; otherwise it returns the distance to a candidate [p] and the
    length of the match there, which is more than 2 and the greatest
    among the candidates, [p] being the candidate nearest to [end] that
    reaches it (the first reached, as both scans go down from
    [end - 1]).  This holds for the linear scan, and for the scan along
    the index when the index is a valid index of the buffer. *)
Theorem find_longest_match_spec (use_index : bool) (e : heatshrink_encoder)
    (start end_ maxlen match_length : Z) :
  0 <= start <= end_ -> end_ <= 65535 -> 0 <= maxlen ->
  (use_index = true -> index_ok (buffer e) end_ (search_index e)) ->
  exists r ml,
    find_longest_match use_index e start end_ maxlen match_length
    = Ret (r, ml) /\
    ((r = MATCH_NOT_FOUND /\ ml = match_length /\
      forall p k, start <= p < end_ ->
                  match_len_at (buffer e) end_ maxlen p k -> k <= 2) \/
     (exists p, start <= p < end_ /\ r = end_ - p /\ 2 < ml /\
        match_len_at (buffer e) end_ maxlen p ml /\
        (forall q k, start <= q < end_ ->
                     match_len_at (buffer e) end_ maxlen q k -> k <= ml) /\
        (forall q k, p < q < end_ ->
                     match_len_at (buffer e) end_ maxlen q k -> k < ml))).
Proof.
  intros Hs He Hm Hix. destruct use_index.
  - apply chain_search_spec; auto.
  - apply linear_search_spec; assumption.
Qed.

(** An encoder whose buffer holds "abcdabcd"; the needle is the second
    "abcd". *)
Definition abcd_twice : heatshrink_encoder :=
  set_buffer [97; 98; 99; 100; 97; 98; 99; 100] (fresh_encoder false [] 8 3).

(** The index [do_indexing] builds for that buffer. *)
Definition abcd_twice_indexed : heatshrink_encoder :=
  set_search_index
    [65535; 65535; 65535; 65535; 0; 1; 2; 3; 65535; 65535; 65535; 65535;
     65535; 65535; 65535; 65535] abcd_twice.

Lemma abcd_twice_index_ok :
  index_ok (buffer abcd_twice_indexed) 4 (search_index abcd_twice_indexed).
Proof.
  intros i Hi.
  assert (Hc : i = 0 \/ i = 1 \/ i = 2 \/ i = 3 \/ i = 4) by lia.
  destruct Hc as [->|[->|[->|[->| ->]]]].
  - left. split; [reflexivity|]. intros j Hj. lia.
  - left. split; [reflexivity|]. intros j Hj.
    assert (j = 0) as -> by lia. discriminate.
  - left. split; [reflexivity|]. intros j Hj.
    assert (Hj' : j = 0 \/ j = 1) by lia.
    destruct Hj' as [-> | ->]; discriminate.
  - left. split; [reflexivity|]. intros j Hj.
    assert (Hj' : j = 0 \/ j = 1 \/ j = 2) by lia.
    destruct Hj' as [->|[-> | ->]]; discriminate.
  - right. split; [vm_compute; split; [discriminate|reflexivity]|].
    split; [reflexivity|]. intros j Hj.
    change (rd (search_index abcd_twice_indexed) 4) with 0 in Hj.
    assert (Hj' : j = 1 \/ j = 2 \/ j = 3) by lia.
    destruct Hj' as [->|[-> | ->]]; discriminate.
Qed.

Lemma find_longest_match_spec_witness :
  exists r ml,
    find_longest_match true abcd_twice_indexed 0 4 4 0 = Ret (r, ml) /\
    ((r = MATCH_NOT_FOUND /\ ml = 0 /\
      forall p k, 0 <= p < 4 ->
                  match_len_at (buffer abcd_twice_indexed) 4 4 p k -> k <= 2) \/
     (exists p, 0 <= p < 4 /\ r = 4 - p /\ 2 < ml /\
        match_len_at (buffer abcd_twice_indexed) 4 4 p ml /\
        (forall q k, 0 <= q < 4 ->
                     match_len_at (buffer abcd_twice_indexed) 4 4 q k -> k <= ml) /\
        (forall q k, p < q < 4 ->
                     match_len_at (buffer abcd_twice_indexed) 4 4 q k -> k < ml))).
Proof.
  apply (find_longest_match_spec true abcd_twice_indexed 0 4 4 0);
    [lia | lia | lia | intros _; exact abcd_twice_index_ok].
Defined.

Example find_longest_match_abcd :
  find_longest_match false abcd_twice 0 4 4 0 = Ret (4, 4) /\
  find_longest_match true abcd_twice_indexed 0 4 4 0 = Ret (4, 4).
Proof. split; reflexivity. Qed.

(** *** [do_indexing] builds a valid index *)

Section Indexing.
Variable data : list Z.
Hypothesis Hbytes : forall i, 0 <= rd data i < 256.

(** [last] holds, for each byte value, its last offset before [i]. *)
Definition last_ok (last : list Z) (i : Z) : Prop :=
  length last = 256%nat /\
  forall v, 0 <= v < 256 ->
    (rd last v = MATCH_NOT_FOUND /\ forall j, 0 <= j < i -> rd data j <> v) \/
    (0 <= rd last v < i /\ rd data (rd last v) = v /\
     forall j, rd last v < j < i -> rd data j <> v).

Lemma rd_insert_eq (l : list Z) i x :
  0 <= i < Z.of_nat (length l) -> rd (<[Z.to_nat i := x]> l) i = x.
Proof.
  intros Hi. unfold rd. destruct (Z.ltb_spec i 0); [lia|].
  apply list_lookup_total_insert_eq. lia.
Qed.

Lemma rd_insert_ne (l : list Z) i k x :
  0 <= i -> 0 <= k -> i <> k -> rd (<[Z.to_nat i := x]> l) k = rd l k.
Proof.
  intros Hi Hk Hne. unfold rd. destruct (Z.ltb_spec k 0); [lia|].
  apply list_lookup_total_insert_ne. lia.
Qed.

Lemma do_indexing_loop_ok n : forall i last index,
  0 <= i -> i + Z.of_nat n <= 65535 ->
  i + Z.of_nat n <= Z.of_nat (length index) ->
  last_ok last i -> (forall k, 0 <= k < i -> entry_ok data index k) ->
  forall k, 0 <= k < i + Z.of_nat n ->
            entry_ok data (do_indexing_loop n i data last index) k.
Proof.
  induction n as [|n IH]; intros i last index Hi Hmax Hlen [Hl Hlast] Hix k Hk.
  - cbn [do_indexing_loop]. apply Hix. lia.
  - cbn [do_indexing_loop].
    pose proof (Hbytes i) as Hv.
    apply IH; try lia.
    + rewrite length_insert. lia.
    + split; [now rewrite length_insert|].
      intros v' Hv'. rewrite u16_small by lia.
      destruct (Z.eq_dec (rd data i) v') as [<-|Hne].
      * right. rewrite rd_insert_eq by lia.
        split; [lia|]. split; [reflexivity|]. intros j Hj. lia.
      * rewrite rd_insert_ne by lia.
        destruct (Hlast v' Hv') as [[Hnf Hno]|(Hr & Hsame & Hno)].
        -- left. split; [assumption|]. intros j Hj.
           destruct (Z.eq_dec j i) as [->|]; [assumption|apply Hno; lia].
        -- right. split; [lia|]. split; [assumption|]. intros j Hj.
           destruct (Z.eq_dec j i) as [->|]; [assumption|apply Hno; lia].
    + intros k' Hk'. unfold entry_ok.
      destruct (Z.eq_dec k' i) as [->|Hne].
      * rewrite rd_insert_eq by lia.
        destruct (Hlast (rd data i) Hv) as [[Hnf Hno]|(Hr & Hsame & Hno)];
          [left|right]; auto.
      * rewrite rd_insert_ne by lia. apply Hix. lia.
Qed.

End Indexing.

(** After [do_indexing] the index is valid for every needle of the
    input, provided the end of the input fits a [uint16_t]: that is, for
    every window but a full one of 15 bits. *)
Lemma do_indexing_index_ok e needle :
  ewf e -> (forall i, 0 <= rd (buffer e) i < 256) ->
  2 ^ window_sz2 e + input_size e <= 65535 -> 0 <= input_size e ->
  2 ^ (window_sz2 e + 1) <= Z.of_nat (length (search_index e)) ->
  needle < 2 ^ window_sz2 e + input_size e ->
  index_ok (buffer (do_indexing true e)) needle
    (search_index (do_indexing true e)).
Proof.
  intros Hwf Hbytes Hend Hsz Hlen Hneedle i Hi.
  pose proof (window_bounds e Hwf) as HpW.
  pose proof (e_size _ Hwf) as Hfit.
  assert (Hp2 : 2 ^ (window_sz2 e + 1) = 2 * 2 ^ window_sz2 e)
    by (rewrite Z.pow_add_r, Z.pow_1_r by (destruct Hwf; lia); lia).
  unfold do_indexing, get_input_offset. rewrite input_buffer_size_eq by assumption.
  esimpl. rewrite (u16_small (2 ^ window_sz2 e + input_size e)) by lia.
  pose proof (do_indexing_loop_ok (buffer e) Hbytes
                (Z.to_nat (2 ^ window_sz2 e + input_size e)) 0
                (replicate 256 MATCH_NOT_FOUND)) as Hloop.
  rewrite Z.add_0_l, Z2Nat.id in Hloop by lia.
  apply Hloop; try lia.
  - unfold blit. rewrite !length_app, length_take, length_replicate, length_drop.
    lia.
  - split; [apply length_replicate|]. intros v Hv. left. split.
    + unfold rd. destruct (Z.ltb_spec v 0); [lia|].
      apply lookup_total_replicate_2. lia.
    + intros j Hj. lia.
Qed.

(** *** The search index at 15 window bits *)

Lemma blit_nil (l : list Z) : blit l 0 [] = l.
Proof. unfold blit. cbn. apply drop_0. Qed.

(** With a full input buffer at 15 window bits, both [uint16_t] bounds of
    [do_indexing] wrap to 0: nothing is cleared, nothing is indexed, and
    the index stays as it was, uninitialised or left over. *)
Lemma do_indexing_skipped (e : heatshrink_encoder) :
  window_sz2 e = 15 -> input_size e = 32768 -> do_indexing true e = e.
Proof.
  intros Hw Hs. unfold do_indexing, get_input_offset, get_input_buffer_size.
  rewrite Hw, Hs.
  change (u16 (Z.shiftl 1 15)) with 32768.
  change (u16 (2 * 32768)) with 0. change (u16 (32768 + 32768)) with 0.
  cbn [Z.to_nat Nat.min replicate do_indexing_loop].
  rewrite blit_nil. destruct e; reflexivity.
Qed.

(** The first bytes an encoder for (W, L) = (15, 4) hands out for an
    input of 32768 bytes 0x61, polled once with a buffer of 8 bytes. *)
Definition first_output (use_index : bool) (fresh_index : list Z)
  : option (HEATSHRINK_ENCODER_SINK_RES * option Z
            * HEATSHRINK_ENCODER_POLL_RES * list Z) :=
  let e := fresh_encoder use_index fresh_index 15 4 in
  let s := heatshrink_encoder_sink e (replicate (Z.to_nat 32768) 97) in
  match heatshrink_encoder_poll use_index 64 s.2 (replicate 8 0) with
  | Ret (r, _, Some oi) => Some (s.1, r, polled oi)
  | _ => None
  end.

(** C9, at the failing input.  Without the index the encoder emits a
    literal and then back-references of 16 bytes at distance 1; with the
    index, which was not built, it finds no match and emits literals.
    The index memory is taken all 0xFFFF, then all zero. *)
Theorem index_changes_output_at_w15 :
  first_output false []
    = Some (HSER_SINK_OK, Some 32768, HSER_POLL_MORE,
            [176; 128; 0; 120; 0; 7; 128; 0]) /\
  first_output true (replicate (Z.to_nat 65536) 65535)
    = Some (HSER_SINK_OK, Some 32768, HSER_POLL_MORE,
            [176; 216; 108; 54; 27; 13; 134; 195]) /\
  first_output true (replicate (Z.to_nat 65536) 0)
    = Some (HSER_SINK_OK, Some 32768, HSER_POLL_MORE,
            [176; 216; 108; 54; 27; 13; 134; 195]).
Proof. repeat split; vm_compute; reflexivity. Qed.

(** Turns of the poll loop that go on: the encoder and the output after
    [n] turns, none of which returns. *)
Fixpoint poll_turns (use_index : bool) (n : nat) (e : heatshrink_encoder)
    (oi : output_info) : option (heatshrink_encoder * output_info) :=
  match n with
  | O => Some (e, oi)
  | S n' =>
    match poll_step use_index e oi with
    | Ret (e1, oi1, None) => poll_turns use_index n' e1 oi1
    | _ => None
    end
  end.

(** The encoder of [first_output], built with the index, when it searches
    for the second byte of the input: after the sink of 32768 bytes 0x61
    and the four turns of the poll that index the buffer and write the
    literal for the first byte. *)
Definition second_search (fresh_index : list Z) : heatshrink_encoder :=
  let e := fresh_encoder true fresh_index 15 4 in
  let s := heatshrink_encoder_sink e (replicate (Z.to_nat 32768) 97) in
  match poll_turns true 4 s.2 (new_output_info (replicate 8 0)) with
  | Some (e1, _) => e1
  | None => e
  end.

(** What [st_step_search] decides: the next state, and the match it
    found, if any. *)
Definition search_outcome (use_index : bool) (e : heatshrink_encoder)
  : option (HEATSHRINK_ENCODER_STATE * Z * Z * Z) :=
  match st_step_search use_index e with
  | Ret (s, e') => Some (s, match_pos e', match_length e', match_scan_index e')
  | _ => None
  end.

(** C7, at the failing input.  The encoder is in [HSES_SEARCH] at the
    second byte, and [st_step_search] calls [find_longest_match] with
    [start] = 32768, [end] = 32769 and [maxlen] = 16.  The candidate at
    32768 matches on 16 bytes, more than the break-even point: the
    linear scan returns it, at distance 1.  The scan along the index,
    which [do_indexing] did not build, considers no candidate and
    returns [MATCH_NOT_FOUND], so that [st_step_search] goes on with a
    literal.  The index memory is taken all zero, then all 0xFFFF. *)
Theorem indexed_search_misses_match_at_w15 :
  let e0 := second_search (replicate (Z.to_nat 65536) 0) in
  let e1 := second_search (replicate (Z.to_nat 65536) 65535) in
  (state e0 = HSES_SEARCH /\ match_scan_index e0 = 1 /\
   get_input_offset e0 = 32768 /\ input_size e0 = 32768) /\
  find_longest_match false e0 32768 32769 16 0 = Ret (1, 16) /\
  find_longest_match true e0 32768 32769 16 0 = Ret (MATCH_NOT_FOUND, 0) /\
  (state e1 = HSES_SEARCH /\ match_scan_index e1 = 1) /\
  find_longest_match false e1 32768 32769 16 0 = Ret (1, 16) /\
  find_longest_match true e1 32768 32769 16 0 = Ret (MATCH_NOT_FOUND, 0) /\
  search_outcome true e0 = Some (HSES_YIELD_TAG_BIT, 0, 0, 2) /\
  search_outcome false e0 = Some (HSES_YIELD_TAG_BIT, 1, 16, 1).
Proof. cbv zeta. repeat split; vm_compute; reflexivity. Qed.

(** *** Lookahead bits equal to window bits *)

(** An encoder for (W, L) = (4, 4), and an input one byte longer than its
    window. *)
Definition w4l4 : heatshrink_encoder := fresh_encoder false [] 4 4.
Definition seventeen : list Z :=
  [1; 2; 3; 4; 5; 6; 7; 8; 9; 10; 11; 12; 13; 14; 15; 16; 17].

(** One round of a driver: hand over what is left of the input, then poll
    until the encoder no longer answers [HSER_POLL_MORE].  Here one poll
    does. *)
Definition round (rest : list Z) (e : heatshrink_encoder)
  : option (option Z * HEATSHRINK_ENCODER_POLL_RES * list Z * heatshrink_encoder) :=
  let s := heatshrink_encoder_sink e rest in
  match heatshrink_encoder_poll false 16 s.2 (replicate 64 0) with
  | Ret (r, e', Some oi) => Some (s.1.2, r, polled oi, e')
  | _ => None
  end.

(** The encoder after two rounds on [seventeen]. *)
Definition stalled : heatshrink_encoder :=
  match round seventeen w4l4 with
  | Some (_, _, _, e1) =>
    match round (drop 16 seventeen) e1 with
    | Some (_, _, _, e2) => e2
    | None => e1
    end
  | None => w4l4
  end.

(** C1, at the failing input.  With L = W the search boundary
    [input_size - lookahead_sz] is 0 for a full buffer, so a poll goes
    straight to [save_backlog], which moves nothing.  The first sink takes
    16 of the 17 bytes; from then on every round takes 0 bytes, writes 0
    bytes and leaves the encoder as it was: the last byte never enters the
    encoder and no output is ever produced for it. *)
Theorem lookahead_equal_window_stalls :
  (exists e1, round seventeen w4l4 = Some (Some 16, HSER_POLL_EMPTY, [], e1)) /\
  state stalled = HSES_NOT_FULL /\ input_size stalled = 16 /\
  round (drop 16 seventeen) stalled = Some (Some 0, HSER_POLL_EMPTY, [], stalled) /\
  forall n : nat,
    Nat.iter n (fun e => match round (drop 16 seventeen) e with
                         | Some (_, _, _, e') => e'
                         | None => e
                         end) stalled = stalled.
Proof.
  assert (Hround : round (drop 16 seventeen) stalled
                   = Some (Some 0, HSER_POLL_EMPTY, [], stalled))
    by (vm_compute; reflexivity).
  split; [eexists; vm_compute; reflexivity|].
  split; [reflexivity|]. split; [reflexivity|]. split; [exact Hround|].
  induction n as [|n IH]; [reflexivity|].
  rewrite Nat.iter_succ, IH, Hround. reflexivity.
Qed.



(** *** The search index and the rest of the encoder

    Nothing but [do_indexing] and the scan along the index reads or
    writes the index: the build without index runs the same on two
    encoders that differ in the index only. *)

Definition omap {A B : Type} (f : A -> B) (m : outcome A) : outcome B :=
  match m with
  | Ret a => Ret (f a)
  | OutOfBounds => OutOfBounds
  | OutOfFuel => OutOfFuel
  end.

Ltac blind :=
  repeat match goal with
  | |- context [if ?b then _ else _] => destruct b; esimpl
  | |- context [match ?m with Ret _ => _ | OutOfBounds => _ | OutOfFuel => _ end] =>
    destruct m; esimpl
  end; try reflexivity.

Lemma push_bit_blind ix bit e oi :
  push_bit bit (set_search_index ix e) oi
  = omap (fun r => (set_search_index ix r.1, r.2)) (push_bit bit e oi).
Proof.
  unfold push_bit, omap. esimpl.
  destruct (bit =? 0); esimpl;
    (destruct (Z.shiftr (bit_index e) 1 =? 0); esimpl;
     [destruct (push_out oi _); esimpl|]; reflexivity).
Qed.

Lemma push_bits_loop_blind ix n : forall bits e oi,
  push_bits_loop n bits (set_search_index ix e) oi
  = omap (fun r => (set_search_index ix r.1, r.2)) (push_bits_loop n bits e oi).
Proof.
  induction n as [|n IH]; intros bits e oi; [reflexivity|].
  cbn [push_bits_loop]. rewrite push_bit_blind.
  destruct (push_bit _ e oi) as [[e1 oi1]| |]; cbn [omap]; esimpl;
    [apply IH|reflexivity|reflexivity].
Qed.

Lemma push_outgoing_bits_blind ix e oi :
  push_outgoing_bits (set_search_index ix e) oi
  = omap (fun r => (r.1.1, set_search_index ix r.1.2, r.2))
      (push_outgoing_bits e oi).
Proof.
  unfold push_outgoing_bits, push_bits. esimpl.
  destruct (outgoing_bits_count e >? 8); rewrite push_bits_loop_blind;
    (destruct (push_bits_loop _ _ e oi) as [[e1 oi1]| |]; cbn [omap]; esimpl;
     reflexivity).
Qed.

Lemma st_yield_tag_bit_blind ix e oi :
  st_yield_tag_bit (set_search_index ix e) oi
  = omap (fun r => (r.1.1, set_search_index ix r.1.2, r.2))
      (st_yield_tag_bit e oi).
Proof.
  unfold st_yield_tag_bit, add_tag_bit, push_bits. esimpl.
  destruct (can_take_byte oi); [|reflexivity].
  destruct (match_length e =? 0); rewrite push_bits_loop_blind;
    (destruct (push_bits_loop _ _ e oi) as [[e1 oi1]| |]; cbn [omap]; esimpl;
     reflexivity).
Qed.

Lemma st_yield_literal_blind ix e oi :
  st_yield_literal (set_search_index ix e) oi
  = omap (fun r => (r.1.1, set_search_index ix r.1.2, r.2))
      (st_yield_literal e oi).
Proof.
  unfold st_yield_literal, push_literal_byte, push_bits, get_input_offset,
    get_input_buffer_size, on_final_literal. esimpl.
  destruct (can_take_byte oi); [|reflexivity].
  rewrite push_bits_loop_blind.
  destruct (push_bits_loop _ _ e oi) as [[e1 oi1]| |]; cbn [omap]; esimpl;
    [|reflexivity|reflexivity].
  destruct (negb _); [reflexivity|]. destruct (match_length e1 >? 0); reflexivity.
Qed.

Lemma st_yield_br_index_blind ix e oi :
  st_yield_br_index (set_search_index ix e) oi
  = omap (fun r => (r.1.1, set_search_index ix r.1.2, r.2))
      (st_yield_br_index e oi).
Proof.
  unfold st_yield_br_index.
  destruct (can_take_byte oi); [|reflexivity].
  rewrite push_outgoing_bits_blind.
  destruct (push_outgoing_bits e oi) as [[[n e1] oi1]| |]; cbn [omap]; esimpl;
    [|reflexivity|reflexivity].
  destruct (n >? 0); reflexivity.
Qed.

Lemma st_yield_br_length_blind ix e oi :
  st_yield_br_length (set_search_index ix e) oi
  = omap (fun r => (r.1.1, set_search_index ix r.1.2, r.2))
      (st_yield_br_length e oi).
Proof.
  unfold st_yield_br_length.
  destruct (can_take_byte oi); [|reflexivity].
  rewrite push_outgoing_bits_blind.
  destruct (push_outgoing_bits e oi) as [[[n e1] oi1]| |]; cbn [omap]; esimpl;
    [|reflexivity|reflexivity].
  destruct (n >? 0); reflexivity.
Qed.

Lemma st_save_backlog_blind ix e :
  st_save_backlog (set_search_index ix e)
  = ((st_save_backlog e).1, set_search_index ix (st_save_backlog e).2).
Proof.
  unfold st_save_backlog, save_backlog, is_finishing, has_literal,
    backlog_is_partial, get_input_buffer_size. esimpl.
  destruct (negb (Z.land (flags e) FLAG_IS_FINISHING =? 0)).
  - destruct (negb _); reflexivity.
  - esimpl. destruct (negb _); reflexivity.
Qed.

Lemma st_flush_bit_buffer_blind ix e oi :
  st_flush_bit_buffer (set_search_index ix e) oi
  = omap (fun r => (r.1.1, set_search_index ix r.1.2, r.2))
      (st_flush_bit_buffer e oi).
Proof.
  unfold st_flush_bit_buffer. esimpl.
  destruct (bit_index e =? 128); [reflexivity|].
  destruct (can_take_byte oi); [|reflexivity].
  destruct (push_out oi _); reflexivity.
Qed.

Lemma st_step_search_blind ix e :
  st_step_search false (set_search_index ix e)
  = omap (fun r => (r.1, set_search_index ix r.2)) (st_step_search false e).
Proof.
  unfold st_step_search, find_longest_match, get_input_buffer_size,
    get_lookahead_size, get_input_offset, get_input_buffer_size, is_finishing,
    backlog_is_filled, backlog_is_partial.
  esimpl.
  destruct (_ >=? _); [reflexivity|].
  match goal with
  | |- context [if ?a =? ?b then Ret (MATCH_NOT_FOUND, 0) else _] =>
    destruct (a =? b)
  end; esimpl.
  - change (MATCH_NOT_FOUND =? MATCH_NOT_FOUND) with true. reflexivity.
  - match goal with
    | |- context [scan_linear ?f ?b ?s ?n ?m ?p ?i] =>
      destruct (scan_linear f b s n m p i) as [bl bi]
    end.
    destruct (bl >? 0); esimpl.
    + destruct (_ =? MATCH_NOT_FOUND); reflexivity.
    + change (MATCH_NOT_FOUND =? MATCH_NOT_FOUND) with true. reflexivity.
Qed.

Lemma poll_step_blind ix e oi :
  poll_step false (set_search_index ix e) oi
  = omap (fun r => (set_search_index ix r.1.1, r.1.2, r.2))
      (poll_step false e oi).
Proof.
  unfold poll_step, do_indexing. esimpl. destruct (state e) eqn:Est.
  - reflexivity.
  - cbn [omap]. esimpl. destruct (_ && _); reflexivity.
  - rewrite st_step_search_blind.
    destruct (st_step_search false e) as [[s e1]| |]; cbn [omap]; esimpl;
      [|reflexivity|reflexivity].
    destruct (_ && _); reflexivity.
  - rewrite st_yield_tag_bit_blind.
    destruct (st_yield_tag_bit e oi) as [[[s e1] oi1]| |]; cbn [omap]; esimpl;
      [|reflexivity|reflexivity].
    destruct (_ && _); reflexivity.
  - rewrite st_yield_literal_blind.
    destruct (st_yield_literal e oi) as [[[s e1] oi1]| |]; cbn [omap]; esimpl;
      [|reflexivity|reflexivity].
    destruct (_ && _); reflexivity.
  - rewrite st_yield_br_index_blind.
    destruct (st_yield_br_index e oi) as [[[s e1] oi1]| |]; cbn [omap]; esimpl;
      [|reflexivity|reflexivity].
    destruct (_ && _); reflexivity.
  - rewrite st_yield_br_length_blind.
    destruct (st_yield_br_length e oi) as [[[s e1] oi1]| |]; cbn [omap]; esimpl;
      [|reflexivity|reflexivity].
    destruct (_ && _); reflexivity.
  - rewrite st_save_backlog_blind.
    destruct (st_save_backlog e) as [s e1]; cbn [omap]; esimpl.
    destruct (_ && _); reflexivity.
  - rewrite st_flush_bit_buffer_blind.
    destruct (st_flush_bit_buffer e oi) as [[[s e1] oi1]| |]; cbn [omap];
      esimpl; reflexivity.
  - reflexivity.
Qed.

(** *** The two scans agree on a valid index *)

Lemma search_result_unique e start end_ maxlen ml0 r ml r' ml' :
  search_result e start end_ maxlen ml0 r ml ->
  search_result e start end_ maxlen ml0 r' ml' ->
  r = r' /\ ml = ml'.
Proof.
  intros [(-> & -> & Hno)|(p & Hp & -> & Hml & Hat & Hmax & Hnear)]
         [(-> & -> & Hno')|(p' & Hp' & -> & Hml' & Hat' & Hmax' & Hnear')].
  - split; reflexivity.
  - specialize (Hno p' ml' Hp' Hat'). lia.
  - specialize (Hno' p ml Hp Hat). lia.
  - pose proof (Hmax p' ml' Hp' Hat'). pose proof (Hmax' p ml Hp Hat).
    assert (ml = ml') by lia. subst ml'. split; [|reflexivity].
    destruct (Z.lt_trichotomy p p') as [Hlt|[->|Hgt]]; [|reflexivity|].
    + specialize (Hnear p' ml ltac:(lia) Hat'). lia.
    + specialize (Hnear' p ml ltac:(lia) Hat). lia.
Qed.

Lemma find_longest_match_index e start end_ maxlen ml0 :
  0 <= start <= end_ -> end_ <= 65535 -> 0 <= maxlen ->
  index_ok (buffer e) end_ (search_index e) ->
  find_longest_match true e start end_ maxlen ml0
  = find_longest_match false e start end_ maxlen ml0.
Proof.
  intros Hs He Hm Hix.
  destruct (chain_search_spec e start end_ maxlen ml0 Hs He Hm Hix)
    as (r & ml & -> & Hres).
  destruct (linear_search_spec e start end_ maxlen ml0 Hs He Hm)
    as (r' & ml' & -> & Hres').
  destruct (search_result_unique _ _ _ _ _ _ _ _ _ Hres Hres') as [-> ->].
  reflexivity.
Qed.

(** The search step of the two builds, on an encoder whose index is
    valid at the needle. *)
Lemma st_step_search_index e :
  ewf e ->
  (match_scan_index e < input_size e ->
   index_ok (buffer e) (u16 (get_input_offset e + match_scan_index e))
     (search_index e)) ->
  st_step_search true e = st_step_search false e.
Proof.
  intros Hwf Hix. unfold st_step_search.
  pose proof (window_bounds e Hwf) as HpW.
  pose proof (lookahead_bounds e Hwf) as HpL.
  unfold get_input_offset in *.
  rewrite (input_buffer_size_eq e Hwf), (lookahead_size_eq e Hwf) in *.
  destruct (_ >=? _) eqn:Ege; [reflexivity|].
  assert (Hmsi : 0 <= match_scan_index e < input_size e).
  { destruct Hwf. rewrite Z.geb_leb in Ege. apply Z.leb_gt in Ege.
    destruct (negb _); lia. }
  assert (Hsz : input_size e <= 2 ^ window_sz2 e) by (destruct Hwf; lia).
  specialize (Hix ltac:(lia)).
  rewrite (u16_small (2 ^ window_sz2 e + match_scan_index e)) in * by lia.
  rewrite find_longest_match_index; [reflexivity| |lia| |assumption].
  - replace (2 ^ window_sz2 e + match_scan_index e - 2 ^ window_sz2 e + 1)
      with (match_scan_index e + 1) by lia.
    rewrite (u16_small (match_scan_index e + 1)) by lia.
    destruct (negb (backlog_is_filled e =? 0)); [lia|].
    destruct (negb (backlog_is_partial e =? 0)); [|lia].
    destruct (_ <? _); lia.
  - destruct (_ <? _); [|lia]. unfold u16.
    apply Z.mod_pos_bound. lia.
Qed.

(** *** What a poll keeps while it searches *)

Record kept (e e' : heatshrink_encoder) : Prop := mk_kept {
  kp_buffer : buffer e' = buffer e;
  kp_index : search_index e' = search_index e;
  kp_size : input_size e' = input_size e;
  kp_window : window_sz2 e' = window_sz2 e
}.

Lemma kept_refl e : kept e e.
Proof. constructor; reflexivity. Qed.

Lemma bits_only_kept e e' : bits_only e e' -> kept e e'.
Proof.
  unfold bits_only. intros H. constructor; rewrite H; reflexivity.
Qed.

Lemma kept_trans e1 e2 e3 : kept e1 e2 -> kept e2 e3 -> kept e1 e3.
Proof. intros [] []. constructor; congruence. Qed.

Lemma push_bits_kept e count bits oi e' oi' :
  push_bits e count bits oi = Ret (e', oi') -> kept e e'.
Proof. intros E. apply push_bits_ewf in E. apply bits_only_kept, E. Qed.

Lemma push_outgoing_bits_kept e oi n e' oi' :
  push_outgoing_bits e oi = Ret (n, e', oi') -> kept e e'.
Proof.
  intros E. apply push_outgoing_bits_ewf in E.
  destruct E as (e1 & Hbo & _ & He'). apply bits_only_kept in Hbo.
  destruct Hbo. rewrite He'. constructor; esimpl; assumption.
Qed.

Lemma st_yield_tag_bit_kept e oi s e' oi' :
  st_yield_tag_bit e oi = Ret (s, e', oi') -> kept e e'.
Proof.
  unfold st_yield_tag_bit, add_tag_bit.
  destruct (can_take_byte oi); [|intros [= <- <- <-]; apply kept_refl].
  destruct (match_length e =? 0);
    (destruct (push_bits _ _ _ _) as [[e1 oi1]| |] eqn:E; esimpl;
     try discriminate; intros [= <- <- <-];
     apply push_bits_kept in E; destruct E; constructor; esimpl; assumption).
Qed.

Lemma st_yield_literal_kept e oi s e' oi' :
  st_yield_literal e oi = Ret (s, e', oi') -> kept e e'.
Proof.
  unfold st_yield_literal, push_literal_byte.
  destruct (can_take_byte oi); [|intros [= <- <- <-]; apply kept_refl].
  destruct (push_bits _ _ _ _) as [[e1 oi1]| |] eqn:E; esimpl;
    try discriminate.
  apply push_bits_kept in E. destruct E.
  destruct (negb _); intros [= <- <- <-]; constructor; esimpl; assumption.
Qed.

Lemma st_yield_br_index_kept e oi s e' oi' :
  st_yield_br_index e oi = Ret (s, e', oi') -> kept e e'.
Proof.
  unfold st_yield_br_index.
  destruct (can_take_byte oi); [|intros [= <- <- <-]; apply kept_refl].
  destruct (push_outgoing_bits e oi) as [[[n e1] oi1]| |] eqn:E; esimpl;
    try discriminate.
  apply push_outgoing_bits_kept in E. destruct E.
  destruct (n >? 0); intros [= <- <- <-]; constructor; esimpl; assumption.
Qed.

Lemma st_yield_br_length_kept e oi s e' oi' :
  st_yield_br_length e oi = Ret (s, e', oi') -> kept e e'.
Proof.
  unfold st_yield_br_length.
  destruct (can_take_byte oi); [|intros [= <- <- <-]; apply kept_refl].
  destruct (push_outgoing_bits e oi) as [[[n e1] oi1]| |] eqn:E; esimpl;
    try discriminate.
  apply push_outgoing_bits_kept in E. destruct E.
  destruct (n >? 0); intros [= <- <- <-]; constructor; esimpl; assumption.
Qed.

Lemma st_step_search_kept use_index e s e' :
  st_step_search use_index e = Ret (s, e') -> kept e e'.
Proof.
  unfold st_step_search.
  destruct (_ >=? _); [intros [= <- <-]; apply kept_refl|].
  destruct (find_longest_match _ _ _ _ _ _) as [[r ml]| |]; esimpl;
    try discriminate.
  destruct (r =? MATCH_NOT_FOUND); intros [= <- <-]; constructor; reflexivity.
Qed.

Lemma st_flush_bit_buffer_kept e oi s e' oi' :
  st_flush_bit_buffer e oi = Ret (s, e', oi') -> e' = e.
Proof.
  unfold st_flush_bit_buffer.
  destruct (bit_index e =? 128); [intros [= <- <- <-]; reflexivity|].
  destruct (can_take_byte oi); [|intros [= <- <- <-]; reflexivity].
  destruct (push_out oi _); esimpl; try discriminate.
  intros [= <- <- <-]. reflexivity.
Qed.

Definition is_byte (c : Z) : Prop := 0 <= c < 256.

Lemma rd_byte l i : Forall is_byte l -> 0 <= rd l i < 256.
Proof.
  intros Hl. unfold rd. destruct (i <? 0); [lia|].
  destruct (l !! Z.to_nat i) as [c|] eqn:E.
  - rewrite (list_lookup_total_correct _ _ _ E).
    apply (Forall_lookup_1 _ _ _ _ Hl E).
  - rewrite list_lookup_total_alt, E. cbn. lia.
Qed.

Lemma blit_bytes l dst src :
  Forall is_byte l -> Forall is_byte src -> Forall is_byte (blit l dst src).
Proof.
  intros Hl Hs. unfold blit.
  apply Forall_app. split; [apply Forall_take, Hl|].
  apply Forall_app. split; [exact Hs|apply Forall_drop, Hl].
Qed.

Lemma st_save_backlog_kept e s e' :
  st_save_backlog e = (s, e') ->
  kept e e' \/
  (s = HSES_NOT_FULL /\ window_sz2 e' = window_sz2 e /\
   search_index e' = search_index e /\
   (Forall is_byte (buffer e) -> Forall is_byte (buffer e'))).
Proof.
  unfold st_save_backlog.
  destruct (negb (is_finishing e =? 0)).
  - destruct (negb _); intros [= <- <-]; left; constructor; reflexivity.
  - intros [= <- <-]. right. split; [reflexivity|].
    unfold save_backlog, backlog_is_partial. esimpl.
    destruct (negb _); esimpl;
      (split; [reflexivity|]; split; [reflexivity|]; intros Hb;
       apply blit_bytes; [assumption|]; apply Forall_take, Forall_drop, Hb).
Qed.

(** The states from the search to the end of the symbols it yields. *)
Definition in_search (s : HEATSHRINK_ENCODER_STATE) : Prop :=
  match s with
  | HSES_SEARCH | HSES_YIELD_TAG_BIT | HSES_YIELD_LITERAL
  | HSES_YIELD_BR_INDEX | HSES_YIELD_BR_LENGTH | HSES_SAVE_BACKLOG => True
  | _ => False
  end.

(** An encoder with a window of 14 bits at most, whose index has room
    for every offset of the buffer and is valid while the encoder
    searches. *)
Record indexed (e : heatshrink_encoder) : Prop := mk_indexed {
  ix_wf : ewf e;
  ix_window : window_sz2 e <= 14;
  ix_bytes : Forall is_byte (buffer e);
  ix_len : 2 ^ (window_sz2 e + 1) <= Z.of_nat (length (search_index e));
  ix_index : in_search (state e) ->
             forall i, 0 <= i < 2 ^ window_sz2 e + input_size e ->
                       entry_ok (buffer e) (search_index e) i
}.

Lemma do_indexing_loop_length n : forall i data last index,
  length (do_indexing_loop n i data last index) = length index.
Proof.
  induction n as [|n IH]; intros i data last index; [reflexivity|].
  cbn [do_indexing_loop]. rewrite IH. apply length_insert.
Qed.

Lemma do_indexing_indexed e :
  indexed e -> indexed (set_state HSES_SEARCH (do_indexing true e)).
Proof.
  intros [Hwf HW Hb Hlen Hix].
  pose proof (window_bounds e Hwf) as HpW.
  assert (Hp14 : 2 ^ window_sz2 e <= 16384).
  { change 16384 with (2 ^ 14). apply Z.pow_le_mono_r; lia. }
  assert (Hsz : 0 <= input_size e <= 2 ^ window_sz2 e) by (destruct Hwf; lia).
  constructor.
  - apply do_indexing_ewf. assumption.
  - exact HW.
  - exact Hb.
  - unfold do_indexing. esimpl. rewrite do_indexing_loop_length.
    unfold blit. rewrite !length_app, length_take, length_replicate, length_drop.
    lia.
  - intros _ i Hi. unfold do_indexing in Hi. esimpl.
    apply (do_indexing_index_ok e (2 ^ window_sz2 e + input_size e - 1) Hwf
             (fun j => rd_byte _ j Hb)); lia.
Qed.

Lemma kept_indexed e e' :
  indexed e -> kept e e' -> ewf e' -> in_search (state e) -> indexed e'.
Proof.
  intros [Hwf HW Hb Hlen Hix] [Kb Ki Ks Kw] Hwf' Hin.
  constructor; rewrite ?Kb, ?Ki, ?Ks, ?Kw; auto.
Qed.

(** *** One turn of the two builds

    [strip] forgets the index.  A turn of the build with index, on an
    encoder whose index is valid, and a turn of the build without, on the
    same encoder stripped, end in the same encoder stripped, with the same
    output. *)

Definition strip (e : heatshrink_encoder) : heatshrink_encoder :=
  set_search_index [] e.

Lemma strip_strip e : strip (strip e) = strip e.
Proof. reflexivity. Qed.

Lemma strip_set_search_index ix e : strip (set_search_index ix e) = strip e.
Proof. reflexivity. Qed.

Lemma indexed_needle e :
  indexed e -> state e = HSES_SEARCH ->
  match_scan_index e < input_size e ->
  index_ok (buffer e) (u16 (get_input_offset e + match_scan_index e))
    (search_index e).
Proof.
  intros [Hwf HW Hb Hlen Hix] Hst Hlt.
  pose proof (window_bounds e Hwf) as HpW.
  assert (Hsz : input_size e <= 2 ^ window_sz2 e) by (destruct Hwf; lia).
  assert (Hmsi : 0 <= match_scan_index e) by (destruct Hwf; lia).
  unfold get_input_offset. rewrite (input_buffer_size_eq e Hwf).
  rewrite u16_small by lia.
  intros i Hi. apply Hix; [rewrite Hst; exact I|lia].
Qed.

Lemma poll_step_strip e oi :
  indexed e ->
  poll_step false (strip e) oi
  = omap (fun r => (strip r.1.1, r.1.2, r.2)) (poll_step true e oi).
Proof.
  intros Hind. unfold strip at 1. rewrite poll_step_blind.
  unfold poll_step. destruct (state e) eqn:Est; try reflexivity.
  rewrite (st_step_search_index e (ix_wf _ Hind) (indexed_needle e Hind Est)).
    destruct (st_step_search false e) as [[s e1]| |]; reflexivity.
Qed.

Lemma kept_set_state e e1 s : kept e e1 -> kept e (set_state s e1).
Proof. intros []. constructor; assumption. Qed.

Ltac continue_inv :=
  cbn [mbind outcome_bind]; try destruct (_ && _); intros [= <- <- <-].

Lemma poll_step_indexed e oi e' oi' r :
  indexed e -> poll_step true e oi = Ret (e', oi', r) -> indexed e'.
Proof.
  intros Hind Hstep.
  assert (Hwf' : ewf e') by (eapply poll_step_ewf; [apply Hind|eassumption]).
  revert Hstep. unfold poll_step. destruct (state e) eqn:Est.
  - intros [= <- <- <-]. assumption.
  - continue_inv; apply (do_indexing_indexed e Hind).
  - destruct (st_step_search true e) as [[s e1]| |] eqn:E; try discriminate.
    continue_inv;
    (apply st_step_search_kept in E;
     apply (kept_indexed e); [assumption|now apply kept_set_state|assumption|];
     rewrite Est; exact I).
  - destruct (st_yield_tag_bit e oi) as [[[s e1] oi1]| |] eqn:E; try discriminate.
    continue_inv;
    (apply st_yield_tag_bit_kept in E;
     apply (kept_indexed e); [assumption|now apply kept_set_state|assumption|];
     rewrite Est; exact I).
  - destruct (st_yield_literal e oi) as [[[s e1] oi1]| |] eqn:E; try discriminate.
    continue_inv;
    (apply st_yield_literal_kept in E;
     apply (kept_indexed e); [assumption|now apply kept_set_state|assumption|];
     rewrite Est; exact I).
  - destruct (st_yield_br_index e oi) as [[[s e1] oi1]| |] eqn:E; try discriminate.
    continue_inv;
    (apply st_yield_br_index_kept in E;
     apply (kept_indexed e); [assumption|now apply kept_set_state|assumption|];
     rewrite Est; exact I).
  - destruct (st_yield_br_length e oi) as [[[s e1] oi1]| |] eqn:E; try discriminate.
    continue_inv;
    (apply st_yield_br_length_kept in E;
     apply (kept_indexed e); [assumption|now apply kept_set_state|assumption|];
     rewrite Est; exact I).
  - destruct (st_save_backlog e) as [s e1] eqn:E.
    continue_inv;
    (apply st_save_backlog_kept in E; destruct E as [K|(-> & Kw & Ki & Kb)];
     [apply (kept_indexed e); [assumption|now apply kept_set_state|assumption|];
      rewrite Est; exact I
     |destruct Hind as [Hwf HW Hb Hlen Hix];
      constructor; esimpl; rewrite ?Kw, ?Ki; auto; intros []]).
  - destruct (st_flush_bit_buffer e oi) as [[[s e1] oi1]| |] eqn:E;
      try discriminate.
    cbn [mbind outcome_bind]. intros [= <- <- <-].
    assert (Hs : s = HSES_DONE \/ s = HSES_FLUSH_BITS).
    { revert E. unfold st_flush_bit_buffer.
      destruct (bit_index e =? 128); [intros [= <- <- <-]; auto|].
      destruct (can_take_byte oi); [|intros [= <- <- <-]; auto].
      destruct (push_out oi _); esimpl; try discriminate.
      intros [= <- <- <-]. auto. }
    apply st_flush_bit_buffer_kept in E. subst e1.
    destruct Hind as [Hwf HW Hb Hlen Hix].
    constructor; esimpl; auto. destruct Hs as [-> | ->]; intros [].
  - intros [= <- <- <-]. assumption.
Qed.

Lemma poll_loop_strip fuel : forall e oi,
  indexed e ->
  poll_loop false fuel (strip e) oi
  = omap (fun r => (r.1.1, strip r.1.2, r.2)) (poll_loop true fuel e oi).
Proof.
  induction fuel as [|fuel IH]; intros e oi Hind; [reflexivity|].
  cbn [poll_loop]. rewrite (poll_step_strip e oi Hind).
  destruct (poll_step true e oi) as [[[e1 oi1] r]| |] eqn:E; try reflexivity.
  cbn [omap mbind outcome_bind fst snd].
  destruct r as [res|]; [reflexivity|].
  apply IH. eapply poll_step_indexed; eassumption.
Qed.

Lemma poll_loop_indexed fuel : forall e oi r e' oi',
  indexed e -> poll_loop true fuel e oi = Ret (r, e', oi') -> indexed e'.
Proof.
  induction fuel as [|fuel IH]; intros e oi r e' oi' Hind; [discriminate|].
  cbn [poll_loop].
  destruct (poll_step true e oi) as [[[e1 oi1] r1]| |] eqn:E; try discriminate.
  cbn [mbind outcome_bind]. apply (poll_step_indexed _ _ _ _ _ Hind) in E.
  destruct r1 as [res|]; [intros [= <- <- <-]; assumption|].
  apply IH. assumption.
Qed.

(** *** The calls of the two builds *)

Lemma sink_strip e in_buf :
  heatshrink_encoder_sink (strip e) in_buf
  = ((heatshrink_encoder_sink e in_buf).1,
     strip (heatshrink_encoder_sink e in_buf).2).
Proof.
  unfold heatshrink_encoder_sink, strip, is_finishing, get_input_offset,
    get_input_buffer_size. esimpl.
  destruct (negb (_ =? 0)); [reflexivity|].
  destruct (negb (bool_decide (state e = HSES_NOT_FULL))); [reflexivity|].
  cbn [fst snd]. destruct (_ =? _); reflexivity.
Qed.

Lemma sink_indexed e in_buf :
  indexed e -> Forall is_byte in_buf ->
  indexed (heatshrink_encoder_sink e in_buf).2.
Proof.
  intros Hind Hin. pose proof (sink_ewf e in_buf (ix_wf _ Hind)) as Hwf'.
  revert Hwf'. unfold heatshrink_encoder_sink.
  destruct (negb (is_finishing e =? 0)); [intros _; assumption|].
  destruct (bool_decide_reflect (state e = HSES_NOT_FULL)) as [Hst|Hst];
    [|intros _; assumption].
  cbn [negb snd]. destruct Hind as [Hwf HW Hb Hlen Hix].
  assert (Hbytes : Forall is_byte
            (blit (buffer e) (u16 (get_input_offset e + input_size e))
               (take (Z.to_nat
                  (u16 (if u16 (get_input_buffer_size e - input_size e)
                           <? Z.of_nat (length in_buf)
                        then u16 (get_input_buffer_size e - input_size e)
                        else Z.of_nat (length in_buf)))) in_buf)))
    by (apply blit_bytes; [assumption|apply Forall_take, Hin]).
  destruct (_ =? _); intros Hwf'; constructor; esimpl; auto.
  - intros [].
  - rewrite Hst. intros [].
Qed.

Lemma finish_strip e :
  heatshrink_encoder_finish (strip e)
  = ((heatshrink_encoder_finish e).1, strip (heatshrink_encoder_finish e).2).
Proof.
  unfold heatshrink_encoder_finish, strip. esimpl.
  destruct (bool_decide (state e = HSES_NOT_FULL)); reflexivity.
Qed.

Lemma finish_indexed e :
  indexed e -> indexed (heatshrink_encoder_finish e).2.
Proof.
  intros Hind. pose proof (finish_ewf e (ix_wf _ Hind)) as Hwf'.
  revert Hwf'. unfold heatshrink_encoder_finish. cbn [snd]. esimpl.
  destruct Hind as [Hwf HW Hb Hlen Hix].
  destruct (bool_decide (state e = HSES_NOT_FULL));
    intros Hwf'; constructor; esimpl; auto.
  intros [].
Qed.

Lemma reset_strip e :
  heatshrink_encoder_reset (strip e) = strip (heatshrink_encoder_reset e).
Proof. reflexivity. Qed.

Lemma reset_indexed e : indexed e -> indexed (heatshrink_encoder_reset e).
Proof.
  intros [Hwf HW Hb Hlen Hix]. constructor.
  - destruct Hwf. apply reset_ewf; assumption.
  - assumption.
  - unfold heatshrink_encoder_reset. esimpl.
    apply Forall_replicate. unfold is_byte. lia.
  - assumption.
  - intros [].
Qed.

Lemma poll_strip fuel e out_buf :
  indexed e ->
  heatshrink_encoder_poll false fuel (strip e) out_buf
  = omap (fun r => (r.1.1, strip r.1.2, r.2))
      (heatshrink_encoder_poll true fuel e out_buf).
Proof.
  intros Hind. unfold heatshrink_encoder_poll.
  destruct (_ =? 0); [reflexivity|].
  rewrite (poll_loop_strip fuel e _ Hind).
  destruct (poll_loop true fuel e _) as [[[r e1] oi1]| |]; reflexivity.
Qed.

Lemma poll_indexed fuel e out_buf r e' oi :
  indexed e -> heatshrink_encoder_poll true fuel e out_buf = Ret (r, e', oi) ->
  indexed e'.
Proof.
  intros Hind. unfold heatshrink_encoder_poll.
  destruct (_ =? 0); [intros [= <- <- <-]; assumption|].
  destruct (poll_loop _ _ _ _) as [[[r1 e1] oi1]| |] eqn:E; esimpl;
    try discriminate.
  intros [= <- <- <-]. eapply poll_loop_indexed; eassumption.
Qed.

Lemma alloc_strip fresh_index w l e :
  heatshrink_encoder_alloc true fresh_index w l = Some e ->
  heatshrink_encoder_alloc false fresh_index w l = Some (strip e).
Proof.
  unfold heatshrink_encoder_alloc.
  destruct (_ || _); [discriminate|]. intros [= <-]. reflexivity.
Qed.

Lemma alloc_indexed fresh_index w l e :
  heatshrink_encoder_alloc true fresh_index w l = Some e ->
  window_sz2 e <= 14 ->
  2 ^ (window_sz2 e + 1) <= Z.of_nat (length fresh_index) ->
  indexed e.
Proof.
  intros Ha HW Hlen. pose proof (alloc_ewf _ _ _ _ _ Ha) as Hwf.
  revert Ha HW Hlen Hwf. unfold heatshrink_encoder_alloc.
  destruct (_ || _); [discriminate|]. intros [= <-] HW Hlen Hwf.
  constructor; auto.
  - unfold heatshrink_encoder_reset. esimpl.
    apply Forall_replicate. unfold is_byte. lia.
  - intros [].
Qed.

(** A caller's calls, and what each call gives back besides the
    encoder. *)
Inductive call : Type :=
  | Reset
  | Sink (in_buf : list Z)
  | Finish
  | Poll (fuel : nat) (out_buf : list Z).

Inductive answer : Type :=
  | Reset_done
  | Sunk (r : HEATSHRINK_ENCODER_SINK_RES) (input_size : option Z)
  | Finished (r : HEATSHRINK_ENCODER_FINISH_RES)
  | Polled (r : HEATSHRINK_ENCODER_POLL_RES) (oi : option output_info).

Definition do_call (use_index : bool) (e : heatshrink_encoder) (c : call)
  : outcome (answer * heatshrink_encoder) :=
  match c with
  | Reset => Ret (Reset_done, heatshrink_encoder_reset e)
  | Sink in_buf =>
    let '(r, n, e1) := heatshrink_encoder_sink e in_buf in Ret (Sunk r n, e1)
  | Finish =>
    let '(r, e1) := heatshrink_encoder_finish e in Ret (Finished r, e1)
  | Poll fuel out_buf =>
    '(r, e1, oi) ← heatshrink_encoder_poll use_index fuel e out_buf;
    Ret (Polled r oi, e1)
  end.

Fixpoint do_calls (use_index : bool) (e : heatshrink_encoder) (cs : list call)
  : outcome (list answer) :=
  match cs with
  | [] => Ret []
  | c :: cs' =>
    '(a, e1) ← do_call use_index e c;
    as' ← do_calls use_index e1 cs';
    Ret (a :: as')
  end.

(** The bytes a call hands over are bytes. *)
Definition call_bytes (c : call) : Prop :=
  match c with
  | Sink in_buf => Forall is_byte in_buf
  | _ => True
  end.

Lemma do_call_strip e c :
  indexed e ->
  do_call false (strip e) c
  = omap (fun r => (r.1, strip r.2)) (do_call true e c).
Proof.
  intros Hind. destruct c as [|in_buf| |fuel out_buf]; cbn [do_call].
  - reflexivity.
  - rewrite sink_strip.
    destruct (heatshrink_encoder_sink e in_buf) as [[r n] e1]. reflexivity.
  - rewrite finish_strip.
    destruct (heatshrink_encoder_finish e) as [r e1]. reflexivity.
  - rewrite (poll_strip fuel e out_buf Hind).
    destruct (heatshrink_encoder_poll true fuel e out_buf)
      as [[[r e1] oi]| |]; reflexivity.
Qed.

Lemma do_call_indexed e c a e' :
  indexed e -> call_bytes c -> do_call true e c = Ret (a, e') -> indexed e'.
Proof.
  intros Hind Hc. destruct c as [|in_buf| |fuel out_buf]; cbn [do_call].
  - intros [= <- <-]. apply reset_indexed, Hind.
  - pose proof (sink_indexed e in_buf Hind Hc) as H.
    destruct (heatshrink_encoder_sink e in_buf) as [[r n] e1].
    intros [= <- <-]. exact H.
  - pose proof (finish_indexed e Hind) as H.
    destruct (heatshrink_encoder_finish e) as [r e1].
    intros [= <- <-]. exact H.
  - destruct (heatshrink_encoder_poll true fuel e out_buf)
      as [[[r e1] oi]| |] eqn:E; try discriminate.
    cbn [mbind outcome_bind]. intros [= <- <-].
    eapply poll_indexed; eassumption.
Qed.

Lemma do_calls_strip cs : forall e,
  indexed e -> Forall call_bytes cs ->
  do_calls false (strip e) cs = do_calls true e cs.
Proof.
  induction cs as [|c cs IH]; intros e Hind Hcs; [reflexivity|].
  apply Forall_cons_1 in Hcs. destruct Hcs as [Hc Hcs].
  cbn [do_calls]. rewrite (do_call_strip e c Hind).
  destruct (do_call true e c) as [[a e1]| |] eqn:E; try reflexivity.
  cbn [omap mbind outcome_bind fst snd].
  rewrite (IH e1 (do_call_indexed _ _ _ _ Hind Hc E) Hcs). reflexivity.
Qed.

(** X3. With a window of 14 bits at most and an index of [2^(W+1)]
    entries, as [alloc] sizes it, the build with the search index and the
    build without answer every sequence of reset, sink, finish and poll
    calls alike, whatever the index holds at first: same return values,
    same counts, same bytes written. *)
Theorem index_agrees_below_w15 (fresh_index : list Z) (w l : Z)
    (e : heatshrink_encoder) (cs : list call) :
  heatshrink_encoder_alloc true fresh_index w l = Some e ->
  window_sz2 e <= 14 ->
  2 ^ (window_sz2 e + 1) <= Z.of_nat (length fresh_index) ->
  Forall call_bytes cs ->
  exists e0, heatshrink_encoder_alloc false fresh_index w l = Some e0 /\
             do_calls false e0 cs = do_calls true e cs.
Proof.
  intros Ha HW Hlen Hcs. exists (strip e). split; [apply alloc_strip, Ha|].
  apply do_calls_strip; [|assumption].
  eapply alloc_indexed; eassumption.
Qed.

Lemma index_agrees_below_w15_witness :
  exists e0,
    heatshrink_encoder_alloc false (replicate 512 7) 8 7 = Some e0 /\
    do_calls false e0 [Sink [97; 98; 97; 98; 97; 98]; Finish;
                       Poll 100 (replicate 16 0)]
    = do_calls true (fresh_encoder true (replicate 512 7) 8 7)
        [Sink [97; 98; 97; 98; 97; 98]; Finish; Poll 100 (replicate 16 0)].
Proof.
  apply (index_agrees_below_w15 (replicate 512 7) 8 7
           (fresh_encoder true (replicate 512 7) 8 7)).
  - reflexivity.
  - vm_compute. discriminate.
  - vm_compute. discriminate.
  - repeat constructor; unfold is_byte; lia.
Defined.

(** X4. [do_indexing] chains the offsets of equal bytes.  When the end
    of the input fits a [uint16_t], which it does for every window but a
    full one of 15 bits, the index entry of every offset below the end
    holds the nearest earlier offset with the same byte, or
    [MATCH_NOT_FOUND] when no earlier offset has it; the buffer is left
    as it was. *)
Theorem do_indexing_links_previous (e : heatshrink_encoder) (i : Z) :
  ewf e -> Forall is_byte (buffer e) ->
  2 ^ window_sz2 e + input_size e <= 65535 ->
  2 ^ (window_sz2 e + 1) <= Z.of_nat (length (search_index e)) ->
  0 <= i < 2 ^ window_sz2 e + input_size e ->
  let data := buffer e in
  let index := search_index (do_indexing true e) in
  buffer (do_indexing true e) = data /\
  ((rd index i = MATCH_NOT_FOUND /\
    forall j, 0 <= j < i -> rd data j <> rd data i) \/
   (0 <= rd index i < i /\ rd data (rd index i) = rd data i /\
    forall j, rd index i < j < i -> rd data j <> rd data i)).
Proof.
  intros Hwf Hb Hend Hlen Hi data index. split; [reflexivity|].
  assert (Hsz : 0 <= input_size e) by (destruct Hwf; lia).
  exact (do_indexing_index_ok e (2 ^ window_sz2 e + input_size e - 1) Hwf
           (fun j => rd_byte _ j Hb) Hend Hsz Hlen ltac:(lia) i ltac:(lia)).
Qed.

(** An encoder for (W, L) = (4, 3) that holds the input [abab]. *)
Definition abab_sunk : heatshrink_encoder :=
  (heatshrink_encoder_sink (fresh_encoder true (replicate 32 0) 4 3)
     [97; 98; 97; 98]).2.

Lemma do_indexing_links_previous_witness :
  buffer (do_indexing true abab_sunk) = buffer abab_sunk /\
  ((rd (search_index (do_indexing true abab_sunk)) 18 = MATCH_NOT_FOUND /\
    forall j, 0 <= j < 18 -> rd (buffer abab_sunk) j <> rd (buffer abab_sunk) 18) \/
   (0 <= rd (search_index (do_indexing true abab_sunk)) 18 < 18 /\
    rd (buffer abab_sunk) (rd (search_index (do_indexing true abab_sunk)) 18)
    = rd (buffer abab_sunk) 18 /\
    forall j, rd (search_index (do_indexing true abab_sunk)) 18 < j < 18 ->
              rd (buffer abab_sunk) j <> rd (buffer abab_sunk) 18)).
Proof.
  apply (do_indexing_links_previous abab_sunk 18).
  - apply sink_ewf. apply (alloc_ewf true (replicate 32 0) 4 3). reflexivity.
  - vm_compute. repeat constructor; discriminate.
  - vm_compute. discriminate.
  - vm_compute. discriminate.
  - vm_compute. split; [discriminate|reflexivity].
Defined.
End EncoderFacts.

(** * Misuse of the two interfaces *)

Module MisuseFacts.

(** The decoder that holds the first byte of a stream. *)
Definition decoder_with_input : Decoder.heatshrink_decoder :=
  match Decoder.heatshrink_decoder_sink (DecoderFacts.fresh_decoder 256 7 3) [179] with
  | Ret (_, _, h) => h
  | _ => DecoderFacts.fresh_decoder 256 7 3
  end.

(** C5 fails for the decoder: a poll with an output buffer of capacity
    zero is not refused.  It takes the tag bit from the input, moves from
    [HSDS_INPUT_AVAILABLE] to [HSDS_YIELD_LITERAL] and returns
    [HSDR_POLL_MORE]. *)
Lemma decoder_poll_zero_capacity_runs :
  exists h' oi,
    Decoder.heatshrink_decoder_poll 8 decoder_with_input []
      = Ret (Decoder.HSDR_POLL_MORE, h', oi) /\
    Decoder.state decoder_with_input = Decoder.HSDS_INPUT_AVAILABLE /\
    Decoder.state h' = Decoder.HSDS_YIELD_LITERAL /\
    Decoder.bit_index decoder_with_input = 0 /\
    Decoder.bit_index h' = 64 /\
    h' <> decoder_with_input.
Proof.
  do 2 eexists. split; [vm_compute; reflexivity|].
  repeat split. intros H. apply (f_equal Decoder.bit_index) in H.
  revert H. vm_compute. discriminate.
Qed.

(** C5, amended.  The encoder refuses a sink once it is finishing (which
    it is after [finish]), a sink in a state other than [HSES_NOT_FULL],
    and a poll with an output buffer of capacity zero; each returns the
    misuse code and the encoder as it was.  The decoder has no such test:
    polled with a buffer of capacity zero it returns [HSDR_POLL_EMPTY] or
    [HSDR_POLL_MORE]. *)
Theorem sequencing_misuse (use_index : bool) (fuel : nat)
    (e : Encoder.heatshrink_encoder) (in_buf : list Z)
    (h : Decoder.heatshrink_decoder) :
  (Encoder.is_finishing e <> 0 ->
   Encoder.heatshrink_encoder_sink e in_buf
     = (Encoder.HSER_SINK_ERROR_MISUSE, None, e)) /\
  Encoder.is_finishing (Encoder.heatshrink_encoder_finish e).2 <> 0 /\
  (Encoder.state e <> Encoder.HSES_NOT_FULL ->
   Encoder.heatshrink_encoder_sink e in_buf
     = (Encoder.HSER_SINK_ERROR_MISUSE, None, e)) /\
  Encoder.heatshrink_encoder_poll use_index fuel e []
    = Ret (Encoder.HSER_POLL_ERROR_MISUSE, e, None) /\
  (forall r h' oi,
     Decoder.heatshrink_decoder_poll fuel h [] = Ret (r, h', oi) ->
     r = Decoder.HSDR_POLL_EMPTY \/ r = Decoder.HSDR_POLL_MORE).
Proof.
  repeat split.
  - intros Hfin. unfold Encoder.heatshrink_encoder_sink.
    destruct (Z.eqb_spec (Encoder.is_finishing e) 0); [contradiction|reflexivity].
  - unfold Encoder.heatshrink_encoder_finish, Encoder.is_finishing.
    cbn [snd Encoder.flags Encoder.set_flags Encoder.set_state Encoder.state].
    destruct (bool_decide _);
      cbn [snd Encoder.flags Encoder.set_flags Encoder.set_state];
      rewrite EncoderFacts.land_lor_same; discriminate.
  - intros Hst. unfold Encoder.heatshrink_encoder_sink.
    destruct (negb _); [reflexivity|].
    rewrite bool_decide_false by assumption. reflexivity.
  - intros r h' oi. apply DecoderFacts.poll_codes.
Qed.

Lemma sequencing_misuse_witness :
  Encoder.heatshrink_encoder_sink EncoderFacts.one_byte_finished [1; 2]
    = (Encoder.HSER_SINK_ERROR_MISUSE, None, EncoderFacts.one_byte_finished) /\
  Encoder.heatshrink_encoder_poll false 8 EncoderFacts.one_byte_finished []
    = Ret (Encoder.HSER_POLL_ERROR_MISUSE, EncoderFacts.one_byte_finished, None).
Proof.
  destruct (sequencing_misuse false 8 EncoderFacts.one_byte_finished [1; 2]
              decoder_with_input) as (H1 & _ & H3 & H4 & _).
  split; [|exact H4].
  apply H3. vm_compute. discriminate.
Defined.

End MisuseFacts.

(** * The bit stream

    Both machines move one bit at a time, most significant bit first.  A
    field of [k] bits holding [v] is the list [field_bits k v]; [bits_val]
    reads such a list back as a number. *)

Module Bits.

Fixpoint field_bits (k : nat) (v : Z) : list bool :=
  match k with
  | O => []
  | S k' => Z.testbit v (Z.of_nat k') :: field_bits k' v
  end.

Definition byte_bits (c : Z) : list bool :=
  [Z.testbit c 7; Z.testbit c 6; Z.testbit c 5; Z.testbit c 4;
   Z.testbit c 3; Z.testbit c 2; Z.testbit c 1; Z.testbit c 0].

Definition bits_val (bs : list bool) : Z :=
  fold_left (fun a (b : bool) => 2 * a + Z.b2z b) bs 0.

Lemma byte_bits_field c : byte_bits c = field_bits 8 c.
Proof. reflexivity. Qed.

Lemma field_bits_length k v : length (field_bits k v) = k.
Proof. induction k as [|k IH]; cbn; [reflexivity|now rewrite IH]. Qed.

Lemma bits_val_snoc bs b : bits_val (bs ++ [b]) = 2 * bits_val bs + Z.b2z b.
Proof. unfold bits_val. now rewrite fold_left_app. Qed.

Lemma fold_bits_shift bs : forall a,
  fold_left (fun a (b : bool) => 2 * a + Z.b2z b) bs a
  = a * 2 ^ Z.of_nat (length bs) + bits_val bs.
Proof.
  unfold bits_val. induction bs as [|b bs IH]; intros a.
  - cbn. lia.
  - cbn [fold_left length]. rewrite IH, (IH (2 * 0 + Z.b2z b)).
    rewrite Nat2Z.inj_succ, Z.pow_succ_r by lia. lia.
Qed.

Lemma bits_val_cons b bs :
  bits_val (b :: bs) = Z.b2z b * 2 ^ Z.of_nat (length bs) + bits_val bs.
Proof.
  unfold bits_val at 1. cbn [fold_left]. rewrite fold_bits_shift. lia.
Qed.

Lemma bits_val_range bs : 0 <= bits_val bs < 2 ^ Z.of_nat (length bs).
Proof.
  induction bs as [|b bs IH].
  - cbn. lia.
  - rewrite bits_val_cons. cbn [length].
    rewrite Nat2Z.inj_succ, Z.pow_succ_r by lia.
    destruct b; cbn [Z.b2z]; lia.
Qed.

Lemma testbit_div_mod v k :
  0 <= k -> Z.b2z (Z.testbit v k) = (v / 2 ^ k) mod 2.
Proof.
  intros Hk. rewrite Z.testbit_spec' by assumption. reflexivity.
Qed.

Lemma bits_val_field k v : bits_val (field_bits k v) = v mod 2 ^ Z.of_nat k.
Proof.
  induction k as [|k IH].
  - cbn. now rewrite Z.mod_1_r.
  - cbn [field_bits]. rewrite bits_val_cons, field_bits_length, IH.
    rewrite Nat2Z.inj_succ, Z.pow_succ_r by lia.
    rewrite (Z.mul_comm 2), Z.rem_mul_r by lia.
    rewrite testbit_div_mod by lia. lia.
Qed.

Lemma land_pow2_eqb x j :
  0 <= j -> (Z.land x (2 ^ j) =? 0) = negb (Z.testbit x j).
Proof.
  intros Hj. destruct (Z.testbit x j) eqn:E; cbn [negb].
  - apply Z.eqb_neq. intros H.
    assert (Ht : Z.testbit (Z.land x (2 ^ j)) j = true)
      by (rewrite Z.land_spec, E, Z.pow2_bits_true; auto).
    rewrite H, Z.bits_0 in Ht. discriminate.
  - apply Z.eqb_eq. apply Z.bits_inj'. intros n Hn.
    rewrite Z.land_spec, Z.bits_0, Z.pow2_bits_eqb by assumption.
    destruct (Z.eqb_spec j n) as [->|]; [now rewrite E|apply andb_false_r].
Qed.

Lemma testbit_1 n : 0 <= n -> Z.testbit 1 n = (n =? 0).
Proof.
  intros Hn. destruct (Z.eqb_spec n 0) as [->|Hne]; [reflexivity|].
  replace n with (Z.succ (n - 1)) by lia.
  change 1 with (2 * 0 + 1). rewrite Z.testbit_odd_succ by lia.
  apply Z.bits_0.
Qed.

Lemma lor_double_bit a (b : bool) : Z.lor (2 * a) (Z.b2z b) = 2 * a + Z.b2z b.
Proof.
  destruct b; cbn [Z.b2z]; [|now rewrite Z.lor_0_r, Z.add_0_r].
  apply Z.bits_inj'. intros n Hn.
  rewrite Z.lor_spec, testbit_1 by assumption.
  destruct (Z.eqb_spec n 0) as [->|Hne].
  - now rewrite Z.testbit_odd_0, Z.testbit_even_0.
  - replace n with (Z.succ (n - 1)) by lia.
    rewrite Z.testbit_odd_succ, Z.testbit_even_succ by lia.
    apply orb_false_r.
Qed.

Lemma land_pow2 x j :
  0 <= j -> Z.land x (2 ^ j) = if Z.testbit x j then 2 ^ j else 0.
Proof.
  intros Hj. apply Z.bits_inj'. intros n Hn.
  rewrite Z.land_spec, Z.pow2_bits_eqb by assumption.
  destruct (Z.eqb_spec j n) as [->|Hne].
  - destruct (Z.testbit x n); [now rewrite Z.pow2_bits_true|now rewrite Z.bits_0].
  - rewrite andb_false_r.
    destruct (Z.testbit x j); [|now rewrite Z.bits_0].
    rewrite Z.pow2_bits_eqb by assumption. symmetry. now apply Z.eqb_neq.
Qed.

Lemma field_bits_app a b v :
  field_bits (a + b) v = field_bits a (Z.shiftr v (Z.of_nat b)) ++ field_bits b v.
Proof.
  induction a as [|a IH]; [reflexivity|].
  cbn [Nat.add field_bits app]. rewrite IH. f_equal.
  rewrite Z.shiftr_spec by lia. f_equal. lia.
Qed.

Lemma field_bits_mod k m v :
  (k <= m)%nat -> field_bits k (v mod 2 ^ Z.of_nat m) = field_bits k v.
Proof.
  intros Hk. induction k as [|k IH]; [reflexivity|].
  cbn [field_bits]. rewrite IH by lia. f_equal.
  apply Z.mod_pow2_bits_low. lia.
Qed.

(** *** Symbols of the stream

    A literal is a 1 bit and the byte; a back-reference is a 0 bit, the
    distance less one on [W] bits and the length less one on [L] bits. *)
Inductive symbol :=
  | Lit (c : Z)
  | Ref (distance count : Z).

Definition symbol_bits (W L : Z) (s : symbol) : list bool :=
  match s with
  | Lit c => true :: byte_bits c
  | Ref d n =>
    false :: field_bits (Z.to_nat W) (d - 1) ++ field_bits (Z.to_nat L) (n - 1)
  end.

Definition stream_bits (W L : Z) (ss : list symbol) : list bool :=
  concat (map (symbol_bits W L) ss).

(** What a symbol stands for, given the bytes before it: a back-reference
    copies one byte at a time, so that it may run into its own output. *)
Fixpoint copy_back (n : nat) (d : Z) (out : list Z) : list Z :=
  match n with
  | O => out
  | S n' =>
    copy_back n' d (out ++ [out !!! Z.to_nat (Z.of_nat (length out) - d)])
  end.

Definition expand_symbol (out : list Z) (s : symbol) : list Z :=
  match s with
  | Lit c => out ++ [c]
  | Ref d n => copy_back (Z.to_nat n) d out
  end.

Definition expand (ss : list symbol) : list Z := fold_left expand_symbol ss [].

Lemma copy_back_length n : forall d out,
  length (copy_back n d out) = (length out + n)%nat.
Proof.
  induction n as [|n IH]; intros d out; cbn [copy_back]; [lia|].
  rewrite IH, length_app. cbn. lia.
Qed.

(** A back-reference into a list [X] that repeats itself at distance [d]
    extends a prefix of [X] to a longer prefix. *)
Lemma copy_back_prefix (X : list Z) d n : forall m,
  1 <= d <= Z.of_nat m -> (m + n <= length X)%nat ->
  (forall i, (i < n)%nat ->
             X !!! Z.to_nat (Z.of_nat m - d + Z.of_nat i) = X !!! (m + i)%nat) ->
  copy_back n d (take m X) = take (m + n) X.
Proof.
  induction n as [|n IH]; intros m Hd Hlen Hrep; cbn [copy_back].
  - now rewrite Nat.add_0_r.
  - rewrite length_take_le by lia.
    assert (Hx : take m X !!! Z.to_nat (Z.of_nat m - d) = X !!! m).
    { rewrite lookup_total_take_lt by lia.
      specialize (Hrep O ltac:(lia)).
      rewrite Z.add_0_r, Nat.add_0_r in Hrep. exact Hrep. }
    rewrite Hx.
    assert (Ht : take m X ++ [X !!! m] = take (S m) X).
    { symmetry. apply take_S_r. apply list_lookup_lookup_total_lt. lia. }
    rewrite Ht, (IH (S m)); [f_equal; lia | lia | lia |].
    intros i Hi. specialize (Hrep (S i) ltac:(lia)).
    replace (S m + i)%nat with (m + S i)%nat by lia. rewrite <- Hrep.
    f_equal. lia.
Qed.

Lemma expand_snoc ss s : expand (ss ++ [s]) = expand_symbol (expand ss) s.
Proof. unfold expand. now rewrite fold_left_app. Qed.

(** A symbol the decoder can take when [have] bytes are out: a literal is
    a byte; a back-reference stays within the bytes out and within the
    window, and its fields fit their widths. *)
Definition valid_symbol (W L : Z) (have : Z) (s : symbol) : Prop :=
  match s with
  | Lit c => 0 <= c < 256
  | Ref d n => 1 <= d <= have /\ d <= 2 ^ W /\ 1 <= n <= 2 ^ L
  end.

Definition valid_stream (W L : Z) (ss : list symbol) : Prop :=
  forall ss1 s ss2, ss = ss1 ++ s :: ss2 ->
    valid_symbol W L (Z.of_nat (length (expand ss1))) s.

Lemma valid_stream_nil W L : valid_stream W L [].
Proof. intros [|? ?] ? ? H; discriminate. Qed.

Lemma valid_stream_snoc W L ss s :
  valid_stream W L ss ->
  valid_symbol W L (Z.of_nat (length (expand ss))) s ->
  valid_stream W L (ss ++ [s]).
Proof.
  intros Hv Hs ss1 s' ss2 Heq.
  destruct ss2 as [|x ss2 _] using rev_ind.
  - apply app_inj_tail in Heq. destruct Heq as [<- <-]. exact Hs.
  - rewrite app_comm_cons, app_assoc in Heq.
    apply app_inj_tail in Heq. destruct Heq as [-> _].
    apply (Hv ss1 s' ss2). reflexivity.
Qed.

Lemma symbol_bits_length W L s :
  0 <= W -> 0 <= L ->
  Z.of_nat (length (symbol_bits W L s))
  = match s with Lit _ => 9 | Ref _ _ => 1 + W + L end.
Proof.
  intros HW HL. destruct s; cbn [symbol_bits length]; [reflexivity|].
  rewrite length_app, !field_bits_length. lia.
Qed.

Lemma stream_bits_snoc W L ss s :
  stream_bits W L (ss ++ [s]) = stream_bits W L ss ++ symbol_bits W L s.
Proof.
  unfold stream_bits. rewrite map_app, concat_app. cbn [map concat].
  now rewrite app_nil_r.
Qed.

(** Validity of the symbols still to come, given the bytes out. *)
Fixpoint valid_from (W L : Z) (out : list Z) (ss : list symbol) : Prop :=
  match ss with
  | [] => True
  | s :: ss' =>
    valid_symbol W L (Z.of_nat (length out)) s /\
    valid_from W L (expand_symbol out s) ss'
  end.

Lemma valid_stream_from W L ss : forall past,
  valid_stream W L (past ++ ss) -> valid_from W L (expand past) ss.
Proof.
  induction ss as [|s ss IH]; intros past Hv; cbn [valid_from]; [exact I|].
  split.
  - apply (Hv past s ss). reflexivity.
  - rewrite <- expand_snoc. apply IH. rewrite <- app_assoc. exact Hv.
Qed.

Lemma expand_symbol_grows out s :
  (length out <= length (expand_symbol out s))%nat.
Proof.
  destruct s; cbn [expand_symbol].
  - rewrite length_app. lia.
  - rewrite copy_back_length. lia.
Qed.

Lemma expand_from_grows ss : forall out,
  (length out <= length (fold_left expand_symbol ss out))%nat.
Proof.
  induction ss as [|s ss IH]; intros out; cbn [fold_left]; [lia|].
  pose proof (expand_symbol_grows out s). pose proof (IH (expand_symbol out s)).
  lia.
Qed.
End Bits.

(** * The bits the encoder writes *)

Module EncoderBits.
Import Encoder Bits EncoderFacts.

Definition nbits := DecoderFacts.nbits.

(** The bits of the current byte that are already placed, and the bits of
    the whole output so far. *)
Definition pending (e : heatshrink_encoder) : list bool :=
  take (Z.to_nat (8 - nbits (bit_index e))) (byte_bits (current_byte e)).

Definition written (e : heatshrink_encoder) (oi : output_info) : list bool :=
  concat (map byte_bits (polled oi)) ++ pending e.

(** The bits of the current byte at the mask and below are still zero. *)
Definition cb_clean (e : heatshrink_encoder) : Prop :=
  drop (Z.to_nat (8 - nbits (bit_index e))) (byte_bits (current_byte e))
  = replicate (Z.to_nat (nbits (bit_index e))) false.

(** Evaluation of the closed numerals a case on the mask leaves. *)
Ltac eval_consts :=
  repeat match goal with
  | |- context [nbits (Zpos ?p)] =>
    let y := eval vm_compute in (nbits (Zpos p)) in
    change (nbits (Zpos p)) with y
  | H : context [nbits (Zpos ?p)] |- _ =>
    let y := eval vm_compute in (nbits (Zpos p)) in
    change (nbits (Zpos p)) with y in H
  end;
  repeat match goal with
  | |- context [Z.to_nat ?x] =>
    let y := eval vm_compute in (Z.to_nat x) in
    change (Z.to_nat x) with y
  | H : context [Z.to_nat ?x] |- _ =>
    let y := eval vm_compute in (Z.to_nat x) in
    change (Z.to_nat x) with y in H
  end;
  repeat match goal with
  | |- context [Z.testbit (Zpos ?p) ?k] =>
    let y := eval vm_compute in (Z.testbit (Zpos p) k) in
    change (Z.testbit (Zpos p) k) with y
  | |- context [Z.testbit 0 ?k] =>
    let y := eval vm_compute in (Z.testbit 0 k) in
    change (Z.testbit 0 k) with y
  end.

(** The current byte after a bit [v] is or-ed in at mask [m]. *)
Definition with_bit (v : bool) (cb m : Z) : Z := if v then Z.lor cb m else cb.

(** Placing a bit at the mask appends it to the bits already placed and
    leaves the bits below the mask zero. *)
Lemma place_bit v cb m :
  emask_ok m ->
  drop (Z.to_nat (8 - nbits m)) (byte_bits cb) = replicate (Z.to_nat (nbits m)) false ->
  take (Z.to_nat (8 - nbits m) + 1) (byte_bits (with_bit v cb m))
  = take (Z.to_nat (8 - nbits m)) (byte_bits cb) ++ [v] /\
  drop (Z.to_nat (8 - nbits m) + 1) (byte_bits (with_bit v cb m))
  = replicate (Z.to_nat (nbits m) - 1) false.
Proof.
  intros Hm Hc. unfold emask_ok in Hm.
  destruct Hm as [Hm|[Hm|[Hm|[Hm|[Hm|[Hm|[Hm|Hm]]]]]]]; subst m;
    eval_consts; unfold byte_bits in *;
    cbn [take drop replicate app Nat.add Nat.sub] in *; simplify_eq;
    destruct v; unfold with_bit; rewrite ?Z.lor_spec;
    repeat match goal with H : Z.testbit cb _ = false |- _ => rewrite H end;
    eval_consts; rewrite ?orb_false_r; split; reflexivity.
Qed.

Lemma emask_mask m : emask_ok m -> DecoderFacts.mask_ok m /\ 1 <= nbits m <= 8.
Proof.
  unfold emask_ok, DecoderFacts.mask_ok. intros H.
  repeat (destruct H as [->|H]); [..|subst m];
    (split; [tauto | vm_compute; split; discriminate]).
Qed.

Lemma emask_shiftr m :
  emask_ok m -> m <> 1 ->
  emask_ok (Z.shiftr m 1) /\ nbits (Z.shiftr m 1) = nbits m - 1.
Proof.
  unfold emask_ok. intros Hm H1.
  destruct Hm as [Hm|[Hm|[Hm|[Hm|[Hm|[Hm|[Hm|Hm]]]]]]]; subst m;
    try contradiction; (split; [cbn; tauto | reflexivity]).
Qed.

Lemma byte_bits_length c : length (byte_bits c) = 8%nat.
Proof. reflexivity. Qed.

(** [push_bit] appends one bit to the bits written. *)
Lemma push_bit_written bit e oi :
  emask_ok (bit_index e) -> cb_clean e -> oi_ok oi ->
  (bit_index e = 1 -> output_size oi < buf_size oi /\ output_size oi < 65535) ->
  exists e' oi',
    push_bit bit e oi = Ret (e', oi') /\
    written e' oi' = written e oi ++ [negb (bit =? 0)] /\
    emask_ok (bit_index e') /\ cb_clean e' /\ oi_ok oi' /\
    buf_size oi' = buf_size oi /\
    (bit_index e = 1 ->
     bit_index e' = 128 /\ output_size oi' = output_size oi + 1) /\
    (bit_index e <> 1 ->
     bit_index e' = Z.shiftr (bit_index e) 1 /\ oi' = oi).
Proof.
  intros Hm Hc Hoi Hroom. unfold push_bit.
  set (v := negb (bit =? 0)).
  set (e1 := if bit =? 0 then e else _).
  assert (He1 : current_byte e1 = with_bit v (current_byte e) (bit_index e)
                /\ bit_index e1 = bit_index e).
  { subst e1 v. destruct (bit =? 0); split; reflexivity. }
  destruct He1 as [Hcb Hbi].
  destruct (place_bit v (current_byte e) (bit_index e) Hm Hc) as [Htake Hdrop].
  destruct (emask_mask _ Hm) as [_ Hnb].
  esimpl. rewrite Hbi, Hcb.
  destruct (Z.eqb_spec (bit_index e) 1) as [H1|H1].
  - destruct (Hroom H1) as [Hlt Hw]. rewrite H1.
    change (Z.shiftr 1 1 =? 0) with true. cbn match.
    destruct (push_out_ok oi (with_bit v (current_byte e) 1) Hoi Hlt)
      as (oi1 & Ep & _).
    rewrite Ep. esimpl.
    apply polled_push in Ep; try assumption.
    destruct Ep as (Ep1 & Ep2 & Ep3 & Ep4).
    eexists _, _; split; [reflexivity|].
    unfold written, pending, cb_clean. esimpl.
    rewrite Ep1, map_app, concat_app, H1 in *.
    eval_consts. cbn [map concat take app drop] in *.
    rewrite app_nil_r, <- app_assoc. rewrite <- Htake.
    rewrite (take_ge (byte_bits _) 8) by (rewrite byte_bits_length; lia).
    split; [reflexivity|]. split; [unfold emask_ok; tauto|].
    split; [reflexivity|]. split; [assumption|]. split; [assumption|].
    split; [auto | intros; contradiction].
  - destruct (emask_shiftr _ Hm H1) as [Hm' Hnb'].
    destruct (Z.eqb_spec (Z.shiftr (bit_index e) 1) 0) as [Hz|_].
    { rewrite Hz in Hm'. unfold emask_ok in Hm'. intuition discriminate. }
    eexists _, _; split; [reflexivity|].
    unfold written, pending, cb_clean. esimpl. rewrite ?Hbi, ?Hcb, ?Hnb'.
    replace (Z.to_nat (8 - (nbits (bit_index e) - 1)))
      with (Z.to_nat (8 - nbits (bit_index e)) + 1)%nat by lia.
    rewrite Htake, Hdrop, app_assoc.
    replace (Z.to_nat (nbits (bit_index e) - 1))
      with (Z.to_nat (nbits (bit_index e)) - 1)%nat by lia.
    split; [reflexivity|]. split; [assumption|].
    split; [reflexivity|]. split; [assumption|]. split; [reflexivity|].
    split; [intros; contradiction | auto].
Qed.

Lemma bit_select bits i :
  0 <= i <= 7 ->
  negb (u8 (Z.land bits (Z.shiftl 1 i)) =? 0) = Z.testbit bits i.
Proof.
  intros Hi. rewrite shiftl_1_pow, Bits.land_pow2 by lia.
  pose proof (pow_bits i 0 7 ltac:(lia) ltac:(lia)) as Hp. cbn in Hp.
  destruct (Z.testbit bits i); [|reflexivity].
  rewrite u8_small by lia.
  destruct (Z.eqb_spec (2 ^ i) 0); [lia|reflexivity].
Qed.

(** The encoder and the output buffer while bits are written. *)
Record ebits_ok (e : heatshrink_encoder) (oi : output_info) : Prop := mk_ebits_ok {
  eb_mask : emask_ok (bit_index e);
  eb_clean : cb_clean e;
  eb_oi : oi_ok oi;
  eb_small : buf_size oi <= 65535
}.

(** [push_bits] of at most 8 bits appends them, most significant first,
    and fills a byte of the output when the bits reach the end of the
    current byte. *)
Lemma push_bits_loop_written n : forall bits e oi,
  (n <= 8)%nat -> ebits_ok e oi ->
  (nbits (bit_index e) <= Z.of_nat n -> output_size oi < buf_size oi) ->
  exists e' oi',
    push_bits_loop n bits e oi = Ret (e', oi') /\
    written e' oi' = written e oi ++ field_bits n bits /\
    ebits_ok e' oi' /\ bits_only e e' /\ buf_size oi' = buf_size oi /\
    output_size oi' = output_size oi +
                      (if nbits (bit_index e) <=? Z.of_nat n then 1 else 0).
Proof.
  induction n as [|n IH]; intros bits e oi Hn [Hm Hc Hoi Hsm] Hroom.
  - eexists _, _; split; [reflexivity|]. cbn [field_bits].
    rewrite app_nil_r. split; [reflexivity|].
    split; [constructor; assumption|]. split; [apply bits_only_refl|].
    split; [reflexivity|].
    destruct (emask_mask _ Hm) as [_ Hnb].
    destruct (Z.leb_spec (nbits (bit_index e)) (Z.of_nat 0)); lia.
  - cbn [push_bits_loop field_bits].
    destruct (emask_mask _ Hm) as [_ Hnb].
    destruct (push_bit_written (u8 (Z.land bits (Z.shiftl 1 (Z.of_nat n)))) e oi
                Hm Hc Hoi) as (e1 & oi1 & E & Hw & Hm1 & Hc1 & Hoi1 & Hbs1 & Hone & Hmore).
    { intros H1. rewrite H1 in Hroom. change (nbits 1) with 1 in Hroom.
      specialize (Hroom ltac:(lia)). lia. }
    rewrite E. esimpl. rewrite bit_select in Hw by lia.
    assert (Hnext : nbits (bit_index e1)
                    = if bit_index e =? 1 then 8 else nbits (bit_index e) - 1).
    { destruct (Z.eqb_spec (bit_index e) 1) as [H1|H1].
      - destruct (Hone H1) as [-> _]. reflexivity.
      - destruct (Hmore H1) as [-> _]. now apply emask_shiftr. }
    assert (Hos1 : output_size oi1
                   = output_size oi + if bit_index e =? 1 then 1 else 0).
    { destruct (Z.eqb_spec (bit_index e) 1) as [H1|H1].
      - now destruct (Hone H1).
      - destruct (Hmore H1) as [_ ->]. lia. }
    assert (Hone_nb : bit_index e = 1 <-> nbits (bit_index e) = 1).
    { clear - Hm. unfold emask_ok in Hm.
      destruct Hm as [Hm|[Hm|[Hm|[Hm|[Hm|[Hm|[Hm|Hm]]]]]]]; rewrite Hm;
        split; (reflexivity || discriminate). }
    destruct (IH bits e1 oi1 ltac:(lia))
      as (e' & oi' & E' & Hw' & Hok' & Hfr' & Hbs' & Hos').
    { constructor; try assumption. lia. }
    { intros Hle. rewrite Hnext in Hle.
      destruct (Z.eqb_spec (bit_index e) 1) as [H1|H1]; [lia|].
      destruct (Hmore H1) as [_ ->]. apply Hroom. lia. }
    eexists _, _; split; [exact E'|].
    rewrite Hw', Hw, <- app_assoc. split; [reflexivity|].
    split; [assumption|].
    apply push_bit_frame in E. destruct E as [Efr _].
    split; [eapply bits_only_trans; eassumption|].
    split; [congruence|].
    rewrite Hos', Hos1, Hnext.
    destruct (Z.eqb_spec (bit_index e) 1) as [H1|H1].
    + apply Hone_nb in H1.
      destruct (Z.leb_spec 8 (Z.of_nat n)); [lia|].
      destruct (Z.leb_spec (nbits (bit_index e)) (Z.of_nat (S n))); lia.
    + assert (nbits (bit_index e) <> 1) by (rewrite <- Hone_nb; assumption).
      destruct (Z.leb_spec (nbits (bit_index e) - 1) (Z.of_nat n));
        destruct (Z.leb_spec (nbits (bit_index e)) (Z.of_nat (S n))); lia.
Qed.

(** *** Turns of the poll loop that go on *)

Inductive runs (ui : bool) : heatshrink_encoder -> output_info ->
    heatshrink_encoder -> output_info -> Prop :=
  | runs_refl e oi : runs ui e oi e oi
  | runs_step e oi e1 oi1 e2 oi2 :
      poll_step ui e oi = Ret (e1, oi1, None) ->
      runs ui e1 oi1 e2 oi2 -> runs ui e oi e2 oi2.

Lemma runs_trans ui e oi e1 oi1 e2 oi2 :
  runs ui e oi e1 oi1 -> runs ui e1 oi1 e2 oi2 -> runs ui e oi e2 oi2.
Proof. induction 1; [auto|]. intros. eapply runs_step; eauto. Qed.

Lemma runs_one ui e oi e1 oi1 :
  poll_step ui e oi = Ret (e1, oi1, None) -> runs ui e oi e1 oi1.
Proof. intros. eapply runs_step; [eassumption|apply runs_refl]. Qed.

Lemma poll_loop_more_fuel ui fuel : forall e oi r,
  poll_loop ui fuel e oi = Ret r ->
  forall fuel', (fuel <= fuel')%nat -> poll_loop ui fuel' e oi = Ret r.
Proof.
  induction fuel as [|fuel IH]; intros e oi r H fuel' Hle; [discriminate|].
  destruct fuel' as [|fuel']; [lia|]. cbn [poll_loop] in *.
  destruct (poll_step ui e oi) as [[[e1 oi1] [res|]]| |]; esimpl;
    try discriminate; [exact H|].
  apply (IH _ _ _ H). lia.
Qed.

Lemma runs_poll_loop ui e oi e1 oi1 :
  runs ui e oi e1 oi1 ->
  forall fuel r, poll_loop ui fuel e1 oi1 = Ret r ->
  exists fuel0, poll_loop ui fuel0 e oi = Ret r.
Proof.
  induction 1 as [|e oi e1 oi1 e2 oi2 Hs _ IH]; intros fuel r Hr; [eauto|].
  destruct (IH _ _ Hr) as [f0 Hf0]. exists (S f0).
  cbn [poll_loop]. rewrite Hs. esimpl. exact Hf0.
Qed.

(** *** The count of bits written, and the room left *)

Lemma written_length e oi :
  ebits_ok e oi ->
  Z.of_nat (length (written e oi))
  = 8 * output_size oi + 8 - nbits (bit_index e).
Proof.
  intros [Hm Hc [Hl Hp Hu] Hs].
  destruct (emask_mask _ Hm) as [_ Hnb].
  unfold written, pending. rewrite length_app, length_take, byte_bits_length.
  assert (Hcat : forall l : list Z,
             length (concat (map byte_bits l)) = (8 * length l)%nat).
  { induction l as [|c l IH]; [reflexivity|]. cbn [map concat].
    rewrite length_app, IH, byte_bits_length. cbn [length]. lia. }
  rewrite Hcat. unfold polled. rewrite length_take. lia.
Qed.

(** [k] more bits fit with two bytes to spare. *)
Definition room (e : heatshrink_encoder) (oi : output_info) (k : Z) : Prop :=
  Z.of_nat (length (written e oi)) + k + 16 <= 8 * buf_size oi.

Lemma room_lt e oi k :
  ebits_ok e oi -> room e oi k -> 0 <= k -> output_size oi + 1 < buf_size oi.
Proof.
  intros Hok Hr Hk. unfold room in Hr. rewrite written_length in Hr by assumption.
  destruct Hok as [Hm _ _ _]. destruct (emask_mask _ Hm) as [_ Hnb]. lia.
Qed.

Lemma room_app e oi k e1 oi1 B :
  written e1 oi1 = written e oi ++ B -> buf_size oi1 = buf_size oi ->
  room e oi k -> room e1 oi1 (k - Z.of_nat (length B)).
Proof. unfold room. intros -> ->. rewrite length_app. lia. Qed.

Lemma room_le e oi k k' : room e oi k -> k' <= k -> room e oi k'.
Proof. unfold room. lia. Qed.

Lemma push_bits_written e count bits oi :
  0 <= count <= 8 -> ebits_ok e oi -> room e oi 0 ->
  exists e1 oi1,
    push_bits e count bits oi = Ret (e1, oi1) /\
    bits_only e e1 /\ ebits_ok e1 oi1 /\
    written e1 oi1 = written e oi ++ field_bits (Z.to_nat count) bits /\
    buf_size oi1 = buf_size oi.
Proof.
  intros Hc Hok Hroom. unfold push_bits.
  pose proof (room_lt _ _ _ Hok Hroom ltac:(lia)) as Hlt.
  destruct (push_bits_loop_written (Z.to_nat count) bits e oi ltac:(lia) Hok)
    as (e1 & oi1 & E & Hw & Hok1 & Hfr & Hbs & _); [lia|].
  exists e1, oi1. auto.
Qed.

(** *** One turn in each of the states that write *)

Lemma step_tag_literal ui e oi :
  state e = HSES_YIELD_TAG_BIT -> match_length e = 0 ->
  ebits_ok e oi -> room e oi 0 ->
  exists e1 oi1,
    poll_step ui e oi = Ret (set_state HSES_YIELD_LITERAL e1, oi1, None) /\
    bits_only e e1 /\ ebits_ok e1 oi1 /\
    written e1 oi1 = written e oi ++ [true] /\ buf_size oi1 = buf_size oi.
Proof.
  intros Hst Hml Hok Hroom.
  pose proof (room_lt _ _ _ Hok Hroom ltac:(lia)) as Hlt.
  destruct (push_bits_written e 1 HEATSHRINK_LITERAL_MARKER oi ltac:(lia) Hok Hroom)
    as (e1 & oi1 & E & Hfr & Hok1 & Hw & Hbs).
  exists e1, oi1. split; [|auto].
  unfold poll_step. rewrite Hst.
  unfold st_yield_tag_bit, can_take_byte, add_tag_bit.
  rewrite (proj2 (Z.ltb_lt _ _)) by lia. rewrite Hml. cbn [Z.eqb].
  rewrite E. esimpl. rewrite bool_decide_false by discriminate. reflexivity.
Qed.

Lemma bits_only_fields e e1 :
  bits_only e e1 ->
  input_size e1 = input_size e /\ match_scan_index e1 = match_scan_index e /\
  match_length e1 = match_length e /\ match_pos e1 = match_pos e /\
  outgoing_bits e1 = outgoing_bits e /\
  outgoing_bits_count e1 = outgoing_bits_count e /\
  flags e1 = flags e /\ state e1 = state e /\
  window_sz2 e1 = window_sz2 e /\ lookahead_sz2 e1 = lookahead_sz2 e /\
  buffer e1 = buffer e.
Proof. unfold bits_only. intros H. rewrite H. esimpl. repeat split. Qed.

Lemma ebits_ok_ext e e' oi :
  current_byte e' = current_byte e -> bit_index e' = bit_index e ->
  ebits_ok e oi -> ebits_ok e' oi.
Proof.
  intros Hc Hb [Hm Hcl Hoi Hs]. constructor; try assumption.
  - now rewrite Hb.
  - unfold cb_clean in *. now rewrite Hb, Hc.
Qed.

Lemma set_state_at e s : state e = s -> set_state s e = e.
Proof. intros <-. apply set_state_same. Qed.

Lemma step_literal ui e oi :
  state e = HSES_YIELD_LITERAL -> match_length e = 0 -> flags e = 3 ->
  ebits_ok e oi -> room e oi 0 ->
  exists e1 oi1,
    poll_step ui e oi
    = Ret (set_state HSES_SEARCH (set_flags 1 e1), oi1, None) /\
    bits_only e e1 /\ ebits_ok e1 oi1 /\
    written e1 oi1
    = written e oi ++
      byte_bits (rd (buffer e)
                   (u16 (get_input_offset e + u16 (match_scan_index e - 1)))) /\
    buf_size oi1 = buf_size oi.
Proof.
  intros Hst Hml Hfl Hok Hroom.
  pose proof (room_lt _ _ _ Hok Hroom ltac:(lia)) as Hlt.
  destruct (push_bits_written e 8
              (rd (buffer e)
                 (u16 (get_input_offset e + u16 (match_scan_index e - 1))))
              oi ltac:(lia) Hok Hroom)
    as (e1 & oi1 & E & Hfr & Hok1 & Hw & Hbs).
  exists e1, oi1. split; [|auto].
  destruct (bits_only_fields _ _ Hfr)
    as (Fis & Fmsi & Fml & Fmp & Fob & Fobc & Ffl & Fst & FW & FL & Fbuf).
  unfold poll_step. rewrite Hst.
  unfold st_yield_literal, can_take_byte, push_literal_byte.
  rewrite (proj2 (Z.ltb_lt _ _)) by lia. rewrite E. esimpl.
  unfold on_final_literal. esimpl. rewrite Ffl, Hfl, Fml, Hml.
  change (u8 (Z.land 3 (Z.lnot FLAG_HAS_LITERAL))) with 1.
  change (Z.land 1 FLAG_ON_FINAL_LITERAL =? 0) with true.
  cbn [negb Z.gtb Z.compare]. esimpl.
  rewrite bool_decide_false by discriminate. reflexivity.
Qed.

Lemma step_tag_backref ui e oi :
  state e = HSES_YIELD_TAG_BIT -> match_length e <> 0 ->
  ebits_ok e oi -> room e oi 0 ->
  exists e1 oi1,
    poll_step ui e oi
    = Ret (set_state HSES_YIELD_BR_INDEX
             (set_outgoing_bits_count (window_sz2 e)
                (set_outgoing_bits (u16 (match_pos e - 1)) e1)), oi1, None) /\
    bits_only e e1 /\ ebits_ok e1 oi1 /\
    written e1 oi1 = written e oi ++ [false] /\ buf_size oi1 = buf_size oi.
Proof.
  intros Hst Hml Hok Hroom.
  pose proof (room_lt _ _ _ Hok Hroom ltac:(lia)) as Hlt.
  destruct (push_bits_written e 1 HEATSHRINK_BACKREF_MARKER oi ltac:(lia) Hok Hroom)
    as (e1 & oi1 & E & Hfr & Hok1 & Hw & Hbs).
  exists e1, oi1. split; [|auto].
  destruct (bits_only_fields _ _ Hfr)
    as (Fis & Fmsi & Fml & Fmp & Fob & Fobc & Ffl & Fst & FW & FL & Fbuf).
  unfold poll_step. rewrite Hst.
  unfold st_yield_tag_bit, can_take_byte, add_tag_bit.
  rewrite (proj2 (Z.ltb_lt _ _)) by lia.
  destruct (Z.eqb_spec (match_length e) 0) as [|_]; [contradiction|].
  rewrite E. esimpl. rewrite Fmp, FW.
  rewrite bool_decide_false by discriminate. reflexivity.
Qed.

(** *** [push_outgoing_bits] *)

(** What the states of a back-reference leave alone: all but the output
    bits and the count of bits still to go. *)
Definition obits_only (e e' : heatshrink_encoder) : Prop :=
  e' = set_outgoing_bits_count (outgoing_bits_count e')
         (set_bit_index (bit_index e') (set_current_byte (current_byte e') e)).

Lemma obits_only_refl e : obits_only e e.
Proof. destruct e; reflexivity. Qed.

Lemma obits_only_trans e1 e2 e3 :
  obits_only e1 e2 -> obits_only e2 e3 -> obits_only e1 e3.
Proof.
  unfold obits_only. intros H12 H23. rewrite H23 at 1. rewrite H12 at 1.
  destruct e1; reflexivity.
Qed.

Lemma bits_obits e e1 v : bits_only e e1 -> obits_only e (set_outgoing_bits_count v e1).
Proof.
  unfold bits_only, obits_only. intros H. rewrite H at 1.
  destruct e; reflexivity.
Qed.

Lemma obits_only_fields e e1 :
  obits_only e e1 ->
  input_size e1 = input_size e /\ match_scan_index e1 = match_scan_index e /\
  match_length e1 = match_length e /\ match_pos e1 = match_pos e /\
  outgoing_bits e1 = outgoing_bits e /\
  flags e1 = flags e /\ state e1 = state e /\
  window_sz2 e1 = window_sz2 e /\ lookahead_sz2 e1 = lookahead_sz2 e /\
  buffer e1 = buffer e.
Proof. unfold obits_only. intros H. rewrite H. esimpl. repeat split. Qed.

Lemma push_outgoing_bits_written e oi :
  0 <= outgoing_bits_count e <= 15 -> ebits_ok e oi -> room e oi 0 ->
  exists e1 oi1,
    push_outgoing_bits e oi
    = Ret (Z.min (outgoing_bits_count e) 8,
           set_outgoing_bits_count
             (outgoing_bits_count e - Z.min (outgoing_bits_count e) 8) e1,
           oi1) /\
    bits_only e e1 /\ ebits_ok e1 oi1 /\
    written e1 oi1
    = written e oi ++
      field_bits (Z.to_nat (Z.min (outgoing_bits_count e) 8))
        (Z.shiftr (outgoing_bits e)
           (outgoing_bits_count e - Z.min (outgoing_bits_count e) 8)) /\
    buf_size oi1 = buf_size oi.
Proof.
  intros Hc Hok Hroom. unfold push_outgoing_bits.
  set (c := outgoing_bits_count e) in *.
  destruct (Z.gtb_spec c 8) as [Hgt|Hle].
  - destruct (push_bits_written e 8 (u8 (Z.shiftr (outgoing_bits e) (c - 8))) oi
                ltac:(lia) Hok Hroom)
      as (e1 & oi1 & E & Hfr & Hok1 & Hw & Hbs).
    exists e1, oi1. rewrite E. esimpl.
    destruct (bits_only_fields _ _ Hfr)
      as (Fis & Fmsi & Fml & Fmp & Fob & Fobc & Ffl & Fst & FW & FL & Fbuf).
    rewrite Fobc. fold c. replace (Z.min c 8) with 8 by lia.
    rewrite u8_small by lia. split; [reflexivity|].
    split; [assumption|]. split; [assumption|]. split; [|assumption].
    rewrite Hw. f_equal. unfold u8. change 256 with (2 ^ Z.of_nat 8).
    apply field_bits_mod. lia.
  - destruct (push_bits_written e c (u8 (outgoing_bits e)) oi
                ltac:(lia) Hok Hroom)
      as (e1 & oi1 & E & Hfr & Hok1 & Hw & Hbs).
    exists e1, oi1. rewrite E. esimpl.
    destruct (bits_only_fields _ _ Hfr)
      as (Fis & Fmsi & Fml & Fmp & Fob & Fobc & Ffl & Fst & FW & FL & Fbuf).
    rewrite Fobc. fold c. replace (Z.min c 8) with c by lia.
    rewrite Z.sub_diag, Z.shiftr_0_r. change (u8 0) with 0.
    split; [reflexivity|].
    split; [assumption|]. split; [assumption|]. split; [|assumption].
    rewrite Hw. f_equal. unfold u8. change 256 with (2 ^ Z.of_nat 8).
    apply field_bits_mod. lia.
Qed.

(** A turn of [HSES_YIELD_BR_INDEX] or [HSES_YIELD_BR_LENGTH] with bits
    still to go writes up to 8 of them and stays. *)
Lemma step_br_stay ui e oi :
  state e = HSES_YIELD_BR_INDEX \/ state e = HSES_YIELD_BR_LENGTH ->
  0 < outgoing_bits_count e <= 15 -> ebits_ok e oi ->
  room e oi (Z.min (outgoing_bits_count e) 8) ->
  exists e' oi',
    poll_step ui e oi = Ret (e', oi', None) /\
    obits_only e e' /\
    outgoing_bits_count e'
    = outgoing_bits_count e - Z.min (outgoing_bits_count e) 8 /\
    ebits_ok e' oi' /\
    written e' oi'
    = written e oi ++
      field_bits (Z.to_nat (Z.min (outgoing_bits_count e) 8))
        (Z.shiftr (outgoing_bits e)
           (outgoing_bits_count e - Z.min (outgoing_bits_count e) 8)) /\
    buf_size oi' = buf_size oi.
Proof.
  intros Hst Hc Hok Hroom.
  pose proof (room_lt _ _ _ Hok Hroom ltac:(lia)) as Hlt.
  destruct (push_outgoing_bits_written e oi ltac:(lia) Hok
              (room_le _ _ _ 0 Hroom ltac:(lia)))
    as (e1 & oi1 & E & Hfr & Hok1 & Hw & Hbs).
  destruct (bits_only_fields _ _ Hfr)
    as (Fis & Fmsi & Fml & Fmp & Fob & Fobc & Ffl & Fst & FW & FL & Fbuf).
  pose proof (room_app _ _ _ _ _ _ Hw Hbs Hroom) as Hroom1.
  rewrite field_bits_length in Hroom1.
  pose proof (room_lt _ _ _ Hok1 (room_le _ _ _ 0 Hroom1 ltac:(lia)) ltac:(lia))
    as Hlt1.
  eexists _, oi1. split; [|split; [apply bits_obits; exact Hfr|]].
  - unfold poll_step.
    destruct Hst as [Hst|Hst]; rewrite Hst;
      unfold st_yield_br_index, st_yield_br_length, can_take_byte;
      rewrite (proj2 (Z.ltb_lt _ _)) by lia; rewrite E; esimpl;
      (destruct (Z.gtb_spec (Z.min (outgoing_bits_count e) 8) 0); [|lia]);
      esimpl; rewrite bool_decide_true by reflexivity;
      (destruct (Z.eqb_spec (output_size oi1) (buf_size oi1)); [lia|]);
      cbn [andb]; rewrite set_state_at by (esimpl; congruence); reflexivity.
  - esimpl. split; [reflexivity|].
    split; [eapply ebits_ok_ext; [| |exact Hok1]; reflexivity|].
    split; [exact Hw | exact Hbs].
Qed.

(** With no bit to go, [HSES_YIELD_BR_INDEX] hands over to
    [HSES_YIELD_BR_LENGTH], and [HSES_YIELD_BR_LENGTH] to [HSES_SEARCH]. *)
Lemma step_br_index_move ui e oi :
  state e = HSES_YIELD_BR_INDEX -> outgoing_bits_count e = 0 ->
  output_size oi < buf_size oi ->
  poll_step ui e oi
  = Ret (set_state HSES_YIELD_BR_LENGTH
           (set_outgoing_bits_count (lookahead_sz2 e)
              (set_outgoing_bits (u16 (match_length e - 1))
                 (set_outgoing_bits_count 0 e))), oi, None).
Proof.
  intros Hst Hc Hlt. unfold poll_step. rewrite Hst.
  unfold st_yield_br_index, can_take_byte, push_outgoing_bits, push_bits.
  rewrite (proj2 (Z.ltb_lt _ _)) by lia. rewrite Hc.
  cbn [Z.gtb Z.compare]. esimpl. change (Z.to_nat 0) with 0%nat.
  cbn [push_bits_loop]. esimpl. rewrite Hc.
  change (u8 (0 - 0)) with 0. cbn [Z.gtb Z.compare]. esimpl.
  rewrite bool_decide_false by discriminate. reflexivity.
Qed.

Lemma step_br_length_move ui e oi :
  state e = HSES_YIELD_BR_LENGTH -> outgoing_bits_count e = 0 ->
  output_size oi < buf_size oi ->
  poll_step ui e oi
  = Ret (set_state HSES_SEARCH
           (set_match_length 0
              (set_match_scan_index (u16 (match_scan_index e + match_length e))
                 (set_outgoing_bits_count 0 e))), oi, None).
Proof.
  intros Hst Hc Hlt. unfold poll_step. rewrite Hst.
  unfold st_yield_br_length, can_take_byte, push_outgoing_bits, push_bits.
  rewrite (proj2 (Z.ltb_lt _ _)) by lia. rewrite Hc.
  cbn [Z.gtb Z.compare]. esimpl. change (Z.to_nat 0) with 0%nat.
  cbn [push_bits_loop]. esimpl. rewrite Hc.
  change (u8 (0 - 0)) with 0. cbn [Z.gtb Z.compare]. esimpl.
  rewrite bool_decide_false by discriminate. reflexivity.
Qed.

(** The turns that write the [c] bits of a field, [c] at most 15. *)
Lemma drain ui e oi :
  state e = HSES_YIELD_BR_INDEX \/ state e = HSES_YIELD_BR_LENGTH ->
  0 <= outgoing_bits_count e <= 15 -> ebits_ok e oi ->
  room e oi (outgoing_bits_count e) ->
  exists e' oi',
    runs ui e oi e' oi' /\ obits_only e e' /\ outgoing_bits_count e' = 0 /\
    ebits_ok e' oi' /\
    written e' oi'
    = written e oi ++
      field_bits (Z.to_nat (outgoing_bits_count e)) (outgoing_bits e) /\
    buf_size oi' = buf_size oi.
Proof.
  intros Hst Hc Hok Hroom.
  set (c := outgoing_bits_count e) in *.
  destruct (Z.eq_dec c 0) as [Hz|Hnz].
  { exists e, oi. split; [apply runs_refl|]. split; [apply obits_only_refl|].
    split; [exact Hz|]. split; [assumption|]. split; [|reflexivity].
    rewrite Hz. cbn [Z.to_nat field_bits]. now rewrite app_nil_r. }
  destruct (Z.le_gt_cases c 8) as [Hle|Hgt].
  - destruct (step_br_stay ui e oi Hst ltac:(fold c; lia) Hok)
      as (e1 & oi1 & E & Hfr & Hc1 & Hok1 & Hw & Hbs).
    { eapply room_le; [exact Hroom|fold c; lia]. }
    fold c in Hc1, Hw. replace (Z.min c 8) with c in * by lia.
    rewrite Z.sub_diag, Z.shiftr_0_r in *.
    exists e1, oi1. split; [apply runs_one; exact E|]. auto.
  - destruct (step_br_stay ui e oi Hst ltac:(fold c; lia) Hok)
      as (e1 & oi1 & E & Hfr & Hc1 & Hok1 & Hw & Hbs).
    { eapply room_le; [exact Hroom|fold c; lia]. }
    fold c in Hc1, Hw. replace (Z.min c 8) with 8 in * by lia.
    destruct (obits_only_fields _ _ Hfr)
      as (Fis & Fmsi & Fml & Fmp & Fob & Ffl & Fst & FW & FL & Fbuf).
    pose proof (room_app _ _ _ _ _ _ Hw Hbs Hroom) as Hroom1.
    rewrite field_bits_length in Hroom1.
    destruct (step_br_stay ui e1 oi1 ltac:(rewrite Fst; exact Hst)
                ltac:(lia) Hok1)
      as (e2 & oi2 & E2 & Hfr2 & Hc2 & Hok2 & Hw2 & Hbs2).
    { eapply room_le; [exact Hroom1|rewrite Hc1; lia]. }
    rewrite Hc1 in Hc2, Hw2. replace (Z.min (c - 8) 8) with (c - 8) in * by lia.
    rewrite Z.sub_diag, Z.shiftr_0_r, Fob in *.
    exists e2, oi2.
    split; [eapply runs_step; [exact E|apply runs_one; exact E2]|].
    split; [eapply obits_only_trans; eassumption|].
    split; [assumption|]. split; [assumption|]. split; [|congruence].
    rewrite Hw2, Hw, <- app_assoc. f_equal.
    replace (Z.to_nat c) with (8 + Z.to_nat (c - 8))%nat by lia.
    rewrite field_bits_app. repeat f_equal. lia.
Qed.

(** *** The search, while the encoder is finishing a first window *)

Lemma step_search e oi :
  state e = HSES_SEARCH ->
  4 <= window_sz2 e <= 15 -> 3 <= lookahead_sz2 e <= window_sz2 e ->
  flags e = 1 ->
  0 <= match_scan_index e < input_size e -> input_size e <= 2 ^ window_sz2 e ->
  let end_ := 2 ^ window_sz2 e + match_scan_index e in
  let maxlen :=
    Z.min (2 ^ lookahead_sz2 e) (input_size e - match_scan_index e) in
  (poll_step false e oi
   = Ret (set_state HSES_YIELD_TAG_BIT
            (set_match_length 0
               (set_flags 3
                  (set_match_scan_index (match_scan_index e + 1) e))),
          oi, None) /\
   forall p k, 2 ^ window_sz2 e <= p < end_ ->
               match_len_at (buffer e) end_ maxlen p k -> k <= 2)
  \/
  (exists p ml,
     2 ^ window_sz2 e <= p < end_ /\ 2 < ml /\
     match_len_at (buffer e) end_ maxlen p ml /\
     (forall q k, 2 ^ window_sz2 e <= q < end_ ->
                  match_len_at (buffer e) end_ maxlen q k -> k <= ml) /\
     (forall q k, p < q < end_ ->
                  match_len_at (buffer e) end_ maxlen q k -> k < ml) /\
     poll_step false e oi
     = Ret (set_state HSES_YIELD_TAG_BIT
              (set_match_length ml (set_match_pos (end_ - p) e)),
            oi, None)).
Proof.
  intros Hst HW HL Hfl Hmsi Hsz end_ maxlen.
  pose proof (pow_bits (window_sz2 e) 4 15 ltac:(lia) HW) as HpW.
  pose proof (pow_bits (lookahead_sz2 e) 3 15 ltac:(lia) ltac:(lia)) as HpL.
  change (2 ^ 4) with 16 in HpW. change (2 ^ 15) with 32768 in HpW, HpL.
  change (2 ^ 3) with 8 in HpL.
  assert (Hibs : get_input_buffer_size e = 2 ^ window_sz2 e).
  { unfold get_input_buffer_size. rewrite shiftl_1_pow, u16_small by lia.
    reflexivity. }
  assert (Hls : get_lookahead_size e = 2 ^ lookahead_sz2 e).
  { unfold get_lookahead_size. rewrite shiftl_1_pow, u16_small by lia.
    reflexivity. }
  destruct (linear_search_spec e (2 ^ window_sz2 e) end_ maxlen 0)
    as (r & ml & E & Hres);
    [subst end_; lia | subst end_; lia | subst maxlen; lia |].
  unfold poll_step. rewrite Hst.
  unfold st_step_search, get_input_offset, is_finishing, backlog_is_filled,
    backlog_is_partial.
  rewrite Hibs, Hls, Hfl.
  change (Z.land 1 FLAG_IS_FINISHING =? 0) with false.
  change (Z.land 1 FLAG_BACKLOG_IS_FILLED =? 0) with true.
  change (Z.land 1 FLAG_BACKLOG_IS_PARTIAL =? 0) with true.
  cbn [negb]. rewrite Z.sub_0_r, Z.geb_leb.
  destruct (Z.leb_spec (input_size e) (match_scan_index e)); [lia|].
  rewrite (u16_small (2 ^ window_sz2 e + match_scan_index e)) by lia.
  fold end_.
  assert (Hmax : (if input_size e - match_scan_index e <? 2 ^ lookahead_sz2 e
                  then u16 (input_size e - match_scan_index e)
                  else 2 ^ lookahead_sz2 e) = maxlen).
  { subst maxlen.
    destruct (Z.ltb_spec (input_size e - match_scan_index e)
                (2 ^ lookahead_sz2 e)); [rewrite u16_small by lia|]; lia. }
  rewrite Hmax, E. esimpl.
  destruct Hres as [(Hr & Hml & Hno)|(p & Hp & Hr & Hml & Hat & Hbest & Hnear)].
  - left. subst r ml. change (MATCH_NOT_FOUND =? MATCH_NOT_FOUND) with true.
    esimpl. rewrite Hfl. change (Z.lor 1 FLAG_HAS_LITERAL) with 3.
    rewrite u16_small by lia.
    rewrite bool_decide_false by discriminate. split; [reflexivity|exact Hno].
  - right. exists p, ml.
    destruct (Z.eqb_spec r MATCH_NOT_FOUND) as [Hnf|_].
    { unfold MATCH_NOT_FOUND in Hnf. subst end_. lia. }
    esimpl. rewrite bool_decide_false by discriminate. subst r.
    repeat (split; [assumption|]). reflexivity.
Qed.

(** *** One window of input, encoded by a single poll

    [X] is an input that fits the window; it has been sunk whole and
    [finish] has been called. *)
Section FirstWindow.
Variables (W L : Z) (X : list Z) (cap : Z).
Hypothesis HW : 4 <= W <= 15.
Hypothesis HL : 3 <= L <= W.
Hypothesis Hn : Z.of_nat (length X) <= 2 ^ W.
Hypothesis HX : Forall (fun c => 0 <= c < 256) X.
(** The output buffer holds 11 bits for each byte of [X] and two bytes
    more. *)
Hypothesis Hfits : 11 * Z.of_nat (length X) + 16 <= 8 * cap.

(** The encoder in [HSES_SEARCH], with the symbols [ss] written for the
    first [match_scan_index] bytes of [X]. *)
Record searching (e : heatshrink_encoder) (oi : output_info)
    (ss : list symbol) : Prop := mk_searching {
  sr_state : state e = HSES_SEARCH;
  sr_W : window_sz2 e = W;
  sr_L : lookahead_sz2 e = L;
  sr_flags : flags e = 1;
  sr_size : input_size e = Z.of_nat (length X);
  sr_buf : forall i, 0 <= i < Z.of_nat (length X) ->
                     rd (buffer e) (2 ^ W + i) = X !!! Z.to_nat i;
  sr_msi : 0 <= match_scan_index e <= Z.of_nat (length X);
  sr_bits : ebits_ok e oi;
  sr_written : written e oi = stream_bits W L ss;
  sr_expand : expand ss = take (Z.to_nat (match_scan_index e)) X;
  sr_valid : valid_stream W L ss;
  sr_len : Z.of_nat (length (stream_bits W L ss)) <= 11 * match_scan_index e;
  sr_cap : buf_size oi = cap
}.

Lemma pow_W : 16 <= 2 ^ W <= 32768.
Proof. pose proof (pow_bits W 4 15 ltac:(lia) HW) as H. cbn in H. lia. Qed.

Lemma pow_L : 8 <= 2 ^ L <= 32768.
Proof.
  pose proof (pow_bits L 3 15 ltac:(lia) ltac:(lia)) as H. cbn in H. lia.
Qed.

Lemma byte_of_X i : (i < length X)%nat -> 0 <= X !!! i < 256.
Proof.
  intros Hi.
  apply (Forall_lookup_1 (fun c => 0 <= c < 256) X i _ HX).
  apply list_lookup_lookup_total_lt. exact Hi.
Qed.

(** The two turns that write a literal. *)
Lemma literal_turns e0 oi ss :
  searching e0 oi ss -> match_scan_index e0 < Z.of_nat (length X) ->
  exists e' oi',
    runs false
      (set_state HSES_YIELD_TAG_BIT
         (set_match_length 0
            (set_flags 3
               (set_match_scan_index (match_scan_index e0 + 1) e0)))) oi
      e' oi' /\
    searching e' oi' (ss ++ [Lit (X !!! Z.to_nat (match_scan_index e0))]) /\
    match_scan_index e' = match_scan_index e0 + 1.
Proof.
  intros [Hst HeW HeL Hfl Hsz Hbuf Hmsi Hok Hwr Hex Hval Hlen Hcap] Hlt.
  pose proof pow_W as HpW.
  match goal with |- context [runs false ?t _ _ _] => set (e := t) end.
  assert (Hoke : ebits_ok e oi)
    by (eapply ebits_ok_ext; [| |exact Hok]; reflexivity).
  assert (Hroom : room e oi 9).
  { unfold room. change (written e oi) with (written e0 oi). rewrite Hwr. lia. }
  destruct (step_tag_literal false e oi eq_refl eq_refl Hoke
              (room_le _ _ _ 0 Hroom ltac:(lia)))
    as (e1 & oi1 & E1 & Hfr1 & Hok1 & Hw1 & Hbs1).
  pose proof (room_app _ _ _ _ _ _ Hw1 Hbs1 Hroom) as Hroom1.
  destruct (bits_only_fields _ _ Hfr1)
    as (Fis & Fmsi & Fml & Fmp & Fob & Fobc & Ffl & Fst & FW & FL & Fbuf).
  subst e. esimpl.
  assert (Hok1' : ebits_ok (set_state HSES_YIELD_LITERAL e1) oi1)
    by (eapply ebits_ok_ext; [| |exact Hok1]; reflexivity).
  destruct (step_literal false (set_state HSES_YIELD_LITERAL e1) oi1
              eq_refl Fml Ffl Hok1' (room_le _ _ _ 0 Hroom1 ltac:(cbn; lia)))
    as (e2 & oi2 & E2 & Hfr2 & Hok2 & Hw2 & Hbs2).
  destruct (bits_only_fields _ _ Hfr2)
    as (Gis & Gmsi & Gml & Gmp & Gob & Gobc & Gfl & Gst & GW & GL & Gbuf).
  esimpl.
  assert (Hc : rd (buffer e1)
                 (u16 (get_input_offset (set_state HSES_YIELD_LITERAL e1)
                       + u16 (match_scan_index e1 - 1)))
               = X !!! Z.to_nat (match_scan_index e0)).
  { unfold get_input_offset, get_input_buffer_size. esimpl.
    rewrite FW, HeW, Fmsi, Fbuf, shiftl_1_pow by lia.
    replace (match_scan_index e0 + 1 - 1) with (match_scan_index e0) by lia.
    rewrite !u16_small by (rewrite ?u16_small; lia).
    apply Hbuf. lia. }
  rewrite Hc in Hw2.
  exists (set_state HSES_SEARCH (set_flags 1 e2)), oi2.
  split; [eapply runs_step; [exact E1|apply runs_one; exact E2]|].
  split; [|esimpl; congruence].
  assert (Hw' : written e2 oi2
                = stream_bits W L
                    (ss ++ [Lit (X !!! Z.to_nat (match_scan_index e0))])).
  { rewrite stream_bits_snoc, <- Hwr, Hw2. cbn [symbol_bits].
    change (written (set_state HSES_YIELD_LITERAL e1) oi1) with (written e1 oi1).
    rewrite Hw1, <- app_assoc. reflexivity. }
  constructor; esimpl; try congruence.
  - intros i Hi. rewrite Gbuf, Fbuf. auto.
  - lia.
  - eapply ebits_ok_ext; [| |exact Hok2]; reflexivity.
  - exact Hw'.
  - rewrite expand_snoc, Hex, Gmsi, Fmsi. cbn [expand_symbol].
    replace (Z.to_nat (match_scan_index e0 + 1))
      with (S (Z.to_nat (match_scan_index e0))) by lia.
    symmetry. apply take_S_r. apply list_lookup_lookup_total_lt. lia.
  - apply valid_stream_snoc; [assumption|]. cbn [valid_symbol].
    apply byte_of_X. lia.
  - rewrite stream_bits_snoc, length_app, Nat2Z.inj_add,
      symbol_bits_length by lia. lia.
Qed.

(** The turns that write a back-reference to the match of length [ml] at
    [p]. *)
Lemma backref_turns e0 oi ss p ml :
  searching e0 oi ss -> match_scan_index e0 < Z.of_nat (length X) ->
  2 ^ W <= p < 2 ^ W + match_scan_index e0 -> 2 < ml ->
  match_len_at (buffer e0) (2 ^ W + match_scan_index e0)
    (Z.min (2 ^ L) (Z.of_nat (length X) - match_scan_index e0)) p ml ->
  exists e' oi',
    runs false
      (set_state HSES_YIELD_TAG_BIT
         (set_match_length ml
            (set_match_pos (2 ^ W + match_scan_index e0 - p) e0))) oi
      e' oi' /\
    searching e' oi' (ss ++ [Ref (2 ^ W + match_scan_index e0 - p) ml]) /\
    match_scan_index e' = match_scan_index e0 + ml.
Proof.
  intros [Hst HeW HeL Hfl Hsz Hbuf Hmsi Hok Hwr Hex Hval Hlen Hcap] Hlt Hp Hml
    (Hr & Hag & _).
  pose proof pow_W as HpW. pose proof pow_L as HpL.
  set (d := 2 ^ W + match_scan_index e0 - p) in *.
  assert (Hd : 1 <= d <= match_scan_index e0) by (subst d; lia).
  match goal with |- context [runs false ?t _ _ _] => set (e := t) end.
  assert (Hoke : ebits_ok e oi)
    by (eapply ebits_ok_ext; [| |exact Hok]; reflexivity).
  assert (Hroom : room e oi (1 + W + L)).
  { unfold room. change (written e oi) with (written e0 oi). rewrite Hwr. lia. }
  (* the tag bit *)
  destruct (step_tag_backref false e oi eq_refl ltac:(subst e; esimpl; lia)
              Hoke (room_le _ _ _ 0 Hroom ltac:(lia)))
    as (e1 & oi1 & E1 & Hfr1 & Hok1 & Hw1 & Hbs1).
  pose proof (room_app _ _ _ _ _ _ Hw1 Hbs1 Hroom) as Hroom1.
  cbn [length] in Hroom1.
  destruct (bits_only_fields _ _ Hfr1)
    as (Fis & Fmsi & Fml & Fmp & Fob & Fobc & Ffl & Fst & FW & FL & Fbuf).
  subst e. esimpl.
  (* the index *)
  match type of E1 with _ = Ret (?t, _, _) => set (eA := t) in * end.
  assert (HokA : ebits_ok eA oi1)
    by (eapply ebits_ok_ext; [| |exact Hok1]; reflexivity).
  destruct (drain false eA oi1 (or_introl eq_refl)
              ltac:(subst eA; esimpl; lia) HokA)
    as (eB & oi2 & R2 & Hfr2 & Hc2 & Hok2 & Hw2 & Hbs2).
  { subst eA. esimpl. eapply room_le; [exact Hroom1|lia]. }
  pose proof (room_app _ _ _ _ _ _ Hw2 Hbs2
                (room_le _ _ _ (W + L) Hroom1 ltac:(lia))) as Hroom2.
  rewrite field_bits_length in Hroom2.
  destruct (obits_only_fields _ _ Hfr2)
    as (Gis & Gmsi & Gml & Gmp & Gob & Gfl & Gst & GW & GL & Gbuf).
  subst eA. esimpl.
  pose proof (step_br_index_move false eB oi2 Gst Hc2) as E3.
  specialize (E3 ltac:(pose proof (room_lt _ _ _ Hok2 (room_le _ _ _ 0 Hroom2
                         ltac:(lia)) ltac:(lia)); lia)).
  (* the length *)
  match type of E3 with _ = Ret (?t, _, _) => set (eC := t) in * end.
  assert (HokC : ebits_ok eC oi2)
    by (eapply ebits_ok_ext; [| |exact Hok2]; reflexivity).
  destruct (drain false eC oi2 (or_intror eq_refl)
              ltac:(subst eC; esimpl; lia) HokC)
    as (eD & oi3 & R4 & Hfr4 & Hc4 & Hok4 & Hw4 & Hbs4).
  { subst eC. esimpl. eapply room_le; [exact Hroom2|lia]. }
  pose proof (room_app _ _ _ _ _ _ Hw4 Hbs4
                (room_le _ _ _ L Hroom2 ltac:(subst eC; esimpl; lia)))
    as Hroom4.
  rewrite field_bits_length in Hroom4.
  destruct (obits_only_fields _ _ Hfr4)
    as (Iis & Imsi & Iml & Imp & Iob & Ifl & Ist & IW & IL & Ibuf).
  subst eC. esimpl.
  pose proof (step_br_length_move false eD oi3 Ist Hc4) as E5.
  specialize (E5 ltac:(pose proof (room_lt _ _ _ Hok4 (room_le _ _ _ 0 Hroom4
                         ltac:(lia)) ltac:(lia)); lia)).
  match type of E5 with _ = Ret (?t, _, _) => set (eE := t) in * end.
  assert (Hmsi' : match_scan_index eE = match_scan_index e0 + ml).
  { subst eE. esimpl. rewrite Imsi, Iml, Gmsi, Gml, Fmsi, Fml.
    apply u16_small. lia. }
  exists eE, oi3.
  split.
  { eapply runs_step; [exact E1|]. eapply runs_trans; [exact R2|].
    eapply runs_step; [exact E3|]. eapply runs_trans; [exact R4|].
    apply runs_one. exact E5. }
  split; [|exact Hmsi'].
  assert (Hw' : written eE oi3 = stream_bits W L (ss ++ [Ref d ml])).
  { rewrite stream_bits_snoc, <- Hwr. cbn [symbol_bits].
    unfold written, pending in Hw4, Hw2, Hw1 |- *. subst eE. esimpl.
    rewrite Hw4, Hw2, Hw1, <- !app_assoc. cbn [app].
    rewrite Gml, Fml, GL, FL, HeL, HeW.
    rewrite !u16_small by lia. reflexivity. }
  constructor; try exact Hmsi'; subst eE; esimpl; try congruence.
  - intros i Hi. rewrite Ibuf, Gbuf, Fbuf. auto.
  - rewrite Imsi, Iml, Gmsi, Gml, Fmsi, Fml, u16_small by lia. lia.
  - eapply ebits_ok_ext; [| |exact Hok4]; reflexivity.
  - rewrite expand_snoc, Hex. cbn [expand_symbol].
    rewrite Imsi, Iml, Gmsi, Gml, Fmsi, Fml, u16_small by lia.
    replace (Z.to_nat (match_scan_index e0 + ml))
      with (Z.to_nat (match_scan_index e0) + Z.to_nat ml)%nat by lia.
    apply copy_back_prefix; [lia|lia|].
    intros i Hi.
    specialize (Hag (Z.of_nat i) ltac:(lia)).
    replace (p + Z.of_nat i)
      with (2 ^ W + (match_scan_index e0 - d + Z.of_nat i)) in Hag by lia.
    rewrite <- Z.add_assoc in Hag.
    rewrite !Hbuf in Hag by lia.
    rewrite Z2Nat.id by lia.
    replace (Z.to_nat (match_scan_index e0) + i)%nat
      with (Z.to_nat (match_scan_index e0 + Z.of_nat i)) by lia.
    exact Hag.
  - apply valid_stream_snoc; [assumption|]. cbn [valid_symbol].
    rewrite Hex, length_take. lia.
  - rewrite stream_bits_snoc, length_app, Nat2Z.inj_add,
      symbol_bits_length by lia.
    rewrite Imsi, Iml, Gmsi, Gml, Fmsi, Fml, u16_small by lia. lia.
Qed.

(** From [HSES_SEARCH] to [HSES_SEARCH]: one symbol, for the bytes the
    search decides on. *)
Lemma one_symbol e oi ss :
  searching e oi ss -> match_scan_index e < Z.of_nat (length X) ->
  let end_ := 2 ^ W + match_scan_index e in
  let maxlen := Z.min (2 ^ L) (Z.of_nat (length X) - match_scan_index e) in
  exists e' oi' s,
    runs false e oi e' oi' /\ searching e' oi' (ss ++ [s]) /\
    match_scan_index e < match_scan_index e' /\
    ((s = Lit (X !!! Z.to_nat (match_scan_index e)) /\
      forall p k, 2 ^ W <= p < end_ ->
                  match_len_at (buffer e) end_ maxlen p k -> k <= 2)
     \/
     (exists p ml,
        s = Ref (end_ - p) ml /\ 2 ^ W <= p < end_ /\ 2 < ml /\
        match_len_at (buffer e) end_ maxlen p ml /\
        forall q k, p < q < end_ ->
                    match_len_at (buffer e) end_ maxlen q k -> k < ml)).
Proof.
  intros Hs Hlt end_ maxlen.
  pose proof Hs as [Hst HeW HeL Hfl Hsz Hbuf Hmsi Hok Hwr Hex Hval Hlen Hcap].
  destruct (step_search e oi Hst ltac:(rewrite HeW; lia)
              ltac:(rewrite HeW, HeL; lia) Hfl ltac:(rewrite Hsz; lia)
              ltac:(rewrite HeW, Hsz; exact Hn))
    as [[E Hno]|(p & ml & Hp & Hml & Hat & _ & Hnear & E)];
    rewrite HeW, ?HeL, ?Hsz in *.
  - destruct (literal_turns e oi ss Hs Hlt) as (e' & oi' & R & Hs' & Hm').
    exists e', oi', (Lit (X !!! Z.to_nat (match_scan_index e))).
    split; [eapply runs_step; [exact E|exact R]|].
    split; [exact Hs'|]. split; [lia|]. left. split; [reflexivity|exact Hno].
  - destruct (backref_turns e oi ss p ml Hs Hlt Hp Hml Hat)
      as (e' & oi' & R & Hs' & Hm').
    exists e', oi', (Ref (end_ - p) ml).
    split; [eapply runs_step; [exact E|exact R]|].
    split; [exact Hs'|]. split; [lia|]. right. exists p, ml. auto.
Qed.

(** The symbols for the rest of [X]. *)
Lemma encode_rest k : forall e oi ss,
  searching e oi ss ->
  (Z.to_nat (Z.of_nat (length X) - match_scan_index e) <= k)%nat ->
  exists e' oi' ss',
    runs false e oi e' oi' /\ searching e' oi' (ss ++ ss') /\
    match_scan_index e' = Z.of_nat (length X).
Proof.
  induction k as [|k IH]; intros e oi ss Hs Hk;
    pose proof (sr_msi _ _ _ Hs) as Hmsi;
    destruct (Z.eq_dec (match_scan_index e) (Z.of_nat (length X))) as [Heq|Hne];
    try (exists e, oi, []; rewrite app_nil_r;
         split; [apply runs_refl|split; assumption]).
  - lia.
  - destruct (one_symbol e oi ss Hs ltac:(lia))
      as (e1 & oi1 & s & R1 & Hs1 & Hm1 & _).
    destruct (IH e1 oi1 (ss ++ [s]) Hs1 ltac:(lia))
      as (e' & oi' & ss' & R' & Hs' & Hm').
    exists e', oi', (s :: ss').
    split; [eapply runs_trans; eassumption|].
    split; [|exact Hm'].
    now rewrite <- app_assoc in Hs'.
Qed.

(** At the end of the input the poll flushes the current byte and
    returns: the bytes polled are the symbols and fewer than 8 bits of
    padding. *)
Lemma finish_turns e oi ss :
  searching e oi ss -> match_scan_index e = Z.of_nat (length X) ->
  exists e' oi' k,
    poll_loop false 3 e oi = Ret (HSER_POLL_EMPTY, e', oi') /\
    state e' = HSES_DONE /\ (k <= 7)%nat /\
    concat (map byte_bits (polled oi')) = stream_bits W L ss ++ replicate k false /\
    0 <= output_size oi' < cap.
Proof.
  intros [Hst HeW HeL Hfl Hsz Hbuf Hmsi Hok Hwr Hex Hval Hlen Hcap] Hend.
  assert (Hroom : room e oi 0) by (unfold room; rewrite Hwr; lia).
  pose proof (room_lt _ _ _ Hok Hroom ltac:(lia)) as Hlt.
  destruct Hok as [Hm Hcl Hoi Hsm].
  assert (E1 : poll_step false e oi
               = Ret (set_state HSES_SAVE_BACKLOG e, oi, None)).
  { unfold poll_step. rewrite Hst. unfold st_step_search, is_finishing.
    rewrite Hfl. change (Z.land 1 FLAG_IS_FINISHING =? 0) with false.
    cbn [negb]. rewrite Z.sub_0_r, Z.geb_leb.
    destruct (Z.leb_spec (input_size e) (match_scan_index e)); [|lia].
    esimpl. rewrite bool_decide_false by discriminate. reflexivity. }
  assert (E2 : poll_step false (set_state HSES_SAVE_BACKLOG e) oi
               = Ret (set_state HSES_FLUSH_BITS e, oi, None)).
  { unfold poll_step. esimpl. unfold st_save_backlog, is_finishing, has_literal.
    esimpl. rewrite Hfl. reflexivity. }
  cbn [poll_loop]. rewrite E1. esimpl. rewrite E2. esimpl.
  unfold poll_step. esimpl. unfold st_flush_bit_buffer, can_take_byte. esimpl.
  destruct (Z.eqb_spec (bit_index e) 128) as [H128|H128].
  - esimpl. exists (set_state HSES_DONE e), oi, 0%nat.
    split; [reflexivity|]. split; [reflexivity|]. split; [lia|].
    split; [|destruct Hoi; lia].
    rewrite <- Hwr. unfold written, pending. rewrite H128.
    change (Z.to_nat (8 - nbits 128)) with 0%nat. cbn [replicate take].
    now rewrite !app_nil_r.
  - rewrite (proj2 (Z.ltb_lt _ _)) by lia.
    destruct (push_out_ok oi (current_byte e) Hoi ltac:(lia))
      as (oi1 & Ep & _).
    rewrite Ep. esimpl.
    apply polled_push in Ep; [|assumption|lia|lia].
    destruct Ep as (Ep1 & Ep2 & _).
    exists (set_state HSES_DONE e), oi1, (Z.to_nat (nbits (bit_index e))).
    split; [reflexivity|]. split; [reflexivity|].
    split.
    { clear -Hm H128. unfold emask_ok in Hm.
      destruct Hm as [Hm|[Hm|[Hm|[Hm|[Hm|[Hm|[Hm|Hm]]]]]]]; rewrite Hm in *;
        try contradiction; vm_compute; lia. }
    split; [|destruct Hoi; lia].
    rewrite Ep1, map_app, concat_app, <- Hwr. cbn [map concat].
    rewrite app_nil_r. unfold written, pending. rewrite <- app_assoc.
    f_equal. unfold cb_clean in Hcl. rewrite <- Hcl.
    symmetry. apply take_drop.
Qed.

(** From any point of the search on, the poll returns with the whole of
    [X] written. *)
Lemma encode_from e oi ss :
  searching e oi ss ->
  exists fuel e' oi' ss' k,
    poll_loop false fuel e oi = Ret (HSER_POLL_EMPTY, e', oi') /\
    state e' = HSES_DONE /\ (k <= 7)%nat /\
    concat (map byte_bits (polled oi'))
    = stream_bits W L (ss ++ ss') ++ replicate k false /\
    0 <= output_size oi' < cap /\
    expand (ss ++ ss') = X /\ valid_stream W L (ss ++ ss').
Proof.
  intros Hs.
  destruct (encode_rest _ e oi ss Hs (Nat.le_refl _))
    as (e1 & oi1 & ss' & R & Hs1 & Hm1).
  destruct (finish_turns e1 oi1 _ Hs1 Hm1)
    as (e' & oi' & k & E & Hd & Hk & Hb & Hsz).
  destruct (runs_poll_loop _ _ _ _ _ R _ _ E) as [fuel Hf].
  exists fuel, e', oi', ss', k.
  split; [exact Hf|]. split; [exact Hd|]. split; [exact Hk|].
  split; [exact Hb|]. split; [exact Hsz|].
  split; [|exact (sr_valid _ _ _ Hs1)].
  rewrite (sr_expand _ _ _ Hs1), Hm1, Nat2Z.id. apply firstn_all.
Qed.

(** The encoder after [alloc], a [sink] of [X] and [finish], and its
    first turn. *)
Lemma first_turn e0 out_buf :
  heatshrink_encoder_alloc false [] W L = Some e0 ->
  Z.of_nat (length out_buf) = cap -> cap <= 65535 ->
  exists e1 e2,
    heatshrink_encoder_sink e0 X = (HSER_SINK_OK, Some (Z.of_nat (length X)), e1) /\
    heatshrink_encoder_finish e1 = (HSER_FINISH_MORE, e2) /\
    poll_step false e2 (new_output_info out_buf)
    = Ret (set_state HSES_SEARCH e2, new_output_info out_buf, None) /\
    searching (set_state HSES_SEARCH e2) (new_output_info out_buf) [].
Proof.
  intros Ha Hlen Hcap. pose proof pow_W as HpW.
  unfold heatshrink_encoder_alloc in Ha.
  rewrite !u8_small in Ha by lia.
  destruct (_ || _) in Ha; [discriminate|]. injection Ha as <-.
  unfold heatshrink_encoder_sink, heatshrink_encoder_reset, is_finishing,
    get_input_offset, get_input_buffer_size. esimpl.
  change (Z.land 0 FLAG_IS_FINISHING =? 0) with true. cbn [negb].
  rewrite bool_decide_true by reflexivity. cbn [negb].
  rewrite shiftl_1_pow by lia. rewrite (u16_small (2 ^ W)) by lia.
  rewrite Z.add_0_r, Z.sub_0_r, !(u16_small (2 ^ W)) by lia.
  assert (Hcp : u16 (if 2 ^ W <? Z.of_nat (length X) then 2 ^ W
                     else Z.of_nat (length X)) = Z.of_nat (length X)).
  { destruct (Z.ltb_spec (2 ^ W) (Z.of_nat (length X))); [lia|].
    apply u16_small. lia. }
  rewrite Hcp, Z.add_0_l, (u16_small (Z.of_nat (length X))) by lia.
  rewrite Nat2Z.id, firstn_all.
  set (bufX := blit _ _ X).
  assert (Hbuf : forall i, 0 <= i < Z.of_nat (length X) ->
                           rd bufX (2 ^ W + i) = X !!! Z.to_nat i).
  { intros i Hi. subst bufX. unfold rd, blit.
    destruct (Z.ltb_spec (2 ^ W + i) 0); [lia|].
    assert (Hl : length (take (Z.to_nat (2 ^ W))
                           (replicate (Z.to_nat (Z.shiftl 2 W)) 0))
                 = Z.to_nat (2 ^ W)).
    { rewrite length_take, length_replicate.
      rewrite Z.shiftl_mul_pow2 by lia. lia. }
    rewrite lookup_total_app_r by lia. rewrite Hl.
    replace (Z.to_nat (2 ^ W + i) - Z.to_nat (2 ^ W))%nat with (Z.to_nat i)
      by lia.
    apply lookup_total_app_l. lia. }
  assert (Hsr : forall e,
             state e = HSES_SEARCH -> window_sz2 e = W -> lookahead_sz2 e = L ->
             flags e = 1 -> input_size e = Z.of_nat (length X) ->
             buffer e = bufX -> match_scan_index e = 0 ->
             bit_index e = 128 -> current_byte e = 0 ->
             searching e (new_output_info out_buf) []).
  { intros e Hst HeW HeL Hfl Hsz Hb Hm Hbi Hcb.
    constructor; try assumption.
    - rewrite Hb. exact Hbuf.
    - lia.
    - constructor.
      + rewrite Hbi. unfold emask_ok. tauto.
      + unfold cb_clean. rewrite Hbi, Hcb. reflexivity.
      + apply new_output_info_ok.
      + cbn [new_output_info buf_size]. lia.
    - unfold written, pending, polled. rewrite Hbi. reflexivity.
    - rewrite Hm. reflexivity.
    - apply valid_stream_nil.
    - rewrite Hm. cbn. lia. }
  unfold heatshrink_encoder_finish, poll_step, do_indexing.
  destruct (Z.eqb_spec (Z.of_nat (length X)) (2 ^ W)) as [Hfull|Hpart];
    esimpl; rewrite ?bool_decide_true by reflexivity;
    rewrite ?bool_decide_false by discriminate; esimpl;
    rewrite ?bool_decide_false by discriminate; esimpl;
    (eexists _, _; split; [reflexivity|]; split; [reflexivity|];
     split; [reflexivity|]; apply Hsr; reflexivity).
Qed.

(** The round of the driver, from a point the poll reaches in
    [HSES_SEARCH]. *)
Lemma compress_once_from e0 e1 e2 e oi ss0 :
  heatshrink_encoder_alloc false [] W L = Some e0 ->
  heatshrink_encoder_sink e0 X = (HSER_SINK_OK, Some (Z.of_nat (length X)), e1) ->
  heatshrink_encoder_finish e1 = (HSER_FINISH_MORE, e2) ->
  cap = scratch_size (Z.of_nat (length X)) ->
  runs false e2 (new_output_info (replicate (Z.to_nat cap) 0)) e oi ->
  searching e oi ss0 ->
  exists fuel0 C ss' k,
    (forall fuel, (fuel0 <= fuel)%nat ->
                  compress_once false [] W L X fuel = Ret (Some C)) /\
    concat (map byte_bits C) = stream_bits W L (ss0 ++ ss') ++ replicate k false /\
    (k <= 7)%nat /\ expand (ss0 ++ ss') = X /\ valid_stream W L (ss0 ++ ss') /\
    Z.of_nat (length C) < cap.
Proof.
  intros Ha Hsink Hfin Hcap R Hs.
  destruct (encode_from e oi ss0 Hs)
    as (fuel & e' & oi' & ss' & k & E & Hd & Hk & Hb & Hsz & Hex & Hval).
  destruct (runs_poll_loop _ _ _ _ _ R _ _ E) as [fuel0 Hf].
  exists fuel0, (polled oi'), ss', k.
  split; [|split; [exact Hb|split; [exact Hk|split; [exact Hex|split;
            [exact Hval|]]]]].
  - intros fuel' Hle.
    pose proof (poll_loop_more_fuel _ _ _ _ _ Hf _ Hle) as Hf'.
    unfold compress_once. rewrite Ha, Hsink, Z.eqb_refl. cbn [negb].
    rewrite Hfin. unfold heatshrink_encoder_poll.
    rewrite length_replicate, <- Hcap.
    assert (Hpos : 0 < cap) by lia.
    rewrite Z2Nat.id by lia.
    destruct (Z.eqb_spec cap 0); [lia|].
    rewrite Hf'. esimpl. cbn [mbind outcome_bind].
    rewrite Z.geb_leb.
    destruct (Z.leb_spec cap (output_size oi')); [lia|].
    unfold heatshrink_encoder_finish. esimpl. rewrite Hd.
    rewrite (bool_decide_false (HSES_DONE = HSES_NOT_FULL)) by discriminate.
    esimpl. rewrite Hd. reflexivity.
  - unfold polled. rewrite length_take. lia.
Qed.

End FirstWindow.
End EncoderBits.
(** * The bits the decoder reads *)

Module DecoderBits.
Import Decoder Bits DecoderFacts.

(** The bytes of the input region not yet loaded, and the bits still to
    be read: those left in the current byte, then the unread bytes. *)
Definition unread (h : heatshrink_decoder) : list Z :=
  take (Z.to_nat (input_size h - input_index h))
       (drop (Z.to_nat (input_index h)) (buffers h)).

Definition dbits (h : heatshrink_decoder) : list bool :=
  drop (Z.to_nat (8 - nbits (bit_index h))) (byte_bits (current_byte h))
  ++ concat (map byte_bits (unread h)).

Lemma load_byte_dbits h h' :
  wf h -> load_byte h = Ret (Some h') ->
  dbits h' = dbits h /\ bit_index h' <> 0 /\
  bit_accumulator h' = bit_accumulator h.
Proof.
  intros Hwf. unfold load_byte.
  destruct (Z.eqb_spec (bit_index h) 0) as [Hz|Hnz].
  - destruct (Z.eqb_spec (input_size h) 0) as [|Hsz]; [discriminate|].
    unfold input_read. destruct Hwf.
    assert (Hidx : input_index h < input_size h).
    { destruct (Z.eq_dec (input_index h) (input_size h)) as [Heq|];
        [apply wf_unread0 in Heq; lia | lia]. }
    rewrite bool_decide_true by lia.
    destruct (buffers h !! Z.to_nat (input_index h)) as [b|] eqn:Eb;
      [|discriminate].
    dsimpl. rewrite u16_small by lia. intros [= <-].
    unfold dbits, unread. rewrite Hz.
    change (Z.to_nat (8 - nbits 0)) with 8%nat.
    replace (Z.to_nat (input_size h - input_index h))
      with (S (Z.to_nat (input_size h - (input_index h + 1)))) by lia.
    rewrite (drop_S _ _ _ Eb). cbn [take map concat drop byte_bits app].
    destruct (Z.eqb_spec (input_index h + 1) (input_size h)) as [Hlast|Hmore];
      dsimpl; change (Z.to_nat (8 - nbits 128)) with 0%nat; cbn [drop].
    + replace (Z.to_nat (input_size h - (input_index h + 1))) with 0%nat by lia.
      split; [reflexivity|]. split; [discriminate|reflexivity].
    + replace (Z.to_nat (input_index h + 1)) with (S (Z.to_nat (input_index h)))
        by lia.
      split; [reflexivity|]. split; [discriminate|reflexivity].
  - intros [= <-]. auto.
Qed.

(** [shift_bit] takes the first of the bits left. *)
Lemma shift_bit_dbits h :
  mask_ok (bit_index h) -> bit_index h <> 0 ->
  0 <= bit_accumulator h < 2 ^ 30 ->
  exists b,
    dbits h = b :: dbits (shift_bit h) /\
    bit_accumulator (shift_bit h) = 2 * bit_accumulator h + Z.b2z b /\
    nbits (bit_index (shift_bit h)) <= 7.
Proof.
  intros Hm Hnz Hacc.
  assert (Hsh : u32 (Z.shiftl (bit_accumulator h) 1) = 2 * bit_accumulator h).
  { rewrite Z.shiftl_mul_pow2 by lia. unfold u32.
    rewrite Z.mod_small; lia. }
  assert (Hcase : forall j, 0 <= j -> bit_index h = 2 ^ j ->
            bit_accumulator (shift_bit h)
            = 2 * bit_accumulator h + Z.b2z (Z.testbit (current_byte h) j)).
  { intros j Hj Hb. unfold shift_bit. dsimpl. rewrite Hb, land_pow2_eqb by lia.
    destruct (Z.testbit (current_byte h) j); cbn [negb]; dsimpl; rewrite Hsh.
    - apply (lor_double_bit _ true).
    - cbn [Z.b2z]. lia. }
  assert (Hrest : forall m, bit_index h = m ->
            dbits (shift_bit h)
            = drop (Z.to_nat (8 - nbits (Z.shiftr m 1)))
                (byte_bits (current_byte h))
              ++ concat (map byte_bits (unread h))).
  { intros m <-. unfold shift_bit, dbits, unread. dsimpl.
    destruct (Z.land _ _ =? 0); dsimpl; reflexivity. }
  unfold mask_ok in Hm.
  destruct Hm as [Hm|[Hm|[Hm|[Hm|[Hm|[Hm|[Hm|[Hm|Hm]]]]]]]];
    [contradiction|..].
  - exists (Z.testbit (current_byte h) 0).
    rewrite (Hrest 1 Hm), (Hcase 0 ltac:(lia) Hm). unfold dbits, shift_bit.
    dsimpl. rewrite Hm. split; [reflexivity|]. split; [reflexivity|].
    destruct (Z.land _ _ =? 0); dsimpl; rewrite Hm; vm_compute; discriminate.
  - exists (Z.testbit (current_byte h) 1).
    rewrite (Hrest 2 Hm), (Hcase 1 ltac:(lia) Hm). unfold dbits, shift_bit.
    dsimpl. rewrite Hm. split; [reflexivity|]. split; [reflexivity|].
    destruct (Z.land _ _ =? 0); dsimpl; rewrite Hm; vm_compute; discriminate.
  - exists (Z.testbit (current_byte h) 2).
    rewrite (Hrest 4 Hm), (Hcase 2 ltac:(lia) Hm). unfold dbits, shift_bit.
    dsimpl. rewrite Hm. split; [reflexivity|]. split; [reflexivity|].
    destruct (Z.land _ _ =? 0); dsimpl; rewrite Hm; vm_compute; discriminate.
  - exists (Z.testbit (current_byte h) 3).
    rewrite (Hrest 8 Hm), (Hcase 3 ltac:(lia) Hm). unfold dbits, shift_bit.
    dsimpl. rewrite Hm. split; [reflexivity|]. split; [reflexivity|].
    destruct (Z.land _ _ =? 0); dsimpl; rewrite Hm; vm_compute; discriminate.
  - exists (Z.testbit (current_byte h) 4).
    rewrite (Hrest 16 Hm), (Hcase 4 ltac:(lia) Hm). unfold dbits, shift_bit.
    dsimpl. rewrite Hm. split; [reflexivity|]. split; [reflexivity|].
    destruct (Z.land _ _ =? 0); dsimpl; rewrite Hm; vm_compute; discriminate.
  - exists (Z.testbit (current_byte h) 5).
    rewrite (Hrest 32 Hm), (Hcase 5 ltac:(lia) Hm). unfold dbits, shift_bit.
    dsimpl. rewrite Hm. split; [reflexivity|]. split; [reflexivity|].
    destruct (Z.land _ _ =? 0); dsimpl; rewrite Hm; vm_compute; discriminate.
  - exists (Z.testbit (current_byte h) 6).
    rewrite (Hrest 64 Hm), (Hcase 6 ltac:(lia) Hm). unfold dbits, shift_bit.
    dsimpl. rewrite Hm. split; [reflexivity|]. split; [reflexivity|].
    destruct (Z.land _ _ =? 0); dsimpl; rewrite Hm; vm_compute; discriminate.
  - exists (Z.testbit (current_byte h) 7).
    rewrite (Hrest 128 Hm), (Hcase 7 ltac:(lia) Hm). unfold dbits, shift_bit.
    dsimpl. rewrite Hm. split; [reflexivity|]. split; [reflexivity|].
    destruct (Z.land _ _ =? 0); dsimpl; rewrite Hm; vm_compute; discriminate.
Qed.

Lemma dbits_dry h :
  wf h -> bit_index h = 0 -> input_size h = 0 -> dbits h = [].
Proof.
  intros [] Hb Hs. unfold dbits, unread. rewrite Hb, Hs.
  change (Z.to_nat (8 - nbits 0)) with 8%nat.
  replace (Z.to_nat (0 - input_index h)) with 0%nat by lia. reflexivity.
Qed.

Lemma get_bits_step_dbits h b rest :
  wf h -> dbits h = b :: rest -> 0 <= bit_accumulator h < 2 ^ 30 ->
  exists h',
    get_bits_step h = Ret (Some h') /\ wf h' /\ reads_only h h' /\
    dbits h' = rest /\
    bit_accumulator h' = 2 * bit_accumulator h + Z.b2z b /\
    nbits (bit_index h') <= 7.
Proof.
  intros Hwf Hd Hacc. unfold get_bits_step.
  destruct (load_byte_ok h Hwf) as (r & E & Hr). rewrite E. dsimpl.
  destruct r as [h1|].
  - destruct (Hr h1 eq_refl) as [Hwf1 Hro1].
    destruct (load_byte_dbits h h1 Hwf E) as (Hd1 & Hnz & Hacc1).
    destruct (shift_bit_dbits h1 (wf_mask _ Hwf1) Hnz
                ltac:(rewrite Hacc1; exact Hacc)) as (b' & Hb' & Ha' & Hn').
    destruct (shift_bit_ok h1 Hwf1) as [Hwf2 Hro2].
    exists (shift_bit h1). split; [reflexivity|].
    rewrite Hd1, Hd in Hb'. injection Hb' as <- <-.
    split; [assumption|].
    split; [eapply reads_only_trans; eassumption|].
    split; [reflexivity|]. split; [congruence|assumption].
  - exfalso. unfold load_byte in E.
    destruct (Z.eqb_spec (bit_index h) 0) as [Hz|]; [|discriminate].
    destruct (Z.eqb_spec (input_size h) 0) as [Hs|Hs].
    + rewrite (dbits_dry h Hwf Hz Hs) in Hd. discriminate.
    + destruct (input_read_ok h Hwf Hs) as [x Hx]. rewrite Hx in E.
      dsimpl. discriminate.
Qed.

(** [count] bits read in a row are the number they spell, most
    significant bit first. *)
Lemma get_bits_loop_dbits n : forall h bs rest k,
  wf h -> dbits h = bs ++ rest -> length bs = n ->
  0 <= k -> k + Z.of_nat n <= 30 -> 0 <= bit_accumulator h < 2 ^ k ->
  exists h',
    get_bits_loop n h = Ret (true, h') /\ wf h' /\ reads_only h h' /\
    dbits h' = rest /\
    bit_accumulator h' = bit_accumulator h * 2 ^ Z.of_nat n + bits_val bs /\
    (n <> O -> nbits (bit_index h') <= 7).
Proof.
  induction n as [|n IH]; intros h bs rest k Hwf Hd Hlen Hk Hkn Hacc.
  - destruct bs; [|discriminate]. exists h. split; [reflexivity|].
    split; [assumption|]. split; [apply reads_only_refl|].
    split; [exact Hd|]. split; [cbn; lia|]. intros H; contradiction.
  - destruct bs as [|b bs]; [discriminate|]. injection Hlen as Hlen.
    assert (Hp : 2 ^ k <= 2 ^ 30) by (apply Z.pow_le_mono_r; lia).
    destruct (get_bits_step_dbits h b (bs ++ rest) Hwf Hd ltac:(lia))
      as (h1 & E1 & Hwf1 & Hro1 & Hd1 & Ha1 & Hn1).
    cbn [get_bits_loop]. rewrite E1. dsimpl.
    destruct (IH h1 bs rest (k + 1) Hwf1 Hd1 Hlen ltac:(lia) ltac:(lia))
      as (h' & E' & Hwf' & Hro' & Hd' & Ha' & Hn').
    { rewrite Ha1, Z.pow_add_r by lia. destruct b; cbn [Z.b2z]; lia. }
    exists h'. split; [exact E'|]. split; [assumption|].
    split; [eapply reads_only_trans; eassumption|].
    split; [assumption|]. split.
    + rewrite Ha', Ha1, bits_val_cons, Hlen, Nat2Z.inj_succ, Z.pow_succ_r by lia.
      lia.
    + intros _. destruct n as [|n'].
      * destruct bs; [|discriminate]. cbn [get_bits_loop] in E'.
        injection E' as <-. exact Hn1.
      * apply Hn'. discriminate.
Qed.

Lemma get_bits_dbits h count bs rest :
  wf h -> dbits h = bs ++ rest -> Z.of_nat (length bs) = count ->
  1 <= count <= 15 -> bit_accumulator h = 0 ->
  exists h',
    get_bits h count = Ret (bits_val bs, h') /\ wf h' /\ reads_only h h' /\
    dbits h' = rest /\ bit_accumulator h' = 0 /\
    nbits (bit_index h') <= 7.
Proof.
  intros Hwf Hd Hlen Hc Hacc. unfold get_bits.
  destruct (Z.gtb_spec count 31); [lia|].
  assert (Hgo : (input_size h =? 0)
                && (bit_index h <? Z.shiftl 1 (count - 1)) = false).
  { destruct (Z.eqb_spec (input_size h) 0) as [Hs|]; [|reflexivity].
    cbn [andb]. apply Z.ltb_ge.
    destruct (Z.lt_ge_cases (bit_index h) (Z.shiftl 1 (count - 1)))
      as [Hlt|]; [|assumption].
    exfalso. apply (mask_lt_shiftl _ _ (wf_mask _ Hwf)) in Hlt; [|lia].
    assert (Hl : Z.of_nat (length (dbits h)) = nbits (bit_index h)).
    { unfold dbits, unread. destruct Hwf. rewrite Hs.
      replace (Z.to_nat (0 - input_index h)) with 0%nat by lia.
      cbn [take map concat]. rewrite app_nil_r, length_drop.
      pose proof (nbits_range _ wf_mask0). cbn [byte_bits length]. lia. }
    rewrite Hd, length_app in Hl. lia. }
  rewrite Hgo.
  destruct (get_bits_loop_dbits (Z.to_nat count) h bs rest 0 Hwf Hd
              ltac:(lia) ltac:(lia) ltac:(lia) ltac:(rewrite Hacc; lia))
    as (h' & E & Hwf' & Hro' & Hd' & Ha' & Hn').
  rewrite E. dsimpl. rewrite Ha', Hacc, Z.mul_0_l, Z.add_0_l.
  exists (set_bit_accumulator 0 h'). split; [reflexivity|].
  destruct Hwf', Hro'.
  split; [constructor; dsimpl; assumption|].
  split; [constructor; dsimpl; assumption|].
  split; [exact Hd'|]. split; [reflexivity|].
  dsimpl. apply Hn'. lia.
Qed.

(** *** The window and the output while symbols are decoded *)

Section Decode.
Variables (W L : Z).
Hypothesis HW : 4 <= W <= 15.
Hypothesis HL : 3 <= L <= W.

(** The decoder has put out [out], which has not yet filled the window:
    the window holds [out] from its start, and [head_index] is at its
    end. *)
Record windowed (h : heatshrink_decoder) (out : list Z) : Prop := mk_windowed {
  wd_wf : wf h;
  wd_W : window_sz2 h = W;
  wd_L : lookahead_sz2 h = L;
  wd_head : head_index h = Z.of_nat (length out);
  wd_fit : Z.of_nat (length out) <= 2 ^ W;
  wd_window : forall j, (j < length out)%nat ->
    buffers h !! (Z.to_nat (input_buffer_size h) + j)%nat = Some (out !!! j)
}.

(** The caller's buffer holds [out]. *)
Record emitted (oi : output_info) (out : list Z) : Prop := mk_emitted {
  em_out : polled oi = out;
  em_oi : oi_ok oi;
  em_small : buf_size oi <= 65535
}.

Lemma emitted_size oi out : emitted oi out -> output_size oi = Z.of_nat (length out).
Proof.
  intros [Hp [Hl Hpos Hu] _]. rewrite <- Hp. unfold polled.
  rewrite length_take. lia.
Qed.

Lemma pow_W_dec : 16 <= 2 ^ W <= 32768.
Proof. apply pow_window. exact HW. Qed.

Lemma window_mask x :
  0 <= x < 2 ^ W -> Z.land x (u16 (Z.shiftl 1 W - 1)) = x.
Proof.
  intros Hx. pose proof pow_W_dec.
  rewrite shiftl_1_pow, u16_small by lia.
  replace (2 ^ W - 1) with (Z.ones W) by (rewrite Z.ones_equiv; lia).
  rewrite Z.land_ones by lia. apply Z.mod_small. lia.
Qed.

(** A byte stored at the head of the window. *)
Definition put (h : heatshrink_decoder) (c : Z) : heatshrink_decoder :=
  set_head_index (u16 (head_index h + 1))
    (set_buffers
       (<[Z.to_nat (input_buffer_size h + head_index h) := c]> (buffers h)) h).

Lemma unread_put h c : wf h -> 0 <= head_index h -> unread (put h c) = unread h.
Proof.
  intros [] Hh. unfold unread, put. dsimpl.
  rewrite drop_insert_ge by lia. apply take_insert_ge. lia.
Qed.

Lemma put_windowed h out c :
  windowed h out -> Z.of_nat (length out) < 2 ^ W ->
  window_write h (Z.land (head_index h) (u16 (Z.shiftl 1 W - 1))) c
  = Ret (set_buffers
           (<[Z.to_nat (input_buffer_size h + head_index h) := c]> (buffers h)) h)
  /\ windowed (put h c) (out ++ [c]) /\ dbits (put h c) = dbits h.
Proof.
  intros [Hwf HeW HeL Hhead Hfit Hwin] Hlt. pose proof pow_W_dec as HpW.
  rewrite (window_mask (head_index h)) by lia.
  split; [|split].
  - unfold window_write. destruct Hwf.
    rewrite bool_decide_true; [reflexivity|].
    rewrite shiftl_1_pow by lia. rewrite HeW in *. lia.
  - destruct Hwf. unfold put.
    constructor; dsimpl; try assumption.
    + constructor; dsimpl; rewrite ?length_insert; assumption.
    + rewrite length_app, u16_small by lia. cbn [length]. lia.
    + rewrite length_app. cbn [length]. lia.
    + intros j Hj. rewrite length_app in Hj. cbn [length] in Hj.
      rewrite Hhead.
      replace (Z.to_nat (input_buffer_size h + Z.of_nat (length out)))
        with (Z.to_nat (input_buffer_size h) + length out)%nat by lia.
      destruct (Nat.eq_dec j (length out)) as [->|Hne].
      * rewrite list_lookup_insert_eq by (rewrite HeW in *; lia).
        rewrite lookup_total_app_r, Nat.sub_diag by lia. reflexivity.
      * rewrite list_lookup_insert_ne by lia.
        rewrite lookup_total_app_l by lia. apply Hwin. lia.
  - unfold dbits. rewrite unread_put by (assumption || lia). reflexivity.
Qed.

Lemma push_emitted oi out c :
  emitted oi out -> Z.of_nat (length out) < buf_size oi ->
  exists oi1,
    push_out oi c = Ret oi1 /\ emitted oi1 (out ++ [c]) /\
    buf_size oi1 = buf_size oi.
Proof.
  intros Hem Hlt. pose proof (emitted_size _ _ Hem) as Hsz.
  destruct Hem as [Hp Hoi Hs].
  destruct (push_out_ok oi c Hoi ltac:(lia)) as (oi1 & E & _).
  exists oi1. split; [exact E|].
  apply polled_push in E; [|assumption|lia|lia].
  destruct E as (E1 & E2 & E3 & E4).
  split; [|exact E3]. constructor; [congruence|assumption|lia].
Qed.

Record decoding (h : heatshrink_decoder) (oi : output_info) (out : list Z)
  : Prop := mk_decoding {
  dc_win : windowed h out;
  dc_em : emitted oi out;
  dc_acc : bit_accumulator h = 0;
  dc_part : nbits (bit_index h) <= 7
}.

Lemma windowed_reads h h' out :
  windowed h out -> wf h' -> reads_only h h' -> windowed h' out.
Proof.
  intros [Hwf HeW HeL Hhead Hfit Hwin] Hwf'
    [(FW & FL & Fibs & Flen) Fbuf Fst Fhead Fc Fi].
  constructor; try assumption; try congruence.
  intros j Hj. rewrite Fbuf, Fibs. auto.
Qed.

Lemma wf_set_state s h : wf h -> wf (set_state s h).
Proof. intros []. constructor; dsimpl; assumption. Qed.

Lemma windowed_set_state s h out : windowed h out -> windowed (set_state s h) out.
Proof.
  intros [Hwf HeW HeL Hhead Hfit Hwin].
  constructor; dsimpl; try assumption. apply wf_set_state. assumption.
Qed.

(** The copy loop of a back-reference whose source is among the bytes
    put out, with room for all of it. *)
Lemma copy_loop d n : forall h oi out,
  windowed h out -> emitted oi out -> 1 <= d <= Z.of_nat (length out) ->
  Z.of_nat (length out) + Z.of_nat n <= 2 ^ W ->
  Z.of_nat (length out) + Z.of_nat n <= buf_size oi ->
  exists h' oi',
    yield_backref_loop n d (u16 (Z.shiftl 1 W - 1)) h oi = Ret (h', oi') /\
    windowed h' (copy_back n d out) /\ emitted oi' (copy_back n d out) /\
    dbits h' = dbits h /\ bit_accumulator h' = bit_accumulator h /\
    bit_index h' = bit_index h /\ output_count h' = output_count h /\
    input_size h' = input_size h /\ buf_size oi' = buf_size oi.
Proof.
  induction n as [|n IH]; intros h oi out Hwin Hem Hd Hfit Hroom.
  - exists h, oi. cbn [yield_backref_loop copy_back]. auto 10.
  - cbn [yield_backref_loop copy_back].
    pose proof Hwin as [Hwf HeW HeL Hhead _ Hcontent].
    pose proof pow_W_dec as HpW.
    set (c := out !!! Z.to_nat (Z.of_nat (length out) - d)).
    assert (Er : window_read h (Z.land (head_index h - d) (u16 (Z.shiftl 1 W - 1)))
                 = Ret c).
    { rewrite window_mask by lia. unfold window_read.
      rewrite bool_decide_true by (rewrite HeW, shiftl_1_pow; lia).
      destruct Hwf.
      replace (Z.to_nat (input_buffer_size h + (head_index h - d)))
        with (Z.to_nat (input_buffer_size h)
              + Z.to_nat (Z.of_nat (length out) - d))%nat by lia.
      rewrite Hcontent by lia. reflexivity. }
    rewrite Er. dsimpl. unfold push_byte.
    destruct (push_emitted oi out c Hem ltac:(lia)) as (oi1 & Ep & Hem1 & Hbs1).
    rewrite Ep. dsimpl.
    destruct (put_windowed h out c Hwin ltac:(lia)) as (Ew & Hwin1 & Hd1).
    rewrite Ew. dsimpl.
    destruct (IH (put h c) oi1 (out ++ [c]) Hwin1 Hem1)
      as (h' & oi' & E & Hwin' & Hem' & Hd' & Fa & Fb & Fc & Fs & Fbs).
    { rewrite length_app. cbn [length]. lia. }
    { rewrite length_app. cbn [length]. lia. }
    { rewrite length_app, Hbs1. cbn [length]. lia. }
    exists h', oi'. split; [exact E|].
    split; [assumption|]. split; [assumption|].
    split; [congruence|]. unfold put in Fa, Fb, Fc, Fs. dsimpl.
    repeat (split; [assumption|]). congruence.
Qed.

(** *** One turn of the poll loop in each state *)

Lemma step_tag h oi out b rest :
  decoding h oi out -> state h = HSDS_INPUT_AVAILABLE -> dbits h = b :: rest ->
  exists h',
    poll_step h oi
    = Ret (set_state (if b : bool then HSDS_YIELD_LITERAL
                      else HSDS_BACKREF_INDEX) h', oi, None) /\
    decoding h' oi out /\ dbits h' = rest.
Proof.
  intros [Hwin Hem Hacc Hpart] Hst Hd.
  destruct (get_bits_dbits h 1 [b] rest (wd_wf _ _ Hwin) Hd eq_refl
              ltac:(lia) Hacc) as (h1 & E & Hwf1 & Hro1 & Hd1 & Ha1 & Hn1).
  exists h1. split; [|split; [|exact Hd1]].
  - unfold poll_step. rewrite Hst. unfold st_input_available.
    rewrite E. dsimpl. destruct b; cbn [bits_val fold_left Z.b2z Z.mul Z.add
                                        Z.eqb];
      dsimpl; rewrite bool_decide_false by discriminate; reflexivity.
  - constructor; try assumption. eapply windowed_reads; eassumption.
Qed.

Lemma byte_bits_val c : 0 <= c < 256 -> bits_val (byte_bits c) = c.
Proof.
  intros Hc. rewrite byte_bits_field, bits_val_field.
  apply Z.mod_small. cbn. lia.
Qed.

Lemma step_literal_byte h oi out c rest :
  decoding h oi out -> state h = HSDS_YIELD_LITERAL ->
  dbits h = byte_bits c ++ rest -> 0 <= c < 256 ->
  Z.of_nat (length out) < 2 ^ W -> Z.of_nat (length out) < buf_size oi ->
  exists h' oi',
    poll_step h oi = Ret (set_state HSDS_CHECK_FOR_MORE_INPUT h', oi', None) /\
    decoding h' oi' (out ++ [c]) /\ dbits h' = rest /\
    buf_size oi' = buf_size oi.
Proof.
  intros [Hwin Hem Hacc Hpart] Hst Hd Hc Hlt Hroom.
  pose proof (emitted_size _ _ Hem) as Hsz.
  destruct (get_bits_dbits h 8 (byte_bits c) rest (wd_wf _ _ Hwin) Hd eq_refl
              ltac:(lia) Hacc) as (h1 & E & Hwf1 & Hro1 & Hd1 & Ha1 & Hn1).
  rewrite byte_bits_val in E by assumption.
  pose proof (windowed_reads _ _ _ Hwin Hwf1 Hro1) as Hwin1.
  destruct (put_windowed h1 out c Hwin1 Hlt) as (Ew & Hwin2 & Hd2).
  destruct (push_emitted oi out c Hem Hroom) as (oi1 & Ep & Hem1 & Hbs1).
  exists (put h1 c), oi1. split; [|split; [|split; [congruence|exact Hbs1]]].
  - unfold poll_step. rewrite Hst. unfold st_yield_literal.
    rewrite (proj2 (Z.ltb_lt _ _)) by lia. rewrite E. dsimpl.
    destruct (Z.eqb_spec c NO_BITS) as [Hno|_];
      [unfold NO_BITS in Hno; lia|].
    assert (Hland : Z.land c 255 = c).
    { change 255 with (Z.ones 8). rewrite Z.land_ones by lia.
      apply Z.mod_small. cbn. lia. }
    rewrite Hland, (wd_W _ _ Hwin1), Ew. dsimpl.
    unfold push_byte. rewrite Ep. dsimpl.
    rewrite bool_decide_false by discriminate. reflexivity.
  - constructor; try assumption; unfold put; dsimpl; assumption.
Qed.

Lemma field_val k v :
  0 <= v < 2 ^ Z.of_nat k -> bits_val (field_bits k v) = v.
Proof. intros Hv. rewrite bits_val_field. apply Z.mod_small. exact Hv. Qed.

Lemma step_index h oi out d rest :
  decoding h oi out -> state h = HSDS_BACKREF_INDEX ->
  dbits h = field_bits (Z.to_nat W) (d - 1) ++ rest -> 1 <= d <= 2 ^ W ->
  exists h',
    poll_step h oi
    = Ret (set_state HSDS_BACKREF_COUNT (set_output_index d h'), oi, None) /\
    decoding h' oi out /\ dbits h' = rest.
Proof.
  intros [Hwin Hem Hacc Hpart] Hst Hd Hrange.
  pose proof pow_W_dec as HpW.
  destruct (get_bits_dbits h W (field_bits (Z.to_nat W) (d - 1)) rest
              (wd_wf _ _ Hwin) Hd ltac:(rewrite field_bits_length; lia)
              ltac:(lia) Hacc)
    as (h1 & E & Hwf1 & Hro1 & Hd1 & Ha1 & Hn1).
  rewrite field_val in E by (rewrite Z2Nat.id; lia).
  exists h1. split; [|split; [|exact Hd1]].
  - unfold poll_step. rewrite Hst.
    unfold st_backref_index, BACKREF_INDEX_BITS.
    rewrite (wd_W _ _ Hwin), E. dsimpl.
    destruct (Z.eqb_spec (d - 1) NO_BITS) as [Hno|_];
      [unfold NO_BITS in Hno; lia|].
    dsimpl. rewrite bool_decide_false by discriminate.
    replace (d - 1 + 1) with d by lia. rewrite u16_small by lia. reflexivity.
  - constructor; try assumption. eapply windowed_reads; eassumption.
Qed.

Lemma step_count h oi out n rest :
  decoding h oi out -> state h = HSDS_BACKREF_COUNT ->
  dbits h = field_bits (Z.to_nat L) (n - 1) ++ rest -> 1 <= n <= 2 ^ L ->
  exists h',
    poll_step h oi
    = Ret (set_state HSDS_YIELD_BACKREF (set_output_count n h'), oi, None) /\
    decoding h' oi out /\ dbits h' = rest /\
    output_index h' = output_index h.
Proof.
  intros [Hwin Hem Hacc Hpart] Hst Hd Hrange.
  pose proof (pow_bits L 3 15 ltac:(lia) ltac:(lia)) as HpL. cbn in HpL.
  destruct (get_bits_dbits h L (field_bits (Z.to_nat L) (n - 1)) rest
              (wd_wf _ _ Hwin) Hd ltac:(rewrite field_bits_length; lia)
              ltac:(lia) Hacc)
    as (h1 & E & Hwf1 & Hro1 & Hd1 & Ha1 & Hn1).
  rewrite field_val in E by (rewrite Z2Nat.id; lia).
  exists h1. split; [|split; [|split; [exact Hd1|apply Hro1]]].
  - unfold poll_step. rewrite Hst.
    unfold st_backref_count, BACKREF_COUNT_BITS.
    rewrite (wd_L _ _ Hwin), E. dsimpl.
    destruct (Z.eqb_spec (n - 1) NO_BITS) as [Hno|_];
      [unfold NO_BITS in Hno; lia|].
    dsimpl. rewrite bool_decide_false by discriminate.
    replace (n - 1 + 1) with n by lia. rewrite u16_small by lia. reflexivity.
  - constructor; try assumption. eapply windowed_reads; eassumption.
Qed.

Lemma step_copy h oi out :
  decoding h oi out -> state h = HSDS_YIELD_BACKREF ->
  1 <= output_index h <= Z.of_nat (length out) -> 1 <= output_count h ->
  Z.of_nat (length out) + output_count h <= 2 ^ W ->
  Z.of_nat (length out) + output_count h <= buf_size oi ->
  exists h' oi',
    poll_step h oi = Ret (set_state HSDS_CHECK_FOR_MORE_INPUT h', oi', None) /\
    decoding h' oi'
      (copy_back (Z.to_nat (output_count h)) (output_index h) out) /\
    dbits h' = dbits h /\ input_size h' = input_size h /\
    buf_size oi' = buf_size oi.
Proof.
  intros [Hwin Hem Hacc Hpart] Hst Hd Hn Hfit Hroom.
  pose proof (emitted_size _ _ Hem) as Hsz. pose proof pow_W_dec as HpW.
  pose proof (em_small _ _ Hem) as Hsm.
  destruct (copy_loop (output_index h) (Z.to_nat (output_count h)) h oi out
              Hwin Hem Hd ltac:(lia) ltac:(lia))
    as (h1 & oi1 & E & Hwin1 & Hem1 & Hd1 & Fa & Fb & Fc & Fs & Fbs).
  exists (set_output_count 0 h1), oi1.
  split; [|split; [|split; [exact Hd1|split; [exact Fs|exact Fbs]]]].
  - unfold poll_step. rewrite Hst. unfold st_yield_backref.
    rewrite usize_small by lia.
    destruct (Z.gtb_spec (buf_size oi - output_size oi) 0); [|lia].
    destruct (Z.ltb_spec (output_count h) (buf_size oi - output_size oi)).
    + rewrite (wd_W _ _ Hwin), E. dsimpl. rewrite Fc, Z.sub_diag.
      change (u16 0) with 0. cbn [Z.eqb]. dsimpl.
      rewrite bool_decide_false by discriminate. reflexivity.
    + replace (buf_size oi - output_size oi) with (output_count h) by lia.
      rewrite (wd_W _ _ Hwin), E. dsimpl. rewrite Fc, Z.sub_diag.
      change (u16 0) with 0. cbn [Z.eqb]. dsimpl.
      rewrite bool_decide_false by discriminate. reflexivity.
  - destruct Hwin1 as [Hwf1 ? ? ? ? ?]. destruct Hwf1.
    constructor; dsimpl; try congruence; try assumption.
    constructor; dsimpl; try assumption. constructor; dsimpl; assumption.
Qed.

(** *** Turns of the poll loop that go on *)

Inductive decoder_runs : heatshrink_decoder -> output_info ->
    heatshrink_decoder -> output_info -> Prop :=
  | decoder_runs_refl h oi : decoder_runs h oi h oi
  | decoder_runs_step h oi h1 oi1 h2 oi2 :
      poll_step h oi = Ret (h1, oi1, None) ->
      decoder_runs h1 oi1 h2 oi2 -> decoder_runs h oi h2 oi2.

Lemma decoder_runs_trans h oi h1 oi1 h2 oi2 :
  decoder_runs h oi h1 oi1 -> decoder_runs h1 oi1 h2 oi2 ->
  decoder_runs h oi h2 oi2.
Proof. induction 1; [auto|]. intros. eapply decoder_runs_step; eauto. Qed.

Lemma decoder_poll_more_fuel fuel : forall h oi r,
  poll_loop fuel h oi = Ret r ->
  forall fuel', (fuel <= fuel')%nat -> poll_loop fuel' h oi = Ret r.
Proof.
  induction fuel as [|fuel IH]; intros h oi r H fuel' Hle; [discriminate|].
  destruct fuel' as [|fuel']; [lia|]. cbn [poll_loop] in *.
  destruct (poll_step h oi) as [[[h1 oi1] [res|]]| |]; dsimpl;
    try discriminate; [exact H|].
  apply (IH _ _ _ H). lia.
Qed.

Lemma decoder_runs_poll h oi h1 oi1 :
  decoder_runs h oi h1 oi1 ->
  forall fuel r, poll_loop fuel h1 oi1 = Ret r ->
  exists fuel0, poll_loop fuel0 h oi = Ret r.
Proof.
  induction 1 as [|h oi h1 oi1 h2 oi2 Hs _ IH]; intros fuel r Hr; [eauto|].
  destruct (IH _ _ Hr) as [f0 Hf0]. exists (S f0).
  cbn [poll_loop]. rewrite Hs. dsimpl. exact Hf0.
Qed.

Lemma decoding_set_state s h oi out :
  decoding h oi out -> decoding (set_state s h) oi out.
Proof.
  intros [Hwin Hem Hacc Hpart]. constructor; dsimpl; try assumption.
  apply windowed_set_state. assumption.
Qed.

Lemma decoding_set_output_index v h oi out :
  decoding h oi out -> decoding (set_output_index v h) oi out.
Proof.
  intros [[Hwf HeW HeL Hhead Hfit Hwin] Hem Hacc Hpart].
  constructor; dsimpl; try assumption.
  constructor; dsimpl; try assumption.
  destruct Hwf. constructor; dsimpl; assumption.
Qed.

Lemma decoding_set_output_count v h oi out :
  decoding h oi out -> decoding (set_output_count v h) oi out.
Proof.
  intros [[Hwf HeW HeL Hhead Hfit Hwin] Hem Hacc Hpart].
  constructor; dsimpl; try assumption.
  constructor; dsimpl; try assumption.
  destruct Hwf. constructor; dsimpl; assumption.
Qed.

(** From [HSDS_INPUT_AVAILABLE] to [HSDS_CHECK_FOR_MORE_INPUT]: one
    symbol. *)
Lemma decode_symbol h oi out s rest :
  decoding h oi out -> state h = HSDS_INPUT_AVAILABLE ->
  dbits h = symbol_bits W L s ++ rest ->
  valid_symbol W L (Z.of_nat (length out)) s ->
  Z.of_nat (length (expand_symbol out s)) <= 2 ^ W ->
  Z.of_nat (length (expand_symbol out s)) <= buf_size oi ->
  exists h' oi',
    decoder_runs h oi h' oi' /\ state h' = HSDS_CHECK_FOR_MORE_INPUT /\
    decoding h' oi' (expand_symbol out s) /\ dbits h' = rest /\
    buf_size oi' = buf_size oi.
Proof.
  intros Hdec Hst Hd Hv Hfit Hroom.
  destruct s as [c|d n]; cbn [symbol_bits expand_symbol valid_symbol] in *.
  - rewrite length_app in Hfit, Hroom. cbn [length] in Hfit, Hroom.
    destruct (step_tag h oi out true _ Hdec Hst Hd) as (h1 & E1 & Hdec1 & Hd1).
    destruct (step_literal_byte (set_state HSDS_YIELD_LITERAL h1) oi out c rest
                (decoding_set_state _ _ _ _ Hdec1) eq_refl Hd1 Hv
                ltac:(lia) ltac:(lia))
      as (h2 & oi2 & E2 & Hdec2 & Hd2 & Hbs2).
    exists (set_state HSDS_CHECK_FOR_MORE_INPUT h2), oi2.
    split; [eapply decoder_runs_step; [exact E1|];
            eapply decoder_runs_step; [exact E2|apply decoder_runs_refl]|].
    split; [reflexivity|].
    split; [apply decoding_set_state; assumption|]. auto.
  - rewrite copy_back_length in Hfit, Hroom.
    destruct Hv as (Hd_range & HdW & Hn_range).
    cbn [app] in Hd. rewrite <- app_assoc in Hd.
    destruct (step_tag h oi out false _ Hdec Hst Hd) as (h1 & E1 & Hdec1 & Hd1).
    destruct (step_index (set_state HSDS_BACKREF_INDEX h1) oi out d _
                (decoding_set_state _ _ _ _ Hdec1) eq_refl Hd1 ltac:(lia))
      as (h2 & E2 & Hdec2 & Hd2).
    destruct (step_count
                (set_state HSDS_BACKREF_COUNT (set_output_index d h2)) oi out
                n rest
                (decoding_set_state _ _ _ _
                   (decoding_set_output_index d _ _ _ Hdec2))
                eq_refl Hd2 Hn_range)
      as (h3 & E3 & Hdec3 & Hd3 & Hi3).
    dsimpl.
    destruct (step_copy
                (set_state HSDS_YIELD_BACKREF (set_output_count n h3)) oi out
                (decoding_set_state _ _ _ _
                   (decoding_set_output_count n _ _ _ Hdec3))
                eq_refl)
      as (h4 & oi4 & E4 & Hdec4 & Hd4 & _ & Hbs4); dsimpl; try lia.
    rewrite Hi3 in Hdec4.
    exists (set_state HSDS_CHECK_FOR_MORE_INPUT h4), oi4.
    split.
    { eapply decoder_runs_step; [exact E1|].
      eapply decoder_runs_step; [exact E2|].
      eapply decoder_runs_step; [exact E3|].
      eapply decoder_runs_step; [exact E4|apply decoder_runs_refl]. }
    split; [reflexivity|].
    split; [apply decoding_set_state; assumption|].
    split; [|exact Hbs4]. rewrite <- Hd3. exact Hd4.
Qed.

(** The bits left are those of [bits_left]. *)
Lemma dbits_length h :
  wf h -> Z.of_nat (length (dbits h)) = bits_left h.
Proof.
  intros []. unfold dbits, unread, bits_left.
  pose proof (nbits_range _ wf_mask0) as Hnb.
  pose proof (pow_window _ wf_window0) as Hp.
  assert (Hcat : forall l : list Z,
             length (concat (map byte_bits l)) = (8 * length l)%nat).
  { induction l as [|c l IH]; [reflexivity|]. cbn [map concat].
    rewrite length_app, IH. cbn [length byte_bits]. lia. }
  rewrite length_app, length_drop, Hcat, length_take, length_drop.
  cbn [byte_bits length]. lia.
Qed.

Lemma check_more h oi out :
  decoding h oi out -> state h = HSDS_CHECK_FOR_MORE_INPUT ->
  (8 <= length (dbits h))%nat ->
  poll_step h oi = Ret (set_state HSDS_INPUT_AVAILABLE h, oi, None).
Proof.
  intros [Hwin Hem Hacc Hpart] Hst Hlen.
  pose proof (dbits_length h (wd_wf _ _ Hwin)) as Hl. unfold bits_left in Hl.
  unfold poll_step. rewrite Hst. unfold st_check_for_input. dsimpl.
  destruct (Z.eqb_spec (input_size h) 0) as [Hz|_].
  - destruct (wd_wf _ _ Hwin). lia.
  - dsimpl. rewrite bool_decide_false by discriminate. reflexivity.
Qed.

Lemma check_done h oi out :
  decoding h oi out -> state h = HSDS_CHECK_FOR_MORE_INPUT ->
  (length (dbits h) <= 7)%nat ->
  poll_loop 2 h oi = Ret (HSDR_POLL_EMPTY, set_state HSDS_EMPTY h, oi).
Proof.
  intros [Hwin Hem Hacc Hpart] Hst Hlen.
  pose proof (dbits_length h (wd_wf _ _ Hwin)) as Hl. unfold bits_left in Hl.
  assert (E1 : poll_step h oi = Ret (set_state HSDS_EMPTY h, oi, None)).
  { unfold poll_step. rewrite Hst. unfold st_check_for_input. dsimpl.
    destruct (Z.eqb_spec (input_size h) 0) as [_|Hnz].
    - dsimpl. rewrite bool_decide_false by discriminate. reflexivity.
    - exfalso. destruct (wd_wf _ _ Hwin).
      pose proof (nbits_range _ wf_mask0).
      destruct (Z.eq_dec (input_index h) (input_size h)) as [Heq|];
        [apply wf_unread0 in Heq; contradiction|lia]. }
  cbn [poll_loop]. rewrite E1. dsimpl. unfold poll_step. dsimpl. reflexivity.
Qed.

(** The symbols of a stream, decoded to the end of the input. *)
Lemma decode_stream ss : forall h oi out pad,
  decoding h oi out -> state h = HSDS_CHECK_FOR_MORE_INPUT ->
  dbits h = stream_bits W L ss ++ pad -> (length pad <= 7)%nat ->
  valid_from W L out ss ->
  Z.of_nat (length (fold_left expand_symbol ss out)) <= 2 ^ W ->
  Z.of_nat (length (fold_left expand_symbol ss out)) <= buf_size oi ->
  exists fuel h' oi',
    poll_loop fuel h oi = Ret (HSDR_POLL_EMPTY, h', oi') /\
    state h' = HSDS_EMPTY /\ emitted oi' (fold_left expand_symbol ss out).
Proof.
  induction ss as [|s ss IH]; intros h oi out pad Hdec Hst Hd Hpad Hv Hfit Hroom.
  - cbn in Hd. exists 2%nat, (set_state HSDS_EMPTY h), oi.
    split; [eapply check_done; [exact Hdec|exact Hst|rewrite Hd; exact Hpad]|].
    split; [reflexivity|]. cbn. apply (dc_em _ _ _ Hdec).
  - unfold stream_bits in Hd. cbn [map concat] in Hd.
    fold (stream_bits W L ss) in Hd. rewrite <- app_assoc in Hd.
    destruct Hv as [Hv1 Hv2]. cbn [fold_left] in *.
    pose proof (expand_from_grows ss (expand_symbol out s)) as Hg.
    assert (E0 : poll_step h oi
                 = Ret (set_state HSDS_INPUT_AVAILABLE h, oi, None)).
    { apply (check_more h oi out Hdec Hst). rewrite Hd, length_app.
      pose proof (symbol_bits_length W L s ltac:(lia) ltac:(lia)) as Hsl.
      destruct s; lia. }
    destruct (decode_symbol (set_state HSDS_INPUT_AVAILABLE h) oi out s _
                (decoding_set_state _ _ _ _ Hdec) eq_refl Hd Hv1
                ltac:(lia) ltac:(lia))
      as (h1 & oi1 & R & Hst1 & Hdec1 & Hd1 & Hbs1).
    destruct (IH h1 oi1 _ pad Hdec1 Hst1 Hd1 Hpad Hv2 Hfit
                ltac:(rewrite Hbs1; exact Hroom))
      as (fuel & h' & oi' & E & Hs' & Hp').
    destruct (decoder_runs_poll _ _ _ _
                (decoder_runs_step _ _ _ _ _ _ E0 R) _ _ E) as [fuel0 Hf].
    exists fuel0, h', oi'. auto.
Qed.

(** A fresh decoder after the whole stream is sunk. *)
Lemma sink_fresh ibs C h0 :
  heatshrink_decoder_alloc ibs W L = Some h0 ->
  1 <= Z.of_nat (length C) <= ibs -> ibs <= 65535 ->
  exists h1,
    heatshrink_decoder_sink h0 C = Ret (HSDR_SINK_OK, Z.of_nat (length C), h1) /\
    state h1 = HSDS_INPUT_AVAILABLE /\
    dbits h1 = concat (map byte_bits C) /\
    forall oi, emitted oi [] -> decoding h1 oi [].
Proof.
  intros Ha HC Hibs. pose proof pow_W_dec as HpW.
  unfold heatshrink_decoder_alloc in Ha.
  rewrite u16_small, !u8_small in Ha by lia.
  destruct (_ || _) in Ha; [discriminate|]. injection Ha as <-.
  unfold heatshrink_decoder_sink, heatshrink_decoder_reset, input_memcpy.
  dsimpl. rewrite Z.sub_0_r, usize_small by lia.
  destruct (Z.eqb_spec ibs 0); [lia|].
  destruct (Z.ltb_spec ibs (Z.of_nat (length C))); [lia|].
  rewrite Nat2Z.id, firstn_all, length_replicate, shiftl_1_pow by lia.
  rewrite bool_decide_true by lia. dsimpl.
  rewrite bool_decide_true by reflexivity.
  rewrite !u16_small by lia.
  eexists. split; [reflexivity|]. split; [reflexivity|].
  cbn [Z.to_nat take drop app Nat.add Z.add].
  split.
  - unfold dbits, unread. dsimpl.
    change (Z.to_nat (8 - nbits 0)) with 8%nat.
    cbn [byte_bits drop app]. rewrite Z.sub_0_r.
    change (Z.to_nat 0) with 0%nat. cbn [take drop app Nat.add].
    rewrite Z.add_0_l, Nat2Z.id, take_0, drop_0. cbn [app].
    rewrite take_app_length. reflexivity.
  - intros oi Hem. constructor; dsimpl; [|assumption|reflexivity|vm_compute; discriminate].
    constructor; dsimpl; try reflexivity; try lia.
    + constructor; dsimpl; try lia.
      * unfold mask_ok. tauto.
      * rewrite !length_app, length_take, length_drop, length_replicate. lia.
    + cbn. lia.
    + intros j Hj. cbn in Hj. lia.
Qed.

Lemma alloc_some ibs :
  1 <= ibs <= 65535 -> exists h0, heatshrink_decoder_alloc ibs W L = Some h0.
Proof.
  intros Hibs. unfold heatshrink_decoder_alloc, HEATSHRINK_MIN_WINDOW_BITS,
    HEATSHRINK_MAX_WINDOW_BITS, HEATSHRINK_MIN_LOOKAHEAD_BITS.
  rewrite u16_small, !u8_small by lia.
  destruct (Z.ltb_spec W 4); [lia|]. destruct (Z.gtb_spec W 15); [lia|].
  destruct (Z.eqb_spec ibs 0); [lia|]. destruct (Z.ltb_spec L 3); [lia|].
  destruct (Z.gtb_spec L W); [lia|]. cbn [orb]. eauto.
Qed.

(** The round of the driver on a stream of valid symbols with fewer than
    8 bits of padding, when the input region takes the stream whole and
    the bytes put out fit the window: the bytes polled are those the
    symbols stand for. *)
Lemma expand_once_stream ibs C ss pad n :
  1 <= Z.of_nat (length C) <= ibs -> ibs <= 65535 ->
  concat (map byte_bits C) = stream_bits W L ss ++ pad ->
  (length pad <= 7)%nat -> valid_stream W L ss ->
  Z.of_nat (length (expand ss)) = n -> 1 <= n <= 2 ^ W ->
  exists fuel0, forall fuel, (fuel0 <= fuel)%nat ->
    expand_once ibs W L C n fuel = Ret (Some (expand ss)).
Proof.
  intros HC Hibs Hbits Hpad Hval Hn Hrange. pose proof pow_W_dec as HpW.
  destruct (alloc_some ibs ltac:(lia)) as [h0 Ha].
  destruct (sink_fresh ibs C h0 Ha HC Hibs) as (h1 & Es & Hst1 & Hd1 & Hdec1).
  set (decomp := replicate (Z.to_nat (scratch_size n)) 0).
  assert (Hdiv : 0 <= n / 2 <= 16384)
    by (split; [apply Z.div_pos; lia | apply Z.div_le_upper_bound; lia]).
  assert (Hcap : n <= scratch_size n <= 65535) by (unfold scratch_size; lia).
  assert (Hbs : buf_size (new_output_info decomp) = scratch_size n).
  { cbn [new_output_info buf_size]. subst decomp.
    rewrite length_replicate. lia. }
  assert (Hem0 : emitted (new_output_info decomp) []).
  { constructor; [reflexivity|apply new_output_info_ok|lia]. }
  specialize (Hdec1 _ Hem0).
  destruct ss as [|s ss]; [cbn in Hn; lia|].
  unfold stream_bits in Hbits. cbn [map concat] in Hbits.
  fold (stream_bits W L ss) in Hbits. rewrite <- app_assoc in Hbits.
  pose proof (valid_stream_from W L (s :: ss) [] Hval) as [Hv1 Hv2].
  change (expand []) with (@nil Z) in Hv1, Hv2.
  change (expand (s :: ss))
    with (fold_left expand_symbol ss (expand_symbol [] s)) in *.
  pose proof (expand_from_grows ss (expand_symbol [] s)) as Hg.
  destruct (decode_symbol h1 _ [] s _ Hdec1 Hst1 ltac:(rewrite Hd1; exact Hbits)
              Hv1 ltac:(lia) ltac:(lia))
    as (h2 & oi2 & R & Hst2 & Hdec2 & Hd2 & Hbs2).
  destruct (decode_stream ss h2 oi2 _ pad Hdec2 Hst2 Hd2 Hpad Hv2
              ltac:(lia) ltac:(lia))
    as (fuel & h' & oi' & E & Hs' & Hem').
  destruct (decoder_runs_poll _ _ _ _ R _ _ E) as [fuel0 Hf].
  exists fuel0. intros fuel' Hle.
  pose proof (decoder_poll_more_fuel _ _ _ _ Hf _ Hle) as Hf'.
  pose proof (emitted_size _ _ Hem') as Hsz.
  unfold expand_once. rewrite Ha, Es. dsimpl. rewrite Z.eqb_refl. cbn [negb].
  unfold heatshrink_decoder_finish at 1. rewrite Hst1.
  unfold heatshrink_decoder_poll. fold decomp. rewrite Hf'. dsimpl.
  unfold heatshrink_decoder_finish. rewrite Hs'.
  destruct (Z.gtb_spec (output_size oi') 0); [|lia].
  destruct (Z.leb_spec (output_size oi') n); [|lia].
  cbn [andb]. rewrite (em_out _ _ Hem'). reflexivity.
Qed.

End Decode.

End DecoderBits.
(** * A window of input, compressed and expanded *)

Module RunFacts.
Import Bits.

Lemma encoder_alloc_some W L :
  4 <= W <= 15 -> 3 <= L <= W ->
  exists e0, Encoder.heatshrink_encoder_alloc false [] W L = Some e0.
Proof.
  intros HW HL.
  unfold Encoder.heatshrink_encoder_alloc, HEATSHRINK_MIN_WINDOW_BITS,
    HEATSHRINK_MAX_WINDOW_BITS, HEATSHRINK_MIN_LOOKAHEAD_BITS.
  rewrite !u8_small by lia.
  destruct (Z.ltb_spec W 4); [lia|]. destruct (Z.gtb_spec W 15); [lia|].
  destruct (Z.ltb_spec L 3); [lia|]. destruct (Z.gtb_spec L W); [lia|].
  cbn [orb]. eauto.
Qed.

(** The scratch arrays of the driver hold 11 bits for each byte of input
    and two bytes more. *)
Lemma scratch_fits n : 0 <= n -> 11 * n + 16 <= 8 * scratch_size n.
Proof.
  intros Hn. unfold scratch_size.
  pose proof (Z.mul_succ_div_gt n 2 ltac:(lia)). lia.
Qed.

Lemma scratch_small n : 0 <= n <= 32768 -> 0 < scratch_size n <= 65535.
Proof.
  intros Hn. unfold scratch_size.
  assert (0 <= n / 2 <= 16384)
    by (split; [apply Z.div_pos; lia | apply Z.div_le_upper_bound; lia]).
  lia.
Qed.

Lemma stream_bits_nil W L ss : stream_bits W L ss = [] -> ss = [].
Proof.
  destruct ss as [|s ss]; [reflexivity|].
  unfold stream_bits. cbn [map concat]. destruct s; discriminate.
Qed.

(** The two rounds of the driver, from a point the encoder's poll
    reaches in [HSES_SEARCH] with the symbols [ss0] written. *)
Lemma round_trip_from W L ibs X e0 e1 e2 e oi ss0 :
  4 <= W <= 15 -> 3 <= L <= W ->
  1 <= Z.of_nat (length X) <= 2 ^ W -> Forall (fun c => 0 <= c < 256) X ->
  scratch_size (Z.of_nat (length X)) <= ibs <= 65535 ->
  Encoder.heatshrink_encoder_alloc false [] W L = Some e0 ->
  Encoder.heatshrink_encoder_sink e0 X
  = (Encoder.HSER_SINK_OK, Some (Z.of_nat (length X)), e1) ->
  Encoder.heatshrink_encoder_finish e1 = (Encoder.HSER_FINISH_MORE, e2) ->
  EncoderBits.runs false e2
    (new_output_info
       (replicate (Z.to_nat (scratch_size (Z.of_nat (length X)))) 0)) e oi ->
  EncoderBits.searching W L X (scratch_size (Z.of_nat (length X))) e oi ss0 ->
  exists fuel0 C ss' pad,
    (forall fuel, (fuel0 <= fuel)%nat ->
       compress_once false [] W L X fuel = Ret (Some C) /\
       expand_once ibs W L C (Z.of_nat (length X)) fuel = Ret (Some X)) /\
    concat (map byte_bits C) = stream_bits W L (ss0 ++ ss') ++ pad /\
    (length pad <= 7)%nat.
Proof.
  intros HW HL Hn HX Hibs Ha Hsink Hfin R Hs.
  pose proof (scratch_fits (Z.of_nat (length X)) ltac:(lia)) as Hfits.
  destruct (EncoderBits.compress_once_from W L X _ HW HL ltac:(lia) HX Hfits
              e0 e1 e2 e oi ss0 Ha Hsink Hfin eq_refl R Hs)
    as (fuel0 & C & ss' & k & Hc & Hbits & Hk & Hex & Hval & Hlen).
  assert (HC : 1 <= Z.of_nat (length C)).
  { destruct C as [|c C]; [|cbn [length]; lia]. exfalso.
    cbn [map concat] in Hbits. symmetry in Hbits.
    apply app_eq_nil in Hbits. destruct Hbits as [Hnil _].
    apply stream_bits_nil in Hnil. rewrite Hnil in Hex.
    rewrite <- Hex in Hn. cbn in Hn. lia. }
  destruct (DecoderBits.expand_once_stream W L HW HL ibs C (ss0 ++ ss')
              (replicate k false) (Z.of_nat (length X)))
    as [fuel1 Hd]; try lia.
  - exact Hbits.
  - rewrite length_replicate. exact Hk.
  - exact Hval.
  - now rewrite Hex.
  - exists (Nat.max fuel0 fuel1), C, ss', (replicate k false).
    split; [|split; [exact Hbits|rewrite length_replicate; exact Hk]].
    intros fuel Hle. split; [apply Hc; lia|].
    rewrite (Hd fuel ltac:(lia)), Hex. reflexivity.
Qed.

(** X1. An input of 1 to [2^W] bytes comes back from the encoder and the
    decoder, for every valid (W, L), the case L = W included: sunk whole,
    finished and polled once into [n + n / 2 + 4] bytes, as the test
    driver does, it is compressed to bytes that a decoder with room for
    them expands, in one sink and one poll, to the input itself. *)
Theorem window_round_trip (W L ibs : Z) (X : list Z) :
  4 <= W <= 15 -> 3 <= L <= W ->
  1 <= Z.of_nat (length X) <= 2 ^ W -> Forall (fun c => 0 <= c < 256) X ->
  scratch_size (Z.of_nat (length X)) <= ibs <= 65535 ->
  exists fuel0 C,
    forall fuel, (fuel0 <= fuel)%nat ->
      compress_once false [] W L X fuel = Ret (Some C) /\
      expand_once ibs W L C (Z.of_nat (length X)) fuel = Ret (Some X).
Proof.
  intros HW HL Hn HX Hibs.
  pose proof (DecoderFacts.pow_window W HW) as HpW.
  pose proof (scratch_small (Z.of_nat (length X)) ltac:(lia)) as Hsm.
  destruct (encoder_alloc_some W L HW HL) as [e0 Ha].
  destruct (EncoderBits.first_turn W L X (scratch_size (Z.of_nat (length X)))
              HW HL ltac:(lia) e0
              (replicate (Z.to_nat (scratch_size (Z.of_nat (length X)))) 0)
              Ha ltac:(rewrite length_replicate; lia) ltac:(lia))
    as (e1 & e2 & Hsink & Hfin & E & Hs).
  destruct (round_trip_from W L ibs X e0 e1 e2 _ _ [] HW HL Hn HX Hibs
              Ha Hsink Hfin (EncoderBits.runs_one _ _ _ _ _ E) Hs)
    as (fuel0 & C & _ & _ & H & _).
  eauto.
Qed.

Lemma window_round_trip_witness :
  exists fuel0 C,
    forall fuel, (fuel0 <= fuel)%nat ->
      compress_once false [] 8 7 [97; 98; 99] fuel = Ret (Some C) /\
      expand_once 256 8 7 C 3 fuel = Ret (Some [97; 98; 99]).
Proof.
  apply (window_round_trip 8 7 256 [97; 98; 99]);
    try (vm_compute; split; discriminate).
  repeat constructor; lia.
Defined.

(** *** Runs of a single byte *)

(** The states a poll goes through, one for each turn of its loop. *)
Fixpoint poll_states (use_index : bool) (fuel : nat)
    (e : Encoder.heatshrink_encoder) (oi : output_info)
  : list Encoder.HEATSHRINK_ENCODER_STATE :=
  match fuel with
  | O => []
  | S fuel' =>
    Encoder.state e ::
    match Encoder.poll_step use_index e oi with
    | Ret (e1, oi1, None) => poll_states use_index fuel' e1 oi1
    | _ => []
    end
  end.

(** The encoder for (W, L) = (8, 7) after a sink of three bytes 0x61 and
    [finish]. *)
Definition three_copies_finished : Encoder.heatshrink_encoder :=
  (Encoder.heatshrink_encoder_finish
     (Encoder.heatshrink_encoder_sink
        (EncoderFacts.fresh_encoder false [] 8 7) [97; 97; 97]).2).2.

(** A run of three bytes.  After the literal for the first byte two
    bytes are left, and a match of two bytes is not above the break-even
    point of [find_longest_match]: the three bytes are written as three
    literals, the poll never enters [HSES_YIELD_BR_INDEX], and the output
    holds no back-reference. *)
Lemma three_copies_are_literals :
  compress_once false [] 8 7 [97; 97; 97] 64
  = Ret (Some [176; 216; 108; 32]) /\
  concat (map byte_bits [176; 216; 108; 32])
  = stream_bits 8 7 [Lit 97; Lit 97; Lit 97] ++ replicate 5 false /\
  forallb (fun s => negb (bool_decide (s = Encoder.HSES_YIELD_BR_INDEX)))
    (poll_states false 64 three_copies_finished
       (new_output_info (replicate 8 0))) = true /\
  length (poll_states false 64 three_copies_finished
            (new_output_info (replicate 8 0))) = 13%nat /\
  expand_once 256 8 7 [176; 216; 108; 32] 3 64 = Ret (Some [97; 97; 97]).
Proof. repeat split; vm_compute; reflexivity. Qed.

(** X19. Runs of four bytes or more that fit the window, in one round
    of the driver, for every valid (W, L).  The output is the literal
    for the first byte followed by a back-reference at distance 1 whose
    length, the rest of the run or [2 ^ L] if that is less, is 3 at
    least, and then the symbols for what is left; the decoder, copying
    one byte at a time, gives back the run. *)
Theorem run_uses_overlapping_backref (W L ibs b : Z) (n : nat) :
  4 <= W <= 15 -> 3 <= L <= W -> 0 <= b < 256 ->
  4 <= Z.of_nat n <= 2 ^ W ->
  scratch_size (Z.of_nat n) <= ibs <= 65535 ->
  exists fuel0 C ss pad,
    (forall fuel, (fuel0 <= fuel)%nat ->
       compress_once false [] W L (replicate n b) fuel = Ret (Some C) /\
       expand_once ibs W L C (Z.of_nat n) fuel = Ret (Some (replicate n b))) /\
    concat (map byte_bits C)
    = stream_bits W L
        (Lit b :: Ref 1 (Z.min (2 ^ L) (Z.of_nat n - 1)) :: ss) ++ pad /\
    (length pad <= 7)%nat /\
    1 < Z.min (2 ^ L) (Z.of_nat n - 1).
Proof.
  intros HW HL Hb Hn Hibs.
  set (X := replicate n b).
  assert (HlenX : length X = n) by apply length_replicate.
  assert (HX : Forall (fun c => 0 <= c < 256) X)
    by (apply Forall_replicate; exact Hb).
  assert (HXi : forall i, (i < n)%nat -> X !!! i = b)
    by (intros; apply lookup_total_replicate_2; assumption).
  pose proof (DecoderFacts.pow_window W HW) as HpW.
  pose proof (pow_bits L 3 15 ltac:(lia) ltac:(lia)) as HpL.
  change (2 ^ 3) with 8 in HpL.
  rewrite <- HlenX in Hn, Hibs |- *.
  set (cap := scratch_size (Z.of_nat (length X))) in *.
  pose proof (scratch_fits (Z.of_nat (length X)) ltac:(lia)) as Hfits.
  pose proof (scratch_small (Z.of_nat (length X)) ltac:(lia)) as Hsm.
  fold cap in Hfits, Hsm.
  destruct (encoder_alloc_some W L HW HL) as [e0 Ha].
  destruct (EncoderBits.first_turn W L X cap HW HL ltac:(lia) e0
              (replicate (Z.to_nat cap) 0)
              Ha ltac:(rewrite length_replicate; lia) ltac:(lia))
    as (e1 & e2 & Hsink & Hfin & E & Hs0).
  (* the first byte *)
  assert (Hm0 : Encoder.match_scan_index
                  (Encoder.set_state Encoder.HSES_SEARCH e2) = 0).
  { pose proof (EncoderBits.sr_expand _ _ _ _ _ _ _ Hs0) as Hex.
    pose proof (EncoderBits.sr_msi _ _ _ _ _ _ _ Hs0) as Hr.
    apply (f_equal length) in Hex. rewrite length_take in Hex.
    cbn [expand fold_left length] in Hex. lia. }
  destruct (EncoderBits.one_symbol W L X cap HW HL ltac:(lia) HX Hfits
              _ _ _ Hs0 ltac:(lia))
    as (ea & oia & s1 & R1 & Hs1 & _ & Hsym1).
  rewrite Hm0 in Hsym1.
  destruct Hsym1 as [[-> _]|(p & ml & _ & Hp & _)]; [|lia].
  rewrite HXi in Hs1 by lia. cbn [app] in Hs1.
  assert (Hm1 : Encoder.match_scan_index ea = 1).
  { pose proof (EncoderBits.sr_expand _ _ _ _ _ _ _ Hs1) as Hex.
    pose proof (EncoderBits.sr_msi _ _ _ _ _ _ _ Hs1) as Hr.
    apply (f_equal length) in Hex. rewrite length_take in Hex.
    cbn [expand fold_left expand_symbol length app] in Hex. lia. }
  (* the rest of the run, or its first [2 ^ L] bytes *)
  destruct (EncoderBits.one_symbol W L X cap HW HL ltac:(lia) HX Hfits
              _ _ _ Hs1 ltac:(lia))
    as (eb & oib & s2 & R2 & Hs2 & _ & Hsym2).
  rewrite Hm1 in Hsym2.
  set (maxlen := Z.min (2 ^ L) (Z.of_nat (length X) - 1)) in *.
  assert (Hmax : 3 <= maxlen) by (subst maxlen; lia).
  assert (Hfull : EncoderFacts.match_len_at (Encoder.buffer ea) (2 ^ W + 1)
                    maxlen (2 ^ W) maxlen).
  { split; [lia|]. split; [|lia]. intros i Hi.
    rewrite <- Z.add_assoc.
    rewrite !(EncoderBits.sr_buf _ _ _ _ _ _ _ Hs1) by lia.
    rewrite !HXi by lia. reflexivity. }
  destruct Hsym2 as [[_ Hno]|(p & ml & -> & Hp & Hml & Hat & _)].
  { specialize (Hno (2 ^ W) maxlen ltac:(lia) Hfull). lia. }
  assert (p = 2 ^ W) by lia. subst p.
  pose proof (EncoderFacts.match_len_at_unique _ _ _ _ _ _ Hat Hfull). subst ml.
  replace (2 ^ W + 1 - 2 ^ W) with 1 in Hs2 by lia. cbn [app] in Hs2.
  destruct (round_trip_from W L ibs X e0 e1 e2 eb oib _ HW HL ltac:(lia) HX
              Hibs Ha Hsink Hfin
              (EncoderBits.runs_step _ _ _ _ _ _ _ E
                 (EncoderBits.runs_trans _ _ _ _ _ _ _ R1 R2)) Hs2)
    as (fuel0 & C & ss' & pad & Hrt & Hbits & Hpad).
  exists fuel0, C, ss', pad. cbn [app] in Hbits.
  split; [exact Hrt|]. split; [exact Hbits|]. split; [exact Hpad|lia].
Qed.

Lemma run_uses_overlapping_backref_witness :
  exists fuel0 C ss pad,
    (forall fuel, (fuel0 <= fuel)%nat ->
       compress_once false [] 8 7 (replicate 5 97) fuel = Ret (Some C) /\
       expand_once 256 8 7 C (Z.of_nat 5) fuel = Ret (Some (replicate 5 97))) /\
    concat (map byte_bits C)
    = stream_bits 8 7
        (Lit 97 :: Ref 1 (Z.min (2 ^ 7) (Z.of_nat 5 - 1)) :: ss) ++ pad /\
    (length pad <= 7)%nat /\
    1 < Z.min (2 ^ 7) (Z.of_nat 5 - 1).
Proof.
  apply (run_uses_overlapping_backref 8 7 256 97 5);
    vm_compute; split; first [discriminate | reflexivity].
Defined.

(** The run of five bytes 0x61 at (W, L) = (8, 7): a literal and a
    back-reference of length 4 at distance 1. *)
Example five_copies :
  compress_once false [] 8 7 (replicate 5 97) 64 = Ret (Some [176; 128; 1; 128]) /\
  concat (map byte_bits [176; 128; 1; 128])
  = stream_bits 8 7 [Lit 97; Ref 1 4] ++ replicate 7 false /\
  expand_once 256 8 7 [176; 128; 1; 128] 5 64 = Ret (Some (replicate 5 97)).
Proof. repeat split; vm_compute; reflexivity. Qed.

End RunFacts.

(** * The calls of the encoder, one by one *)

Module EncoderCalls.
Import Encoder EncoderFacts.

(** The buffer of an encoder: [2 << window_sz2] bytes, the window and
    the input region after it. *)
Definition sized (e : heatshrink_encoder) : Prop :=
  Z.of_nat (length (buffer e)) = 2 * 2 ^ window_sz2 e.

Lemma blit_length (l : list Z) dst (src : list Z) :
  (Z.to_nat dst + length src <= length l)%nat ->
  length (blit l dst src) = length l.
Proof.
  intros H. unfold blit. rewrite !length_app, length_take, length_drop. lia.
Qed.

Lemma blit_empty (l : list Z) dst : blit l dst [] = l.
Proof.
  unfold blit. cbn [length app]. rewrite Nat.add_0_r. apply take_drop.
Qed.

(** What [sink] does to an encoder that takes input.  With a window of 15
    bits that is full the offset of the copy wraps to 0; nothing is
    copied then. *)
Lemma sink_accepts e in_buf :
  ewf e -> state e = HSES_NOT_FULL -> is_finishing e = 0 ->
  let room := 2 ^ window_sz2 e - input_size e in
  let n := Z.min room (Z.of_nat (length in_buf)) in
  heatshrink_encoder_sink e in_buf
  = (HSER_SINK_OK, Some n,
     let e2 := set_input_size (input_size e + n)
                 (set_buffer (blit (buffer e) (2 ^ window_sz2 e + input_size e)
                                (take (Z.to_nat n) in_buf)) e) in
     if n =? room then set_state HSES_FILLED e2 else e2).
Proof.
  intros Hwf Hst Hfin room n. unfold heatshrink_encoder_sink.
  rewrite Hfin, Hst. cbn [Z.eqb negb].
  rewrite bool_decide_true by reflexivity. cbn [negb].
  unfold get_input_offset. rewrite (input_buffer_size_eq e Hwf).
  pose proof (window_bounds e Hwf).
  assert (Hsz : 0 <= input_size e <= 2 ^ window_sz2 e) by (destruct Hwf; lia).
  rewrite (u16_small (2 ^ window_sz2 e - input_size e)) by lia.
  fold room.
  assert (Hn : (if room <? Z.of_nat (length in_buf) then room
                else Z.of_nat (length in_buf)) = n).
  { subst n. destruct (Z.ltb_spec room (Z.of_nat (length in_buf))); lia. }
  rewrite Hn. assert (0 <= n <= room) by (subst n room; lia).
  rewrite (u16_small n) by (subst room; lia). esimpl.
  rewrite (u16_small (input_size e + n)) by (subst room; lia).
  destruct (Z.eq_dec n 0) as [Hn0|Hn0].
  - rewrite Hn0. change (Z.to_nat 0) with 0%nat. rewrite take_0, !blit_empty.
    reflexivity.
  - rewrite (u16_small (2 ^ window_sz2 e + input_size e)) by (subst room; lia).
    reflexivity.
Qed.

(** X5. An encoder in [HSES_NOT_FULL] that is not finishing takes as
    many bytes as fit the input region, [min (2^W - input_size) size]:
    it copies them right behind the input it holds, leaves every other
    byte of its buffer alone, reports the count, and moves to
    [HSES_FILLED] exactly when the input region is full. *)
Theorem encoder_sink_takes_what_fits (e : heatshrink_encoder)
    (in_buf : list Z) :
  ewf e -> sized e -> state e = HSES_NOT_FULL -> is_finishing e = 0 ->
  let room := 2 ^ window_sz2 e - input_size e in
  let n := Z.min room (Z.of_nat (length in_buf)) in
  let off := 2 ^ window_sz2 e + input_size e in
  exists e',
    heatshrink_encoder_sink e in_buf = (HSER_SINK_OK, Some n, e') /\
    input_size e' = input_size e + n /\
    buffer e' = take (Z.to_nat off) (buffer e) ++ take (Z.to_nat n) in_buf
                ++ drop (Z.to_nat (off + n)) (buffer e) /\
    length (buffer e') = length (buffer e) /\
    state e' = (if n =? room then HSES_FILLED else HSES_NOT_FULL).
Proof.
  intros Hwf Hsized Hst Hfin room n off.
  rewrite (sink_accepts e in_buf Hwf Hst Hfin). fold room n off.
  pose proof (window_bounds e Hwf).
  assert (Hsz : 0 <= input_size e <= 2 ^ window_sz2 e) by (destruct Hwf; lia).
  assert (Hn : 0 <= n <= room /\ n <= Z.of_nat (length in_buf))
    by (subst n room; lia).
  assert (Hlen : length (take (Z.to_nat n) in_buf) = Z.to_nat n)
    by (rewrite length_take; lia).
  assert (Hbuf : blit (buffer e) off (take (Z.to_nat n) in_buf)
                 = take (Z.to_nat off) (buffer e) ++ take (Z.to_nat n) in_buf
                   ++ drop (Z.to_nat (off + n)) (buffer e)).
  { unfold blit. rewrite Hlen. do 3 f_equal. subst off. lia. }
  eexists; split; [reflexivity|].
  unfold sized in Hsized.
  destruct (n =? room); esimpl; rewrite Hbuf;
    (split; [reflexivity|]; split; [reflexivity|]; split; [|try assumption;
                                                             reflexivity]);
    rewrite !length_app, length_take, length_drop, Hlen; subst off room;
    clearbody n; lia.
Qed.

Lemma encoder_sink_takes_what_fits_witness :
  exists e',
    heatshrink_encoder_sink (fresh_encoder false [] 4 3) [1; 2; 3]
    = (HSER_SINK_OK, Some 3, e') /\
    input_size e' = 3 /\
    buffer e' = replicate 16 0 ++ [1; 2; 3] ++ replicate 13 0 /\
    length (buffer e') = 32%nat /\
    state e' = HSES_NOT_FULL.
Proof.
  assert (Hwf : ewf (fresh_encoder false [] 4 3))
    by (apply (alloc_ewf false [] 4 3); reflexivity).
  apply (encoder_sink_takes_what_fits (fresh_encoder false [] 4 3) [1; 2; 3]
           Hwf); reflexivity.
Defined.

Lemma blit_blit (l : list Z) (d : nat) (a c : list Z) :
  (d <= length l)%nat ->
  take (d + length a) (take d l ++ a ++ drop (d + length a) l) ++ c
  ++ drop (d + length a + length c) (take d l ++ a ++ drop (d + length a) l)
  = take d l ++ (a ++ c) ++ drop (d + length (a ++ c)) l.
Proof.
  intros Hd.
  assert (Ht : length (take d l) = d) by (rewrite length_take; lia).
  rewrite (app_assoc (take d l) a).
  rewrite (take_app_length' (take d l ++ a)) by (rewrite length_app, Ht; lia).
  replace (d + length a + length c)%nat
    with (length (take d l ++ a) + length c)%nat
    by (rewrite length_app, Ht; lia).
  rewrite drop_app_add' by reflexivity.
  rewrite drop_drop, length_app, <- !app_assoc, Nat.add_assoc. reflexivity.
Qed.

(** X6. Input may be handed over in pieces: when the first piece leaves
    room in the input region, sinking it and then a second piece leaves
    the encoder as one sink of the two pieces joined does, and the counts
    reported add up. *)
Theorem encoder_sink_in_pieces (e : heatshrink_encoder) (a b : list Z) :
  ewf e -> sized e -> state e = HSES_NOT_FULL -> is_finishing e = 0 ->
  Z.of_nat (length a) < 2 ^ window_sz2 e - input_size e ->
  exists n e1 e2,
    heatshrink_encoder_sink e a
    = (HSER_SINK_OK, Some (Z.of_nat (length a)), e1) /\
    heatshrink_encoder_sink e1 b = (HSER_SINK_OK, Some n, e2) /\
    heatshrink_encoder_sink e (a ++ b)
    = (HSER_SINK_OK, Some (Z.of_nat (length a) + n), e2).
Proof.
  intros Hwf Hsized Hst Hfin Ha.
  pose proof (window_bounds e Hwf) as HpW.
  assert (Hsz : 0 <= input_size e <= 2 ^ window_sz2 e) by (destruct Hwf; lia).
  pose proof (sink_ewf e a Hwf) as Hwf1.
  rewrite (sink_accepts e a Hwf Hst Hfin) in Hwf1 |- *.
  rewrite (sink_accepts e (a ++ b) Hwf Hst Hfin).
  rewrite Z.min_r in Hwf1 |- * by lia.
  destruct (Z.eqb_spec (Z.of_nat (length a))
              (2 ^ window_sz2 e - input_size e)) as [Heq|_]; [lia|].
  cbn [snd] in Hwf1. cbv beta zeta iota in Hwf1 |- *.
  rewrite Nat2Z.id, firstn_all in Hwf1 |- *.
  set (m := Z.min (2 ^ window_sz2 e - (input_size e + Z.of_nat (length a)))
              (Z.of_nat (length b))).
  assert (Hm : Z.min (2 ^ window_sz2 e - input_size e)
                 (Z.of_nat (length (a ++ b)))
               = Z.of_nat (length a) + m)
    by (subst m; rewrite length_app; lia).
  rewrite Hm.
  assert (Hmb : 0 <= m <= Z.of_nat (length b)) by (subst m; lia).
  exists m. eexists _, _; split; [reflexivity|].
  rewrite (sink_accepts _ b Hwf1 Hst Hfin). esimpl. fold m.
  assert (Hcond : (m =? 2 ^ window_sz2 e - (input_size e + Z.of_nat (length a)))
                  = (Z.of_nat (length a) + m =? 2 ^ window_sz2 e - input_size e)).
  { destruct (Z.eqb_spec m (2 ^ window_sz2 e
                            - (input_size e + Z.of_nat (length a)))),
      (Z.eqb_spec (Z.of_nat (length a) + m)
         (2 ^ window_sz2 e - input_size e)); try reflexivity; lia. }
  rewrite Hcond.
  assert (Hbuf : blit (blit (buffer e) (2 ^ window_sz2 e + input_size e) a)
                   (2 ^ window_sz2 e + (input_size e + Z.of_nat (length a)))
                   (take (Z.to_nat m) b)
                 = blit (buffer e) (2 ^ window_sz2 e + input_size e)
                     (take (Z.to_nat (Z.of_nat (length a) + m)) (a ++ b))).
  { replace (Z.to_nat (Z.of_nat (length a) + m))
      with (length a + Z.to_nat m)%nat by lia.
    rewrite take_app_add' by reflexivity.
    unfold blit.
    replace (Z.to_nat (2 ^ window_sz2 e + (input_size e + Z.of_nat (length a))))
      with (Z.to_nat (2 ^ window_sz2 e + input_size e) + length a)%nat by lia.
    apply blit_blit. unfold sized in Hsized. lia. }
  rewrite Hbuf, Z.add_assoc.
  split; reflexivity.
Qed.

Lemma encoder_sink_in_pieces_witness :
  exists n e1 e2,
    heatshrink_encoder_sink (fresh_encoder false [] 4 3) [1; 2]
    = (HSER_SINK_OK, Some 2, e1) /\
    heatshrink_encoder_sink e1 [3; 4; 5] = (HSER_SINK_OK, Some n, e2) /\
    heatshrink_encoder_sink (fresh_encoder false [] 4 3) [1; 2; 3; 4; 5]
    = (HSER_SINK_OK, Some (2 + n), e2).
Proof.
  assert (Hwf : ewf (fresh_encoder false [] 4 3))
    by (apply (alloc_ewf false [] 4 3); reflexivity).
  apply (encoder_sink_in_pieces (fresh_encoder false [] 4 3) [1; 2] [3; 4; 5]
           Hwf); reflexivity.
Defined.

(** *** Bits pushed with a byte of room

    [nbits] of the mask is the count of bits the current byte still
    takes.  A push of fewer bits than that stores nothing; a push of up
    to 8 bits stores one byte at most, which [can_take_byte] has made
    room for. *)

Definition nbits := DecoderFacts.nbits.

Lemma nbits_mask b : emask_ok b -> 1 <= nbits b <= 8.
Proof.
  unfold emask_ok. intros H.
  repeat (destruct H as [->|H]; [vm_compute; split; discriminate|]).
  subst b. vm_compute. split; discriminate.
Qed.

Lemma push_bit_room bit e oi :
  emask_ok (bit_index e) -> oi_ok oi ->
  (nbits (bit_index e) = 1 -> output_size oi < buf_size oi) ->
  exists e' oi',
    push_bit bit e oi = Ret (e', oi') /\ emask_ok (bit_index e') /\
    oi_ok oi' /\ buf_size oi' = buf_size oi /\
    (nbits (bit_index e) = 1 -> nbits (bit_index e') = 8) /\
    (nbits (bit_index e) <> 1 ->
     nbits (bit_index e') = nbits (bit_index e) - 1 /\ oi' = oi).
Proof.
  intros Hm Hoi Hroom. unfold push_bit.
  set (e1 := if bit =? 0 then e else _).
  assert (Hb1 : bit_index e1 = bit_index e)
    by (subst e1; destruct (bit =? 0); reflexivity).
  esimpl. rewrite Hb1. unfold emask_ok in Hm.
  destruct Hm as [Hm|[Hm|[Hm|[Hm|[Hm|[Hm|[Hm|Hm]]]]]]]; rewrite Hm in *;
    cbn [Z.shiftr Z.shiftl Z.eqb Pos.eqb Z.opp Pos.div2 Z.div2] in *;
    try (eexists _, _; split; [reflexivity|]; esimpl;
         split; [unfold emask_ok; tauto|];
         split; [assumption|]; split; [reflexivity|];
         split; [intros Hk; vm_compute in Hk; discriminate|];
         intros _; split; reflexivity).
  destruct (push_out_ok oi (current_byte e1) Hoi (Hroom eq_refl))
    as (oi' & -> & Hoi' & Hbs & _).
  esimpl. eexists _, _; split; [reflexivity|]. esimpl.
  split; [unfold emask_ok; tauto|]. split; [assumption|].
  split; [assumption|]. split; [reflexivity|]. intros Hk. now contradiction Hk.
Qed.

Lemma push_bits_loop_room n : forall bits e oi,
  emask_ok (bit_index e) -> oi_ok oi ->
  Z.of_nat n < nbits (bit_index e) \/
  (output_size oi < buf_size oi /\ Z.of_nat n < nbits (bit_index e) + 8) ->
  exists e' oi',
    push_bits_loop n bits e oi = Ret (e', oi') /\
    oi_ok oi' /\ buf_size oi' = buf_size oi.
Proof.
  induction n as [|n IH]; intros bits e oi Hm Hoi Hn.
  - eexists _, _; split; [reflexivity|]. auto.
  - cbn [push_bits_loop]. pose proof (nbits_mask _ Hm) as Hk.
    destruct (push_bit_room (u8 (Z.land bits (Z.shiftl 1 (Z.of_nat n)))) e oi
                Hm Hoi ltac:(lia))
      as (e1 & oi1 & -> & Hm1 & Hoi1 & Hbs1 & Hone & Hmore).
    esimpl.
    destruct (IH bits e1 oi1 Hm1 Hoi1) as (e' & oi' & -> & Hoi' & Hbs').
    + destruct (Z.eq_dec (nbits (bit_index e)) 1) as [H1|H1].
      * left. rewrite (Hone H1). lia.
      * destruct (Hmore H1) as [-> ->]. lia.
    + eexists _, _; split; [reflexivity|]. split; [assumption|]. congruence.
Qed.

Lemma push_bits_room e count bits oi :
  emask_ok (bit_index e) -> oi_ok oi -> count <= 8 ->
  can_take_byte oi = true ->
  exists e' oi',
    push_bits e count bits oi = Ret (e', oi') /\
    oi_ok oi' /\ buf_size oi' = buf_size oi.
Proof.
  intros Hm Hoi Hc Hroom. unfold push_bits, can_take_byte in *.
  apply Z.ltb_lt in Hroom. pose proof (nbits_mask _ Hm).
  apply push_bits_loop_room; [assumption|assumption|right; lia].
Qed.

(** *** What the poll keeps between the symbols

    A match is pending only while its symbol is yielded, a literal is
    pending only until it is yielded, and the states that end a stream
    are entered only by an encoder that is finishing. *)

Lemma land_bit x k :
  0 <= k -> Z.land x (2 ^ k) = if Z.testbit x k then 2 ^ k else 0.
Proof.
  intros Hk. apply Z.bits_inj'. intros n Hn.
  rewrite Z.land_spec, Z.pow2_bits_eqb by lia.
  destruct (Z.eqb_spec k n) as [<-|Hne].
  - destruct (Z.testbit x k) eqn:E; cbn [andb].
    + rewrite Z.pow2_bits_true by lia. reflexivity.
    + rewrite Z.bits_0. reflexivity.
  - rewrite andb_false_r. destruct (Z.testbit x k).
    + rewrite Z.pow2_bits_false by lia. reflexivity.
    + rewrite Z.bits_0. reflexivity.
Qed.

Lemma flag_clear x k : 0 <= k -> (Z.land x (2 ^ k) = 0 <-> Z.testbit x k = false).
Proof.
  intros Hk. rewrite land_bit by lia.
  destruct (Z.testbit x k); split; try reflexivity; try discriminate.
  intros H. pose proof (Z.pow_pos_nonneg 2 k ltac:(lia) Hk). lia.
Qed.

Definition finishing (e : heatshrink_encoder) : bool := Z.testbit (flags e) 0.
Definition literal_due (e : heatshrink_encoder) : bool := Z.testbit (flags e) 1.
Definition final_literal (e : heatshrink_encoder) : bool := Z.testbit (flags e) 2.

Lemma is_finishing_bit e : (is_finishing e =? 0) = negb (finishing e).
Proof.
  unfold is_finishing, finishing, FLAG_IS_FINISHING.
  change 1 with (2 ^ 0). rewrite land_bit by lia.
  destruct (Z.testbit (flags e) 0); reflexivity.
Qed.

Lemma has_literal_bit e : (has_literal e =? 0) = negb (literal_due e).
Proof.
  unfold has_literal, literal_due, FLAG_HAS_LITERAL.
  change 2 with (2 ^ 1). rewrite land_bit by lia.
  destruct (Z.testbit (flags e) 1); reflexivity.
Qed.

Lemma on_final_literal_bit e : (on_final_literal e =? 0) = negb (final_literal e).
Proof.
  unfold on_final_literal, final_literal, FLAG_ON_FINAL_LITERAL.
  change 4 with (2 ^ 2). rewrite land_bit by lia.
  destruct (Z.testbit (flags e) 2); reflexivity.
Qed.

Lemma u8_bit x k : 0 <= k < 8 -> Z.testbit (u8 x) k = Z.testbit x k.
Proof.
  intros Hk. unfold u8. change 256 with (2 ^ 8).
  apply Z.mod_pow2_bits_low. lia.
Qed.

Record calm (e : heatshrink_encoder) : Prop := mk_calm {
  cm_count : 0 <= outgoing_bits_count e <= 255;
  cm_len : match_length e <> 0 ->
           state e = HSES_YIELD_TAG_BIT \/ state e = HSES_YIELD_BR_INDEX \/
           state e = HSES_YIELD_BR_LENGTH;
  cm_lit : literal_due e = true ->
           state e = HSES_YIELD_LITERAL \/
           (state e = HSES_YIELD_TAG_BIT /\ match_length e = 0);
  cm_fin : finishing e = false ->
           state e <> HSES_FLUSH_BITS /\ state e <> HSES_DONE /\
           final_literal e = false
}.

(** The turns a poll still takes, at most: 64 for each byte not yet
    encoded, and the turns of the symbol being yielded. *)
Definition potential (e : heatshrink_encoder) : Z :=
  let rem := input_size e - match_scan_index e - match_length e in
  match state e with
  | HSES_NOT_FULL | HSES_FLUSH_BITS | HSES_DONE => 0
  | HSES_SAVE_BACKLOG => 1
  | HSES_SEARCH => 64 * rem + 2
  | HSES_FILLED | HSES_YIELD_LITERAL => 64 * rem + 3
  | HSES_YIELD_TAG_BIT =>
    if match_length e =? 0 then 64 * rem + 4
    else 64 * rem + 5 + lookahead_sz2 e + window_sz2 e
  | HSES_YIELD_BR_INDEX => 64 * rem + 4 + lookahead_sz2 e + outgoing_bits_count e
  | HSES_YIELD_BR_LENGTH => 64 * rem + 3 + outgoing_bits_count e
  end.

Lemma encoder_potential_nonneg e : ewf e -> calm e -> 0 <= potential e.
Proof.
  intros Hwf Hc. destruct Hwf, Hc. unfold potential.
  destruct (state e); try destruct (match_length e =? 0); lia.
Qed.

(** What a state function hands back to the loop: the encoder is calm,
    the output buffer is in order, and either the potential went down or
    nothing was done, the output buffer being full already. *)
Definition handed (e : heatshrink_encoder) (oi : output_info)
    (s : HEATSHRINK_ENCODER_STATE) (e1 : heatshrink_encoder)
    (oi1 : output_info) : Prop :=
  calm (set_state s e1) /\ oi_ok oi1 /\ buf_size oi1 = buf_size oi /\
  (potential (set_state s e1) < potential e \/
   (s = state e /\ output_size oi1 = buf_size oi1 /\
    potential (set_state s e1) = potential e /\
    output_size oi = buf_size oi)).

Lemma full_stays e oi :
  calm e -> oi_ok oi -> can_take_byte oi = false ->
  handed e oi (state e) e oi.
Proof.
  intros Hc Hoi Hfull. unfold can_take_byte in Hfull.
  apply Z.ltb_ge in Hfull. destruct Hoi as [Hl Hp Hu].
  split; [rewrite set_state_same; exact Hc|].
  split; [constructor; assumption|]. split; [reflexivity|].
  right. rewrite set_state_same. repeat split; lia.
Qed.

(** *** The state functions, one turn each *)

Ltac calm_fields :=
  unfold potential, literal_due, finishing, final_literal in *; esimpl.

(** The fields of [calm] after a turn that leaves the flags alone. *)
Ltac calm_close Hdue Hfin :=
  first
    [ lia
    | let H := fresh in intros H; contradiction
    | rewrite Hdue; discriminate
    | let H := fresh in
      intros H; destruct (Hfin H) as (_ & _ & ?);
      repeat split; try discriminate; assumption ].

Lemma tag_turn e oi :
  ewf e -> calm e -> oi_ok oi -> state e = HSES_YIELD_TAG_BIT ->
  exists s e1 oi1,
    st_yield_tag_bit e oi = Ret (s, e1, oi1) /\ handed e oi s e1 oi1.
Proof.
  intros Hwf Hc Hoi Hst. unfold st_yield_tag_bit, add_tag_bit.
  destruct (can_take_byte oi) eqn:Hroom;
    [|eexists _, _, _; split; [reflexivity|]; rewrite <- Hst;
      now apply full_stays].
  pose proof (e_mask _ Hwf) as Hm.
  destruct (Z.eqb_spec (match_length e) 0) as [Hml|Hml].
  - destruct (push_bits_room e 1 HEATSHRINK_LITERAL_MARKER oi Hm Hoi
                ltac:(lia) Hroom) as (e1 & oi1 & E & Hoi1 & Hbs).
    rewrite E. esimpl. eexists _, _, _; split; [reflexivity|].
    apply push_bits_ewf in E. destruct E as [Hbo _]. unfold bits_only in Hbo.
    destruct Hc as [Hcnt Hlen Hlit Hfin].
    split; [|split; [assumption|split; [assumption|left]]].
    + constructor; rewrite Hbo; calm_fields; auto.
      * intros H. contradiction.
      * intros H. destruct (Hfin H) as (_ & _ & H3).
        repeat split; try discriminate. exact H3.
    + rewrite Hbo. calm_fields. rewrite Hst, Hml. cbn [Z.eqb]. lia.
  - destruct (push_bits_room e 1 HEATSHRINK_BACKREF_MARKER oi Hm Hoi
                ltac:(lia) Hroom) as (e1 & oi1 & E & Hoi1 & Hbs).
    rewrite E. esimpl. eexists _, _, _; split; [reflexivity|].
    apply push_bits_ewf in E. destruct E as [Hbo _]. unfold bits_only in Hbo.
    destruct Hc as [Hcnt Hlen Hlit Hfin]. destruct Hwf.
    split; [|split; [assumption|split; [assumption|left]]].
    + constructor; rewrite Hbo; calm_fields; auto.
      * lia.
      * intros H. destruct (Hlit H) as [H1|[_ H1]]; congruence.
      * intros H. destruct (Hfin H) as (_ & _ & H3).
        repeat split; try discriminate. exact H3.
    + rewrite Hbo. calm_fields. rewrite Hst.
      destruct (Z.eqb_spec (match_length e) 0); [contradiction|]. lia.
Qed.

Lemma literal_turn e oi :
  ewf e -> calm e -> oi_ok oi -> state e = HSES_YIELD_LITERAL ->
  exists s e1 oi1,
    st_yield_literal e oi = Ret (s, e1, oi1) /\ handed e oi s e1 oi1.
Proof.
  intros Hwf Hc Hoi Hst. unfold st_yield_literal, push_literal_byte.
  destruct (can_take_byte oi) eqn:Hroom;
    [|eexists _, _, _; split; [reflexivity|]; rewrite <- Hst;
      now apply full_stays].
  pose proof (e_mask _ Hwf) as Hm.
  destruct (push_bits_room e 8
              (rd (buffer e)
                 (u16 (get_input_offset e + u16 (match_scan_index e - 1))))
              oi Hm Hoi ltac:(lia) Hroom) as (e1 & oi1 & E & Hoi1 & Hbs).
  rewrite E. esimpl.
  apply push_bits_ewf in E. destruct E as [Hbo _]. unfold bits_only in Hbo.
  destruct Hc as [Hcnt Hlen Hlit Hfin].
  assert (Hml : match_length e = 0).
  { destruct (Z.eq_dec (match_length e) 0) as [|Hne]; [assumption|].
    destruct (Hlen Hne) as [H|[H|H]]; congruence. }
  set (e2 := set_flags _ e1).
  assert (Hbit : forall k, 0 <= k < 8 -> k <> 1 ->
            Z.testbit (flags e2) k = Z.testbit (flags e) k).
  { intros k Hk Hne. subst e2. rewrite Hbo. esimpl.
    rewrite u8_bit, Z.land_spec, Z.lnot_spec by lia.
    unfold FLAG_HAS_LITERAL. change 2 with (2 ^ 1).
    rewrite Z.pow2_bits_false by lia. cbn [negb]. apply andb_true_r. }
  assert (Hdue : literal_due e2 = false).
  { unfold literal_due. subst e2. rewrite Hbo. esimpl.
    rewrite u8_bit, Z.land_spec, Z.lnot_spec by lia.
    unfold FLAG_HAS_LITERAL. change 2 with (2 ^ 1).
    rewrite Z.pow2_bits_true by lia. apply andb_false_r. }
  assert (Hsame : match_length e2 = 0 /\ input_size e2 = input_size e /\
                  match_scan_index e2 = match_scan_index e /\
                  outgoing_bits_count e2 = outgoing_bits_count e).
  { subst e2. rewrite Hbo. esimpl. auto. }
  destruct Hsame as (Hml2 & Hsz2 & Hmsi2 & Hcnt2).
  assert (Hrem : 0 <= input_size e - match_scan_index e) by (destruct Hwf; lia).
  rewrite on_final_literal_bit.
  destruct (final_literal e2) eqn:Hfl; cbn [negb].
  - eexists _, _, _; split; [reflexivity|].
    split; [|split; [assumption|split; [assumption|left]]].
    + constructor; calm_fields; rewrite ?Hml2, ?Hcnt2; auto.
      * intros H. contradiction.
      * rewrite Hdue. discriminate.
      * rewrite (Hbit 0) by lia. intros H. destruct (Hfin H) as (_ & _ & H3).
        rewrite (Hbit 2) in Hfl by lia. congruence.
    + calm_fields. rewrite Hst, Hml. lia.
  - change (match_length e1) with (match_length e2).
    rewrite Hml2. cbn [Z.gtb Z.compare].
    eexists _, _, _; split; [reflexivity|].
    split; [|split; [assumption|split; [assumption|left]]].
    + constructor; calm_fields; rewrite ?Hml2, ?Hcnt2; auto.
      * intros H. contradiction.
      * rewrite Hdue. discriminate.
    + calm_fields. rewrite Hst, Hml2, Hsz2, Hmsi2, Hml. lia.
Qed.

Lemma outgoing_turn e oi :
  ewf e -> 0 <= outgoing_bits_count e <= 255 -> oi_ok oi ->
  can_take_byte oi = true ->
  exists n c' eb oi1,
    push_outgoing_bits e oi
    = Ret (n, set_outgoing_bits_count c' eb, oi1) /\
    bits_only e eb /\ oi_ok oi1 /\ buf_size oi1 = buf_size oi /\
    ((0 < n /\ 0 <= c' < outgoing_bits_count e) \/
     (n = 0 /\ c' = 0 /\ outgoing_bits_count e = 0)).
Proof.
  intros Hwf Hcnt Hoi Hroom. unfold push_outgoing_bits.
  pose proof (e_mask _ Hwf) as Hm.
  destruct (Z.gtb_spec (outgoing_bits_count e) 8) as [Hgt|Hle].
  - destruct (push_bits_room e 8
                (u8 (Z.shiftr (outgoing_bits e) (outgoing_bits_count e - 8)))
                oi Hm Hoi ltac:(lia) Hroom) as (e1 & oi1 & E & Hoi1 & Hbs).
    rewrite E. esimpl. pose proof E as E'.
    apply push_bits_ewf in E'. destruct E' as [Hbo _].
    assert (Hc1 : outgoing_bits_count e1 = outgoing_bits_count e)
      by (unfold bits_only in Hbo; rewrite Hbo; reflexivity).
    rewrite Hc1, u8_small by lia.
    eexists _, _, _, _; split; [reflexivity|].
    split; [assumption|]. split; [assumption|]. split; [assumption|].
    left. lia.
  - destruct (push_bits_room e (outgoing_bits_count e) (u8 (outgoing_bits e))
                oi Hm Hoi ltac:(lia) Hroom) as (e1 & oi1 & E & Hoi1 & Hbs).
    rewrite E. esimpl. pose proof E as E'.
    apply push_bits_ewf in E'. destruct E' as [Hbo _].
    assert (Hc1 : outgoing_bits_count e1 = outgoing_bits_count e)
      by (unfold bits_only in Hbo; rewrite Hbo; reflexivity).
    rewrite Hc1, Z.sub_diag. change (u8 0) with 0.
    eexists _, _, _, _; split; [reflexivity|].
    split; [assumption|]. split; [assumption|]. split; [assumption|].
    lia.
Qed.

Lemma br_index_turn e oi :
  ewf e -> calm e -> oi_ok oi -> state e = HSES_YIELD_BR_INDEX ->
  exists s e1 oi1,
    st_yield_br_index e oi = Ret (s, e1, oi1) /\ handed e oi s e1 oi1.
Proof.
  intros Hwf Hc Hoi Hst. unfold st_yield_br_index.
  destruct (can_take_byte oi) eqn:Hroom;
    [|eexists _, _, _; split; [reflexivity|]; rewrite <- Hst;
      now apply full_stays].
  destruct (outgoing_turn e oi Hwf (cm_count _ Hc) Hoi Hroom)
    as (n & c' & eb & oi1 & -> & Hbo & Hoi1 & Hbs & Hn).
  unfold bits_only in Hbo. esimpl.
  destruct Hc as [Hcnt Hlen Hlit Hfin].
  assert (Hdue : literal_due e = false).
  { destruct (literal_due e) eqn:E; [|reflexivity].
    destruct (Hlit eq_refl) as [H|[H _]]; congruence. }
  destruct Hn as [[Hpos Hc']|(-> & -> & Hzero)].
  - destruct (Z.gtb_spec n 0) as [_|Hn0]; [|lia].
    eexists _, _, _; split; [reflexivity|].
    split; [|split; [assumption|split; [assumption|left]]].
    + constructor; rewrite Hbo; calm_fields; auto;
        calm_close Hdue Hfin.
    + rewrite Hbo. calm_fields. rewrite Hst. lia.
  - cbn [Z.gtb Z.compare].
    eexists _, _, _; split; [reflexivity|].
    split; [|split; [assumption|split; [assumption|left]]].
    + destruct Hwf.
      constructor; rewrite Hbo; calm_fields; auto;
        calm_close Hdue Hfin.
    + rewrite Hbo. calm_fields. rewrite Hst. lia.
Qed.

Lemma br_length_turn e oi :
  ewf e -> calm e -> oi_ok oi -> state e = HSES_YIELD_BR_LENGTH ->
  exists s e1 oi1,
    st_yield_br_length e oi = Ret (s, e1, oi1) /\ handed e oi s e1 oi1.
Proof.
  intros Hwf Hc Hoi Hst. unfold st_yield_br_length.
  destruct (can_take_byte oi) eqn:Hroom;
    [|eexists _, _, _; split; [reflexivity|]; rewrite <- Hst;
      now apply full_stays].
  destruct (outgoing_turn e oi Hwf (cm_count _ Hc) Hoi Hroom)
    as (n & c' & eb & oi1 & -> & Hbo & Hoi1 & Hbs & Hn).
  unfold bits_only in Hbo. esimpl.
  destruct Hc as [Hcnt Hlen Hlit Hfin].
  assert (Hdue : literal_due e = false).
  { destruct (literal_due e) eqn:E; [|reflexivity].
    destruct (Hlit eq_refl) as [H|[H _]]; congruence. }
  pose proof (window_bounds e Hwf) as HpW.
  destruct Hn as [[Hpos Hc']|(-> & -> & Hzero)].
  - destruct (Z.gtb_spec n 0) as [_|Hn0]; [|lia].
    eexists _, _, _; split; [reflexivity|].
    split; [|split; [assumption|split; [assumption|left]]].
    + constructor; rewrite Hbo; calm_fields; auto;
        calm_close Hdue Hfin.
    + rewrite Hbo. calm_fields. rewrite Hst. lia.
  - cbn [Z.gtb Z.compare].
    eexists _, _, _; split; [reflexivity|].
    split; [|split; [assumption|split; [assumption|left]]].
    + constructor; rewrite Hbo; calm_fields; auto;
        calm_close Hdue Hfin.
    + rewrite Hbo. calm_fields. rewrite Hst.
      rewrite u16_small by (destruct Hwf; lia). lia.
Qed.

(** A search returns, but for a walk along an index that was cut
    short. *)
Lemma find_longest_match_returns use_index e start end_ maxlen ml0 :
  (use_index = true /\
   find_longest_match use_index e start end_ maxlen ml0 = OutOfFuel) \/
  exists r ml, find_longest_match use_index e start end_ maxlen ml0 = Ret (r, ml).
Proof.
  unfold find_longest_match.
  destruct (start =? end_); [right; eauto|].
  destruct use_index.
  - destruct (_ <? start); esimpl; [right; eauto|].
    destruct (scan_chain _ _ _ _ _ _ _ _) as [[bl bi]|]; esimpl;
      [right|left; auto].
    destruct (bl >? 0); eauto.
  - esimpl. right.
    destruct (scan_linear _ _ _ _ _ _ _) as [bl bi].
    destruct (bl >? 0); eauto.
Qed.

Lemma search_turn use_index e :
  ewf e -> calm e -> state e = HSES_SEARCH ->
  (use_index = true /\ st_step_search use_index e = OutOfFuel) \/
  exists s e1,
    st_step_search use_index e = Ret (s, e1) /\
    calm (set_state s e1) /\ potential (set_state s e1) < potential e.
Proof.
  intros Hwf Hc Hst. unfold st_step_search.
  rewrite (lookahead_size_eq e Hwf), (input_buffer_size_eq e Hwf).
  pose proof (window_bounds e Hwf). pose proof (lookahead_bounds e Hwf).
  destruct Hc as [Hcnt Hlen Hlit Hfin].
  assert (Hml : match_length e = 0).
  { destruct (Z.eq_dec (match_length e) 0) as [|Hne]; [assumption|].
    destruct (Hlen Hne) as [H1|[H1|H1]]; congruence. }
  assert (Hdue : literal_due e = false).
  { destruct (literal_due e) eqn:E; [|reflexivity].
    destruct (Hlit eq_refl) as [H1|[H1 _]]; congruence. }
  assert (Hrem : 0 <= match_scan_index e <= input_size e) by (destruct Hwf; lia).
  assert (Hsz : input_size e <= 2 ^ window_sz2 e) by (destruct Hwf; lia).
  set (fin := negb (is_finishing e =? 0)).
  destruct (Z.geb_spec (match_scan_index e)
              (input_size e - (if fin then 0 else 2 ^ lookahead_sz2 e)))
    as [_|Hlt].
  { right. eexists _, _; split; [reflexivity|]. split.
    - constructor; calm_fields; auto; calm_close Hdue Hfin.
    - calm_fields. rewrite Hst, Hml. lia. }
  set (maxp := if input_size e - match_scan_index e <? 2 ^ lookahead_sz2 e
               then u16 (input_size e - match_scan_index e)
               else 2 ^ lookahead_sz2 e).
  assert (Hmax : 0 <= maxp <= input_size e - match_scan_index e).
  { subst maxp.
    destruct (Z.ltb_spec (input_size e - match_scan_index e)
                (2 ^ lookahead_sz2 e)); [rewrite u16_small|]; destruct fin; lia. }
  assert (Hmsi : match_scan_index e < input_size e) by (destruct fin; lia).
  match goal with
  | |- context [find_longest_match use_index e ?st ?en ?mx ?m0] =>
    destruct (find_longest_match_returns use_index e st en mx m0)
      as [[-> E]|(mp & ml & E)]
  end.
  { left. split; [reflexivity|]. rewrite E. reflexivity. }
  rewrite E. esimpl. right.
  apply find_longest_match_bound in E; [|lia].
  destruct (Z.eqb_spec mp MATCH_NOT_FOUND) as [Hnf|Hfound].
  - eexists _, _; split; [reflexivity|]. split.
    + constructor; calm_fields; auto; try lia.
      intros H1. rewrite Z.lor_spec in H1 |- *.
      unfold FLAG_IS_FINISHING, FLAG_HAS_LITERAL in *.
      change (Z.testbit 2 0) with false in *. change (Z.testbit 2 2) with false.
      rewrite orb_false_r in H1 |- *.
      destruct (Hfin H1) as (_ & _ & H3).
      repeat split; try discriminate. exact H3.
    + calm_fields. rewrite Hst, Hml. cbn [Z.eqb].
      rewrite u16_small by lia. lia.
  - destruct E as [[E _]|Hlen']; [contradiction|].
    eexists _, _; split; [reflexivity|]. split.
    + constructor; calm_fields; auto; calm_close Hdue Hfin.
    + calm_fields. rewrite Hst, Hml.
      destruct (Z.eqb_spec ml 0); [lia|]. destruct Hwf. lia.
Qed.

Lemma save_backlog_turn e :
  ewf e -> calm e -> state e = HSES_SAVE_BACKLOG ->
  calm (set_state (st_save_backlog e).1 (st_save_backlog e).2) /\
  potential (set_state (st_save_backlog e).1 (st_save_backlog e).2)
  < potential e.
Proof.
  intros Hwf Hc Hst. unfold st_save_backlog.
  destruct Hc as [Hcnt Hlen Hlit Hfin].
  assert (Hml : match_length e = 0).
  { destruct (Z.eq_dec (match_length e) 0) as [|Hne]; [assumption|].
    destruct (Hlen Hne) as [H1|[H1|H1]]; congruence. }
  assert (Hdue : literal_due e = false).
  { destruct (literal_due e) eqn:E; [|reflexivity].
    destruct (Hlit eq_refl) as [H1|[H1 _]]; congruence. }
  rewrite is_finishing_bit, has_literal_bit, Hdue. cbn [negb].
  destruct (finishing e) eqn:Efin; cbn [negb fst snd].
  - split.
    + constructor; calm_fields; auto;
        first [ intros H1; contradiction
              | rewrite Hdue; discriminate
              | rewrite Efin; discriminate ].
    + calm_fields. rewrite Hst. lia.
  - destruct (Hfin eq_refl) as (_ & _ & Hfl).
    assert (Hflags : forall k, 0 <= k < 3 ->
              Z.testbit (flags (save_backlog e)) k = Z.testbit (flags e) k).
    { intros k Hk. unfold save_backlog, backlog_is_partial. esimpl.
      destruct (negb _); esimpl; rewrite Z.lor_spec;
        unfold FLAG_BACKLOG_IS_FILLED, FLAG_BACKLOG_IS_PARTIAL;
        [change 16 with (2 ^ 4)|change 8 with (2 ^ 3)];
        rewrite Z.pow2_bits_false by lia; apply orb_false_r. }
    assert (Hrest : match_length (save_backlog e) = 0 /\
                    outgoing_bits_count (save_backlog e) = outgoing_bits_count e).
    { unfold save_backlog, backlog_is_partial. esimpl.
      destruct (negb _); esimpl; auto. }
    destruct Hrest as [Hml' Hcnt']. split.
    + constructor; calm_fields; rewrite ?Hml', ?Hcnt', ?Hflags by lia; auto;
        first [ intros H1; contradiction
              | rewrite Hdue; discriminate
              | intros _; repeat split; try discriminate; exact Hfl ].
    + calm_fields. rewrite Hst. lia.
Qed.

Lemma flush_turn e oi :
  ewf e -> calm e -> oi_ok oi -> state e = HSES_FLUSH_BITS ->
  exists s oi1,
    st_flush_bit_buffer e oi = Ret (s, e, oi1) /\
    (s = HSES_FLUSH_BITS \/ s = HSES_DONE) /\
    oi_ok oi1 /\ buf_size oi1 = buf_size oi.
Proof.
  intros Hwf Hc Hoi Hst. unfold st_flush_bit_buffer.
  destruct (bit_index e =? 128); [eexists _, _; eauto 6|].
  destruct (can_take_byte oi) eqn:Hroom; [|eexists _, _; eauto 6].
  unfold can_take_byte in Hroom. apply Z.ltb_lt in Hroom.
  destruct (push_out_ok oi (current_byte e) Hoi Hroom)
    as (oi1 & -> & Hoi1 & Hbs & _).
  esimpl. eexists _, _; eauto 6.
Qed.

(** *** One turn of the poll, and the poll *)

Definition turned (e : heatshrink_encoder) (oi : output_info)
    (r : heatshrink_encoder * output_info
         * option HEATSHRINK_ENCODER_POLL_RES) : Prop :=
  calm r.1.1 /\ oi_ok r.1.2 /\ buf_size r.1.2 = buf_size oi /\
  potential r.1.1 <= potential e /\
  match r.2 with
  | None => potential r.1.1 < potential e
  | Some HSER_POLL_MORE =>
    output_size r.1.2 = buf_size r.1.2 /\
    (potential r.1.1 < potential e \/ output_size oi = buf_size oi)
  | Some HSER_POLL_EMPTY =>
    state r.1.1 = HSES_NOT_FULL \/ state r.1.1 = HSES_FLUSH_BITS \/
    state r.1.1 = HSES_DONE
  | Some _ => False
  end.

Lemma continue_turned e oi st s e1 oi1 :
  st = state e -> handed e oi s e1 oi1 ->
  turned e oi
    (if bool_decide (state (set_state s e1) = st)
        && (output_size oi1 =? buf_size oi1)
     then (set_state s e1, oi1, Some HSER_POLL_MORE)
     else (set_state s e1, oi1, None)).
Proof.
  intros -> (Hc & Hoi & Hbs & Hp). unfold turned.
  destruct (bool_decide_reflect (state (set_state s e1) = state e)) as [Hs|Hs];
    [destruct (Z.eqb_spec (output_size oi1) (buf_size oi1)) as [Hf|Hf]|];
    cbn [andb fst snd]; repeat (split; [assumption|]).
  - split; [|split; [assumption|]]; destruct Hp as [Hp|(_ & _ & Hp & Hq)];
      first [lia | auto].
  - destruct Hp as [Hp|(_ & Hp & _)]; [|contradiction]. split; lia.
  - destruct Hp as [Hp|[Hp _]]; [split; lia|]. subst s. now contradiction Hs.
Qed.

Lemma poll_step_turn use_index e oi :
  ewf e -> calm e -> oi_ok oi ->
  (use_index = true /\ poll_step use_index e oi = OutOfFuel) \/
  exists r, poll_step use_index e oi = Ret r /\ turned e oi r.
Proof.
  intros Hwf Hc Hoi. unfold poll_step. cbv zeta beta.
  destruct (state e) eqn:Est.
  - right. eexists; split; [reflexivity|]. unfold turned. cbn [fst snd].
    repeat (split; [first [assumption|reflexivity|lia]|]). auto.
  - right. eexists; split; [reflexivity|].
    apply continue_turned; [congruence|].
    assert (Hsame : do_indexing use_index e
                    = set_search_index
                        (search_index (do_indexing use_index e)) e)
      by (unfold do_indexing; destruct use_index; [reflexivity|now destruct e]).
    destruct Hc as [Hcnt Hlen Hlit Hfin].
    assert (Hml : match_length e = 0).
    { destruct (Z.eq_dec (match_length e) 0) as [|Hne]; [assumption|].
      destruct (Hlen Hne) as [H1|[H1|H1]]; congruence. }
    assert (Hdue : literal_due e = false).
    { destruct (literal_due e) eqn:E; [|reflexivity].
      destruct (Hlit eq_refl) as [H1|[H1 _]]; congruence. }
    split; [|split; [assumption|split; [reflexivity|left]]].
    + constructor; rewrite Hsame; calm_fields; auto; calm_close Hdue Hfin.
    + rewrite Hsame. calm_fields. rewrite Est. lia.
  - destruct (search_turn use_index e Hwf Hc Est)
      as [[-> E]|(s & e1 & E & Hc1 & Hp)]; rewrite E; esimpl.
    + left. auto.
    + right. eexists; split; [reflexivity|].
      apply continue_turned; [congruence|].
      split; [assumption|]. split; [assumption|]. split; [reflexivity|].
      left. assumption.
  - destruct (tag_turn e oi Hwf Hc Hoi Est) as (s & e1 & oi1 & -> & Hh).
    esimpl. right. eexists; split; [reflexivity|].
    apply continue_turned; [congruence|assumption].
  - destruct (literal_turn e oi Hwf Hc Hoi Est) as (s & e1 & oi1 & -> & Hh).
    esimpl. right. eexists; split; [reflexivity|].
    apply continue_turned; [congruence|assumption].
  - destruct (br_index_turn e oi Hwf Hc Hoi Est) as (s & e1 & oi1 & -> & Hh).
    esimpl. right. eexists; split; [reflexivity|].
    apply continue_turned; [congruence|assumption].
  - destruct (br_length_turn e oi Hwf Hc Hoi Est) as (s & e1 & oi1 & -> & Hh).
    esimpl. right. eexists; split; [reflexivity|].
    apply continue_turned; [congruence|assumption].
  - destruct (save_backlog_turn e Hwf Hc Est) as [Hc1 Hp].
    destruct (st_save_backlog e) as [s e1]. cbn [fst snd] in *.
    right. eexists; split; [reflexivity|].
    apply continue_turned; [congruence|].
    split; [assumption|]. split; [assumption|]. split; [reflexivity|].
    left. assumption.
  - destruct (flush_turn e oi Hwf Hc Hoi Est)
      as (s & oi1 & -> & Hs & Hoi1 & Hbs).
    esimpl. right. eexists; split; [reflexivity|].
    unfold turned. cbn [fst snd]. destruct Hc as [Hcnt Hlen Hlit Hfin].
    split; [|split; [assumption|split; [assumption|]]].
    + constructor; calm_fields; auto.
      * intros H1. destruct (Hlen H1) as [H2|[H2|H2]]; congruence.
      * intros H1. destruct (Hlit H1) as [H2|[H2 _]]; congruence.
      * intros H1. destruct (Hfin H1) as (H2 & _). congruence.
    + split; [|esimpl; destruct Hs as [-> | ->]; auto].
      unfold potential. esimpl. rewrite Est. destruct Hs as [-> | ->]; lia.
  - right. eexists; split; [reflexivity|]. unfold turned. cbn [fst snd].
    repeat (split; [first [assumption|reflexivity|lia]|]). auto.
Qed.

(** The turns a poll is given: more than the potential of the encoder it
    starts from. *)
Definition poll_fuel (e : heatshrink_encoder) : nat :=
  S (Z.to_nat (potential e)).

Lemma poll_loop_turn use_index fuel : forall e oi,
  ewf e -> calm e -> oi_ok oi ->
  poll_loop use_index fuel e oi = OutOfFuel \/
  exists r e' oi',
    poll_loop use_index fuel e oi = Ret (r, e', oi') /\
    ewf e' /\ calm e' /\ oi_ok oi' /\ buf_size oi' = buf_size oi /\
    ((r = HSER_POLL_MORE /\ output_size oi' = buf_size oi') \/
     (r = HSER_POLL_EMPTY /\
      (state e' = HSES_NOT_FULL \/ state e' = HSES_FLUSH_BITS \/
       state e' = HSES_DONE))).
Proof.
  induction fuel as [|fuel IH]; intros e oi Hwf Hc Hoi; [left; reflexivity|].
  cbn [poll_loop].
  destruct (poll_step_turn use_index e oi Hwf Hc Hoi)
    as [[_ E]|([[e1 oi1] r] & E & Hc1 & Hoi1 & Hbs1 & _ & Hr)];
    [rewrite E; left; reflexivity|].
  pose proof (poll_step_ewf _ _ _ _ _ _ Hwf E) as Hwf1.
  rewrite E. cbn [mbind outcome_bind fst snd] in *.
  destruct r as [res|].
  - right. eexists _, _, _; split; [reflexivity|].
    repeat (split; [assumption|]).
    destruct res; try contradiction; [right|left; destruct Hr]; auto.
  - destruct (IH e1 oi1 Hwf1 Hc1 Hoi1)
      as [->|(r & e' & oi' & -> & Hwf' & Hc' & Hoi' & Hbs' & Hr')];
      [left; reflexivity|right].
    eexists _, _, _; split; [reflexivity|].
    repeat (split; [assumption|]). split; [congruence|assumption].
Qed.

Lemma poll_loop_fuelled fuel : forall e oi,
  ewf e -> calm e -> oi_ok oi -> potential e < Z.of_nat fuel ->
  poll_loop false fuel e oi <> OutOfFuel.
Proof.
  induction fuel as [|fuel IH]; intros e oi Hwf Hc Hoi Hp.
  - pose proof (encoder_potential_nonneg e Hwf Hc). lia.
  - cbn [poll_loop].
    destruct (poll_step_turn false e oi Hwf Hc Hoi)
      as [[H _]|([[e1 oi1] r] & E & Hc1 & Hoi1 & Hbs1 & _ & Hr)];
      [discriminate|].
    pose proof (poll_step_ewf _ _ _ _ _ _ Hwf E) as Hwf1.
    rewrite E. cbn [mbind outcome_bind fst snd] in *.
    destruct r as [res|]; [discriminate|].
    apply IH; try assumption. lia.
Qed.

(** *** Only [finish] sets the finishing flag *)

Lemma bits_only_finishing e e' : bits_only e e' -> finishing e' = finishing e.
Proof. unfold bits_only, finishing. intros ->. reflexivity. Qed.

Lemma push_bits_finishing e count bits oi e' oi' :
  push_bits e count bits oi = Ret (e', oi') -> finishing e' = finishing e.
Proof. intros E. apply push_bits_ewf in E. apply bits_only_finishing, E. Qed.

Lemma push_outgoing_bits_finishing e oi n e' oi' :
  push_outgoing_bits e oi = Ret (n, e', oi') -> finishing e' = finishing e.
Proof.
  intros E. apply push_outgoing_bits_ewf in E.
  destruct E as (e1 & Hbo & _ & He'). apply bits_only_finishing in Hbo.
  rewrite He'. exact Hbo.
Qed.

Lemma poll_step_finishing use_index e oi e' oi' r :
  poll_step use_index e oi = Ret (e', oi', r) -> finishing e' = finishing e.
Proof.
  unfold poll_step. cbv zeta beta.
  assert (Hcont : forall st s e1 oi1,
    finishing e1 = finishing e ->
    Ret (if bool_decide (state (set_state s e1) = st)
            && (output_size oi1 =? buf_size oi1)
         then (set_state s e1, oi1, Some HSER_POLL_MORE)
         else (set_state s e1, oi1, None)) = Ret (e', oi', r) ->
    finishing e' = finishing e).
  { intros st s e1 oi1 H. destruct (_ && _); intros [= <- <- <-]; exact H. }
  destruct (state e) eqn:Est.
  - intros [= <- <- <-]. reflexivity.
  - apply Hcont. unfold do_indexing. destruct use_index; reflexivity.
  - unfold st_step_search.
    destruct (_ >=? _); esimpl; [apply Hcont; reflexivity|].
    destruct (find_longest_match _ _ _ _ _ _) as [[mp ml]| |]; esimpl;
      try discriminate.
    destruct (mp =? MATCH_NOT_FOUND); apply Hcont; unfold finishing; esimpl;
      [|reflexivity].
    rewrite Z.lor_spec. apply orb_false_r.
  - unfold st_yield_tag_bit, add_tag_bit.
    destruct (can_take_byte oi); esimpl; [|apply Hcont; reflexivity].
    destruct (match_length e =? 0);
      (destruct (push_bits _ _ _ _) as [[e1 oi1]| |] eqn:E; esimpl;
       try discriminate; apply Hcont;
       apply push_bits_finishing in E; exact E).
  - unfold st_yield_literal, push_literal_byte.
    destruct (can_take_byte oi); esimpl; [|apply Hcont; reflexivity].
    destruct (push_bits _ _ _ _) as [[e1 oi1]| |] eqn:E; esimpl;
      try discriminate.
    apply push_bits_finishing in E.
    assert (Hf : finishing
                   (set_flags (u8 (Z.land (flags e1) (Z.lnot FLAG_HAS_LITERAL)))
                      e1) = finishing e).
    { rewrite <- E. unfold finishing. esimpl.
      rewrite u8_bit, Z.land_spec, Z.lnot_spec by lia.
      apply andb_true_r. }
    destruct (negb _); esimpl; apply Hcont; exact Hf.
  - unfold st_yield_br_index.
    destruct (can_take_byte oi); esimpl; [|apply Hcont; reflexivity].
    destruct (push_outgoing_bits e oi) as [[[n e1] oi1]| |] eqn:E; esimpl;
      try discriminate.
    apply push_outgoing_bits_finishing in E.
    destruct (n >? 0); esimpl; apply Hcont; exact E.
  - unfold st_yield_br_length.
    destruct (can_take_byte oi); esimpl; [|apply Hcont; reflexivity].
    destruct (push_outgoing_bits e oi) as [[[n e1] oi1]| |] eqn:E; esimpl;
      try discriminate.
    apply push_outgoing_bits_finishing in E.
    destruct (n >? 0); esimpl; apply Hcont; exact E.
  - unfold st_save_backlog.
    destruct (negb (is_finishing e =? 0)).
    + destruct (negb _); apply Hcont; [|reflexivity].
      unfold finishing. esimpl. rewrite Z.lor_spec. apply orb_false_r.
    + apply Hcont. unfold finishing, save_backlog, backlog_is_partial. esimpl.
      destruct (negb _); esimpl; rewrite Z.lor_spec; apply orb_false_r.
  - unfold st_flush_bit_buffer.
    destruct (bit_index e =? 128); esimpl; [intros [= <- <- <-]; reflexivity|].
    destruct (can_take_byte oi); esimpl; [|intros [= <- <- <-]; reflexivity].
    destruct (push_out oi _); esimpl; try discriminate.
    intros [= <- <- <-]. reflexivity.
  - intros [= <- <- <-]. reflexivity.
Qed.

Lemma poll_loop_finishing use_index fuel : forall e oi r e' oi',
  poll_loop use_index fuel e oi = Ret (r, e', oi') ->
  finishing e' = finishing e.
Proof.
  induction fuel as [|fuel IH]; intros e oi r e' oi'; [discriminate|].
  cbn [poll_loop].
  destruct (poll_step use_index e oi) as [[[e1 oi1] r1]| |] eqn:E; esimpl;
    try discriminate.
  apply poll_step_finishing in E.
  destruct r1; [intros [= <- <- <-]; assumption|].
  intros E2. apply IH in E2. congruence.
Qed.

Lemma poll_finishing use_index fuel e out_buf r e' oi :
  heatshrink_encoder_poll use_index fuel e out_buf = Ret (r, e', oi) ->
  finishing e' = finishing e.
Proof.
  unfold heatshrink_encoder_poll.
  destruct (_ =? 0); [intros [= <- <- <-]; reflexivity|].
  destruct (poll_loop _ _ _ _) as [[[r1 e1] oi1]| |] eqn:E; esimpl;
    try discriminate.
  intros [= <- <- <-]. eapply poll_loop_finishing; eassumption.
Qed.

Lemma sink_finishing e in_buf :
  finishing (heatshrink_encoder_sink e in_buf).2 = finishing e.
Proof.
  unfold heatshrink_encoder_sink.
  destruct (negb (is_finishing e =? 0)); [reflexivity|].
  destruct (negb _); [reflexivity|]. cbn [snd].
  destruct (_ =? _); reflexivity.
Qed.

(** The first [finish] of a stream never answers [HSER_FINISH_DONE]. *)
Lemma finish_more e :
  calm e -> finishing e = false ->
  (heatshrink_encoder_finish e).1 = HSER_FINISH_MORE.
Proof.
  intros Hc Hf. destruct (cm_fin _ Hc Hf) as (_ & Hd & _).
  unfold heatshrink_encoder_finish. esimpl.
  destruct (bool_decide (state e = HSES_NOT_FULL)); esimpl.
  - rewrite bool_decide_false by discriminate. reflexivity.
  - rewrite bool_decide_false by assumption. reflexivity.
Qed.

(** *** The calls keep the encoder calm *)

Lemma reset_calm e : calm (heatshrink_encoder_reset e).
Proof.
  constructor; unfold heatshrink_encoder_reset; calm_fields;
    first [ lia | intros H; contradiction | discriminate
          | intros _; repeat split; try discriminate; reflexivity ].
Qed.

Lemma alloc_calm use_index fresh_index w l e :
  heatshrink_encoder_alloc use_index fresh_index w l = Some e -> calm e.
Proof.
  unfold heatshrink_encoder_alloc.
  destruct (_ || _); [discriminate|]. intros [= <-]. apply reset_calm.
Qed.

Lemma calm_idle e :
  calm e -> state e = HSES_NOT_FULL ->
  match_length e = 0 /\ literal_due e = false.
Proof.
  intros [Hcnt Hlen Hlit Hfin] Hst. split.
  - destruct (Z.eq_dec (match_length e) 0) as [|Hne]; [assumption|].
    destruct (Hlen Hne) as [H1|[H1|H1]]; congruence.
  - destruct (literal_due e) eqn:E; [|reflexivity].
    destruct (Hlit eq_refl) as [H1|[H1 _]]; congruence.
Qed.

Lemma sink_calm e in_buf :
  calm e -> calm (heatshrink_encoder_sink e in_buf).2.
Proof.
  intros Hc. unfold heatshrink_encoder_sink.
  destruct (negb (is_finishing e =? 0)); [assumption|].
  destruct (bool_decide_reflect (state e = HSES_NOT_FULL)) as [Hst|Hst];
    [|assumption].
  cbn [negb snd]. destruct (calm_idle e Hc Hst) as [Hml Hdue].
  destruct Hc as [Hcnt Hlen Hlit Hfin].
  destruct (_ =? _); constructor; calm_fields; auto;
    first [ intros H; contradiction
          | rewrite Hdue; discriminate
          | intros H; destruct (Hfin H) as (_ & _ & ?);
            repeat split; try discriminate; assumption ].
Qed.

Lemma finish_calm e : calm e -> calm (heatshrink_encoder_finish e).2.
Proof.
  intros Hc. unfold heatshrink_encoder_finish. cbn [snd]. esimpl.
  assert (Hfin1 : Z.testbit (Z.lor (flags e) FLAG_IS_FINISHING) 0 = true)
    by (rewrite Z.lor_spec; apply orb_true_r).
  assert (Hbit1 : Z.testbit (Z.lor (flags e) FLAG_IS_FINISHING) 1
                  = Z.testbit (flags e) 1)
    by (rewrite Z.lor_spec; apply orb_false_r).
  destruct (bool_decide_reflect (state e = HSES_NOT_FULL)) as [Hst|Hst].
  - destruct (calm_idle e Hc Hst) as [Hml Hdue].
    destruct Hc as [Hcnt Hlen Hlit Hfin].
    constructor; calm_fields; rewrite ?Hfin1, ?Hbit1; auto;
      first [ intros H; contradiction
            | rewrite Hdue; discriminate | discriminate ].
  - destruct Hc as [Hcnt Hlen Hlit Hfin].
    constructor; calm_fields; rewrite ?Hfin1, ?Hbit1; auto; discriminate.
Qed.

Lemma poll_calm use_index fuel e out_buf r e' oi :
  ewf e -> calm e ->
  heatshrink_encoder_poll use_index fuel e out_buf = Ret (r, e', oi) ->
  calm e'.
Proof.
  intros Hwf Hc. unfold heatshrink_encoder_poll.
  destruct (_ =? 0); [intros [= <- <- <-]; assumption|].
  destruct (poll_loop_turn use_index fuel e (new_output_info out_buf) Hwf Hc
              (new_output_info_ok out_buf))
    as [->|(r1 & e1 & oi1 & -> & _ & Hc1 & _)]; [discriminate|].
  esimpl. intros [= <- <- <-]. assumption.
Qed.

Lemma reachable_calm use_index e : reachable use_index e -> calm e.
Proof.
  induction 1 as [fresh_index w l e Ha|e _ IH|e in_buf _ IH|e _ IH
                 |e fuel out_buf r e' oi Hr IH Hp].
  - eapply alloc_calm; eassumption.
  - apply reset_calm.
  - now apply sink_calm.
  - now apply finish_calm.
  - eapply poll_calm; [eapply reachable_ewf| |]; eassumption.
Qed.

(** *** A poll uses up the potential of the encoder *)

Lemma poll_loop_drop use_index fuel : forall e oi r e' oi',
  ewf e -> calm e -> oi_ok oi ->
  poll_loop use_index fuel e oi = Ret (r, e', oi') ->
  potential e' <= potential e /\
  (r = HSER_POLL_MORE ->
   potential e' < potential e \/ output_size oi = buf_size oi).
Proof.
  induction fuel as [|fuel IH]; intros e oi r e' oi' Hwf Hc Hoi;
    [discriminate|].
  cbn [poll_loop].
  destruct (poll_step_turn use_index e oi Hwf Hc Hoi)
    as [[_ E]|([[e1 oi1] r1] & E & Hc1 & Hoi1 & Hbs1 & Hle & Hr)];
    [rewrite E; discriminate|].
  pose proof (poll_step_ewf _ _ _ _ _ _ Hwf E) as Hwf1.
  rewrite E. cbn [mbind outcome_bind fst snd] in *.
  destruct r1 as [res|].
  - intros [= <- <- <-]. split; [assumption|].
    intros ->. destruct Hr as [_ Hr]. exact Hr.
  - intros E2. destruct (IH _ _ _ _ _ Hwf1 Hc1 Hoi1 E2) as [Hle2 Hm].
    split; [lia|]. intros _. left. lia.
Qed.

Lemma poll_drop use_index fuel e out_buf r e' oi :
  ewf e -> calm e ->
  heatshrink_encoder_poll use_index fuel e out_buf = Ret (r, e', oi) ->
  potential e' <= potential e /\
  (r = HSER_POLL_MORE -> potential e' < potential e).
Proof.
  intros Hwf Hc. unfold heatshrink_encoder_poll.
  destruct (Z.eqb_spec (Z.of_nat (length out_buf)) 0) as [Hz|Hnz];
    [intros [= <- <- <-]; split; [lia|discriminate]|].
  destruct (poll_loop _ _ _ _) as [[[r1 e1] oi1]| |] eqn:E; esimpl;
    try discriminate.
  intros [= <- <- <-].
  destruct (poll_loop_drop _ _ _ _ _ _ _ Hwf Hc (new_output_info_ok out_buf) E)
    as [Hle Hm].
  split; [assumption|]. intros Hr. destruct (Hm Hr) as [H|H]; [assumption|].
  cbn in H. lia.
Qed.

(** *** Room for input

    With a lookahead shorter than the window, an encoder that waits for
    input has room for some: what [save_backlog] keeps is shorter than
    the lookahead. *)

Record roomy (e : heatshrink_encoder) : Prop := mk_roomy {
  rm_look : lookahead_sz2 e < window_sz2 e;
  rm_idle : state e = HSES_NOT_FULL -> input_size e < 2 ^ window_sz2 e;
  rm_backlog : state e = HSES_SAVE_BACKLOG ->
               input_size e - match_scan_index e < 2 ^ window_sz2 e
}.

Lemma roomy_busy e s e1 :
  lookahead_sz2 e1 = lookahead_sz2 e -> window_sz2 e1 = window_sz2 e ->
  s <> HSES_NOT_FULL -> s <> HSES_SAVE_BACKLOG ->
  roomy e -> roomy (set_state s e1).
Proof.
  intros Hl Hw Hs1 Hs2 [Hlook _ _].
  constructor; esimpl; [congruence|intros; contradiction..].
Qed.

Lemma bits_only_sizes e e1 :
  bits_only e e1 ->
  lookahead_sz2 e1 = lookahead_sz2 e /\ window_sz2 e1 = window_sz2 e.
Proof. unfold bits_only. intros ->. split; reflexivity. Qed.

Lemma poll_step_roomy use_index e oi e' oi' r :
  ewf e -> roomy e ->
  poll_step use_index e oi = Ret (e', oi', r) -> roomy e'.
Proof.
  intros Hwf Hr. unfold poll_step. cbv zeta beta.
  assert (Hcont : forall st s e1 oi1,
    roomy (set_state s e1) ->
    Ret (if bool_decide (state (set_state s e1) = st)
            && (output_size oi1 =? buf_size oi1)
         then (set_state s e1, oi1, Some HSER_POLL_MORE)
         else (set_state s e1, oi1, None)) = Ret (e', oi', r) ->
    roomy e').
  { intros st s e1 oi1 H. destruct (_ && _); intros [= <- <- <-]; exact H. }
  assert (Hstay : roomy (set_state (state e) e))
    by (rewrite set_state_same; exact Hr).
  pose proof (window_bounds e Hwf) as HpW.
  pose proof (lookahead_bounds e Hwf) as HpL.
  destruct (state e) eqn:Est.
  - intros [= <- <- <-]. assumption.
  - apply Hcont. apply (roomy_busy e); try discriminate; try assumption;
      unfold do_indexing; destruct use_index; reflexivity.
  - unfold st_step_search.
    rewrite (lookahead_size_eq e Hwf).
    destruct (Z.geb_spec (match_scan_index e)
                (input_size e
                 - (if negb (is_finishing e =? 0) then 0
                    else 2 ^ lookahead_sz2 e))) as [Hge|Hlt]; esimpl.
    + apply Hcont. destruct Hr as [Hlook _ _].
      constructor; esimpl; [assumption|discriminate|]. intros _.
      assert (2 ^ lookahead_sz2 e < 2 ^ window_sz2 e)
        by (apply Z.pow_lt_mono_r; destruct Hwf; lia).
      destruct (negb _); lia.
    + destruct (find_longest_match _ _ _ _ _ _) as [[mp ml]| |]; esimpl;
        try discriminate.
      destruct (mp =? MATCH_NOT_FOUND); apply Hcont;
        apply (roomy_busy e); try discriminate; try assumption; reflexivity.
  - unfold st_yield_tag_bit, add_tag_bit.
    destruct (can_take_byte oi); esimpl; [|apply Hcont; exact Hstay].
    destruct (match_length e =? 0);
      (destruct (push_bits _ _ _ _) as [[e1 oi1]| |] eqn:E; esimpl;
       try discriminate; apply Hcont;
       apply push_bits_ewf in E; destruct E as [E _];
       apply bits_only_sizes in E; destruct E;
       apply (roomy_busy e); try discriminate; assumption).
  - unfold st_yield_literal, push_literal_byte.
    destruct (can_take_byte oi); esimpl; [|apply Hcont; exact Hstay].
    destruct (push_bits _ _ _ _) as [[e1 oi1]| |] eqn:E; esimpl;
      try discriminate.
    apply push_bits_ewf in E. destruct E as [E _].
    apply bits_only_sizes in E. destruct E.
    destruct (negb _); esimpl; [apply Hcont|destruct (_ >? 0); apply Hcont];
      apply (roomy_busy e); try discriminate; assumption.
  - unfold st_yield_br_index.
    destruct (can_take_byte oi); esimpl; [|apply Hcont; exact Hstay].
    destruct (push_outgoing_bits e oi) as [[[n e1] oi1]| |] eqn:E; esimpl;
      try discriminate.
    apply push_outgoing_bits_ewf in E. destruct E as (eb & E & _ & He1).
    apply bits_only_sizes in E. destruct E as [El Ew].
    assert (lookahead_sz2 e1 = lookahead_sz2 e)
      by (rewrite He1; exact El).
    assert (window_sz2 e1 = window_sz2 e) by (rewrite He1; exact Ew).
    destruct (n >? 0); esimpl; apply Hcont;
      apply (roomy_busy e); try discriminate; assumption.
  - unfold st_yield_br_length.
    destruct (can_take_byte oi); esimpl; [|apply Hcont; exact Hstay].
    destruct (push_outgoing_bits e oi) as [[[n e1] oi1]| |] eqn:E; esimpl;
      try discriminate.
    apply push_outgoing_bits_ewf in E. destruct E as (eb & E & _ & He1).
    apply bits_only_sizes in E. destruct E as [El Ew].
    assert (lookahead_sz2 e1 = lookahead_sz2 e)
      by (rewrite He1; exact El).
    assert (window_sz2 e1 = window_sz2 e) by (rewrite He1; exact Ew).
    destruct (n >? 0); esimpl; apply Hcont;
      apply (roomy_busy e); try discriminate; assumption.
  - unfold st_save_backlog.
    destruct (negb (is_finishing e =? 0)).
    + destruct (negb _); apply Hcont;
        apply (roomy_busy e); try discriminate; try assumption; reflexivity.
    + apply Hcont. destruct Hr as [Hlook _ Hb]. specialize (Hb Est).
      assert (Hsc : 0 <= match_scan_index e <= input_size e)
        by (destruct Hwf; lia).
      assert (Hsz : input_size e <= 2 ^ window_sz2 e) by (destruct Hwf; lia).
      unfold save_backlog, backlog_is_partial.
      rewrite (input_buffer_size_eq e Hwf).
      rewrite (u16_small (2 ^ window_sz2 e - match_scan_index e)) by lia.
      constructor; destruct (negb _); esimpl; try assumption;
        try discriminate; intros _;
        rewrite u16_small; lia.
  - unfold st_flush_bit_buffer.
    destruct (bit_index e =? 128); esimpl;
      [intros [= <- <- <-]; apply (roomy_busy e); try discriminate;
       try assumption; reflexivity|].
    destruct (can_take_byte oi); esimpl;
      [|intros [= <- <- <-]; apply (roomy_busy e); try discriminate;
        try assumption; reflexivity].
    destruct (push_out oi _); esimpl; try discriminate.
    intros [= <- <- <-]. apply (roomy_busy e); try discriminate;
      try assumption; reflexivity.
  - intros [= <- <- <-]. assumption.
Qed.

Lemma poll_loop_roomy use_index fuel : forall e oi r e' oi',
  ewf e -> roomy e ->
  poll_loop use_index fuel e oi = Ret (r, e', oi') -> roomy e'.
Proof.
  induction fuel as [|fuel IH]; intros e oi r e' oi' Hwf Hr; [discriminate|].
  cbn [poll_loop].
  destruct (poll_step use_index e oi) as [[[e1 oi1] r1]| |] eqn:E; esimpl;
    try discriminate.
  pose proof (poll_step_ewf _ _ _ _ _ _ Hwf E) as Hwf1.
  apply (poll_step_roomy _ _ _ _ _ _ Hwf Hr) in E.
  destruct r1; [intros [= <- <- <-]; assumption|].
  apply IH; assumption.
Qed.

Lemma poll_roomy use_index fuel e out_buf r e' oi :
  ewf e -> roomy e ->
  heatshrink_encoder_poll use_index fuel e out_buf = Ret (r, e', oi) ->
  roomy e'.
Proof.
  intros Hwf Hr. unfold heatshrink_encoder_poll.
  destruct (_ =? 0); [intros [= <- <- <-]; assumption|].
  destruct (poll_loop _ _ _ _) as [[[r1 e1] oi1]| |] eqn:E; esimpl;
    try discriminate.
  intros [= <- <- <-]. eapply poll_loop_roomy; eassumption.
Qed.

Lemma alloc_roomy use_index fresh_index w l e :
  heatshrink_encoder_alloc use_index fresh_index w l = Some e ->
  u8 l < u8 w -> roomy e /\ state e = HSES_NOT_FULL.
Proof.
  unfold heatshrink_encoder_alloc.
  destruct (_ || _); [discriminate|]. intros [= <-] Hlw.
  split; [|reflexivity].
  constructor; unfold heatshrink_encoder_reset; esimpl;
    [assumption|intros _; apply Z.pow_pos_nonneg; unfold u8;
     [lia|apply Z.mod_pos_bound; lia]|discriminate].
Qed.

(** An encoder that waits for input, with room for some, takes at least
    one byte of any input, and stays roomy. *)
Lemma sink_progress e in_buf :
  ewf e -> roomy e -> state e = HSES_NOT_FULL -> finishing e = false ->
  in_buf <> [] ->
  exists c e',
    heatshrink_encoder_sink e in_buf = (HSER_SINK_OK, Some c, e') /\
    1 <= c <= Z.of_nat (length in_buf) /\ c < 65536 /\ roomy e'.
Proof.
  intros Hwf Hr Hst Hfin Hne.
  assert (Hf0 : is_finishing e = 0).
  { pose proof (is_finishing_bit e) as H. rewrite Hfin in H.
    apply Z.eqb_eq. exact H. }
  rewrite (sink_accepts e in_buf Hwf Hst Hf0). cbv zeta.
  pose proof (window_bounds e Hwf) as HpW.
  destruct Hr as [Hlook Hidle Hb]. specialize (Hidle Hst).
  assert (0 < Z.of_nat (length in_buf)) by (destruct in_buf; [congruence|cbn; lia]).
  assert (Hw : 2 ^ window_sz2 e <= 32768).
  { change 32768 with (2 ^ 15). apply Z.pow_le_mono_r; destruct Hwf; lia. }
  assert (Hsz : 0 <= input_size e) by (destruct Hwf; lia).
  eexists _, _; split; [reflexivity|].
  split; [lia|]. split; [lia|].
  destruct (Z.eqb_spec (Z.min (2 ^ window_sz2 e - input_size e)
                          (Z.of_nat (length in_buf)))
              (2 ^ window_sz2 e - input_size e)) as [Heq|Hneq].
  - constructor; esimpl; [assumption|discriminate|discriminate].
  - constructor; esimpl; [assumption|lia|].
    rewrite Hst. discriminate.
Qed.

(** *** The poll, given the turns it needs *)

Lemma encoder_poll_more_fuel use_index fuel e out_buf x :
  heatshrink_encoder_poll use_index fuel e out_buf = Ret x ->
  forall fuel', (fuel <= fuel')%nat ->
  heatshrink_encoder_poll use_index fuel' e out_buf = Ret x.
Proof.
  unfold heatshrink_encoder_poll. intros H fuel' Hle.
  destruct (_ =? 0); [exact H|].
  destruct (poll_loop use_index fuel e _) as [y| |] eqn:E; esimpl;
    try discriminate.
  rewrite (EncoderBits.poll_loop_more_fuel _ _ _ _ _ E _ Hle). exact H.
Qed.

Lemma poll_more_or_empty e out_buf :
  ewf e -> calm e -> out_buf <> [] ->
  exists r e' o,
    heatshrink_encoder_poll false (poll_fuel e) e out_buf
    = Ret (r, e', Some o) /\
    length (buf o) = length out_buf /\
    0 <= output_size o <= Z.of_nat (length out_buf) /\
    (r = HSER_POLL_MORE \/
     (r = HSER_POLL_EMPTY /\
      (state e' = HSES_NOT_FULL \/ state e' = HSES_FLUSH_BITS \/
       state e' = HSES_DONE))).
Proof.
  intros Hwf Hc Hne. unfold heatshrink_encoder_poll.
  destruct (Z.eqb_spec (Z.of_nat (length out_buf)) 0) as [Hz|_];
    [destruct out_buf; [congruence|cbn in Hz; lia]|].
  pose proof (poll_loop_fuelled (poll_fuel e) e (new_output_info out_buf)
                Hwf Hc (new_output_info_ok out_buf)) as Hf.
  destruct (poll_loop_turn false (poll_fuel e) e (new_output_info out_buf)
              Hwf Hc (new_output_info_ok out_buf))
    as [E|(r1 & e1 & oi1 & -> & _ & _ & [Hl Hp Hu] & Hbs & Hr)].
  - exfalso. apply Hf; [|exact E]. unfold poll_fuel.
    pose proof (encoder_potential_nonneg e Hwf Hc). lia.
  - esimpl. eexists _, _, _; split; [reflexivity|].
    cbn in Hbs. split; [lia|]. split; [lia|].
    destruct Hr as [[-> _]|[-> Hs]]; auto.
Qed.

(** *** The sizes of an encoder are fixed when it is allocated *)

Definition same_sizes (e e' : heatshrink_encoder) : Prop :=
  lookahead_sz2 e' = lookahead_sz2 e /\ window_sz2 e' = window_sz2 e.

Lemma poll_step_sizes use_index e oi e' oi' r :
  poll_step use_index e oi = Ret (e', oi', r) -> same_sizes e e'.
Proof.
  unfold poll_step. cbv zeta beta.
  assert (Hcont : forall st s e1 oi1,
    same_sizes e e1 ->
    Ret (if bool_decide (state (set_state s e1) = st)
            && (output_size oi1 =? buf_size oi1)
         then (set_state s e1, oi1, Some HSER_POLL_MORE)
         else (set_state s e1, oi1, None)) = Ret (e', oi', r) ->
    same_sizes e e').
  { intros st s e1 oi1 H. destruct (_ && _); intros [= <- <- <-]; exact H. }
  assert (Hrefl : same_sizes e e) by (split; reflexivity).
  destruct (state e) eqn:Est.
  - intros [= <- <- <-]. exact Hrefl.
  - apply Hcont. unfold do_indexing. destruct use_index; exact Hrefl.
  - unfold st_step_search.
    destruct (_ >=? _); esimpl; [apply Hcont; exact Hrefl|].
    destruct (find_longest_match _ _ _ _ _ _) as [[mp ml]| |]; esimpl;
      try discriminate.
    destruct (mp =? MATCH_NOT_FOUND); apply Hcont; exact Hrefl.
  - unfold st_yield_tag_bit, add_tag_bit.
    destruct (can_take_byte oi); esimpl; [|apply Hcont; exact Hrefl].
    destruct (match_length e =? 0);
      (destruct (push_bits _ _ _ _) as [[e1 oi1]| |] eqn:E; esimpl;
       try discriminate; apply Hcont;
       apply push_bits_ewf in E; destruct E as [E _];
       apply bits_only_sizes in E; exact E).
  - unfold st_yield_literal, push_literal_byte.
    destruct (can_take_byte oi); esimpl; [|apply Hcont; exact Hrefl].
    destruct (push_bits _ _ _ _) as [[e1 oi1]| |] eqn:E; esimpl;
      try discriminate.
    apply push_bits_ewf in E. destruct E as [E _].
    apply bits_only_sizes in E.
    destruct (negb _); esimpl; [apply Hcont|destruct (_ >? 0); apply Hcont];
      exact E.
  - unfold st_yield_br_index.
    destruct (can_take_byte oi); esimpl; [|apply Hcont; exact Hrefl].
    destruct (push_outgoing_bits e oi) as [[[n e1] oi1]| |] eqn:E; esimpl;
      try discriminate.
    apply push_outgoing_bits_ewf in E. destruct E as (eb & E & _ & He1).
    apply bits_only_sizes in E.
    assert (same_sizes e e1) by (rewrite He1; exact E).
    destruct (n >? 0); esimpl; apply Hcont; assumption.
  - unfold st_yield_br_length.
    destruct (can_take_byte oi); esimpl; [|apply Hcont; exact Hrefl].
    destruct (push_outgoing_bits e oi) as [[[n e1] oi1]| |] eqn:E; esimpl;
      try discriminate.
    apply push_outgoing_bits_ewf in E. destruct E as (eb & E & _ & He1).
    apply bits_only_sizes in E.
    assert (same_sizes e e1) by (rewrite He1; exact E).
    destruct (n >? 0); esimpl; apply Hcont; assumption.
  - unfold st_save_backlog.
    destruct (negb (is_finishing e =? 0)).
    + destruct (negb _); apply Hcont; exact Hrefl.
    + apply Hcont. unfold save_backlog, backlog_is_partial. esimpl.
      destruct (negb _); exact Hrefl.
  - unfold st_flush_bit_buffer.
    destruct (bit_index e =? 128); esimpl; [intros [= <- <- <-]; exact Hrefl|].
    destruct (can_take_byte oi); esimpl; [|intros [= <- <- <-]; exact Hrefl].
    destruct (push_out oi _); esimpl; try discriminate.
    intros [= <- <- <-]. exact Hrefl.
  - intros [= <- <- <-]. exact Hrefl.
Qed.

Lemma poll_loop_sizes use_index fuel : forall e oi r e' oi',
  poll_loop use_index fuel e oi = Ret (r, e', oi') -> same_sizes e e'.
Proof.
  induction fuel as [|fuel IH]; intros e oi r e' oi'; [discriminate|].
  cbn [poll_loop].
  destruct (poll_step use_index e oi) as [[[e1 oi1] r1]| |] eqn:E; esimpl;
    try discriminate.
  apply poll_step_sizes in E.
  destruct r1; [intros [= <- <- <-]; assumption|].
  intros E2. apply IH in E2. destruct E, E2. split; congruence.
Qed.

Lemma poll_sizes use_index fuel e out_buf r e' oi :
  heatshrink_encoder_poll use_index fuel e out_buf = Ret (r, e', oi) ->
  same_sizes e e'.
Proof.
  unfold heatshrink_encoder_poll.
  destruct (_ =? 0); [intros [= <- <- <-]; split; reflexivity|].
  destruct (poll_loop _ _ _ _) as [[[r1 e1] oi1]| |] eqn:E; esimpl;
    try discriminate.
  intros [= <- <- <-]. eapply poll_loop_sizes; eassumption.
Qed.

Lemma sink_sizes e in_buf : same_sizes e (heatshrink_encoder_sink e in_buf).2.
Proof.
  unfold heatshrink_encoder_sink.
  destruct (negb (is_finishing e =? 0)); [split; reflexivity|].
  destruct (negb _); [split; reflexivity|]. cbn [snd].
  destruct (_ =? _); split; reflexivity.
Qed.

Lemma finish_sizes e : same_sizes e (heatshrink_encoder_finish e).2.
Proof.
  unfold heatshrink_encoder_finish. cbn [snd].
  destruct (bool_decide _); split; reflexivity.
Qed.

(** *** The calls keep room for input *)

Lemma reset_roomy e :
  ewf e -> lookahead_sz2 e < window_sz2 e -> roomy (heatshrink_encoder_reset e).
Proof.
  intros Hwf Hl. pose proof (window_bounds e Hwf).
  constructor; unfold heatshrink_encoder_reset; esimpl;
    [assumption|intros _; lia|discriminate].
Qed.

Lemma sink_roomy e in_buf :
  ewf e -> roomy e -> roomy (heatshrink_encoder_sink e in_buf).2.
Proof.
  intros Hwf Hr.
  destruct (Z.eq_dec (is_finishing e) 0) as [Hfin|Hfin];
    [|unfold heatshrink_encoder_sink;
      destruct (Z.eqb_spec (is_finishing e) 0); [contradiction|exact Hr]].
  destruct (bool_decide_reflect (state e = HSES_NOT_FULL)) as [Hst|Hst];
    [|unfold heatshrink_encoder_sink; rewrite Hfin;
      rewrite bool_decide_false by assumption; exact Hr].
  rewrite (sink_accepts e in_buf Hwf Hst Hfin). cbv zeta. cbn [snd].
  destruct Hr as [Hlook Hidle Hb]. specialize (Hidle Hst).
  destruct (Z.eqb_spec (Z.min (2 ^ window_sz2 e - input_size e)
                          (Z.of_nat (length in_buf)))
              (2 ^ window_sz2 e - input_size e)) as [Heq|Hneq].
  - constructor; esimpl; [assumption|discriminate|discriminate].
  - constructor; esimpl; [assumption|lia|].
    rewrite Hst. discriminate.
Qed.

Lemma finish_roomy e : roomy e -> roomy (heatshrink_encoder_finish e).2.
Proof.
  intros [Hlook Hidle Hb]. unfold heatshrink_encoder_finish. cbn [snd]. esimpl.
  destruct (bool_decide_reflect (state e = HSES_NOT_FULL)) as [Hst|Hst];
    constructor; esimpl; try assumption; try discriminate.
Qed.

Lemma reachable_roomy use_index e :
  reachable use_index e -> lookahead_sz2 e < window_sz2 e -> roomy e.
Proof.
  induction 1 as [fresh_index w l e Ha|e Hr IH|e in_buf Hr IH|e Hr IH
                 |e fuel out_buf r e' oi Hr IH Hp]; intros Hl.
  - apply (alloc_roomy _ _ _ _ _ Ha).
    revert Ha Hl. unfold heatshrink_encoder_alloc.
    destruct (_ || _); [discriminate|]. intros [= <-] Hl. exact Hl.
  - apply reset_roomy; [eapply reachable_ewf; eassumption|exact Hl].
  - destruct (sink_sizes e in_buf) as [E1 E2].
    apply sink_roomy; [eapply reachable_ewf; eassumption|].
    apply IH. lia.
  - destruct (finish_sizes e) as [E1 E2]. apply finish_roomy, IH. lia.
  - destruct (poll_sizes _ _ _ _ _ _ _ Hp) as [E1 E2].
    apply (poll_roomy _ _ _ _ _ _ _ (reachable_ewf _ _ Hr) (IH ltac:(lia)) Hp).
Qed.

(** X17. An encoder whose lookahead is shorter than its window never
    stalls: whenever it accepts input at all (it waits in
    [HSES_NOT_FULL] and [finish] was not called), whatever calls led
    there, a [sink] of one byte or more takes at least one. *)
Theorem encoder_sink_takes_a_byte (use_index : bool)
    (e : heatshrink_encoder) (in_buf : list Z) :
  reachable use_index e -> lookahead_sz2 e < window_sz2 e ->
  state e = HSES_NOT_FULL -> is_finishing e = 0 -> in_buf <> [] ->
  exists c e',
    heatshrink_encoder_sink e in_buf = (HSER_SINK_OK, Some c, e') /\
    1 <= c <= Z.of_nat (length in_buf).
Proof.
  intros Hr Hl Hst Hfin Hne.
  pose proof (reachable_ewf _ _ Hr) as Hwf.
  assert (Hf : finishing e = false).
  { pose proof (is_finishing_bit e) as H. rewrite Hfin in H.
    destruct (finishing e); [cbn in H; discriminate H|reflexivity]. }
  destruct (sink_progress e in_buf Hwf (reachable_roomy _ _ Hr Hl) Hst Hf Hne)
    as (c & e' & E & Hc & _). eauto.
Qed.

Lemma encoder_sink_takes_a_byte_witness :
  exists c e',
    heatshrink_encoder_sink
      (heatshrink_encoder_sink (fresh_encoder false [] 4 3) [1; 2; 3]).2
      [4; 5]
    = (HSER_SINK_OK, Some c, e') /\
    1 <= c <= Z.of_nat (length [4; 5]).
Proof.
  apply (encoder_sink_takes_a_byte false
           (heatshrink_encoder_sink (fresh_encoder false [] 4 3) [1; 2; 3]).2
           [4; 5]).
  - apply reach_sink. apply (reach_alloc false [] 4 3). reflexivity.
  - vm_compute. reflexivity.
  - reflexivity.
  - reflexivity.
  - discriminate.
Defined.

(** *** The poll of an encoder a caller can hold *)

Lemma poll_output_ok use_index fuel e out_buf r e' o :
  ewf e -> calm e ->
  heatshrink_encoder_poll use_index fuel e out_buf = Ret (r, e', Some o) ->
  oi_ok o /\ buf_size o = Z.of_nat (length out_buf).
Proof.
  intros Hwf Hc. unfold heatshrink_encoder_poll.
  destruct (_ =? 0); [discriminate|].
  destruct (poll_loop_turn use_index fuel e (new_output_info out_buf) Hwf Hc
              (new_output_info_ok out_buf))
    as [->|(r1 & e1 & oi1 & -> & _ & _ & Hoi & Hbs & _)]; [discriminate|].
  esimpl. intros [= <- <- <-]. split; [assumption|exact Hbs].
Qed.

(** X7. A poll of the encoder never stores outside the output buffer,
    however many turns it is given and whatever the build; built without
    the search index, a poll given [poll_fuel] turns returns. *)
Theorem encoder_poll_returns (use_index : bool) (e : heatshrink_encoder)
    (out_buf : list Z) :
  reachable use_index e ->
  (forall fuel, heatshrink_encoder_poll use_index fuel e out_buf <> OutOfBounds) /\
  (use_index = false ->
   exists r e' oi,
     heatshrink_encoder_poll false (poll_fuel e) e out_buf = Ret (r, e', oi)).
Proof.
  intros Hr. pose proof (reachable_ewf _ _ Hr) as Hwf.
  pose proof (reachable_calm _ _ Hr) as Hc. split.
  - intros fuel. unfold heatshrink_encoder_poll.
    destruct (_ =? 0); [discriminate|].
    destruct (poll_loop_turn use_index fuel e (new_output_info out_buf) Hwf Hc
                (new_output_info_ok out_buf))
      as [->|(r1 & e1 & oi1 & -> & _)]; discriminate.
  - intros _. unfold heatshrink_encoder_poll.
    destruct (_ =? 0); [eauto|].
    pose proof (poll_loop_fuelled (poll_fuel e) e (new_output_info out_buf)
                  Hwf Hc (new_output_info_ok out_buf)) as Hf.
    destruct (poll_loop_turn false (poll_fuel e) e (new_output_info out_buf)
                Hwf Hc (new_output_info_ok out_buf))
      as [E|(r1 & e1 & oi1 & -> & _)].
    + exfalso. apply Hf; [|exact E]. unfold poll_fuel.
      pose proof (encoder_potential_nonneg e Hwf Hc). lia.
    + esimpl. eauto.
Qed.

Lemma encoder_poll_returns_witness :
  (forall fuel,
     heatshrink_encoder_poll false fuel one_byte_finished [0; 0; 0; 0]
     <> OutOfBounds) /\
  (false = false ->
   exists r e' oi,
     heatshrink_encoder_poll false (poll_fuel one_byte_finished)
       one_byte_finished [0; 0; 0; 0] = Ret (r, e', oi)).
Proof.
  apply (encoder_poll_returns false one_byte_finished [0; 0; 0; 0]).
  apply reach_finish, reach_sink.
  apply (reach_alloc false [] 8 7). reflexivity.
Defined.

(** X8. What a poll answers.  [HSER_POLL_ERROR_MISUSE] is the answer to
    an output buffer of no bytes, and leaves the encoder as it was.
    [HSER_POLL_MORE] is given only with the output buffer filled to its
    last byte; [HSER_POLL_EMPTY] only in [HSES_NOT_FULL],
    [HSES_FLUSH_BITS] or [HSES_DONE].  The count stored to
    [*output_size] never exceeds the size of the buffer. *)
Theorem encoder_poll_answers (use_index : bool) (fuel : nat)
    (e : heatshrink_encoder) (out_buf : list Z)
    (r : HEATSHRINK_ENCODER_POLL_RES) (e' : heatshrink_encoder)
    (oi : option output_info) :
  reachable use_index e ->
  heatshrink_encoder_poll use_index fuel e out_buf = Ret (r, e', oi) ->
  (r = HSER_POLL_ERROR_MISUSE /\ out_buf = [] /\ e' = e /\ oi = None) \/
  (exists o, oi = Some o /\ out_buf <> [] /\
     length (buf o) = length out_buf /\
     0 <= output_size o <= Z.of_nat (length out_buf) /\
     ((r = HSER_POLL_MORE /\ output_size o = Z.of_nat (length out_buf)) \/
      (r = HSER_POLL_EMPTY /\
       (state e' = HSES_NOT_FULL \/ state e' = HSES_FLUSH_BITS \/
        state e' = HSES_DONE)))).
Proof.
  intros Hr. pose proof (reachable_ewf _ _ Hr) as Hwf.
  pose proof (reachable_calm _ _ Hr) as Hc.
  unfold heatshrink_encoder_poll.
  destruct (Z.eqb_spec (Z.of_nat (length out_buf)) 0) as [Hz|Hnz].
  - intros [= <- <- <-]. left. repeat split.
    destruct out_buf; [reflexivity|cbn [length] in Hz; lia].
  - destruct (poll_loop_turn use_index fuel e (new_output_info out_buf) Hwf Hc
                (new_output_info_ok out_buf))
      as [->|(r1 & e1 & oi1 & -> & _ & _ & [Hl Hp Hu] & Hbs & Hcode)];
      [discriminate|].
    esimpl. intros [= <- <- <-]. right. exists oi1.
    cbn [new_output_info buf_size] in Hbs.
    split; [reflexivity|]. split; [intros ->; cbn [length] in Hnz; lia|].
    split; [lia|]. split; [lia|].
    destruct Hcode as [[-> Hfull]|[-> Hs]]; [left|right]; split; auto. lia.
Qed.

Lemma encoder_poll_answers_witness :
  exists r e' oi,
    heatshrink_encoder_poll false 40 one_byte_finished [0; 0; 0; 0]
    = Ret (r, e', oi) /\
    ((r = HSER_POLL_ERROR_MISUSE /\ [0; 0; 0; 0] = @nil Z /\
      e' = one_byte_finished /\ oi = None) \/
     (exists o, oi = Some o /\ [0; 0; 0; 0] <> @nil Z /\
        length (buf o) = length [0; 0; 0; 0] /\
        0 <= output_size o <= Z.of_nat (length [0; 0; 0; 0]) /\
        ((r = HSER_POLL_MORE /\
          output_size o = Z.of_nat (length [0; 0; 0; 0])) \/
         (r = HSER_POLL_EMPTY /\
          (state e' = HSES_NOT_FULL \/ state e' = HSES_FLUSH_BITS \/
           state e' = HSES_DONE))))).
Proof.
  destruct (heatshrink_encoder_poll false 40 one_byte_finished [0; 0; 0; 0])
    as [[[r e'] oi]| |] eqn:E; [|vm_compute in E; discriminate
                                |vm_compute in E; discriminate].
  exists r, e', oi. split; [reflexivity|].
  apply (encoder_poll_answers false 40 one_byte_finished [0; 0; 0; 0] r e' oi);
    [|exact E].
  apply reach_finish, reach_sink.
  apply (reach_alloc false [] 8 7). reflexivity.
Defined.

End EncoderCalls.

(** * The wire format, on the two sides *)

Module WireFacts.
Import Bits.

(** X10. [get_bits] takes [count] bits off the front of the bits the
    decoder has still to read (those left of the current byte, then the
    unread input bytes), and returns them as a number, most significant
    bit first. *)
Theorem get_bits_reads_msb_first (h : Decoder.heatshrink_decoder)
    (count : Z) (bs rest : list bool) :
  DecoderFacts.wf h -> DecoderBits.dbits h = bs ++ rest ->
  Z.of_nat (length bs) = count -> 1 <= count <= 15 ->
  Decoder.bit_accumulator h = 0 ->
  exists h',
    Decoder.get_bits h count = Ret (bits_val bs, h') /\
    DecoderBits.dbits h' = rest /\ DecoderFacts.wf h' /\
    Decoder.bit_accumulator h' = 0.
Proof.
  intros Hwf Hd Hlen Hc Hacc.
  destruct (DecoderBits.get_bits_dbits h count bs rest Hwf Hd Hlen Hc Hacc)
    as (h' & E & Hwf' & _ & Hd' & Hacc' & _).
  eauto.
Qed.

(** A decoder for (W, L) = (8, 4) after a sink of the two bytes B0 80. *)
Definition decoder_b0_80 : Decoder.heatshrink_decoder :=
  match Decoder.heatshrink_decoder_sink (DecoderFacts.fresh_decoder 64 8 4)
          [176; 128] with
  | Ret (_, _, h) => h
  | _ => DecoderFacts.fresh_decoder 64 8 4
  end.

Lemma get_bits_reads_msb_first_witness :
  exists h',
    Decoder.get_bits decoder_b0_80 3 = Ret (5, h') /\
    DecoderBits.dbits h'
    = [true; false; false; false; false] ++ byte_bits 128 /\
    DecoderFacts.wf h' /\ Decoder.bit_accumulator h' = 0.
Proof.
  apply (get_bits_reads_msb_first decoder_b0_80 3 [true; false; true]
           ([true; false; false; false; false] ++ byte_bits 128)).
  - constructor; vm_compute;
      first [ reflexivity | split; discriminate | discriminate | tauto ].
  - reflexivity.
  - reflexivity.
  - lia.
  - reflexivity.
Defined.

(** X2. The decoder inverts the wire format on every stream of valid
    symbols, whether an encoder would write it or not: given the bytes of
    the stream, with fewer than 8 bits of padding, in one sink, one poll
    puts out the bytes the symbols stand for, literal by literal and copy
    by copy, as long as they fit the window. *)
Theorem decoder_expands_valid_stream (W L ibs : Z) (C : list Z)
    (ss : list symbol) (pad : list bool) :
  4 <= W <= 15 -> 3 <= L <= W ->
  1 <= Z.of_nat (length C) <= ibs -> ibs <= 65535 ->
  concat (map byte_bits C) = stream_bits W L ss ++ pad ->
  (length pad <= 7)%nat -> valid_stream W L ss ->
  1 <= Z.of_nat (length (expand ss)) <= 2 ^ W ->
  exists fuel0, forall fuel, (fuel0 <= fuel)%nat ->
    expand_once ibs W L C (Z.of_nat (length (expand ss))) fuel
    = Ret (Some (expand ss)).
Proof.
  intros HW HL HC Hibs Hbits Hpad Hval Hn.
  exact (DecoderBits.expand_once_stream W L HW HL ibs C ss pad _
           HC Hibs Hbits Hpad Hval eq_refl Hn).
Qed.

Lemma decoder_expands_valid_stream_witness :
  exists fuel0, forall fuel, (fuel0 <= fuel)%nat ->
    expand_once 64 8 4 [176; 128; 8] 4 fuel = Ret (Some [97; 97; 97; 97]).
Proof.
  apply (decoder_expands_valid_stream 8 4 64 [176; 128; 8]
           [Lit 97; Ref 1 3] (replicate 2 false));
    try (vm_compute; first [reflexivity | split; discriminate | discriminate | lia]).
  apply (valid_stream_snoc 8 4 [Lit 97] (Ref 1 3)).
  - apply (valid_stream_snoc 8 4 [] (Lit 97));
      [apply valid_stream_nil
      |vm_compute; split; first [discriminate | reflexivity]].
  - vm_compute. repeat split; first [discriminate | reflexivity].
Defined.



End WireFacts.

(** * The calls of the decoder, one by one *)

Module DecoderCalls.
Import Decoder DecoderFacts DecoderBits Bits.

(** *** A decoder in [HSDS_EMPTY] holds no input *)

Definition idle_empty (h : heatshrink_decoder) : Prop :=
  state h = HSDS_EMPTY -> input_size h = 0.

Lemma poll_step_idle h oi h' oi' r :
  poll_step h oi = Ret (h', oi', r) -> idle_empty h -> idle_empty h'.
Proof.
  unfold poll_step, idle_empty.
  assert (Hfin : forall (s : HEATSHRINK_DECODER_STATE) h1 oi1 st,
    (s = HSDS_EMPTY -> input_size h1 = 0) ->
    (if bool_decide (state (set_state s h1) = st)
     then if output_size oi1 =? buf_size oi1
          then Ret (set_state s h1, oi1, Some HSDR_POLL_MORE)
          else Ret (set_state s h1, oi1, Some HSDR_POLL_EMPTY)
     else Ret (set_state s h1, oi1, None)) = Ret (h', oi', r) ->
    state h' = HSDS_EMPTY -> input_size h' = 0).
  { intros s h1 oi1 st Hs. destruct (bool_decide _); [destruct (_ =? _)|];
      intros [= <- <- <-]; exact Hs. }
  destruct (state h) eqn:Est.
  - intros [= <- <- <-]. auto.
  - unfold st_input_available.
    destruct (get_bits h 1) as [[v h1]| |]; dsimpl; try discriminate.
    intros E _. revert E. apply Hfin. destruct (v =? 0); discriminate.
  - unfold st_yield_literal.
    destruct (output_size oi <? buf_size oi); dsimpl;
      [|intros E _; revert E; apply Hfin; discriminate].
    destruct (get_bits h 8) as [[v h1]| |]; dsimpl; try discriminate.
    destruct (v =? NO_BITS); dsimpl;
      [intros E _; revert E; apply Hfin; discriminate|].
    destruct (window_write _ _ _) as [h2| |]; dsimpl; try discriminate.
    unfold push_byte. destruct (push_out _ _) as [oi1| |]; dsimpl;
      try discriminate.
    intros E _. revert E. apply Hfin. discriminate.
  - unfold st_backref_index.
    destruct (get_bits h _) as [[v h1]| |]; dsimpl; try discriminate.
    destruct (v =? NO_BITS); dsimpl;
      intros E _; revert E; apply Hfin; discriminate.
  - unfold st_backref_count.
    destruct (get_bits h _) as [[v h1]| |]; dsimpl; try discriminate.
    destruct (v =? NO_BITS); dsimpl;
      intros E _; revert E; apply Hfin; discriminate.
  - unfold st_yield_backref.
    destruct (_ >? 0); dsimpl;
      [|intros E _; revert E; apply Hfin; discriminate].
    destruct (yield_backref_loop _ _ _ _ _) as [[h1 oi1]| |]; dsimpl;
      try discriminate.
    destruct (_ =? 0); intros E _; revert E; apply Hfin; discriminate.
  - dsimpl. intros E _. revert E. apply Hfin.
    unfold st_check_for_input.
    destruct (Z.eqb_spec (input_size h) 0); [auto|discriminate].
Qed.

Lemma poll_loop_idle fuel : forall h oi r h' oi',
  poll_loop fuel h oi = Ret (r, h', oi') -> idle_empty h -> idle_empty h'.
Proof.
  induction fuel as [|fuel IH]; intros h oi r h' oi'; [discriminate|].
  cbn [poll_loop].
  destruct (poll_step h oi) as [[[h1 oi1] [r1|]]| |] eqn:E; dsimpl;
    try discriminate.
  - intros [= <- <- <-]. eapply poll_step_idle; eassumption.
  - intros E' Hi. eapply IH; [exact E'|]. eapply poll_step_idle; eassumption.
Qed.

Lemma sink_idle h in_buf r n h' :
  heatshrink_decoder_sink h in_buf = Ret (r, n, h') ->
  idle_empty h -> idle_empty h'.
Proof.
  unfold heatshrink_decoder_sink, idle_empty.
  destruct (_ =? 0); [intros [= <- <- <-]; auto|].
  destruct (input_memcpy _ _ _) as [h1| |]; dsimpl; try discriminate.
  destruct (bool_decide_reflect (state h1 = HSDS_EMPTY)) as [Hs|Hs];
    intros [= <- <- <-] _; dsimpl; [discriminate|contradiction].
Qed.

Lemma reachable_idle h : reachable h -> idle_empty h.
Proof.
  induction 1 as [ibs w l h Ha|h _ IH|h in_buf r n h' _ IH Hs
                 |h fuel out_buf r h' oi _ IH Hp].
  - apply alloc_fresh in Ha. subst h. intros _. reflexivity.
  - intros _. reflexivity.
  - eapply sink_idle; eassumption.
  - eapply poll_loop_idle; eassumption.
Qed.

(** *** [sink] and the bits to be read *)

Lemma sink_unread h in_buf :
  wf h -> idle_empty h ->
  let room := input_buffer_size h - input_size h in
  let n := Z.min room (Z.of_nat (length in_buf)) in
  exists h',
    heatshrink_decoder_sink h in_buf
    = Ret (if room =? 0 then HSDR_SINK_FULL else HSDR_SINK_OK, n, h') /\
    unread h' = unread h ++ take (Z.to_nat n) in_buf /\
    input_size h' = input_size h + n /\
    bit_index h' = bit_index h /\ current_byte h' = current_byte h.
Proof.
  intros Hwf Hidle room n. unfold heatshrink_decoder_sink.
  pose proof Hwf as [Hw Hla Hmask Hibs Hlen Hidx Hsz Hun].
  pose proof (pow_window _ Hw) as Hpw.
  rewrite usize_small by lia. fold room.
  destruct (Z.eqb_spec room 0) as [Hz|Hnz].
  - exists h. assert (Hn : n = 0) by (subst n; lia). rewrite Hn.
    change (Z.to_nat 0) with 0%nat. rewrite take_0, app_nil_r, Z.add_0_r.
    auto.
  - assert (Hn : (if room <? Z.of_nat (length in_buf) then room
                  else Z.of_nat (length in_buf)) = n).
    { subst n. destruct (Z.ltb_spec room (Z.of_nat (length in_buf))); lia. }
    rewrite Hn.
    assert (Hn' : 0 <= n <= room /\ n <= Z.of_nat (length in_buf))
      by (subst n room; lia).
    assert (Hlt : length (take (Z.to_nat n) in_buf) = Z.to_nat n)
      by (rewrite length_take; lia).
    unfold input_memcpy. rewrite Hlt.
    rewrite bool_decide_true by (subst room; lia).
    dsimpl. rewrite !u16_small by (subst room; lia).
    set (new := take (Z.to_nat n) in_buf) in *.
    set (B' := take (Z.to_nat (input_size h)) (buffers h) ++ new ++
               drop (Z.to_nat (input_size h) + Z.to_nat n) (buffers h)).
    assert (Hun' : forall i, 0 <= i <= input_size h ->
              take (Z.to_nat (input_size h + n - i)) (drop (Z.to_nat i) B')
              = take (Z.to_nat (input_size h - i)) (drop (Z.to_nat i) (buffers h))
                ++ new).
    { intros i Hi. subst B'.
      assert (Ht : length (take (Z.to_nat (input_size h)) (buffers h))
                   = Z.to_nat (input_size h)) by (rewrite length_take; lia).
      rewrite drop_app_le by lia.
      replace (Z.to_nat (input_size h + n - i))
        with (length (drop (Z.to_nat i)
                        (take (Z.to_nat (input_size h)) (buffers h)))
              + Z.to_nat n)%nat by (rewrite length_drop, Ht; lia).
      rewrite take_app_add' by reflexivity.
      rewrite take_app_length' by (symmetry; exact Hlt).
      f_equal. rewrite take_drop_commute. do 2 f_equal. lia. }
    destruct (bool_decide_reflect (state h = HSDS_EMPTY)) as [Hs|Hs].
    + eexists; split; [reflexivity|]. dsimpl.
      split; [|auto]. unfold unread. dsimpl.
      specialize (Hidle Hs).
      assert (Hi0 : input_index h = 0) by lia.
      rewrite Hi0. specialize (Hun' 0 ltac:(lia)).
      rewrite Z.sub_0_r in *. exact Hun'.
    + eexists; split; [reflexivity|]. dsimpl.
      split; [|auto]. unfold unread. dsimpl.
      apply Hun'. lia.
Qed.

(** X9. A sink into the decoder takes [min (IBS - input_size) size]
    bytes and puts them, in order, behind the input still to be read: to
    the bits the decoder has left it appends the bits of those bytes and
    nothing else.  It answers [HSDR_SINK_FULL], taking nothing, exactly
    when the input region has no room. *)
Theorem decoder_sink_appends_bits (h : heatshrink_decoder) (in_buf : list Z) :
  reachable h ->
  let room := input_buffer_size h - input_size h in
  let n := Z.min room (Z.of_nat (length in_buf)) in
  exists h',
    heatshrink_decoder_sink h in_buf
    = Ret (if room =? 0 then HSDR_SINK_FULL else HSDR_SINK_OK, n, h') /\
    dbits h' = dbits h ++ concat (map byte_bits (take (Z.to_nat n) in_buf)) /\
    input_size h' = input_size h + n.
Proof.
  intros Hr room n.
  destruct (sink_unread h in_buf (reachable_wf h Hr) (reachable_idle h Hr))
    as (h' & E & Hun & Hsz & Hbi & Hcb).
  exists h'. split; [exact E|]. split; [|exact Hsz].
  unfold dbits. rewrite Hun, Hbi, Hcb, map_app, concat_app, app_assoc.
  reflexivity.
Qed.

Lemma decoder_sink_appends_bits_witness :
  exists h',
    heatshrink_decoder_sink WireFacts.decoder_b0_80 [8; 1; 2]
    = Ret (HSDR_SINK_OK, 3, h') /\
    dbits h' = dbits WireFacts.decoder_b0_80
               ++ concat (map byte_bits [8; 1; 2]) /\
    input_size h' = 5.
Proof.
  apply (decoder_sink_appends_bits WireFacts.decoder_b0_80 [8; 1; 2]).
  apply (reach_sink (fresh_decoder 64 8 4) [176; 128] HSDR_SINK_OK 2).
  - apply (reach_alloc 64 8 4). reflexivity.
  - reflexivity.
Defined.

End DecoderCalls.

(** * The test driver ([test_heatshrink_dynamic.c]) *)

Module Driver.
Import Bits.

(** Modelled from the spec: the headers that number the result codes are
    not among the sources.  Section 7 of the specification counts the
    null-argument and misuse results as errors and [EMPTY], [MORE] (and a
    full decoder) as normal progress; the driver asserts [res >= 0] for
    "no error". *)
Definition encoder_sink_error (r : Encoder.HEATSHRINK_ENCODER_SINK_RES) : bool :=
  match r with Encoder.HSER_SINK_OK => false | _ => true end.
Definition encoder_poll_error (r : Encoder.HEATSHRINK_ENCODER_POLL_RES) : bool :=
  match r with
  | Encoder.HSER_POLL_EMPTY | Encoder.HSER_POLL_MORE => false
  | _ => true
  end.
Definition decoder_sink_error (r : Decoder.HEATSHRINK_DECODER_SINK_RES) : bool :=
  match r with Decoder.HSDR_SINK_ERROR_NULL => true | _ => false end.
Definition decoder_poll_error (r : Decoder.HEATSHRINK_DECODER_POLL_RES) : bool :=
  match r with
  | Decoder.HSDR_POLL_EMPTY | Decoder.HSDR_POLL_MORE => false
  | _ => true
  end.

(** [cfg_info], without the log level, which only selects what is
    printed. *)
Record cfg_info := mk_cfg {
  window_sz2 : Z;
  lookahead_sz2 : Z;
  decoder_input_buffer_size : Z
}.

(** What a test returns. *)
Inductive verdict := PASS | FAIL.

Section Harness.
(** The build of the encoder, and what the memory of its index holds
    when it is allocated. *)
Variables (use_index : bool) (fresh_index : list Z).

(** The [do ... while (pres == HSER_POLL_MORE)] of the compression: each
    poll writes at [&comp[polled]] with the room left behind it.  [None]
    is a failed assertion. *)
Fixpoint encoder_crank (fuel : nat) (hse : Encoder.heatshrink_encoder)
    (comp : list Z) (polled : Z)
  : outcome (option (Encoder.HEATSHRINK_ENCODER_POLL_RES
                     * Encoder.heatshrink_encoder * list Z * Z)) :=
  match fuel with
  | O => OutOfFuel
  | S fuel' =>
    if polled >? Z.of_nat (length comp) then OutOfBounds
    else
      '(pres, hse1, oi) ←
        Encoder.heatshrink_encoder_poll use_index fuel hse
          (drop (Z.to_nat polled) comp);
      if encoder_poll_error pres then Ret None
      else
        match oi with
        | None => Ret None
        | Some o =>
          let comp1 := take (Z.to_nat polled) comp ++ buf o in
          let polled1 := u32 (polled + output_size o) in
          match pres with
          | Encoder.HSER_POLL_MORE => encoder_crank fuel' hse1 comp1 polled1
          | _ => Ret (Some (pres, hse1, comp1, polled1))
          end
        end
  end.

(** The [while (sunk < input_size)] of the compression. *)
Fixpoint compress_loop (fuel : nat) (hse : option Encoder.heatshrink_encoder)
    (input : list Z) (comp : list Z) (sunk polled : Z)
  : outcome (option (option Encoder.heatshrink_encoder * list Z * Z)) :=
  let input_size := Z.of_nat (length input) in
  if sunk <? input_size then
    match fuel with
    | O => OutOfFuel
    | S fuel' =>
      match hse with
      | None => Ret None
      | Some e =>
        match Encoder.heatshrink_encoder_sink e (drop (Z.to_nat sunk) input) with
        | (r, Some count, e1) =>
          if encoder_sink_error r then Ret None
          else
            let sunk1 := u32 (sunk + count) in
            let '(more, e2) :=
              if sunk1 =? input_size then
                match Encoder.heatshrink_encoder_finish e1 with
                | (Encoder.HSER_FINISH_MORE, e2) => (true, e2)
                | (_, e2) => (false, e2)
                end
              else (true, e1) in
            if negb more then Ret None
            else
              c ← encoder_crank fuel e2 comp polled;
              match c with
              | Some (Encoder.HSER_POLL_EMPTY, e3, comp1, polled1) =>
                if polled1 >=? Z.of_nat (length comp) then Ret None
                else if sunk1 =? input_size then
                  match Encoder.heatshrink_encoder_finish e3 with
                  | (Encoder.HSER_FINISH_DONE, e4) =>
                    compress_loop fuel' (Some e4) input comp1 sunk1 polled1
                  | _ => Ret None
                  end
                else compress_loop fuel' (Some e3) input comp1 sunk1 polled1
              | _ => Ret None
              end
        | (_, None, _) => Ret None
        end
      end
    end
  else Ret (Some (hse, comp, polled)).

(** The [do ... while (pres == HSDR_POLL_MORE)] of the expansion, with
    its [ASSERT(count > 0)]. *)
Fixpoint decoder_crank (fuel : nat) (hsd : Decoder.heatshrink_decoder)
    (decomp : list Z) (polled : Z)
  : outcome (option (Decoder.HEATSHRINK_DECODER_POLL_RES
                     * Decoder.heatshrink_decoder * list Z * Z)) :=
  match fuel with
  | O => OutOfFuel
  | S fuel' =>
    if polled >? Z.of_nat (length decomp) then OutOfBounds
    else
      '(pres, hsd1, o) ←
        Decoder.heatshrink_decoder_poll fuel hsd (drop (Z.to_nat polled) decomp);
      if decoder_poll_error pres then Ret None
      else if negb (output_size o >? 0) then Ret None
      else
        let decomp1 := take (Z.to_nat polled) decomp ++ buf o in
        let polled1 := u32 (polled + output_size o) in
        match pres with
        | Decoder.HSDR_POLL_MORE => decoder_crank fuel' hsd1 decomp1 polled1
        | _ => Ret (Some (pres, hsd1, decomp1, polled1))
        end
  end.

(** The [while (sunk < compressed_size)] of the expansion. *)
Fixpoint expand_loop (fuel : nat) (hsd : option Decoder.heatshrink_decoder)
    (comp : list Z) (compressed_size input_size : Z) (decomp : list Z)
    (sunk polled : Z) : outcome (option (list Z * Z)) :=
  if sunk <? compressed_size then
    match fuel with
    | O => OutOfFuel
    | S fuel' =>
      match hsd with
      | None => Ret None
      | Some h =>
        '(r, count, h1) ←
          Decoder.heatshrink_decoder_sink h
            (take (Z.to_nat (compressed_size - sunk))
               (drop (Z.to_nat sunk) comp));
        if decoder_sink_error r then Ret None
        else
          let sunk1 := u32 (sunk + count) in
          if (sunk1 =? compressed_size)
             && match Decoder.heatshrink_decoder_finish h1 with
                | Decoder.HSDR_FINISH_MORE => false
                | _ => true
                end
          then Ret None
          else
            c ← decoder_crank fuel h1 decomp polled;
            match c with
            | Some (Decoder.HSDR_POLL_EMPTY, h2, decomp1, polled1) =>
              if (sunk1 =? compressed_size)
                 && match Decoder.heatshrink_decoder_finish h2 with
                    | Decoder.HSDR_FINISH_DONE => false
                    | _ => true
                    end
              then Ret None
              else if polled1 >? input_size then Ret None
              else expand_loop fuel' (Some h2) comp compressed_size input_size
                     decomp1 sunk1 polled1
            | _ => Ret None
            end
      end
    end
  else Ret (Some (decomp, polled)).

(** [compress_and_expand_and_check].  The two scratch arrays are zeroed;
    the encoder and the decoder are what [alloc] returns, [None] for
    [NULL]: a sink then answers with the null error, and the [free] that
    ends the test reads through the null pointer. *)
Definition compress_and_expand_and_check (input : list Z) (cfg : cfg_info)
    (fuel : nat) : outcome verdict :=
  let input_size := Z.of_nat (length input) in
  let hse := Encoder.heatshrink_encoder_alloc use_index fresh_index
               (window_sz2 cfg) (lookahead_sz2 cfg) in
  let hsd := Decoder.heatshrink_decoder_alloc (decoder_input_buffer_size cfg)
               (window_sz2 cfg) (lookahead_sz2 cfg) in
  let comp := replicate (Z.to_nat (scratch_size input_size)) 0 in
  let decomp := replicate (Z.to_nat (scratch_size input_size)) 0 in
  c ← compress_loop fuel hse input comp 0 0;
  match c with
  | None => Ret FAIL
  | Some (hse1, comp1, compressed_size) =>
    d ← expand_loop fuel hsd comp1 compressed_size input_size decomp 0 0;
    match d with
    | None => Ret FAIL
    | Some (decomp1, polled) =>
      if negb (polled =? input_size) then Ret FAIL
      else if negb (bool_decide (take (length input) decomp1 = input))
      then Ret FAIL
      else
        match hse1, hsd with
        | Some _, Some _ => Ret PASS
        | _, _ => OutOfBounds
        end
    end
  end.

End Harness.

(** *** [fill_with_pseudorandom_letters]

    [rn] is a [uint64_t], [size] and [seed] are [uint32_t]; the value
    returned is what the loop leaves in [buf[0 .. size)]. *)
Fixpoint fill_loop (n : nat) (rn seed : Z) : list Z :=
  match n with
  | O => []
  | S n' =>
    let rn1 := usize (rn * seed + seed) in
    u8 (rn1 mod 26 + 97) :: fill_loop n' rn1 seed
  end.

Definition fill_with_pseudorandom_letters (size seed : Z) : list Z :=
  fill_loop (Z.to_nat (u32 size)) 9223372036854775783 (u32 seed).

(** *** The pseudorandom test data *)

Lemma fill_loop_length n : forall rn seed, length (fill_loop n rn seed) = n.
Proof.
  induction n as [|n IH]; intros rn seed; [reflexivity|].
  cbn [fill_loop length]. rewrite IH. reflexivity.
Qed.

Lemma fill_loop_letters n : forall rn seed,
  Forall (fun c => 97 <= c <= 122) (fill_loop n rn seed).
Proof.
  induction n as [|n IH]; intros rn seed; [constructor|].
  cbn [fill_loop]. constructor; [|apply IH].
  pose proof (Z.mod_pos_bound (usize (rn * seed + seed)) 26 ltac:(lia)).
  unfold u8. rewrite Z.mod_small; lia.
Qed.

(** X16. [fill_with_pseudorandom_letters] stores exactly [size] bytes,
    each of them a lower-case letter, 'a' (97) to 'z' (122), whatever the
    seed: the sum with 'a' never leaves the range of a byte. *)
Theorem pseudorandom_letters_are_letters (size seed : Z) :
  Z.of_nat (length (fill_with_pseudorandom_letters size seed)) = u32 size /\
  Forall (fun c => 97 <= c <= 122) (fill_with_pseudorandom_letters size seed).
Proof.
  unfold fill_with_pseudorandom_letters. split.
  - rewrite fill_loop_length. apply Z2Nat.id.
    unfold u32. apply Z.mod_pos_bound. lia.
  - apply fill_loop_letters.
Qed.

(** *** The driver on an input that fits the window *)

Lemma u32_small x : 0 <= x < 4294967296 -> u32 x = x.
Proof. intros. unfold u32. apply Z.mod_small. lia. Qed.

Lemma sink_some e in_buf r c e' :
  Encoder.heatshrink_encoder_sink e in_buf = (r, Some c, e') ->
  r = Encoder.HSER_SINK_OK.
Proof.
  unfold Encoder.heatshrink_encoder_sink.
  destruct (negb _); [discriminate|]. destruct (negb _); [discriminate|].
  intros [= <- _ _]. reflexivity.
Qed.

Lemma compress_once_inv use_index fresh_index W L X fuel C :
  compress_once use_index fresh_index W L X fuel = Ret (Some C) ->
  exists hse hse1 hse2 hse3 hse4 oi,
    Encoder.heatshrink_encoder_alloc use_index fresh_index W L = Some hse /\
    Encoder.heatshrink_encoder_sink hse X
    = (Encoder.HSER_SINK_OK, Some (Z.of_nat (length X)), hse1) /\
    Encoder.heatshrink_encoder_finish hse1 = (Encoder.HSER_FINISH_MORE, hse2) /\
    Encoder.heatshrink_encoder_poll use_index fuel hse2
      (replicate (Z.to_nat (scratch_size (Z.of_nat (length X)))) 0)
    = Ret (Encoder.HSER_POLL_EMPTY, hse3, Some oi) /\
    output_size oi < Z.of_nat (Z.to_nat (scratch_size (Z.of_nat (length X)))) /\
    Encoder.heatshrink_encoder_finish hse3 = (Encoder.HSER_FINISH_DONE, hse4) /\
    C = polled oi.
Proof.
  unfold compress_once.
  destruct (Encoder.heatshrink_encoder_alloc _ _ _ _) as [hse|];
    [|discriminate].
  destruct (Encoder.heatshrink_encoder_sink hse X) as [[r [c|]] hse1] eqn:Es;
    [|discriminate].
  pose proof (sink_some _ _ _ _ _ Es) as ->.
  destruct (Z.eqb_spec c (Z.of_nat (length X))) as [->|]; [|discriminate].
  cbn [negb].
  destruct (Encoder.heatshrink_encoder_finish hse1) as [[] hse2] eqn:Ef;
    try discriminate.
  destruct (Encoder.heatshrink_encoder_poll _ _ _ _)
    as [[[pres hse3] [oi|]]| |] eqn:Ep; cbn [mbind outcome_bind];
    try discriminate; try (destruct pres; discriminate).
  destruct pres; try discriminate.
  rewrite length_replicate.
  destruct (Z.geb_spec (output_size oi)
              (Z.of_nat (Z.to_nat (scratch_size (Z.of_nat (length X))))));
    [discriminate|].
  destruct (Encoder.heatshrink_encoder_finish hse3) as [[] hse4] eqn:Ef3;
    try discriminate.
  intros [= <-]. eexists _, _, _, _, _, _. eauto 10.
Qed.

Lemma expand_once_inv ibs W L C n fuel X :
  expand_once ibs W L C n fuel = Ret (Some X) ->
  exists hsd r hsd1 hsd2 oi,
    Decoder.heatshrink_decoder_alloc ibs W L = Some hsd /\
    Decoder.heatshrink_decoder_sink hsd C
    = Ret (r, Z.of_nat (length C), hsd1) /\
    Decoder.heatshrink_decoder_finish hsd1 = Decoder.HSDR_FINISH_MORE /\
    Decoder.heatshrink_decoder_poll fuel hsd1
      (replicate (Z.to_nat (scratch_size n)) 0)
    = Ret (Decoder.HSDR_POLL_EMPTY, hsd2, oi) /\
    Decoder.heatshrink_decoder_finish hsd2 = Decoder.HSDR_FINISH_DONE /\
    0 < output_size oi <= n /\ X = polled oi.
Proof.
  unfold expand_once.
  destruct (Decoder.heatshrink_decoder_alloc _ _ _) as [hsd|]; [|discriminate].
  destruct (Decoder.heatshrink_decoder_sink hsd C) as [[[r c] hsd1]| |] eqn:Es;
    cbn [mbind outcome_bind]; try discriminate.
  destruct (Z.eqb_spec c (Z.of_nat (length C))) as [->|]; [|discriminate].
  cbn [negb].
  destruct (Decoder.heatshrink_decoder_finish hsd1) eqn:Ef; try discriminate.
  destruct (Decoder.heatshrink_decoder_poll _ _ _)
    as [[[pres hsd2] oi]| |] eqn:Ep; cbn [mbind outcome_bind];
    try discriminate.
  destruct pres; try discriminate.
  destruct (Decoder.heatshrink_decoder_finish hsd2) eqn:Ef2; try discriminate.
  destruct (Z.gtb_spec (output_size oi) 0); [|discriminate].
  destruct (Z.leb_spec (output_size oi) n); [|discriminate].
  cbn [andb]. intros [= <-]. eexists _, _, _, _, _. eauto 10.
Qed.

Lemma compress_loop_done use_index fuel hse input comp sunk polled :
  Z.of_nat (length input) <= sunk ->
  compress_loop use_index fuel hse input comp sunk polled
  = Ret (Some (hse, comp, polled)).
Proof.
  intros H. destruct fuel; cbn [compress_loop];
    destruct (Z.ltb_spec sunk (Z.of_nat (length input))); try lia; reflexivity.
Qed.

Lemma expand_loop_done fuel hsd comp compressed_size input_size decomp sunk
    polled :
  compressed_size <= sunk ->
  expand_loop fuel hsd comp compressed_size input_size decomp sunk polled
  = Ret (Some (decomp, polled)).
Proof.
  intros H. destruct fuel; cbn [expand_loop];
    destruct (Z.ltb_spec sunk compressed_size); try lia; reflexivity.
Qed.

(** The two rounds of [compress_once] and [expand_once], with the size
    of what is compressed. *)
Lemma rounds_within_window W L ibs X :
  4 <= W <= 15 -> 3 <= L <= W ->
  1 <= Z.of_nat (length X) <= 2 ^ W -> Forall (fun c => 0 <= c < 256) X ->
  scratch_size (Z.of_nat (length X)) <= ibs <= 65535 ->
  exists fuel0 C,
    1 <= Z.of_nat (length C) < scratch_size (Z.of_nat (length X)) /\
    forall fuel, (fuel0 <= fuel)%nat ->
      compress_once false [] W L X fuel = Ret (Some C) /\
      expand_once ibs W L C (Z.of_nat (length X)) fuel = Ret (Some X).
Proof.
  intros HW HL Hn HX Hibs.
  pose proof (DecoderFacts.pow_window W HW) as HpW.
  pose proof (RunFacts.scratch_small (Z.of_nat (length X)) ltac:(lia)) as Hsm.
  pose proof (RunFacts.scratch_fits (Z.of_nat (length X)) ltac:(lia)) as Hfits.
  destruct (RunFacts.encoder_alloc_some W L HW HL) as [e0 Ha].
  destruct (EncoderBits.first_turn W L X (scratch_size (Z.of_nat (length X)))
              HW HL ltac:(lia) e0
              (replicate (Z.to_nat (scratch_size (Z.of_nat (length X)))) 0)
              Ha ltac:(rewrite length_replicate; lia) ltac:(lia))
    as (e1 & e2 & Hsink & Hfin & E & Hs).
  destruct (EncoderBits.compress_once_from W L X _ HW HL ltac:(lia) HX Hfits
              e0 e1 e2 _ _ [] Ha Hsink Hfin eq_refl
              (EncoderBits.runs_one _ _ _ _ _ E) Hs)
    as (fuel0 & C & ss' & k & Hc & Hbits & Hk & Hex & Hval & Hlen).
  cbn [app] in *.
  assert (HC : 1 <= Z.of_nat (length C)).
  { destruct C as [|c C]; [|cbn [length]; lia]. exfalso.
    cbn [map concat] in Hbits. symmetry in Hbits.
    apply app_eq_nil in Hbits. destruct Hbits as [Hnil _].
    apply RunFacts.stream_bits_nil in Hnil. rewrite Hnil in Hex.
    rewrite <- Hex in Hn. cbn in Hn. lia. }
  destruct (DecoderBits.expand_once_stream W L HW HL ibs C ss'
              (replicate k false) (Z.of_nat (length X)))
    as [fuel1 Hd]; try lia.
  - exact Hbits.
  - rewrite length_replicate. exact Hk.
  - exact Hval.
  - now rewrite Hex.
  - exists (Nat.max fuel0 fuel1), C. split; [lia|].
    intros fuel Hle. split; [apply Hc; lia|].
    rewrite (Hd fuel ltac:(lia)), Hex. reflexivity.
Qed.

Lemma decoder_sink_no_error h in_buf r n h' :
  Decoder.heatshrink_decoder_sink h in_buf = Ret (r, n, h') ->
  decoder_sink_error r = false.
Proof.
  unfold Decoder.heatshrink_decoder_sink.
  destruct (_ =? 0); [intros [= <- _ _]; reflexivity|].
  destruct (Decoder.input_memcpy _ _ _); cbn [mbind outcome_bind];
    try discriminate.
  intros [= <- _ _]. reflexivity.
Qed.

(** X12. [compress_and_expand_and_check] passes on every input of 1 to
    [2^W] bytes, for every valid (W, L) and a decoder whose input region
    holds the [n + n / 2 + 4] bytes of the scratch array, with the
    encoder built without the search index: each of its two loops runs
    once, no assertion fails, and the bytes expanded are the input. *)
Theorem driver_passes_within_window (W L ibs : Z) (X : list Z) :
  4 <= W <= 15 -> 3 <= L <= W ->
  1 <= Z.of_nat (length X) <= 2 ^ W -> Forall (fun c => 0 <= c < 256) X ->
  scratch_size (Z.of_nat (length X)) <= ibs <= 65535 ->
  exists fuel0, forall fuel, (fuel0 <= fuel)%nat ->
    compress_and_expand_and_check false [] X (mk_cfg W L ibs) fuel = Ret PASS.
Proof.
  intros HW HL Hn HX Hibs.
  pose proof (DecoderFacts.pow_window W HW) as HpW.
  pose proof (RunFacts.scratch_small (Z.of_nat (length X)) ltac:(lia)) as Hsm.
  destruct (rounds_within_window W L ibs X HW HL Hn HX Hibs)
    as (fuel0 & C & HC & Hrounds).
  exists (S fuel0). intros fuel Hle.
  destruct (Hrounds fuel ltac:(lia)) as [Hc Hd].
  apply compress_once_inv in Hc.
  destruct Hc as (hse & hse1 & hse2 & hse3 & hse4 & oi & Ha & Hsink & Hfin
                  & Hpoll & Hos & Hfin3 & HCeq).
  apply expand_once_inv in Hd.
  destruct Hd as (hsd & r & hsd1 & hsd2 & oi' & Hda & Hdsink & Hdfin & Hdpoll
                  & Hdfin2 & Hos' & HXeq).
  assert (Hreach : EncoderFacts.reachable false hse2).
  { replace hse2 with (Encoder.heatshrink_encoder_finish hse1).2
      by (rewrite Hfin; reflexivity).
    apply EncoderFacts.reach_finish.
    replace hse1 with (Encoder.heatshrink_encoder_sink hse X).2
      by (rewrite Hsink; reflexivity).
    apply EncoderFacts.reach_sink.
    eapply EncoderFacts.reach_alloc. exact Ha. }
  destruct (EncoderCalls.poll_output_ok _ _ _ _ _ _ _
              (EncoderFacts.reachable_ewf _ _ Hreach)
              (EncoderCalls.reachable_calm _ _ Hreach) Hpoll)
    as [[Hl Hp Hu] Hbs].
  rewrite length_replicate in Hbs.
  assert (HlenC : Z.of_nat (length C) = output_size oi).
  { rewrite HCeq. unfold polled. rewrite length_take. lia. }
  assert (Hosn : output_size oi' = Z.of_nat (length X)).
  { pose proof (f_equal (@length Z) HXeq) as Hl'. unfold polled in Hl'.
    rewrite length_take in Hl'. lia. }
  destruct fuel as [|fuel]; [lia|].
  unfold compress_and_expand_and_check.
  cbn [window_sz2 lookahead_sz2 decoder_input_buffer_size].
  rewrite Ha, Hda.
  (* the compression *)
  cbn [compress_loop].
  destruct (Z.ltb_spec 0 (Z.of_nat (length X))) as [_|]; [|lia].
  change (Z.to_nat 0) with 0%nat. rewrite drop_0, Hsink.
  cbn [encoder_sink_error]. rewrite Z.add_0_l, (u32_small (Z.of_nat (length X)))
    by lia.
  rewrite Z.eqb_refl, Hfin. cbn [negb encoder_crank].
  rewrite length_replicate.
  destruct (Z.gtb_spec 0 (Z.of_nat (Z.to_nat (scratch_size (Z.of_nat (length X))))))
    as [|_]; [lia|].
  rewrite drop_0, Hpoll. cbn [mbind outcome_bind encoder_poll_error].
  rewrite take_0, Z.add_0_l, (u32_small (output_size oi)) by lia.
  cbn [app].
  destruct (Z.geb_spec (output_size oi)
              (Z.of_nat (Z.to_nat (scratch_size (Z.of_nat (length X))))))
    as [|_]; [lia|].
  rewrite Hfin3.
  rewrite compress_loop_done by lia. cbn [mbind outcome_bind].
  (* the expansion *)
  cbn [expand_loop].
  destruct (Z.ltb_spec 0 (output_size oi)) as [_|]; [|lia].
  rewrite drop_0, Z.sub_0_r.
  change (take (Z.to_nat (output_size oi)) (buf oi)) with (polled oi).
  rewrite <- HCeq, Hdsink. cbn [mbind outcome_bind].
  rewrite (decoder_sink_no_error _ _ _ _ _ Hdsink).
  rewrite Z.add_0_l, (u32_small (Z.of_nat (length C))) by lia.
  rewrite HlenC, Z.eqb_refl, Hdfin. cbn [andb decoder_crank].
  rewrite length_replicate.
  destruct (Z.gtb_spec 0 (Z.of_nat (Z.to_nat (scratch_size (Z.of_nat (length X))))))
    as [|_]; [lia|].
  rewrite drop_0, Hdpoll. cbn [mbind outcome_bind decoder_poll_error].
  destruct (Z.gtb_spec (output_size oi') 0) as [_|]; [|lia]. cbn [negb].
  rewrite take_0, Z.add_0_l, (u32_small (output_size oi')) by lia.
  cbn [app mbind outcome_bind]. rewrite Hdfin2. cbn [andb].
  destruct (Z.gtb_spec (output_size oi') (Z.of_nat (length X))) as [|_]; [lia|].
  rewrite expand_loop_done by lia. cbn [mbind outcome_bind].
  rewrite Hosn, Z.eqb_refl. cbn [negb].
  assert (Hcmp : take (length X) (buf oi') = X).
  { rewrite HXeq at 2. unfold polled. rewrite Hosn, Nat2Z.id. reflexivity. }
  rewrite bool_decide_true by exact Hcmp. reflexivity.
Qed.

Lemma driver_passes_within_window_witness :
  exists fuel0, forall fuel, (fuel0 <= fuel)%nat ->
    compress_and_expand_and_check false [] [97; 98; 99; 100; 101]
      (mk_cfg 8 3 256) fuel = Ret PASS.
Proof.
  apply (driver_passes_within_window 8 3 256 [97; 98; 99; 100; 101]);
    try (vm_compute; split; discriminate).
  repeat constructor; lia.
Defined.

End Driver.

(** * The command-line compressor ([compress.c]) *)

Module Compress.

Definition BUFFER_SIZE : Z := 256.
Definition WINDOW_SIZE : Z := 8.
Definition LOOKAHEAD_SIZE : Z := 4.

(** What [main] prints before it returns. *)
Inductive message :=
  | Usage
  | File_error
  | Alloc_failed
  | Sink_error
  | Poll_error
  | Finish_error
  | Compression_complete.

(** The value [main] returns, its last message, and the bytes handed to
    [fwrite]. *)
Record finished := mk_finished {
  exit_code : Z;
  said : message;
  written : list Z
}.

(** Modelled from the spec: the header that numbers the result codes is
    not among the sources; section 7 of the specification counts the
    null-argument and misuse results as the errors, which [main] tests
    as [poll_res < 0]. *)
Definition poll_error (r : Encoder.HEATSHRINK_ENCODER_POLL_RES) : bool :=
  match r with
  | Encoder.HSER_POLL_EMPTY | Encoder.HSER_POLL_MORE => false
  | _ => true
  end.

Section Main.
(** The build of the encoder, and what the memory of its index holds
    when it is allocated. *)
Variables (use_index : bool) (fresh_index : list Z).
(** [main] passes the addresses of two [size_t] variables where [sink]
    and [poll] take a [uint16_t *].  [store16 old v] is what such a
    variable holds after [v] was stored through the pointer when it held
    [old]; [junk] is what [output_size], which is never initialised,
    holds at first, and [out0] what the array [out_buf] does. *)
Variable store16 : Z -> Z -> Z.
Variable junk : Z.
Variable out0 : list Z.

(** The state of the loops: the encoder, [out_buf], the variable
    [output_size] (here [out_size]) and the bytes written so far.  A loop
    yields [inl] when [main] returns from inside it. *)
Definition progress : Type :=
  Encoder.heatshrink_encoder * list Z * Z * list Z.

(** The [do ... while (poll_res == HSER_POLL_MORE)]. *)
Fixpoint poll_until_empty (fuel : nat) (hse : Encoder.heatshrink_encoder)
    (out_buf : list Z) (out_size : Z) (w : list Z)
  : outcome (finished + progress) :=
  match fuel with
  | O => OutOfFuel
  | S fuel' =>
    '(poll_res, hse1, oi) ← Encoder.heatshrink_encoder_poll use_index fuel hse out_buf;
    if poll_error poll_res then Ret (inl (mk_finished 1 Poll_error w))
    else
      let '(out_buf1, out_size1) :=
        match oi with
        | Some o => (buf o, store16 out_size (output_size o))
        | None => (out_buf, out_size)
        end in
      w1 ← (if out_size1 >? 0 then
              if out_size1 >? Z.of_nat (length out_buf1) then OutOfBounds
              else Ret (w ++ take (Z.to_nat out_size1) out_buf1)
            else Ret w);
      match poll_res with
      | Encoder.HSER_POLL_MORE =>
        poll_until_empty fuel' hse1 out_buf1 out_size1 w1
      | _ => Ret (inr (hse1, out_buf1, out_size1, w1))
      end
  end.

(** The [while (input_index < input_size)] over one block read. *)
Fixpoint sink_block (fuel : nat) (in_buf : list Z) (input_index : Z)
    (hse : Encoder.heatshrink_encoder) (out_buf : list Z) (out_size : Z)
    (w : list Z) : outcome (finished + progress) :=
  if input_index <? Z.of_nat (length in_buf) then
    match fuel with
    | O => OutOfFuel
    | S fuel' =>
      match Encoder.heatshrink_encoder_sink hse
              (drop (Z.to_nat input_index) in_buf) with
      | (Encoder.HSER_SINK_OK, count, hse1) =>
        let sunk_size :=
          match count with Some c => store16 0 c | None => 0 end in
        let input_index1 := usize (input_index + sunk_size) in
        p ← poll_until_empty fuel hse1 out_buf out_size w;
        match p with
        | inl f => Ret (inl f)
        | inr (hse2, out_buf1, out_size1, w1) =>
          sink_block fuel' in_buf input_index1 hse2 out_buf1 out_size1 w1
        end
      | _ => Ret (inl (mk_finished 1 Sink_error w))
      end
    end
  else Ret (inr (hse, out_buf, out_size, w)).

(** The [while ((input_size = fread(...)) > 0)] over the input file. *)
Fixpoint read_blocks (fuel : nat) (input : list Z)
    (hse : Encoder.heatshrink_encoder) (out_buf : list Z) (out_size : Z)
    (w : list Z) : outcome (finished + progress) :=
  let in_buf := take (Z.to_nat BUFFER_SIZE) input in
  if Z.of_nat (length in_buf) >? 0 then
    match fuel with
    | O => OutOfFuel
    | S fuel' =>
      p ← sink_block fuel in_buf 0 hse out_buf out_size w;
      match p with
      | inl f => Ret (inl f)
      | inr (hse1, out_buf1, out_size1, w1) =>
        read_blocks fuel' (drop (Z.to_nat BUFFER_SIZE) input) hse1 out_buf1
          out_size1 w1
      end
    end
  else Ret (inr (hse, out_buf, out_size, w)).

(** [main]: [input] is the content of the input file, [None] when it
    cannot be opened; [output] tells whether the output file can. *)
Definition main (argc : Z) (input : option (list Z)) (output : bool)
    (fuel : nat) : outcome finished :=
  if negb (argc =? 3) then Ret (mk_finished 1 Usage [])
  else
    match input, output with
    | Some data, true =>
      match Encoder.heatshrink_encoder_alloc use_index fresh_index
              WINDOW_SIZE LOOKAHEAD_SIZE with
      | None => Ret (mk_finished 1 Alloc_failed [])
      | Some hse =>
        p ← read_blocks fuel data hse out0 junk [];
        match p with
        | inl f => Ret f
        | inr (hse1, _, _, w) =>
          match Encoder.heatshrink_encoder_finish hse1 with
          | (Encoder.HSER_FINISH_DONE, _) =>
            Ret (mk_finished 0 Compression_complete w)
          | _ => Ret (mk_finished 1 Finish_error w)
          end
        end
      end
    | _, _ => Ret (mk_finished 1 File_error [])
    end.

End Main.

(** *** [main] never reports success *)

Section MainFacts.
Variables (use_index : bool) (fresh_index : list Z).
Variable store16 : Z -> Z -> Z.
Variable junk : Z.
Variable out0 : list Z.

(** An encoder on which [finish] has not been called. *)
Definition unfinished (e : Encoder.heatshrink_encoder) : Prop :=
  EncoderFacts.ewf e /\ EncoderCalls.calm e /\ EncoderCalls.finishing e = false.

(** What a loop yields: a failure, or an encoder still unfinished. *)
Definition loop_ok (p : finished + progress) : Prop :=
  match p with
  | inl f => exit_code f = 1 /\ said f <> Compression_complete
  | inr (hse, _, _, _) => unfinished hse
  end.

Lemma poll_until_empty_ok fuel : forall hse out_buf out_size w p,
  unfinished hse ->
  poll_until_empty use_index store16 fuel hse out_buf out_size w = Ret p ->
  loop_ok p.
Proof.
  induction fuel as [|fuel IH]; intros hse out_buf out_size w p Hu;
    [discriminate|].
  cbn [poll_until_empty].
  destruct (Encoder.heatshrink_encoder_poll use_index (S fuel) hse out_buf)
    as [[[poll_res hse1] oi]| |] eqn:Ep; cbn [mbind outcome_bind];
    try discriminate.
  destruct (poll_error poll_res);
    [intros [= <-]; split; [reflexivity|discriminate]|].
  destruct Hu as (Hwf & Hc & Hf).
  assert (Hu1 : unfinished hse1).
  { split; [eapply EncoderFacts.poll_ewf; eassumption|].
    split; [eapply EncoderCalls.poll_calm; eassumption|].
    rewrite (EncoderCalls.poll_finishing _ _ _ _ _ _ _ Ep). exact Hf. }
  destruct (match oi with
            | Some o => (buf o, store16 out_size (output_size o))
            | None => (out_buf, out_size)
            end) as [out_buf1 out_size1].
  destruct (out_size1 >? 0);
    [destruct (out_size1 >? Z.of_nat (length out_buf1)); [discriminate|]|];
    cbn [mbind outcome_bind];
    (destruct poll_res; [intros [= <-]; exact Hu1|apply IH; exact Hu1
                        |intros [= <-]; exact Hu1|intros [= <-]; exact Hu1]).
Qed.

Lemma sink_block_ok fuel : forall in_buf input_index hse out_buf out_size w p,
  unfinished hse ->
  sink_block use_index store16 fuel in_buf input_index hse out_buf out_size w
  = Ret p ->
  loop_ok p.
Proof.
  induction fuel as [|fuel IH];
    intros in_buf input_index hse out_buf out_size w p Hu; cbn [sink_block];
    (destruct (input_index <? Z.of_nat (length in_buf));
     [|intros [= <-]; exact Hu]); [discriminate|].
  pose proof (EncoderFacts.sink_ewf hse
                (drop (Z.to_nat input_index) in_buf) (proj1 Hu)) as Hwf1.
  pose proof (EncoderCalls.sink_calm hse
                (drop (Z.to_nat input_index) in_buf) (proj1 (proj2 Hu))) as Hc1.
  pose proof (EncoderCalls.sink_finishing hse
                (drop (Z.to_nat input_index) in_buf)) as Hf1.
  destruct (Encoder.heatshrink_encoder_sink hse _) as [[r count] hse1].
  cbn [snd] in *.
  destruct r; try (intros [= <-]; split; [reflexivity|discriminate]).
  destruct (poll_until_empty _ _ _ _ _ _ _) as [[f|[[[hse2 ob] os] w1]]| |]
    eqn:Ep; cbn [mbind outcome_bind]; try discriminate.
  - intros [= <-].
    apply (poll_until_empty_ok _ _ _ _ _ _
             (conj Hwf1 (conj Hc1 (eq_trans Hf1 (proj2 (proj2 Hu))))) Ep).
  - apply IH.
    apply (poll_until_empty_ok _ _ _ _ _ _
             (conj Hwf1 (conj Hc1 (eq_trans Hf1 (proj2 (proj2 Hu))))) Ep).
Qed.

Lemma read_blocks_ok fuel : forall input hse out_buf out_size w p,
  unfinished hse ->
  read_blocks use_index store16 fuel input hse out_buf out_size w = Ret p ->
  loop_ok p.
Proof.
  induction fuel as [|fuel IH]; intros input hse out_buf out_size w p Hu;
    cbn [read_blocks];
    (destruct (_ >? 0); [|intros [= <-]; exact Hu]); [discriminate|].
  destruct (sink_block _ _ _ _ _ _ _ _ _) as [[f|[[[hse1 ob] os] w1]]| |]
    eqn:Es; cbn [mbind outcome_bind]; try discriminate.
  - intros [= <-]. apply (sink_block_ok _ _ _ _ _ _ _ _ Hu Es).
  - apply IH. apply (sink_block_ok _ _ _ _ _ _ _ _ Hu Es).
Qed.

Lemma alloc_unfinished w l e :
  Encoder.heatshrink_encoder_alloc use_index fresh_index w l = Some e ->
  unfinished e.
Proof.
  intros Ha. split; [eapply EncoderFacts.alloc_ewf; eassumption|].
  split; [eapply EncoderCalls.alloc_calm; eassumption|].
  revert Ha. unfold Encoder.heatshrink_encoder_alloc.
  destruct (_ || _); [discriminate|]. intros [= <-]. reflexivity.
Qed.

(** X13. [main] of [compress.c] never reports success: whatever the
    arguments, the files and the build of the encoder, when it returns it
    returns 1, and it never prints "Compression complete!".  Its one call
    of [finish] comes before any poll of a finishing encoder, so the
    answer is [HSER_FINISH_MORE], which [main] takes for an error. *)
Theorem compress_main_never_succeeds (argc : Z) (input : option (list Z))
    (output : bool) (fuel : nat) (f : finished) :
  main use_index fresh_index store16 junk out0 argc input output fuel = Ret f ->
  exit_code f = 1 /\ said f <> Compression_complete.
Proof.
  unfold main.
  destruct (negb (argc =? 3));
    [intros [= <-]; split; [reflexivity|discriminate]|].
  destruct input as [data|];
    [|intros [= <-]; split; [reflexivity|discriminate]].
  destruct output; [|intros [= <-]; split; [reflexivity|discriminate]].
  destruct (Encoder.heatshrink_encoder_alloc _ _ _ _) as [hse|] eqn:Ha;
    [|intros [= <-]; split; [reflexivity|discriminate]].
  destruct (read_blocks _ _ _ _ _ _ _ _) as [[f1|[[[hse1 ob] os] w1]]| |]
    eqn:Er; cbn [mbind outcome_bind]; try discriminate.
  - intros [= <-]. apply (read_blocks_ok _ _ _ _ _ _ _ (alloc_unfinished _ _ _ Ha) Er).
  - pose proof (read_blocks_ok _ _ _ _ _ _ _ (alloc_unfinished _ _ _ Ha) Er)
      as (_ & Hc & Hf).
    pose proof (EncoderCalls.finish_more hse1 Hc Hf) as Hm.
    destruct (Encoder.heatshrink_encoder_finish hse1) as [r e2].
    cbn [fst] in Hm. subst r.
    intros [= <-]. split; [reflexivity|discriminate].
Qed.

End MainFacts.

Lemma compress_main_never_succeeds_witness :
  main false [] (fun _ v => v) 0 (replicate 256 0) 3 (Some [97; 98; 99]) true 5
  = Ret (mk_finished 1 Finish_error []) /\
  exit_code (mk_finished 1 Finish_error []) = 1 /\
  said (mk_finished 1 Finish_error []) <> Compression_complete.
Proof.
  split; [vm_compute; reflexivity|].
  apply (compress_main_never_succeeds false [] (fun _ v => v) 0
           (replicate 256 0) 3 (Some [97; 98; 99]) true 5).
  vm_compute. reflexivity.
Defined.

(** *** [main] returns *)

Lemma poll_until_empty_more_fuel ui st fuel : forall hse ob os w x,
  poll_until_empty ui st fuel hse ob os w = Ret x ->
  forall fuel', (fuel <= fuel')%nat ->
  poll_until_empty ui st fuel' hse ob os w = Ret x.
Proof.
  induction fuel as [|fuel IH]; intros hse ob os w x H fuel' Hle;
    [discriminate|].
  destruct fuel' as [|fuel']; [lia|]. cbn [poll_until_empty] in *.
  destruct (Encoder.heatshrink_encoder_poll ui (S fuel) hse ob)
    as [[[r e1] oi]| |] eqn:Ep; cbn [mbind outcome_bind] in H;
    try discriminate.
  rewrite (EncoderCalls.encoder_poll_more_fuel _ _ _ _ _ Ep (S fuel'))
    by lia.
  cbn [mbind outcome_bind].
  destruct (poll_error r); [exact H|].
  destruct (match oi with
            | Some o => (buf o, st os (output_size o))
            | None => (ob, os)
            end) as [ob1 os1].
  destruct (if os1 >? 0
            then if os1 >? Z.of_nat (length ob1) then OutOfBounds
                 else Ret (w ++ take (Z.to_nat os1) ob1)
            else Ret w) as [w1| |]; cbn [mbind outcome_bind] in *;
    try discriminate.
  destruct r; try exact H. apply (IH _ _ _ _ _ H). lia.
Qed.

Lemma sink_block_more_fuel ui st fuel : forall in_buf idx hse ob os w x,
  sink_block ui st fuel in_buf idx hse ob os w = Ret x ->
  forall fuel', (fuel <= fuel')%nat ->
  sink_block ui st fuel' in_buf idx hse ob os w = Ret x.
Proof.
  induction fuel as [|fuel IH]; intros in_buf idx hse ob os w x H fuel' Hle.
  - destruct fuel'; cbn [sink_block] in *;
      (destruct (idx <? _); [discriminate|exact H]).
  - destruct fuel' as [|fuel']; [lia|]. cbn [sink_block] in *.
    destruct (idx <? _); [|exact H].
    destruct (Encoder.heatshrink_encoder_sink hse _) as [[r count] hse1].
    destruct r; try exact H.
    destruct (poll_until_empty ui st (S fuel) hse1 ob os w)
      as [p| |] eqn:Ep; cbn [mbind outcome_bind] in H; try discriminate.
    rewrite (poll_until_empty_more_fuel _ _ _ _ _ _ _ _ Ep (S fuel')) by lia.
    cbn [mbind outcome_bind].
    destruct p as [f|[[[hse2 ob1] os1] w1]]; [exact H|].
    apply (IH _ _ _ _ _ _ _ H). lia.
Qed.

Lemma read_blocks_more_fuel ui st fuel : forall input hse ob os w x,
  read_blocks ui st fuel input hse ob os w = Ret x ->
  forall fuel', (fuel <= fuel')%nat ->
  read_blocks ui st fuel' input hse ob os w = Ret x.
Proof.
  induction fuel as [|fuel IH]; intros input hse ob os w x H fuel' Hle.
  - destruct fuel'; cbn [read_blocks] in *;
      (destruct (_ >? 0); [discriminate|exact H]).
  - destruct fuel' as [|fuel']; [lia|]. cbn [read_blocks] in *.
    destruct (_ >? 0); [|exact H].
    destruct (sink_block ui st (S fuel) _ 0 hse ob os w)
      as [p| |] eqn:Es; cbn [mbind outcome_bind] in H; try discriminate.
    rewrite (sink_block_more_fuel _ _ _ _ _ _ _ _ _ _ Es (S fuel')) by lia.
    cbn [mbind outcome_bind].
    destruct p as [f|[[[hse1 ob1] os1] w1]]; [exact H|].
    apply (IH _ _ _ _ _ _ H). lia.
Qed.

Section MainReturns.
(** The encoder is built without the search index.  The variables that
    [main] lends to [sink] and [poll] hold, after a store through the
    [uint16_t] pointer, the value stored: their other bytes were zero. *)
Variable store16 : Z -> Z -> Z.
Hypothesis store16_low : forall old v,
  0 <= old < 65536 -> 0 <= v < 65536 -> store16 old v = v.

(** An encoder between two polls of [main]. *)
Definition working (e : Encoder.heatshrink_encoder) : Prop :=
  unfinished e /\ EncoderCalls.roomy e.

(** The loops of [main] where they test their condition: the encoder
    waits for input. *)
Definition settled (p : progress) : Prop :=
  let '(hse, ob, os, _) := p in
  working hse /\ Encoder.state hse = Encoder.HSES_NOT_FULL /\
  length ob = 256%nat /\ 0 <= os < 65536.

Lemma poll_once hse ob :
  working hse -> length ob = 256%nat ->
  exists r e' o,
    Encoder.heatshrink_encoder_poll false (EncoderCalls.poll_fuel hse) hse ob
    = Ret (r, e', Some o) /\
    working e' /\ length (buf o) = 256%nat /\ 0 <= output_size o <= 256 /\
    ((r = Encoder.HSER_POLL_MORE /\
      EncoderCalls.potential e' < EncoderCalls.potential hse) \/
     (r = Encoder.HSER_POLL_EMPTY /\
      Encoder.state e' = Encoder.HSES_NOT_FULL)).
Proof.
  intros ((Hwf & Hc & Hf) & Hr) Hob.
  assert (Hne : ob <> []) by (destruct ob; [discriminate|congruence]).
  destruct (EncoderCalls.poll_more_or_empty hse ob Hwf Hc Hne)
    as (r & e' & o & Ep & Hlen & Hsz & Hres).
  exists r, e', o. split; [exact Ep|].
  pose proof (EncoderFacts.poll_ewf _ _ _ _ _ _ _ Hwf Ep) as Hwf'.
  pose proof (EncoderCalls.poll_calm _ _ _ _ _ _ _ Hwf Hc Ep) as Hc'.
  pose proof (EncoderCalls.poll_finishing _ _ _ _ _ _ _ Ep) as Hf'.
  pose proof (EncoderCalls.poll_roomy _ _ _ _ _ _ _ Hwf Hr Ep) as Hr'.
  pose proof (EncoderCalls.poll_drop _ _ _ _ _ _ _ Hwf Hc Ep) as [_ Hd].
  rewrite Hf in Hf'.
  split; [exact (conj (conj Hwf' (conj Hc' Hf')) Hr')|].
  split; [lia|]. split; [lia|].
  destruct Hres as [->|[-> Hs]]; [left; auto|right].
  split; [reflexivity|].
  destruct (EncoderCalls.cm_fin _ Hc' Hf') as (H1 & H2 & _).
  destruct Hs as [Hs|[Hs|Hs]]; [assumption|contradiction..].
Qed.

Lemma poll_until_empty_returns n : forall hse ob os w,
  EncoderCalls.potential hse <= Z.of_nat n -> working hse ->
  length ob = 256%nat -> 0 <= os < 65536 ->
  exists fuel p,
    poll_until_empty false store16 fuel hse ob os w = Ret (inr p) /\
    settled p.
Proof.
  induction n as [|n IH]; intros hse ob os w Hn Hw Hob Hos;
    destruct (poll_once hse ob Hw Hob)
      as (r & e' & o & Ep & Hw' & Hlen & Hsz & Hres);
    pose proof (EncoderCalls.encoder_potential_nonneg e'
                  (proj1 (proj1 Hw')) (proj1 (proj2 (proj1 Hw')))) as Hp0;
    assert (Hst : store16 os (output_size o) = output_size o)
      by (apply store16_low; lia);
    (destruct Hres as [[-> Hlt]|[-> Hidle]]; [try lia|]).
  2: {
    destruct (IH e' (buf o) (output_size o)
                (if output_size o >? 0
                 then w ++ take (Z.to_nat (output_size o)) (buf o) else w)
                ltac:(lia) Hw' Hlen ltac:(lia)) as (f & p & E & Hp).
    exists (S (Nat.max (Z.to_nat (EncoderCalls.potential hse)) f)), p.
    split; [|exact Hp]. cbn [poll_until_empty].
    rewrite (EncoderCalls.encoder_poll_more_fuel _ _ _ _ _ Ep)
      by (unfold EncoderCalls.poll_fuel; lia).
    cbn [mbind outcome_bind poll_error]. rewrite Hst.
    destruct (Z.gtb_spec (output_size o) 0) as [Hpos|Hz].
    - destruct (Z.gtb_spec (output_size o) (Z.of_nat (length (buf o))));
        [lia|]. cbn [mbind outcome_bind].
      apply (poll_until_empty_more_fuel _ _ _ _ _ _ _ _ E). lia.
    - cbn [mbind outcome_bind].
      apply (poll_until_empty_more_fuel _ _ _ _ _ _ _ _ E). lia. }
  all: exists (EncoderCalls.poll_fuel hse),
         (e', buf o, output_size o,
          if output_size o >? 0
          then w ++ take (Z.to_nat (output_size o)) (buf o) else w);
    unfold EncoderCalls.poll_fuel in *; cbn [poll_until_empty];
    rewrite Ep; cbn [mbind outcome_bind poll_error]; rewrite Hst;
    (destruct (Z.gtb_spec (output_size o) 0) as [Hpos|Hz];
     [destruct (Z.gtb_spec (output_size o) (Z.of_nat (length (buf o))));
      [lia|]|]);
    cbn [mbind outcome_bind]; (split; [reflexivity|]);
    cbn [settled]; (split; [assumption|]); (split; [assumption|]);
    (split; [assumption|lia]).
Qed.

Lemma sink_block_returns n : forall in_buf idx hse ob os w,
  (length in_buf - Z.to_nat idx <= n)%nat -> 0 <= idx ->
  (length in_buf <= 256)%nat -> settled (hse, ob, os, w) ->
  exists fuel p,
    sink_block false store16 fuel in_buf idx hse ob os w = Ret (inr p) /\
    settled p.
Proof.
  induction n as [|n IH]; intros in_buf idx hse ob os w Hn Hidx Hlen Hs;
    (destruct (Z.ltb_spec idx (Z.of_nat (length in_buf))) as [Hlt|Hge];
     [|exists 0%nat, (hse, ob, os, w); cbn [sink_block];
       (destruct (Z.ltb_spec idx (Z.of_nat (length in_buf))); [lia|]);
       split; [reflexivity|exact Hs]]); [lia|].
  destruct Hs as (((Hwf & Hc & Hf) & Hr) & Hst & Hob & Hos).
  assert (Hne : drop (Z.to_nat idx) in_buf <> []).
  { intros H. apply (f_equal length) in H. rewrite length_drop in H.
    cbn in H. lia. }
  destruct (EncoderCalls.sink_progress hse _ Hwf Hr Hst Hf Hne)
    as (c & e1 & Es & Hc1 & Hc2 & Hr1).
  rewrite length_drop in Hc1.
  pose proof (EncoderFacts.sink_ewf hse (drop (Z.to_nat idx) in_buf) Hwf)
    as Hwf1.
  pose proof (EncoderCalls.sink_calm hse (drop (Z.to_nat idx) in_buf) Hc)
    as Hcm1.
  pose proof (EncoderCalls.sink_finishing hse (drop (Z.to_nat idx) in_buf))
    as Hf1.
  rewrite Es in Hwf1, Hcm1, Hf1. cbn [snd] in Hwf1, Hcm1, Hf1.
  rewrite Hf in Hf1.
  assert (Hw1 : working e1) by exact (conj (conj Hwf1 (conj Hcm1 Hf1)) Hr1).
  destruct (poll_until_empty_returns
              (Z.to_nat (EncoderCalls.potential e1)) e1 ob os w
              ltac:(lia) Hw1 Hob Hos)
    as (f1 & [[[hse2 ob1] os1] w1] & E1 & Hs1).
  assert (Hsunk : store16 0 c = c) by (apply store16_low; lia).
  assert (Hnext : usize (idx + c) = idx + c) by (apply usize_small; lia).
  destruct (IH in_buf (idx + c) hse2 ob1 os1 w1 ltac:(lia) ltac:(lia) Hlen Hs1)
    as (f2 & p & E2 & Hp).
  exists (S (Nat.max f1 f2)), p. split; [|exact Hp].
  cbn [sink_block].
  destruct (Z.ltb_spec idx (Z.of_nat (length in_buf))); [|lia].
  rewrite Es, Hsunk, Hnext.
  rewrite (poll_until_empty_more_fuel _ _ _ _ _ _ _ _ E1) by lia.
  cbn [mbind outcome_bind].
  apply (sink_block_more_fuel _ _ _ _ _ _ _ _ _ _ E2). lia.
Qed.

Lemma read_blocks_returns n : forall input hse ob os w,
  (length input <= n)%nat -> settled (hse, ob, os, w) ->
  exists fuel p,
    read_blocks false store16 fuel input hse ob os w = Ret (inr p) /\
    settled p.
Proof.
  unfold BUFFER_SIZE.
  induction n as [|n IH]; intros input hse ob os w Hn Hs;
    (destruct (Z.gtb_spec (Z.of_nat (length (take (Z.to_nat 256) input))) 0)
       as [Hpos|Hz];
     [|exists 0%nat, (hse, ob, os, w); cbn [read_blocks]; unfold BUFFER_SIZE;
       (destruct (Z.gtb_spec
                    (Z.of_nat (length (take (Z.to_nat 256) input))) 0);
        [lia|]); split; [reflexivity|exact Hs]]);
    rewrite length_take in Hpos; [lia|].
  destruct (sink_block_returns (length (take (Z.to_nat 256) input))
              (take (Z.to_nat 256) input) 0 hse ob os w
              ltac:(lia) ltac:(lia) ltac:(rewrite length_take; lia) Hs)
    as (f1 & [[[hse1 ob1] os1] w1] & E1 & Hs1).
  destruct (IH (drop (Z.to_nat 256) input) hse1 ob1 os1 w1
              ltac:(rewrite length_drop; lia) Hs1) as (f2 & p & E2 & Hp).
  exists (S (Nat.max f1 f2)), p. split; [|exact Hp].
  cbn [read_blocks]. unfold BUFFER_SIZE.
  destruct (Z.gtb_spec (Z.of_nat (length (take (Z.to_nat 256) input))) 0);
    [|rewrite length_take in *; lia].
  rewrite (sink_block_more_fuel _ _ _ _ _ _ _ _ _ _ E1) by lia.
  cbn [mbind outcome_bind].
  apply (read_blocks_more_fuel _ _ _ _ _ _ _ _ _ E2). lia.
Qed.

End MainReturns.

(** X14. Built without the search index, and run where the two
    [size_t] variables lent to [sink] and [poll] come back holding the
    16-bit value stored ([output_size], never initialised, starting below
    65536), [main] returns on every input file: given turns enough it
    reads the whole file, then prints "Finish error!" and returns 1. *)
Theorem compress_main_returns (fresh_index : list Z)
    (store16 : Z -> Z -> Z) (junk : Z) (out0 data : list Z) :
  (forall old v, 0 <= old < 65536 -> 0 <= v < 65536 -> store16 old v = v) ->
  0 <= junk < 65536 -> length out0 = 256%nat ->
  exists fuel0 w, forall fuel, (fuel0 <= fuel)%nat ->
    main false fresh_index store16 junk out0 3 (Some data) true fuel
    = Ret (mk_finished 1 Finish_error w).
Proof.
  intros Hst Hjunk Hout. unfold main. cbn [Z.eqb Pos.eqb negb].
  destruct (Encoder.heatshrink_encoder_alloc false fresh_index WINDOW_SIZE
              LOOKAHEAD_SIZE) as [hse|] eqn:Ha; [|discriminate].
  pose proof (alloc_unfinished _ _ _ _ _ Ha) as Hu.
  destruct (EncoderCalls.alloc_roomy _ _ _ _ _ Ha ltac:(reflexivity))
    as [Hr Hidle].
  destruct (read_blocks_returns store16 Hst (length data) data hse out0 junk []
              ltac:(lia) (conj (conj Hu Hr) (conj Hidle (conj Hout Hjunk))))
    as (fuel0 & [[[hse1 ob] os] w] & E & (((_ & Hc & Hf) & _) & _)).
  exists fuel0, w. intros fuel Hle.
  rewrite (read_blocks_more_fuel _ _ _ _ _ _ _ _ _ E _ Hle).
  cbn [mbind outcome_bind].
  pose proof (EncoderCalls.finish_more hse1 Hc Hf) as Hm.
  destruct (Encoder.heatshrink_encoder_finish hse1) as [r e2].
  cbn [fst] in Hm. subst r. reflexivity.
Qed.

Lemma compress_main_returns_witness :
  exists fuel0 w, forall fuel, (fuel0 <= fuel)%nat ->
    main false [] (fun _ v => v) 0 (replicate 256 0) 3 (Some [97; 98; 99])
      true fuel
    = Ret (mk_finished 1 Finish_error w).
Proof.
  apply (compress_main_returns [] (fun _ v => v) 0 (replicate 256 0)
           [97; 98; 99]).
  - intros old v _ _. reflexivity.
  - lia.
  - reflexivity.
Defined.

(** An encoder that waits for input answers the poll at once. *)
Lemma poll_until_empty_idle ui st fuel hse ob os w :
  Encoder.state hse = Encoder.HSES_NOT_FULL -> length ob = 256%nat ->
  poll_until_empty ui st (S fuel) hse ob os w
  = if st os 0 >? 0 then
      if st os 0 >? 256 then OutOfBounds
      else Ret (inr (hse, ob, st os 0, w ++ take (Z.to_nat (st os 0)) ob))
    else Ret (inr (hse, ob, st os 0, w)).
Proof.
  intros Hidle Hob. cbn [poll_until_empty].
  unfold Encoder.heatshrink_encoder_poll. rewrite Hob.
  change (Z.of_nat 256 =? 0) with false. cbv iota.
  cbn [Encoder.poll_loop]. unfold Encoder.poll_step. rewrite Hidle.
  cbn [mbind outcome_bind poll_error new_output_info buf output_size].
  rewrite Hob. change (Z.of_nat 256) with 256.
  destruct (st os 0 >? 0); [destruct (st os 0 >? 256)|]; reflexivity.
Qed.

(** X15. A file shorter than one block of 256 bytes is never compressed,
    whatever the build: [main] sinks it, the one poll answers that the
    encoder waits for more, and [finish] is taken for an error.  Nothing
    of the stream is written.  What is written is the start of the
    uninitialised [out_buf], as many bytes as the uninitialised
    [output_size] holds after 0 was stored through the [uint16_t]
    pointer; more than 256 and [fwrite] reads past the array. *)
Theorem compress_main_short_file (use_index : bool) (fresh_index : list Z)
    (store16 : Z -> Z -> Z) (junk : Z) (out0 data : list Z) (fuel : nat) :
  (forall c, 0 <= c < 65536 -> store16 0 c = c) ->
  length out0 = 256%nat -> (0 < length data < 256)%nat ->
  main use_index fresh_index store16 junk out0 3 (Some data) true (S fuel)
  = if store16 junk 0 >? 256 then OutOfBounds
    else Ret (mk_finished 1 Finish_error
                (take (Z.to_nat (store16 junk 0)) out0)).
Proof.
  intros Hst Hout Hlen. unfold main. cbn [Z.eqb Pos.eqb negb].
  destruct (Encoder.heatshrink_encoder_alloc use_index fresh_index WINDOW_SIZE
              LOOKAHEAD_SIZE) as [hse|] eqn:Ha; [|discriminate].
  pose proof (EncoderFacts.alloc_ewf _ _ _ _ _ Ha) as Hwf.
  assert (Hfresh : Encoder.state hse = Encoder.HSES_NOT_FULL /\
                   Encoder.is_finishing hse = 0 /\
                   Encoder.window_sz2 hse = 8 /\ Encoder.input_size hse = 0)
    by (injection Ha as <-; repeat split; reflexivity).
  destruct Hfresh as (Hidle & Hfin & Hw & Hsz).
  cbn [read_blocks]. unfold BUFFER_SIZE.
  rewrite (take_ge data) by lia.
  destruct (Z.gtb_spec (Z.of_nat (length data)) 0); [|lia].
  cbn [sink_block].
  destruct (Z.ltb_spec 0 (Z.of_nat (length data))); [|lia].
  change (Z.to_nat 0) with 0%nat. rewrite drop_0.
  rewrite (EncoderCalls.sink_accepts hse data Hwf Hidle Hfin). cbv zeta.
  rewrite Hw, Hsz.
  replace (Z.min (2 ^ 8 - 0) (Z.of_nat (length data)))
    with (Z.of_nat (length data)) by lia.
  destruct (Z.eqb_spec (Z.of_nat (length data)) (2 ^ 8 - 0)) as [Heq|_];
    [lia|].
  rewrite Hst by lia.
  rewrite usize_small by lia.
  set (hse1 := Encoder.set_input_size _ _).
  assert (Hidle1 : Encoder.state hse1 = Encoder.HSES_NOT_FULL)
    by (subst hse1; exact Hidle).
  rewrite (poll_until_empty_idle _ _ _ _ _ _ _ Hidle1 Hout).
  assert (Hrest : forall w,
    (sink_block use_index store16 fuel data (0 + Z.of_nat (length data))
       hse1 out0 (store16 junk 0) w
     ≫= λ p, match p with
              | inl f => Ret (inl f)
              | inr (hse0, out_buf1, out_size1, w1) =>
                read_blocks use_index store16 fuel
                  (drop (Z.to_nat 256) data) hse0 out_buf1 out_size1 w1
              end)
    = Ret (inr (hse1, out0, store16 junk 0, w))).
  { intros w.
    assert (Hsb : sink_block use_index store16 fuel data
                    (0 + Z.of_nat (length data)) hse1 out0 (store16 junk 0) w
                  = Ret (inr (hse1, out0, store16 junk 0, w))).
    { destruct fuel; cbn [sink_block];
        (destruct (Z.ltb_spec (0 + Z.of_nat (length data))
                     (Z.of_nat (length data))); [lia|reflexivity]). }
    rewrite Hsb. cbn [mbind outcome_bind]. rewrite drop_ge by lia.
    destruct fuel; reflexivity. }
  assert (Hend : (Encoder.heatshrink_encoder_finish hse1).1
                 = Encoder.HSER_FINISH_MORE).
  { unfold Encoder.heatshrink_encoder_finish. cbn [fst].
    change (Encoder.state (Encoder.set_flags _ hse1))
      with (Encoder.state hse1).
    rewrite Hidle1. reflexivity. }
  destruct (Z.gtb_spec (store16 junk 0) 0) as [Hpos|Hz].
  - destruct (store16 junk 0 >? 256); [reflexivity|].
    cbn [mbind outcome_bind app]. rewrite Hrest. cbn [mbind outcome_bind].
    destruct (Encoder.heatshrink_encoder_finish hse1) as [r e2].
    cbn [fst] in Hend. subst r. reflexivity.
  - destruct (Z.gtb_spec (store16 junk 0) 256); [lia|].
    replace (Z.to_nat (store16 junk 0)) with 0%nat by lia. rewrite take_0.
    cbn [mbind outcome_bind app]. rewrite Hrest. cbn [mbind outcome_bind].
    destruct (Encoder.heatshrink_encoder_finish hse1) as [r e2].
    cbn [fst] in Hend. subst r. reflexivity.
Qed.

Lemma compress_main_short_file_witness :
  main true (replicate 512 0) (fun _ v => v) 0 (replicate 256 0) 3
    (Some [97; 98; 99]) true 1
  = Ret (mk_finished 1 Finish_error []).
Proof.
  rewrite (compress_main_short_file true (replicate 512 0) (fun _ v => v) 0
             (replicate 256 0) [97; 98; 99] 0).
  - reflexivity.
  - intros c _. reflexivity.
  - reflexivity.
  - cbn. lia.
Defined.

End Compress.
